(** * Regression-tree grower of xgboost_svdf_tree.hpp

    A shallow embedding of [src/booster/tree/xgboost_svdf_tree.hpp]: the split
    selector [RTSelecter], the tree updater [RTreeUpdater] (pruner, leaf and
    split construction, split enumeration, node expansion, root
    initialisation) and the prediction path of [RTreeTrainer].

    Conventions of the embedding.
    - [float] and [double] are IEEE-754 binary32 and binary64 numbers, carried
      by [spec_float] of the Standard Library and rounded to nearest-even by
      its operations; every implicit C++ conversion between the two is
      written out ([to_double], [to_float]).  Arithmetic on [float] operands
      is evaluated in binary32.
    - [int] and [unsigned] values are [Z]; the 32-bit wrap-around is written
      where the source casts ([to_int], [to_unsigned]).
    - Array positions (row indices, positions in the column buffer, offsets
      into the idset buffer) are [nat].  DoBoost asserts
      [grad.size() < UINT_MAX], so the unsigned arithmetic on row indices
      never wraps.
    - [std::vector] is [list]; reads use the total lookup [!!!] and writes use
      [<[i:=x]>].  An access out of range is undefined behaviour in the
      source; the theorems state the range conditions they rely on.
    - A failed [utils::Assert] is [AssertFail]; loops and recursions whose
      termination depends on the shape of the tree take fuel and answer
      [OutOfFuel] when it runs out. *)

From Stdlib Require Import ZArith List Bool Lia Floats.SpecFloat.
From stdpp Require Import base list sorting.

Local Open Scope Z_scope.

(** ** Results of fallible code *)

Inductive res (A : Type) : Type :=
| Ok (a : A)
| AssertFail
| OutOfFuel.
Arguments Ok {A} a.
Arguments AssertFail {A}.
Arguments OutOfFuel {A}.

Global Instance res_bind : MBind res := fun A B (k : A -> res B) (r : res A) =>
  match r with
  | Ok a => k a
  | AssertFail => AssertFail
  | OutOfFuel => OutOfFuel
  end.

(** [utils::Assert( c, msg )]. *)
Definition Assert (c : bool) : res unit := if c then Ok tt else AssertFail.

(** ** Floating-point numbers *)

Record float : Type := F32 { f32_bits : spec_float }.
Record double : Type := F64 { f64_bits : spec_float }.

Definition renorm (prec emax : Z) (x : spec_float) : spec_float :=
  match x with
  | S754_finite s m e => binary_round prec emax s m e
  | _ => x
  end.

Definition to_double (x : float) : double := F64 (renorm 53 1024 (f32_bits x)).
Definition to_float (x : double) : float := F32 (renorm 24 128 (f64_bits x)).

Definition float_of_Z (z : Z) : float := F32 (binary_normalize 24 128 z 0 false).
Definition double_of_Z (z : Z) : double := F64 (binary_normalize 53 1024 z 0 false).

Definition fadd (a b : float) : float := F32 (SFadd 24 128 (f32_bits a) (f32_bits b)).
Definition fsub (a b : float) : float := F32 (SFsub 24 128 (f32_bits a) (f32_bits b)).
Definition fmul (a b : float) : float := F32 (SFmul 24 128 (f32_bits a) (f32_bits b)).
Definition fdiv (a b : float) : float := F32 (SFdiv 24 128 (f32_bits a) (f32_bits b)).
Definition flt (a b : float) : bool := SFltb (f32_bits a) (f32_bits b).
Definition fle (a b : float) : bool := SFleb (f32_bits a) (f32_bits b).

Definition dadd (a b : double) : double := F64 (SFadd 53 1024 (f64_bits a) (f64_bits b)).
Definition dsub (a b : double) : double := F64 (SFsub 53 1024 (f64_bits a) (f64_bits b)).
Definition dmul (a b : double) : double := F64 (SFmul 53 1024 (f64_bits a) (f64_bits b)).
Definition ddiv (a b : double) : double := F64 (SFdiv 53 1024 (f64_bits a) (f64_bits b)).
Definition dlt (a b : double) : bool := SFltb (f64_bits a) (f64_bits b).


(** The all-zero bit pattern, [0.0f] and [0.0]. *)
Definition f0 : float := F32 (S754_zero false).
Definition d0 : double := F64 (S754_zero false).
(** The literal [0.5]. *)
Definition d_half : double := ddiv (double_of_Z 1) (double_of_Z 2).

Global Instance float_inhabited : Inhabited float := populate f0.
Global Instance double_inhabited : Inhabited double := populate d0.

(** [const float rt_eps = 1e-5f]: the binary32 number nearest to 1/100000. *)
Definition rt_eps : float := fdiv (float_of_Z 1) (float_of_Z 100000).
(** [const float rt_2eps = rt_eps * 2.0f]. *)
Definition rt_2eps : float := fmul rt_eps (float_of_Z 2).

(** ** Machine integers *)

Definition to_unsigned (z : Z) : Z := z mod 2 ^ 32.
Definition to_int (z : Z) : Z := (z + 2 ^ 31) mod 2 ^ 32 - 2 ^ 31.

(** ** Node statistics *)

(** [struct RTreeNodeStat]. *)
Record RTreeNodeStat : Type := mkStat {
  stat_loss_chg : float;
  stat_base_weight : float;
  stat_leaf_child_cnt : Z
}.

(** ** The split selector *)

Module RTSelecter.

(** [struct Entry]. *)
Record Entry : Type := mkEntry {
  loss_chg : float;
  start : nat;
  len : Z;
  sindex : Z;
  split_value : float
}.

(** The six-argument constructor of [Entry]; [split_index] is an
    [unsigned] parameter. *)
Definition new (loss_chg : float) (start : nat) (len : Z) (split_index : Z)
    (split_value : float) (default_left : bool) : Entry :=
  let split_index :=
    if default_left then Z.lor split_index (Z.shiftl 1 31) else split_index in
  mkEntry loss_chg start len split_index split_value.

Definition split_index (e : Entry) : Z :=
  Z.land (sindex e) (to_unsigned (Z.shiftl 1 31 - 1)).

Definition default_left (e : Entry) : bool :=
  negb (Z.shiftr (sindex e) 31 =? 0).

(** The selector itself; the reference to the training parameters is not
    used by any member function. *)
Record t : Type := mk { best_entry : Entry }.

(** [memset( &best_entry, 0, sizeof(best_entry) )]. *)
Definition zero_entry : Entry := mkEntry f0 0%nat 0 0 f0.

(** The constructor [RTSelecter( p )]. *)
Definition init : t := mk zero_entry.

Definition push_back (e : Entry) (s : t) : t :=
  if flt (loss_chg (best_entry s)) (loss_chg e) then mk e else s.

Definition select (s : t) : Entry := best_entry s.

(** Pushing a sequence of candidates, first to last. *)
Definition push_all (cs : list Entry) (s : t) : t :=
  fold_left (fun s e => push_back e s) cs s.

End RTSelecter.

(** [c] has a maximal [loss_chg] among the candidates [cs]: it is a number
    and no candidate of [cs] exceeds it. *)
Definition maximal_in (cs : list RTSelecter.Entry) (c : RTSelecter.Entry) : Prop :=
  fle (RTSelecter.loss_chg c) (RTSelecter.loss_chg c) = true
  /\ forall c', c' ∈ cs ->
       flt (RTSelecter.loss_chg c) (RTSelecter.loss_chg c') = false.

(** ** Tree storage *)

(** Modelled from the spec: the tree storage [TreeModel] of
    xgboost_tree_model.h is not among the sources.  A node carries what the
    spec's data model lists: the parent id, the two child ids, the split
    feature index, the default-direction flag and one scalar that is the
    split threshold of an internal node and the weight of a leaf.  The id
    [-1] stands for "none": a root has parent [-1], a leaf has left child
    [-1]. *)
Record Node : Type := mkNode {
  node_parent : Z;
  node_cleft : Z;
  node_cright : Z;
  node_split_index : Z;
  node_default_left : bool;
  node_info : float
}.

Module Node.
Definition is_leaf (n : Node) : bool := node_cleft n =? -1.
Definition is_root (n : Node) : bool := node_parent n =? -1.
Definition parent (n : Node) : Z := node_parent n.
Definition cleft (n : Node) : Z := node_cleft n.
Definition cright (n : Node) : Z := node_cright n.
Definition split_index (n : Node) : Z := node_split_index n.
Definition default_left (n : Node) : bool := node_default_left n.
Definition split_cond (n : Node) : float := node_info n.
Definition leaf_value (n : Node) : float := node_info n.

Definition set_leaf (value : float) (n : Node) : Node :=
  mkNode (node_parent n) (-1) (-1) (node_split_index n) (node_default_left n) value.

Definition set_split (split_index : Z) (split_cond : float) (default_left : bool)
    (n : Node) : Node :=
  mkNode (node_parent n) (node_cleft n) (node_cright n) split_index default_left split_cond.

Definition set_children (l r : Z) (n : Node) : Node :=
  mkNode (node_parent n) l r (node_split_index n) (node_default_left n) (node_info n).

(** A freshly allocated node under [pid]. *)
Definition fresh (pid : Z) : Node := mkNode pid (-1) (-1) 0 false f0.
End Node.

Global Instance Node_inhabited : Inhabited Node := populate (Node.fresh (-1)).
Global Instance RTreeNodeStat_inhabited : Inhabited RTreeNodeStat :=
  populate (mkStat f0 f0 0).

(** Modelled from the spec: [class RTree : TreeModel<float,RTreeNodeStat>],
    the node array with its parallel array of statistics and the two
    parameters of [tree.param] that the grower reads. *)
Record RTree : Type := mkTree {
  nodes : list Node;
  stats : list RTreeNodeStat;
  num_roots : Z;
  num_feature : Z
}.

Module RTree.
(** [tree[ nid ]] and [tree.stat( nid )]. *)
Definition node (t : RTree) (nid : Z) : Node := nodes t !!! Z.to_nat nid.
Definition stat (t : RTree) (nid : Z) : RTreeNodeStat := stats t !!! Z.to_nat nid.

Definition set_node (nid : Z) (n : Node) (t : RTree) : RTree :=
  mkTree (<[Z.to_nat nid := n]> (nodes t)) (stats t) (num_roots t) (num_feature t).
Definition set_stat (nid : Z) (s : RTreeNodeStat) (t : RTree) : RTree :=
  mkTree (nodes t) (<[Z.to_nat nid := s]> (stats t)) (num_roots t) (num_feature t).

(** Modelled from the spec: [AddChilds( nid )] allocates two nodes with
    consecutive ids at the end of the node array and makes them the
    children of [nid]. *)
Definition AddChilds (nid : Z) (t : RTree) : RTree :=
  let pleft := Z.of_nat (length (nodes t)) in
  let pright := pleft + 1 in
  mkTree
    (<[Z.to_nat nid := Node.set_children pleft pright (node t nid)]> (nodes t)
       ++ [Node.fresh nid; Node.fresh nid])
    (stats t ++ [mkStat f0 f0 0; mkStat f0 f0 0])
    (num_roots t) (num_feature t).

(** Modelled from the spec: [ChangeToLeaf( nid, value )] replaces the
    split of [nid] by a leaf carrying [value]. *)
Definition ChangeToLeaf (nid : Z) (value : float) (t : RTree) : RTree :=
  set_node nid (Node.set_leaf value (node t nid)) t.

(** Modelled from the spec: [GetDepth( nid )], the number of parent steps
    from [nid] to its root. *)
Fixpoint GetDepth (fuel : nat) (t : RTree) (nid : Z) : res Z :=
  match fuel with
  | O => OutOfFuel
  | S fuel =>
      if Node.is_root (node t nid) then Ok 0
      else d ← GetDepth fuel t (Node.parent (node t nid)); Ok (d + 1)
  end.

(** Modelled from the spec: [InitModel()], [num_roots] root leaves. *)
Definition InitModel (num_roots num_feature : Z) : RTree :=
  mkTree (replicate (Z.to_nat num_roots) (Node.fresh (-1)))
         (replicate (Z.to_nat num_roots) (mkStat f0 f0 0))
         num_roots num_feature.
End RTree.

(** The position of the parent of the node at position [i], and of its
    [k]-th ancestor. *)
Definition parent_index (t : RTree) (i : nat) : nat :=
  Z.to_nat (node_parent (nodes t !!! i)).

Fixpoint ancestor (t : RTree) (k i : nat) : nat :=
  match k with
  | O => i
  | S k => ancestor t k (parent_index t i)
  end.

(** The node at position [i] is [d] parent steps below a root. *)
Definition depth_is (t : RTree) (i d : nat) : Prop :=
  Node.is_root (nodes t !!! ancestor t d i) = true
  /\ forall k, (k < d)%nat -> Node.is_root (nodes t !!! ancestor t k i) = false.

(** The parent of every node that is not a root lies before it in the node
    array, as in every tree that grows by AddChilds from root leaves. *)
Definition well_rooted (t : RTree) : Prop :=
  forall i, (i < length (nodes t))%nat ->
    node_parent (nodes t !!! i) = -1
    \/ 0 <= node_parent (nodes t !!! i) < Z.of_nat i.

(** Every split node of the tree carries a gain above [rt_eps], and the two
    arrays of the tree have one length. *)
Definition gain_invariant (t : RTree) : Prop :=
  length (stats t) = length (nodes t)
  /\ forall i, (i < length (nodes t))%nat ->
       Node.is_leaf (nodes t !!! i) = false ->
       flt rt_eps (stat_loss_chg (stats t !!! i)) = true.

(** ** Training parameters *)

(** [struct TreeParamTrain] is declared in xgboost_tree_model.h, which is not
    among the sources: its scalar fields and its member functions are the
    fields of this record, with the signatures of the spec's parameter
    object. *)
Record TreeParamTrain : Type := mkParam {
  learning_rate : float;
  min_child_weight : float;
  subsample : float;
  default_direction : Z;
  param_max_depth : Z;
  CalcWeight : double -> double -> float -> float;
  CalcCost : double -> double -> float -> double;
  CalcRootCost : double -> double -> double;
  need_prune : float -> Z -> bool;
  cannot_split : double -> Z -> bool
}.

(** ** The sparse matrix *)

(** [FMatrixS::Line]: the parallel arrays [findex] and [fvalue] of one sparse
    row, as a list of pairs; [len] is its length. *)
Definition Line : Type := list (nat * float).

(** [FMatrixS::Image]: [smat[ ridx ]] is the sparse row [ridx]. *)
Definition Image : Type := list Line.

(** ** Tasks and column entries *)

(** [struct Task].  The pointer [idset] is the offset of the slice in the
    backing buffer [RTreeUpdater::idset]. *)
Record Task : Type := mkTask {
  task_nid : Z;
  task_idset : nat;
  task_len : nat;
  task_parent_base_weight : float
}.

(** [struct SCEntry]. *)
Record SCEntry : Type := mkSCEntry {
  fvalue : float;
  rindex : nat
}.

Global Instance SCEntry_inhabited : Inhabited SCEntry := populate (mkSCEntry f0 0%nat).

(** [SCEntry::operator<]. *)
Definition SCEntry_lt (a b : SCEntry) : bool := flt (fvalue a) (fvalue b).

(** The mutable members of [RTreeUpdater]; [Rng] is the state of the random
    number generator of xgboost_random.h. *)
Record Updater (Rng : Type) : Type := mkUpdater {
  tree : RTree;
  max_depth : Z;
  num_pruned : Z;
  task_stack : list Task;
  idset : list nat;
  rng : Rng
}.
Arguments mkUpdater {Rng}.
Arguments tree {Rng}.
Arguments max_depth {Rng}.
Arguments num_pruned {Rng}.
Arguments task_stack {Rng}.
Arguments idset {Rng}.
Arguments rng {Rng}.

(** ** The tree updater *)

Section RTreeUpdater.

(** [random::SampleBinary( p )] of xgboost_random.h, which is not among the
    sources: one Bernoulli draw, here a function of the generator state. *)
Context {Rng : Type}.
Variable SampleBinary : float -> Rng -> Z * Rng.

(** [std::sort] on a range of column entries under [SCEntry::operator<].
    The order it leaves among entries of equal [fvalue] is unspecified, so
    the sort is a parameter of the model. *)
Variable std_sort : list SCEntry -> list SCEntry.

(** The members bound by reference in the constructor. *)
Variable param : TreeParamTrain.
Variables grad hess : list float.
Variable smat : Image.
Variable group_id : list Z.

Abbreviation state := (Updater Rng).

Definition with_tree (t : RTree) (st : state) : state :=
  mkUpdater t (max_depth st) (num_pruned st) (task_stack st) (idset st) (rng st).
Definition with_max_depth (d : Z) (st : state) : state :=
  mkUpdater (tree st) d (num_pruned st) (task_stack st) (idset st) (rng st).
Definition with_num_pruned (n : Z) (st : state) : state :=
  mkUpdater (tree st) (max_depth st) n (task_stack st) (idset st) (rng st).
Definition with_idset (l : list nat) (st : state) : state :=
  mkUpdater (tree st) (max_depth st) (num_pruned st) (task_stack st) l (rng st).
Definition with_rng (r : Rng) (st : state) : state :=
  mkUpdater (tree st) (max_depth st) (num_pruned st) (task_stack st) (idset st) r.

(** *** Task management: a stack whose top is the head of the list *)

Definition add_task (tsk : Task) (st : state) : state :=
  mkUpdater (tree st) (max_depth st) (num_pruned st) (tsk :: task_stack st)
            (idset st) (rng st).

Definition next_task (st : state) : option (Task * state) :=
  match task_stack st with
  | [] => None
  | tsk :: rest =>
      Some (tsk, mkUpdater (tree st) (max_depth st) (num_pruned st) rest
                           (idset st) (rng st))
  end.

(** *** try_prune_leaf *)

Fixpoint try_prune_leaf (fuel : nat) (nid depth : Z) (st : state) : res state :=
  match fuel with
  | O => OutOfFuel
  | S fuel =>
      if Node.is_root (RTree.node (tree st) nid) then Ok st
      else
        let pid := Node.parent (RTree.node (tree st) nid) in
        let s0 := RTree.stat (tree st) pid in
        let s := mkStat (stat_loss_chg s0) (stat_base_weight s0)
                        (stat_leaf_child_cnt s0 + 1) in
        let st := with_tree (RTree.set_stat pid s (tree st)) st in
        if (2 <=? stat_leaf_child_cnt s)
           && need_prune param (stat_loss_chg s) (depth - 1)
        then
          let st := with_tree
                      (RTree.ChangeToLeaf pid
                         (fmul (learning_rate param) (stat_base_weight s)) (tree st))
                      st in
          let st := with_num_pruned (num_pruned st + 2) st in
          try_prune_leaf fuel pid (depth - 1) st
        else Ok st
  end.

(** *** make_leaf *)

(** The row indices [tsk.idset[0]], ..., [tsk.idset[tsk.len - 1]]. *)
Definition task_rows (buf : list nat) (tsk : Task) : list nat :=
  map (fun i => buf !!! (task_idset tsk + i)%nat) (seq 0 (task_len tsk)).

(** The accumulation [sum_grad += grad[ ridx ]; sum_hess += hess[ ridx ]]
    over a sequence of rows. *)
Definition add_row (acc : double * double) (ridx : nat) : double * double :=
  (dadd (fst acc) (to_double (grad !!! ridx)),
   dadd (snd acc) (to_double (hess !!! ridx))).

Definition sum_rows (rows : list nat) (acc : double * double) : double * double :=
  fold_left add_row rows acc.

Definition make_leaf (fuel : nat) (tsk : Task) (sum_grad sum_hess : double)
    (compute : bool) (st : state) : res state :=
  let sums :=
    fold_left (fun acc ridx => if compute then add_row acc ridx else acc)
              (task_rows (idset st) tsk) (sum_grad, sum_hess) in
  let value :=
    fmul (learning_rate param)
         (CalcWeight param (fst sums) (snd sums) (task_parent_base_weight tsk)) in
  let t := RTree.set_node (task_nid tsk)
             (Node.set_leaf value (RTree.node (tree st) (task_nid tsk))) (tree st) in
  depth ← RTree.GetDepth fuel t (task_nid tsk);
  try_prune_leaf fuel (task_nid tsk) depth (with_tree t st).

(** *** make_split *)

(** The removal loop of make_split, at iteration [i] with [n] iterations
    left; [off] is the offset of the task's slice in the buffer. *)
Fixpoint remove_qset (n i top off : nat) (qset buf : list nat) : list nat :=
  match n with
  | O => buf
  | S n =>
      if (top <? length qset)%nat then
        if negb (buf !!! (off + i)%nat =? qset !!! top)%nat then
          remove_qset n (S i) top off qset
            (<[(off + (i - top))%nat := buf !!! (off + i)%nat]> buf)
        else remove_qset n (S i) (S top) off qset buf
      else
        remove_qset n (S i) top off qset
          (<[(off + (i - length qset))%nat := buf !!! (off + i)%nat]> buf)
  end.

(** The loop [spl_part.idset[ i ] = qset[ i ]], at iteration [i] with [n]
    iterations left.  A position past the end of [buf] is left unwritten
    here, where the source writes out of bounds; there is no such position
    while [qset] is no longer than the slice of the task and the slice lies
    within the buffer. *)
Fixpoint fill_back (n i off : nat) (qset buf : list nat) : list nat :=
  match n with
  | O => buf
  | S n => fill_back n (S i) off qset (<[(off + i)%nat := qset !!! i]> buf)
  end.

(** [qset]: the row indices of [entry[0]], ..., [entry[num - 1]], sorted. *)
Definition make_qset (entry : list SCEntry) (num : Z) : list nat :=
  merge_sort le (map rindex (take (Z.to_nat num) entry)).

(** [entry] is the array the pointer argument of make_split points to.
    The source reads [s.base_weight] through the reference [s] after
    AddChilds; the model reads the value that was written through it. *)
Definition make_split (tsk : Task) (entry : list SCEntry) (num : Z)
    (loss_chg : float) (base_weight : double) (st : state) : state :=
  let s := mkStat loss_chg (to_float base_weight) 0 in
  let t := RTree.set_stat (task_nid tsk) s (tree st) in
  let t := RTree.AddChilds (task_nid tsk) t in
  let qset := make_qset entry num in
  let buf := remove_qset (task_len tsk) 0 0 (task_idset tsk) qset (idset st) in
  let n := RTree.node t (task_nid tsk) in
  let def_part :=
    mkTask (if Node.default_left n then Node.cleft n else Node.cright n)
           (task_idset tsk)
           (Z.to_nat (to_unsigned (Z.of_nat (task_len tsk) - Z.of_nat (length qset))))
           (stat_base_weight s) in
  let spl_part :=
    mkTask (if Node.default_left n then Node.cright n else Node.cleft n)
           (task_idset tsk + task_len def_part)%nat
           (Z.to_nat (to_unsigned (Z.of_nat (length qset))))
           (stat_base_weight s) in
  let buf := fill_back (task_len spl_part) 0 (task_idset spl_part) qset buf in
  add_task spl_part (add_task def_part (with_idset buf (with_tree t st))).


(** *** enumerate_split *)

(** The candidate of the forward sweep at position [j]: the change of loss
    from the accumulated sums, the slice of the left partition and the
    threshold.  The conditional expression has type [double]; the
    constructor of [Entry] rounds it and [loss_chg] to [float]. *)
Definition forward_candidate (rsum_grad rsum_hess root_cost : double)
    (entry : list SCEntry) (start end_ : nat) (findex : Z)
    (parent_base_weight : float) (j : nat) (csum_grad csum_hess : double)
    : RTSelecter.Entry :=
  let dsum_hess := dsub rsum_hess csum_hess in
  let loss_chg :=
    dsub (dadd (CalcCost param csum_grad csum_hess parent_base_weight)
               (CalcCost param (dsub rsum_grad csum_grad) dsum_hess parent_base_weight))
         root_cost in
  let clen := to_int (Z.of_nat (j + 1 - start)) in
  RTSelecter.new (to_float loss_chg) start clen (to_unsigned findex)
    (to_float
       (if (j =? end_ - 1)%nat
        then to_double (fadd (fvalue (entry !!! j)) rt_eps)
        else dmul d_half
               (to_double (fadd (fvalue (entry !!! j)) (fvalue (entry !!! S j))))))
    false.

(** The forward loop at position [j] with [n] iterations left. *)
Fixpoint forward_sweep (rsum_grad rsum_hess root_cost : double)
    (entry : list SCEntry) (start end_ : nat) (findex : Z)
    (parent_base_weight : float)
    (n j : nat) (csum_grad csum_hess : double) (slocal : RTSelecter.t)
    : RTSelecter.t :=
  match n with
  | O => slocal
  | S n =>
      let ridx := rindex (entry !!! j) in
      let csum_grad := dadd csum_grad (to_double (grad !!! ridx)) in
      let csum_hess := dadd csum_hess (to_double (hess !!! ridx)) in
      if (j =? end_ - 1)%nat
         || flt (fadd (fvalue (entry !!! j)) rt_2eps) (fvalue (entry !!! S j))
      then
        if dlt csum_hess (to_double (min_child_weight param)) then
          forward_sweep rsum_grad rsum_hess root_cost entry start end_ findex
            parent_base_weight n (S j) csum_grad csum_hess slocal
        else if dlt (dsub rsum_hess csum_hess) (to_double (min_child_weight param))
        then slocal
        else
          forward_sweep rsum_grad rsum_hess root_cost entry start end_ findex
            parent_base_weight n (S j) csum_grad csum_hess
            (RTSelecter.push_back
               (forward_candidate rsum_grad rsum_hess root_cost entry start end_
                  findex parent_base_weight j csum_grad csum_hess)
               slocal)
      else
        forward_sweep rsum_grad rsum_hess root_cost entry start end_ findex
          parent_base_weight n (S j) csum_grad csum_hess slocal
  end.

(** The candidate of the backward sweep when the loop variable is [j]. *)
Definition backward_candidate (rsum_grad rsum_hess root_cost : double)
    (entry : list SCEntry) (start end_ : nat) (findex : Z)
    (parent_base_weight : float) (j : nat) (csum_grad csum_hess : double)
    : RTSelecter.Entry :=
  let dsum_hess := dsub rsum_hess csum_hess in
  let loss_chg :=
    dsub (dadd (CalcCost param csum_grad csum_hess parent_base_weight)
               (CalcCost param (dsub rsum_grad csum_grad) dsum_hess parent_base_weight))
         root_cost in
  let clen := to_int (Z.of_nat (end_ - j + 1)) in
  RTSelecter.new (to_float loss_chg) (j - 1) clen (to_unsigned findex)
    (to_float
       (if (j =? start + 1)%nat
        then to_double (fsub (fvalue (entry !!! (j - 1)%nat)) rt_eps)
        else dmul d_half
               (to_double (fadd (fvalue (entry !!! (j - 2)%nat))
                                (fvalue (entry !!! (j - 1)%nat))))))
    true.

(** The backward loop: the loop variable is [start + n]. *)
Fixpoint backward_sweep (rsum_grad rsum_hess root_cost : double)
    (entry : list SCEntry) (start end_ : nat) (findex : Z)
    (parent_base_weight : float)
    (n : nat) (csum_grad csum_hess : double) (slocal : RTSelecter.t)
    : RTSelecter.t :=
  match n with
  | O => slocal
  | S n =>
      let j := (start + S n)%nat in
      let ridx := rindex (entry !!! (j - 1)%nat) in
      let csum_grad := dadd csum_grad (to_double (grad !!! ridx)) in
      let csum_hess := dadd csum_hess (to_double (hess !!! ridx)) in
      if (j =? start + 1)%nat
         || flt (fadd (fvalue (entry !!! (j - 2)%nat)) rt_2eps)
                (fvalue (entry !!! (j - 1)%nat))
      then
        if dlt csum_hess (to_double (min_child_weight param)) then
          backward_sweep rsum_grad rsum_hess root_cost entry start end_ findex
            parent_base_weight n csum_grad csum_hess slocal
        else if dlt (dsub rsum_hess csum_hess) (to_double (min_child_weight param))
        then slocal
        else
          backward_sweep rsum_grad rsum_hess root_cost entry start end_ findex
            parent_base_weight n csum_grad csum_hess
            (RTSelecter.push_back
               (backward_candidate rsum_grad rsum_hess root_cost entry start end_
                  findex parent_base_weight j csum_grad csum_hess)
               slocal)
      else
        backward_sweep rsum_grad rsum_hess root_cost entry start end_ findex
          parent_base_weight n csum_grad csum_hess slocal
  end.

(** The local selector of enumerate_split after both sweeps. *)
Definition enumerate_local (rsum_grad rsum_hess root_cost : double)
    (entry : list SCEntry) (start end_ : nat) (findex : Z)
    (parent_base_weight : float) : RTSelecter.t :=
  let slocal := RTSelecter.init in
  let slocal :=
    if negb (default_direction param =? 1) then
      forward_sweep rsum_grad rsum_hess root_cost entry start end_ findex
        parent_base_weight (end_ - start) start d0 d0 slocal
    else slocal in
  if negb (default_direction param =? 2) then
    backward_sweep rsum_grad rsum_hess root_cost entry start end_ findex
      parent_base_weight (end_ - start) d0 d0 slocal
  else slocal.

Definition enumerate_split (sglobal : RTSelecter.t) (tlen : nat)
    (rsum_grad rsum_hess root_cost : double)
    (entry : list SCEntry) (start end_ : nat) (findex : Z)
    (parent_base_weight : float) : RTSelecter.t :=
  RTSelecter.push_back
    (RTSelecter.select
       (enumerate_local rsum_grad rsum_hess root_cost entry start end_ findex
          parent_base_weight))
    sglobal.

(** *** The candidates of the two sweeps *)

(** The test "check for split" of the forward loop at position [j]. *)
Definition forward_split_point (entry : list SCEntry) (end_ j : nat) : bool :=
  (j =? end_ - 1)%nat
  || flt (fadd (fvalue (entry !!! j)) rt_2eps) (fvalue (entry !!! S j)).

(** The test "check for split" of the backward loop at loop variable [j]. *)
Definition backward_split_point (entry : list SCEntry) (start j : nat) : bool :=
  (j =? start + 1)%nat
  || flt (fadd (fvalue (entry !!! (j - 2)%nat)) rt_2eps)
         (fvalue (entry !!! (j - 1)%nat)).




(** The candidates the forward loop pushes from position [j] on, each with
    its position, first to last. *)
Fixpoint forward_trace (rsum_grad rsum_hess root_cost : double)
    (entry : list SCEntry) (start end_ : nat) (findex : Z)
    (parent_base_weight : float)
    (n j : nat) (csum_grad csum_hess : double)
    : list (nat * RTSelecter.Entry) :=
  match n with
  | O => []
  | S n =>
      let ridx := rindex (entry !!! j) in
      let csum_grad := dadd csum_grad (to_double (grad !!! ridx)) in
      let csum_hess := dadd csum_hess (to_double (hess !!! ridx)) in
      if forward_split_point entry end_ j then
        if dlt csum_hess (to_double (min_child_weight param)) then
          forward_trace rsum_grad rsum_hess root_cost entry start end_ findex
            parent_base_weight n (S j) csum_grad csum_hess
        else if dlt (dsub rsum_hess csum_hess) (to_double (min_child_weight param))
        then []
        else
          (j, forward_candidate rsum_grad rsum_hess root_cost entry start end_
                findex parent_base_weight j csum_grad csum_hess)
          :: forward_trace rsum_grad rsum_hess root_cost entry start end_ findex
               parent_base_weight n (S j) csum_grad csum_hess
      else
        forward_trace rsum_grad rsum_hess root_cost entry start end_ findex
          parent_base_weight n (S j) csum_grad csum_hess
  end.

(** The candidates the backward loop pushes, each with the value of the
    loop variable, first to last. *)
Fixpoint backward_trace (rsum_grad rsum_hess root_cost : double)
    (entry : list SCEntry) (start end_ : nat) (findex : Z)
    (parent_base_weight : float)
    (n : nat) (csum_grad csum_hess : double)
    : list (nat * RTSelecter.Entry) :=
  match n with
  | O => []
  | S n =>
      let j := (start + S n)%nat in
      let ridx := rindex (entry !!! (j - 1)%nat) in
      let csum_grad := dadd csum_grad (to_double (grad !!! ridx)) in
      let csum_hess := dadd csum_hess (to_double (hess !!! ridx)) in
      if backward_split_point entry start j then
        if dlt csum_hess (to_double (min_child_weight param)) then
          backward_trace rsum_grad rsum_hess root_cost entry start end_ findex
            parent_base_weight n csum_grad csum_hess
        else if dlt (dsub rsum_hess csum_hess) (to_double (min_child_weight param))
        then []
        else
          (j, backward_candidate rsum_grad rsum_hess root_cost entry start end_
                findex parent_base_weight j csum_grad csum_hess)
          :: backward_trace rsum_grad rsum_hess root_cost entry start end_ findex
               parent_base_weight n csum_grad csum_hess
      else
        backward_trace rsum_grad rsum_hess root_cost entry start end_ findex
          parent_base_weight n csum_grad csum_hess
  end.

(** The candidates enumerate_split pushes into its local selector, first
    to last. *)
Definition enumerate_candidates (rsum_grad rsum_hess root_cost : double)
    (entry : list SCEntry) (start end_ : nat) (findex : Z)
    (parent_base_weight : float) : list RTSelecter.Entry :=
  (if negb (default_direction param =? 1) then
     map snd (forward_trace rsum_grad rsum_hess root_cost entry start end_ findex
                parent_base_weight (end_ - start) start d0 d0)
   else [])
  ++ (if negb (default_direction param =? 2) then
        map snd (backward_trace rsum_grad rsum_hess root_cost entry start end_
                   findex parent_base_weight (end_ - start) d0 d0)
      else []).

(** *** The column-major reprojection *)

(** Modelled from the spec: [utils::SparseCSRMBuilder] of
    xgboost_matrix_csr.h is not among the sources.  For the rows of a
    task it yields the active-column list (a feature is appended on its
    first budget increment), the column buffer in which the entries of
    one feature are contiguous and in the order they were pushed, and the
    two row pointers of every active feature. *)
Definition AddBudget (aclist : list nat) (f : nat) : list nat :=
  if decide (f ∈ aclist) then aclist else aclist ++ [f].

Definition active_list (rows : list nat) : list nat :=
  fold_left
    (fun aclist ridx =>
       fold_left (fun aclist fv => AddBudget aclist (fst fv)) (smat !!! ridx) aclist)
    rows [].

Definition column (rows : list nat) (f : nat) : list SCEntry :=
  flat_map
    (fun ridx =>
       flat_map
         (fun fv => if decide (fst fv = f) then [mkSCEntry (snd fv) ridx] else [])
         (smat !!! ridx))
    rows.

Definition column_buffer (rows aclist : list nat) : list SCEntry :=
  flat_map (column rows) aclist.

(** [(findex, tmp_rptr[findex], tmp_rptr[findex + 1])] for the active
    features, the first of them starting at [start].  The ranges follow each
    other in the order of the active list.  The source reads the two
    pointers from the one array [tmp_rptr] of [num_feature + 1] entries,
    which is an access out of range for a feature index that is not below
    [num_feature]. *)
Fixpoint row_pointers (rows aclist : list nat) (start : nat)
    : list (nat * (nat * nat)) :=
  match aclist with
  | [] => []
  | f :: aclist =>
      let end_ := (start + length (column rows f))%nat in
      (f, (start, end_)) :: row_pointers rows aclist end_
  end.

(** *** expand *)

(** [std::sort( entry.begin() + start, entry.begin() + end )]. *)
Definition sort_range (start end_ : nat) (entry : list SCEntry) : list SCEntry :=
  take start entry ++ std_sort (take (end_ - start) (drop start entry))
    ++ drop end_ entry.

(** The loop of expand over the active features. *)
Fixpoint enumerate_features (tlen : nat) (rsum_grad rsum_hess root_cost : double)
    (base_weight : double) (cols : list (nat * (nat * nat)))
    (sglobal : RTSelecter.t) (entry : list SCEntry)
    : res (RTSelecter.t * list SCEntry) :=
  match cols with
  | [] => Ok (sglobal, entry)
  | (f, (start, end_)) :: cols =>
      let findex := to_int (Z.of_nat f) in
      _ ← Assert (start <? end_)%nat;
      let entry := sort_range start end_ entry in
      enumerate_features tlen rsum_grad rsum_hess root_cost base_weight cols
        (enumerate_split sglobal tlen rsum_grad rsum_hess root_cost entry
           start end_ findex (to_float base_weight))
        entry
  end.

(** The sums [rsum_grad], [rsum_hess] of a task. *)
Definition task_sums (tsk : Task) (st : state) : double * double :=
  sum_rows (task_rows (idset st) tsk) (d0, d0).

(** The global selector and the column buffer once every active feature
    of the task has been enumerated. *)
Definition enumerate_task (tsk : Task) (st : state)
    : res (RTSelecter.t * list SCEntry) :=
  let rows := task_rows (idset st) tsk in
  let rsum_grad := fst (task_sums tsk st) in
  let rsum_hess := snd (task_sums tsk st) in
  let aclist := active_list rows in
  let root_cost := CalcRootCost param rsum_grad rsum_hess in
  let base_weight :=
    to_double (CalcWeight param rsum_grad rsum_hess (task_parent_base_weight tsk)) in
  enumerate_features (task_len tsk) rsum_grad rsum_hess root_cost base_weight
    (row_pointers rows aclist 0) RTSelecter.init (column_buffer rows aclist).

Definition expand (fuel : nat) (tsk : Task) (st : state) : res state :=
  depth ← RTree.GetDepth fuel (tree st) (task_nid tsk);
  let st := if max_depth st <? depth then with_max_depth depth st else st in
  if param_max_depth param <=? depth then make_leaf fuel tsk d0 d0 true st
  else
    let rsum_grad := fst (task_sums tsk st) in
    let rsum_hess := snd (task_sums tsk st) in
    if cannot_split param rsum_hess depth then
      make_leaf fuel tsk rsum_grad rsum_hess false st
    else
      let base_weight :=
        to_double (CalcWeight param rsum_grad rsum_hess (task_parent_base_weight tsk)) in
      r ← enumerate_task tsk st;
      let e := RTSelecter.select (fst r) in
      if flt rt_eps (RTSelecter.loss_chg e) then
        let n := Node.set_split (RTSelecter.split_index e) (RTSelecter.split_value e)
                   (RTSelecter.default_left e) (RTree.node (tree st) (task_nid tsk)) in
        let st := with_tree (RTree.set_node (task_nid tsk) n (tree st)) st in
        Ok (make_split tsk (drop (RTSelecter.start e) (snd r)) (RTSelecter.len e)
              (RTSelecter.loss_chg e) base_weight st)
      else make_leaf fuel tsk rsum_grad rsum_hess false st.

(** *** init_tasks *)

(** The loop of the branch [subsample > 1.0f - 1e-6f], at row [i] with [n]
    rows left. *)
Fixpoint all_rows (n i : nat) (ids : list nat) : list nat :=
  match n with
  | O => ids
  | S n =>
      if flt (hess !!! i) f0 then all_rows n (S i) ids
      else all_rows n (S i) (ids ++ [i])
  end.

(** The loop of the subsampling branch, at row [i] with [n] rows left. *)
Fixpoint sampled_rows (n i : nat) (ids : list nat) (r : Rng) : list nat * Rng :=
  match n with
  | O => (ids, r)
  | S n =>
      let d := SampleBinary (subsample param) r in
      if negb (fst d =? 0) then sampled_rows n (S i) (ids ++ [i]) (snd d)
      else sampled_rows n (S i) ids (snd d)
  end.

(** Modelled from the spec: the CSR partition keyed by group id that the
    builder of xgboost_matrix_csr.h produces; rows with a negative hessian
    are dropped. *)
Definition group_rows (g : nat) : list nat :=
  filter (fun i => negb (flt (hess !!! i) f0) && (group_id !!! i =? Z.of_nat g))
         (seq 0 (length group_id)).

(** The assertion inside the budget loop of the grouped branch. *)
Definition check_groups (t : RTree) : res unit :=
  fold_left
    (fun r i =>
       _ ← r;
       if flt (hess !!! i) f0 then Ok tt
       else Assert (group_id !!! i <? to_unsigned (num_roots t)))
    (seq 0 (length group_id)) (Ok tt).

(** The loop over [rptr] that pushes one task for every non-empty group. *)
Fixpoint group_tasks (groups : list nat) (start : nat) (st : state) : state :=
  match groups with
  | [] => st
  | g :: groups =>
      let end_ := (start + length (group_rows g))%nat in
      let st :=
        if (start <? end_)%nat
        then add_task (mkTask (Z.of_nat g) start (end_ - start) f0) st
        else st in
      group_tasks groups end_ st
  end.

(** The constant [1.0f - 1e-6f]. *)
Definition subsample_all : float :=
  fsub (float_of_Z 1) (fdiv (float_of_Z 1) (float_of_Z 1000000)).

Definition init_tasks (ngrads : nat) (st : state) : res state :=
  if (length group_id =? 0)%nat then
    if flt subsample_all (subsample param) then
      let st := with_idset (all_rows ngrads 0 []) st in
      Ok (add_task (mkTask 0 0 (length (idset st)) f0) st)
    else
      let r := sampled_rows ngrads 0 [] (rng st) in
      let st := with_rng (snd r) (with_idset (fst r) st) in
      Ok (add_task (mkTask 0 0 (length (idset st)) f0) st)
  else
    _ ← Assert (length group_id =? ngrads)%nat;
    _ ← check_groups (tree st);
    let groups := seq 0 (Z.to_nat (num_roots (tree st))) in
    let st := with_idset (flat_map group_rows groups) st in
    Ok (group_tasks groups 0 st).

(** *** do_boost *)

(** The loop [while( next_task( tsk ) ) expand( tsk )]. *)
Fixpoint run_tasks (fuel : nat) (st : state) : res state :=
  match fuel with
  | O => OutOfFuel
  | S fuel' =>
      match next_task st with
      | None => Ok st
      | Some (tsk, st) => st ← expand fuel tsk st; run_tasks fuel' st
      end
  end.

(** The result is the final state; the source returns its [max_depth] and
    stores its [num_pruned] through the reference argument. *)
Definition do_boost (fuel : nat) (st : state) : res state :=
  st ← init_tasks (length grad) st;
  let st := with_num_pruned 0 (with_max_depth 0 st) in
  run_tasks fuel st.

End RTreeUpdater.

(** ** The trainer *)

(** The members of [RTreeTrainer] that prediction reads and writes. *)
Record RTreeTrainer : Type := mkTrainer {
  trainer_tree : RTree;
  tmp_feat : list float;
  tmp_funknown : list bool
}.

Module RTreeTrainer.

(** [resize] to [(size_t)num_feature] does not return when [num_feature]
    is negative. *)
Definition init_tmpfeat (tr : RTreeTrainer) : res RTreeTrainer :=
  let nf := num_feature (trainer_tree tr) in
  if negb (Z.of_nat (length (tmp_feat tr)) =? nf) then
    _ ← Assert (0 <=? nf);
    Ok (mkTrainer (trainer_tree tr)
          (resize (Z.to_nat nf) f0 (tmp_feat tr))
          (replicate (Z.to_nat nf) true))
  else Ok tr.

Definition get_next (t : RTree) (pid : Z) (fvalue : float) (is_unknown : bool) : Z :=
  let split_value := Node.split_cond (RTree.node t pid) in
  if is_unknown then
    if Node.default_left (RTree.node t pid) then Node.cleft (RTree.node t pid)
    else Node.cright (RTree.node t pid)
  else
    if flt fvalue split_value then Node.cleft (RTree.node t pid)
    else Node.cright (RTree.node t pid).

(** The traversal loop of GetLeafIndex from node [pid].  The source indexes
    [feat] and [funknown] by the split feature without a check. *)
Fixpoint traverse (fuel : nat) (t : RTree) (feat : list float)
    (funknown : list bool) (pid : Z) : res Z :=
  match fuel with
  | O => OutOfFuel
  | S fuel =>
      if Node.is_leaf (RTree.node t pid) then Ok pid
      else
        let split_index := Z.to_nat (Node.split_index (RTree.node t pid)) in
        traverse fuel t feat funknown
          (get_next t pid (feat !!! split_index) (funknown !!! split_index))
  end.

Definition GetLeafIndex (fuel : nat) (t : RTree) (feat : list float)
    (funknown : list bool) (gid : Z) : res Z :=
  traverse fuel t feat funknown (to_int gid).

(** The first loop of the sparse Predict. *)
Fixpoint load_line (feat : Line) (tr : RTreeTrainer) : res RTreeTrainer :=
  match feat with
  | [] => Ok tr
  | (findex, fvalue) :: feat =>
      _ ← Assert (findex <? length (tmp_funknown tr))%nat;
      load_line feat
        (mkTrainer (trainer_tree tr)
           (<[findex := fvalue]> (tmp_feat tr))
           (<[findex := false]> (tmp_funknown tr)))
  end.

(** The second loop of the sparse Predict. *)
Fixpoint unload_line (feat : Line) (tr : RTreeTrainer) : RTreeTrainer :=
  match feat with
  | [] => tr
  | (findex, _) :: feat =>
      unload_line feat
        (mkTrainer (trainer_tree tr) (tmp_feat tr)
           (<[findex := true]> (tmp_funknown tr)))
  end.

(** [Predict( const FMatrixS::Line &feat, unsigned gid )]. *)
Definition Predict_line (fuel : nat) (feat : Line) (gid : Z) (tr : RTreeTrainer)
    : res (float * RTreeTrainer) :=
  tr ← init_tmpfeat tr;
  tr ← load_line feat tr;
  pid ← GetLeafIndex fuel (trainer_tree tr) (tmp_feat tr) (tmp_funknown tr) gid;
  let tr := unload_line feat tr in
  Ok (Node.leaf_value (RTree.node (trainer_tree tr) pid), tr).

(** [Predict( const std::vector<float> &feat,
              const std::vector<bool> &funknown, unsigned gid )]. *)
Definition Predict (fuel : nat) (feat : list float) (funknown : list bool)
    (gid : Z) (tr : RTreeTrainer) : res float :=
  let nf := num_feature (trainer_tree tr) in
  _ ← Assert ((0 <=? nf) && (nf <=? Z.of_nat (length feat)));
  pid ← GetLeafIndex fuel (trainer_tree tr) feat funknown gid;
  Ok (Node.leaf_value (RTree.node (trainer_tree tr) pid)).

End RTreeTrainer.


(** ** The rows that the removal loop keeps *)

(** One pass over the slice [l] with a pointer into [q]: a row equal to the
    row under the pointer is dropped and the pointer advances; any other row
    is kept. *)
Fixpoint keep_rest (l q : list nat) : list nat :=
  match l with
  | [] => []
  | x :: l =>
      match q with
      | [] => x :: keep_rest l []
      | y :: q' => if (x =? y)%nat then keep_rest l q' else x :: keep_rest l q
      end
  end.

(** ** Finished trees and the path of a feature vector *)

(** Below [pid] the tree is finished within height [h]: node ids are in
    range, the split feature of an internal node is below [num_feature],
    and every branch ends in a leaf. *)
Fixpoint finished (h : nat) (t : RTree) (pid : Z) : bool :=
  match h with
  | O => false
  | S h =>
      (0 <=? pid) && (pid <? Z.of_nat (length (nodes t)))
      && (Node.is_leaf (RTree.node t pid)
          || ((0 <=? Node.split_index (RTree.node t pid))
              && (Node.split_index (RTree.node t pid) <? num_feature t)
              && finished h t (Node.cleft (RTree.node t pid))
              && finished h t (Node.cright (RTree.node t pid))))
  end.

(** [leaf] is the first leaf on the path that the feature vector [feat] with
    the mask [funknown] takes from [pid]: every node before it is internal
    and is left through [get_next]. *)
Inductive first_leaf (t : RTree) (feat : list float) (funknown : list bool)
    : Z -> Z -> Prop :=
| first_leaf_here pid :
    Node.is_leaf (RTree.node t pid) = true ->
    first_leaf t feat funknown pid pid
| first_leaf_next pid leaf :
    Node.is_leaf (RTree.node t pid) = false ->
    first_leaf t feat funknown
      (RTreeTrainer.get_next t pid
         (feat !!! Z.to_nat (Node.split_index (RTree.node t pid)))
         (funknown !!! Z.to_nat (Node.split_index (RTree.node t pid))))
      leaf ->
    first_leaf t feat funknown pid leaf.

(** ** Objects of the examples *)

(** A parameter object for the examples: regularisation [lambda = 1],
    minimum split loss [min_split_loss], no layer-wise term. *)
Definition example_param (min_split_loss mcw : Z) (dd : Z) (sub : float)
    : TreeParamTrain :=
  let cost (g h : double) := ddiv (dmul g g) (dadd h (double_of_Z 1)) in
  mkParam (float_of_Z 1) (float_of_Z mcw) sub dd 6
    (fun g h _ => to_float (ddiv (dsub d0 g) (dadd h (double_of_Z 1))))
    (fun g h _ => cost g h)
    cost
    (fun loss_chg _ => flt loss_chg (float_of_Z min_split_loss))
    (fun h _ => dlt h (dmul (double_of_Z mcw) (double_of_Z 2))).

(** A root with the split [x0 < 3/2] (default right) and two leaves of
    weights 1 and 2; one child of the root is known to be a leaf. *)
Definition example_tree : RTree :=
  mkTree
    [mkNode (-1) 1 2 0 false (fdiv (float_of_Z 3) (float_of_Z 2));
     mkNode 0 (-1) (-1) 0 false (float_of_Z 1);
     mkNode 0 (-1) (-1) 0 false (float_of_Z 2)]
    [mkStat (float_of_Z 4) (float_of_Z 5) 1; mkStat f0 f0 0; mkStat f0 f0 0]
    1 1.

Definition example_state (ids : list nat) (tasks : list Task) : Updater unit :=
  mkUpdater example_tree 0 0 tasks ids tt.

(** Scenario S2 of the spec: four rows with the feature values 1, 1, 2, 2,
    the gradients 1, 1, -1, -1 and unit hessians; one column of four
    entries. *)
Definition example_grad : list float :=
  [float_of_Z 1; float_of_Z 1; float_of_Z (-1); float_of_Z (-1)].
Definition example_hess : list float :=
  [float_of_Z 1; float_of_Z 1; float_of_Z 1; float_of_Z 1].
Definition example_smat : Image :=
  [[(0%nat, float_of_Z 1)]; [(0%nat, float_of_Z 1)];
   [(0%nat, float_of_Z 2)]; [(0%nat, float_of_Z 2)]].
Definition example_column : list SCEntry :=
  [mkSCEntry (float_of_Z 1) 0; mkSCEntry (float_of_Z 1) 1;
   mkSCEntry (float_of_Z 2) 2; mkSCEntry (float_of_Z 2) 3].

(** A stable sort by [fvalue] for the examples. *)
Definition entry_le (a b : SCEntry) : Prop := SCEntry_lt b a = false.

Global Instance entry_le_dec (a b : SCEntry) : Decision (entry_le a b) :=
  bool_eq_dec (SCEntry_lt b a) false.

Definition example_sort : list SCEntry -> list SCEntry := merge_sort entry_le.

(** Scenario S2 before the first task is popped: a tree of one root, all
    four rows in the idset, and the task of the root on the stack. *)
Definition example_root_state : Updater unit :=
  mkUpdater (RTree.InitModel 1 1) 0 0 [] [0; 1; 2; 3]%nat tt.
Definition example_root_task : Task := mkTask 0 0 4 f0.

(** A task on the rows 1, 2, 3 and an entry slice that names row 2 twice. *)
Definition duplicate_state : Updater unit :=
  mkUpdater (RTree.InitModel 1 1) 0 0 [] [1; 2; 3]%nat tt.
Definition duplicate_task : Task := mkTask 0 0 3 f0.
Definition duplicate_entries : list SCEntry :=
  [mkSCEntry (float_of_Z 1) 2; mkSCEntry (float_of_Z 1) 2].

(** One row with a negative hessian, a subsampling rate of one half and a
    generator whose every draw succeeds. *)
Definition ignored_hess : list float := [float_of_Z (-1)].
Definition always_sampled (p : float) (r : unit) : Z * unit := (1, r).
Definition half : float := fdiv (float_of_Z 1) (float_of_Z 2).
Definition fresh_state : Updater unit :=
  mkUpdater (RTree.InitModel 1 1) 0 0 [] [] tt.



(** ** More of the enumerator *)

Section Enumerator.

Variable param : TreeParamTrain.
Variables grad hess : list float.




(** The candidates that the loop of expand over the active features pushes
    into the local selectors, feature after feature. *)
Fixpoint all_candidates (std_sort : list SCEntry -> list SCEntry)
    (rsum_grad rsum_hess root_cost base_weight : double)
    (cols : list (nat * (nat * nat))) (entry : list SCEntry)
    : list RTSelecter.Entry :=
  match cols with
  | [] => []
  | (f, (start, end_)) :: cols =>
      let entry := sort_range std_sort start end_ entry in
      enumerate_candidates param grad hess rsum_grad rsum_hess root_cost entry
        start end_ (to_int (Z.of_nat f)) (to_float base_weight)
      ++ all_candidates std_sort rsum_grad rsum_hess root_cost base_weight cols entry
  end.

End Enumerator.

(** ** Invariants of the grower *)

(** Every node of the tree has a depth, and it is at most [bound]. *)
Definition depth_bounded (bound : Z) (t : RTree) : Prop :=
  forall i, (i < length (nodes t))%nat ->
    exists d, depth_is t i d /\ Z.of_nat d <= bound.

(** The children of a node that is not a leaf are two consecutive nodes of
    the tree that lie behind it, and its split feature is below
    [num_feature]. *)
Definition shaped (t : RTree) : Prop :=
  forall i, (i < length (nodes t))%nat ->
    Node.is_leaf (nodes t !!! i) = false ->
    Z.of_nat i < node_cleft (nodes t !!! i)
    /\ node_cright (nodes t !!! i) = node_cleft (nodes t !!! i) + 1
    /\ node_cright (nodes t !!! i) < Z.of_nat (length (nodes t))
    /\ 0 <= node_split_index (nodes t !!! i) < num_feature t.

(** [t'] is [t] with some of its nodes turned into leaves. *)
Definition leafed (t t' : RTree) : Prop :=
  length (nodes t') = length (nodes t)
  /\ length (stats t') = length (stats t)
  /\ num_roots t' = num_roots t
  /\ num_feature t' = num_feature t
  /\ forall i, nodes t' !!! i = nodes t !!! i
               \/ exists v, nodes t' !!! i = Node.set_leaf v (nodes t !!! i).

(** The tasks of the stack are on nodes of the tree. *)
Definition tasks_in_range {Rng : Type} (st : Updater Rng) : Prop :=
  Forall (fun tsk => 0 <= task_nid tsk < Z.of_nat (length (nodes (tree st))))
         (task_stack st).

(** What the loop of do_boost maintains. *)
Definition grower_inv {Rng : Type} (bound : Z) (st : Updater Rng) : Prop :=
  well_rooted (tree st)
  /\ length (stats (tree st)) = length (nodes (tree st))
  /\ depth_bounded bound (tree st)
  /\ tasks_in_range st
  /\ max_depth st <= bound.

(** ** The slices of the tasks *)

(** The slice of a task lies within the idset buffer and is strictly
    ascending, as assert_sorted demands. *)
Definition task_slice_ok (buf : list nat) (tsk : Task) : Prop :=
  (task_idset tsk + task_len tsk <= length buf)%nat
  /\ StronglySorted lt (task_rows buf tsk).

(** Two tasks own different parts of the idset buffer. *)
Definition tasks_disjoint (a b : Task) : Prop :=
  (task_idset a + task_len a <= task_idset b)%nat
  \/ (task_idset b + task_len b <= task_idset a)%nat.

Definition slices_ok {Rng : Type} (st : Updater Rng) : Prop :=
  Forall (task_slice_ok (idset st)) (task_stack st)
  /\ StronglySorted tasks_disjoint (task_stack st).

(** ** assert_sorted *)

(** The loop of assert_sorted at index [i] with [n] iterations left, on
    the slice that starts at [off]. *)
Fixpoint assert_sorted_loop (buf : list nat) (off n i : nat) : res unit :=
  match n with
  | O => Ok tt
  | S n =>
      _ ← Assert (buf !!! (off + (i - 1))%nat <? buf !!! (off + i)%nat)%nat;
      assert_sorted_loop buf off n (S i)
  end.

(** [assert_sorted( idset, len )] for the slice at [off]; the two constants
    [rt_debug] and [check_bug], both false in the source, are arguments. *)
Definition assert_sorted (rt_debug check_bug : bool) (buf : list nat)
    (off len : nat) : res unit :=
  if negb rt_debug || negb check_bug then Ok tt
  else assert_sorted_loop buf off (len - 1) 1.

(** ** A bound on the work of do_boost *)

(** The number of nodes of a full binary tree that reaches from depth [d]
    down to depth [bound]: a bound on the number of tasks that a task on a
    node at depth [d] leads to. *)
Definition subtree_size (bound d : nat) : nat := (2 ^ (S bound - d) - 1)%nat.

Definition pending_work (bound : nat) (ds : list nat) : nat :=
  sum_list_with (subtree_size bound) ds.

(** The tasks are on nodes of the tree, at the depths [ds], none of them
    deeper than [bound]. *)
Definition task_depths (bound : nat) (t : RTree) (tasks : list Task) (ds : list nat)
    : Prop :=
  Forall2
    (fun tsk d =>
       0 <= task_nid tsk < Z.of_nat (length (nodes t))
       /\ depth_is t (Z.to_nat (task_nid tsk)) d
       /\ (d <= bound)%nat)
    tasks ds.

(** ** The threshold of a split, read off the sorted column

    [col] is the sorted column of the split feature among the rows of a
    task and [k] the length of the slice of the selected candidate.  A
    forward candidate (default right) owns the first [k] entries and a
    backward candidate (default left) the last [k]: [split_boundary] is the
    number of entries below the boundary between the two children. *)
Definition split_boundary (col : list SCEntry) (default_left : bool) (k : nat) : nat :=
  if default_left then (length col - k)%nat else k.

(** The threshold that enumerate_split gives a candidate with [m] entries
    below the boundary: the middle of the two values at the boundary, or
    the last value plus [rt_eps] (forward sweep, nothing above) or the first
    value minus [rt_eps] (backward sweep, nothing below). *)
Definition slice_threshold (col : list SCEntry) (default_left : bool) (m : nat)
    : float :=
  let middle :=
    dmul d_half
      (to_double (fadd (fvalue (col !!! (m - 1)%nat)) (fvalue (col !!! m)))) in
  to_float
    (if default_left then
       if (m =? 0)%nat then to_double (fsub (fvalue (col !!! m)) rt_eps) else middle
     else
       if (m =? length col)%nat
       then to_double (fadd (fvalue (col !!! (m - 1)%nat)) rt_eps)
       else middle).

(** The comparison [fvalue < thr] of get_next holds for the last value
    below the boundary and fails for the first value above it. *)
Definition threshold_separates (col : list SCEntry) (m : nat) (thr : float) : Prop :=
  ((0 < m)%nat -> flt (fvalue (col !!! (m - 1)%nat)) thr = true)
  /\ ((m < length col)%nat -> flt (fvalue (col !!! m)) thr = false).

(** Four rows of which the first two have the feature value 256, where
    adding [rt_eps] changes nothing; the gradients and hessians are those of
    scenario S2. *)
Definition wide_smat : Image :=
  [[(0%nat, float_of_Z 256)]; [(0%nat, float_of_Z 256)]; []; []].

(** ** The depth that do_boost reports *)

(** Every node of the tree is the node of a stacked task or lies no deeper
    than [max_depth], and some node lies at that depth. *)
Definition depths_recorded {Rng : Type} (st : Updater Rng) : Prop :=
  (forall i, (i < length (nodes (tree st)))%nat ->
     Z.of_nat i ∈ (task_nid <$> task_stack st)
     \/ exists d, depth_is (tree st) i d /\ Z.of_nat d <= max_depth st)
  /\ exists i d,
       (i < length (nodes (tree st)))%nat
       /\ depth_is (tree st) i d /\ Z.of_nat d = max_depth st.

(** ** DoBoost of the trainer *)

Definition UINT_MAX : Z := 2 ^ 32 - 1.

(** [RTreeTrainer::DoBoost]: the updater works on the tree of the trainer,
    with an empty idset and an empty task stack.  The record [RTree] has no
    field for [tree.param.max_depth], which DoBoost overwrites with the
    result of do_boost: the model returns that value beside the trainer and
    the state of the random number generator.  The two [printf] are left
    out. *)
Definition DoBoost {Rng : Type} (SampleBinary : float -> Rng -> Z * Rng)
    (std_sort : list SCEntry -> list SCEntry) (param : TreeParamTrain)
    (grad hess : list float) (smat : Image) (group_id : list Z) (fuel : nat)
    (r : Rng) (tr : RTreeTrainer) : res (RTreeTrainer * Z * Rng) :=
  _ ← Assert (Z.of_nat (length grad) <? UINT_MAX);
  st ← do_boost SampleBinary std_sort param grad hess smat group_id fuel
         (mkUpdater (trainer_tree tr) 0 0 [] [] r);
  Ok (mkTrainer (tree st) (tmp_feat tr) (tmp_funknown tr), max_depth st, rng st).
(** * Properties *)

(** ** The order of floating-point numbers *)

Section FloatOrder.

Local Ltac cmp_cases :=
  repeat match goal with
    | |- context [Z.compare ?a ?b] => destruct (Z.compare_spec a b)
    | |- context [Pos.compare_cont Eq ?a ?b] =>
        change (Pos.compare_cont Eq a b) with (Pos.compare a b);
        destruct (Pos.compare_spec a b)
    end.

Lemma SFltb_trans a b c :
  SFltb a b = true -> SFltb b c = true -> SFltb a c = true.
Proof.
  unfold SFltb, SFcompare.
  destruct a as [[]|[]| |[] ma ea], b as [[]|[]| |[] mb eb],
           c as [[]|[]| |[] mc ec];
    try (intros; congruence); cmp_cases; simpl; intros; try congruence; lia.
Qed.

Lemma SFltb_irrefl a : SFltb a a = false.
Proof.
  unfold SFltb, SFcompare.
  destruct a as [[]|[]| |[] ma ea]; try reflexivity;
    rewrite Z.compare_refl;
    change (Pos.compare_cont Eq ma ma) with (Pos.compare ma ma);
    rewrite Pos.compare_refl; reflexivity.
Qed.

Lemma SFltb_leb_trans a b c :
  SFltb a b = true -> SFleb b c = true -> SFltb a c = true.
Proof.
  unfold SFltb, SFleb, SFcompare.
  destruct a as [[]|[]| |[] ma ea], b as [[]|[]| |[] mb eb],
           c as [[]|[]| |[] mc ec];
    try (intros; congruence); cmp_cases; simpl; intros; try congruence; lia.
Qed.

(** On ordered numbers [a >= b] is the negation of [a < b]. *)
Lemma SFleb_not_ltb a b :
  SFcompare a b <> None -> SFleb b a = negb (SFltb a b).
Proof.
  unfold SFltb, SFleb, SFcompare.
  destruct a as [[]|[]| |[] ma ea], b as [[]|[]| |[] mb eb];
    try (intros; congruence); try reflexivity; intros _;
    rewrite (Z.compare_antisym ea eb);
    change (Pos.compare_cont Eq mb ma) with (Pos.compare mb ma);
    change (Pos.compare_cont Eq ma mb) with (Pos.compare ma mb);
    rewrite (Pos.compare_antisym ma mb);
    destruct (Z.compare ea eb), (Pos.compare ma mb); reflexivity.
Qed.

Lemma flt_trans a b c : flt a b = true -> flt b c = true -> flt a c = true.
Proof. apply SFltb_trans. Qed.

Lemma flt_irrefl a : flt a a = false.
Proof. apply SFltb_irrefl. Qed.

Lemma flt_fle_trans a b c : flt a b = true -> fle b c = true -> flt a c = true.
Proof. apply SFltb_leb_trans. Qed.

Lemma flt_asym a b : flt a b = true -> flt b a = false.
Proof.
  intros H. destruct (flt b a) eqn:E; [|reflexivity].
  rewrite <- (flt_irrefl a). symmetry. exact (flt_trans _ _ _ H E).
Qed.


End FloatOrder.

(** ** The split selector *)

Section Selecter.

Implicit Types (e c r : RTSelecter.Entry) (s : RTSelecter.t)
               (cs : list RTSelecter.Entry).

Lemma SFleb_refl_ordered a b :
  SFleb a a = true -> SFleb b b = true -> SFcompare a b <> None.
Proof.
  unfold SFleb, SFcompare.
  destruct a as [[]|[]| |[] ma ea], b as [[]|[]| |[] mb eb]; congruence.
Qed.

Lemma fle_of_not_flt a b :
  fle a a = true -> fle b b = true -> flt a b = false -> fle b a = true.
Proof.
  unfold fle, flt. intros Ha Hb Hlt.
  rewrite SFleb_not_ltb by (apply SFleb_refl_ordered; assumption).
  rewrite Hlt. reflexivity.
Qed.

Lemma flt_fle_refl_r a b : flt a b = true -> fle b b = true.
Proof.
  unfold fle, flt, SFltb, SFleb, SFcompare.
  destruct (f32_bits a) as [[]|[]| |[] ma ea], (f32_bits b) as [[]|[]| |[] mb eb];
    try congruence; intros _; rewrite Z.compare_refl;
    change (Pos.compare_cont Eq mb mb) with (Pos.compare mb mb);
    rewrite Pos.compare_refl; reflexivity.
Qed.

Lemma push_all_snoc cs e s :
  RTSelecter.push_all (cs ++ [e]) s
  = RTSelecter.push_back e (RTSelecter.push_all cs s).
Proof. unfold RTSelecter.push_all. rewrite fold_left_app. reflexivity. Qed.

Lemma push_all_app cs1 cs2 s :
  RTSelecter.push_all (cs1 ++ cs2) s
  = RTSelecter.push_all cs2 (RTSelecter.push_all cs1 s).
Proof. unfold RTSelecter.push_all. apply fold_left_app. Qed.

(** What a selector holds after a sequence of pushes. *)
Lemma push_all_init_spec cs :
  let r := RTSelecter.select (RTSelecter.push_all cs RTSelecter.init) in
  (r = RTSelecter.zero_entry
   /\ forall c, c ∈ cs -> flt f0 (RTSelecter.loss_chg c) = false)
  \/ (exists i, cs !! i = Some r
        /\ flt f0 (RTSelecter.loss_chg r) = true
        /\ (forall c, c ∈ cs ->
              flt (RTSelecter.loss_chg r) (RTSelecter.loss_chg c) = false)
        /\ (forall j c, (j < i)%nat -> cs !! j = Some c ->
              fle (RTSelecter.loss_chg r) (RTSelecter.loss_chg c) = false)).
Proof.
  induction cs as [|e cs IH] using rev_ind; simpl.
  - left. split; [reflexivity|]. intros c Hc. inversion Hc.
  - rewrite push_all_snoc. unfold RTSelecter.push_back, RTSelecter.select in *.
    set (s := RTSelecter.push_all cs RTSelecter.init) in *.
    destruct (flt (RTSelecter.loss_chg (RTSelecter.best_entry s))
                  (RTSelecter.loss_chg e)) eqn:Hlt; simpl.
    + (* the new candidate replaces the best entry *)
      right. exists (length cs).
      assert (Hpos : flt f0 (RTSelecter.loss_chg e) = true).
      { destruct IH as [[Hr _]|(i & _ & Hp & _)].
        - rewrite Hr in Hlt. exact Hlt.
        - exact (flt_trans _ _ _ Hp Hlt). }
      assert (Hmax : forall c, c ∈ cs ->
               flt (RTSelecter.loss_chg e) (RTSelecter.loss_chg c) = false).
      { intros c Hc.
        destruct (flt (RTSelecter.loss_chg e) (RTSelecter.loss_chg c)) eqn:E;
          [|reflexivity].
        destruct IH as [[Hr Hall]|(i & _ & _ & Hm & _)].
        - rewrite <- (Hall c Hc). symmetry. exact (flt_trans _ _ _ Hpos E).
        - rewrite <- (Hm c Hc). symmetry. exact (flt_trans _ _ _ Hlt E). }
      split; [|split; [exact Hpos|split]].
      * rewrite lookup_app_r by lia. rewrite Nat.sub_diag. reflexivity.
      * intros c Hc. apply elem_of_app in Hc as [Hc|Hc]; [auto|].
        apply list_elem_of_singleton in Hc. subst c. apply flt_irrefl.
      * intros j c Hj Hjc. rewrite lookup_app_l in Hjc by lia.
        assert (Hc : c ∈ cs) by (apply list_elem_of_lookup; eauto).
        destruct (fle (RTSelecter.loss_chg e) (RTSelecter.loss_chg c)) eqn:E;
          [|reflexivity].
        destruct IH as [[Hr Hall]|(i & _ & _ & Hm & _)].
        -- rewrite <- (Hall c Hc). symmetry. exact (flt_fle_trans _ _ _ Hpos E).
        -- rewrite <- (Hm c Hc). symmetry. exact (flt_fle_trans _ _ _ Hlt E).
    + (* the best entry is kept *)
      destruct IH as [[Hr Hall]|(i & Hi & Hp & Hm & Hf)].
      * left. split; [exact Hr|]. intros c Hc.
        apply elem_of_app in Hc as [Hc|Hc]; [auto|].
        apply list_elem_of_singleton in Hc. subst c. rewrite Hr in Hlt. exact Hlt.
      * right. exists i. split; [|split; [exact Hp|split]].
        -- rewrite lookup_app_l by (eapply lookup_lt_Some; eauto). exact Hi.
        -- intros c Hc. apply elem_of_app in Hc as [Hc|Hc]; [auto|].
           apply list_elem_of_singleton in Hc. subst c. exact Hlt.
        -- intros j c Hj Hjc. apply (Hf j c Hj).
           rewrite lookup_app_l in Hjc; [exact Hjc|].
           apply lookup_lt_Some in Hi. lia.
Qed.

(** The best entry of a selector is the initial one or a pushed candidate. *)
Lemma push_all_init_cases cs :
  RTSelecter.select (RTSelecter.push_all cs RTSelecter.init) = RTSelecter.zero_entry
  \/ (RTSelecter.select (RTSelecter.push_all cs RTSelecter.init) ∈ cs
      /\ flt f0 (RTSelecter.loss_chg
                   (RTSelecter.select (RTSelecter.push_all cs RTSelecter.init))) = true).
Proof.
  destruct (push_all_init_spec cs) as [[Hr _]|(i & Hi & Hp & _)].
  - left. exact Hr.
  - right. split; [|exact Hp]. apply list_elem_of_lookup. eauto.
Qed.

(** The initial entry does not displace the best entry of any selector
    that pushes have produced. *)
Lemma push_back_zero_entry cs :
  RTSelecter.push_back RTSelecter.zero_entry (RTSelecter.push_all cs RTSelecter.init)
  = RTSelecter.push_all cs RTSelecter.init.
Proof.
  unfold RTSelecter.push_back.
  destruct (push_all_init_cases cs) as [Hr|[_ Hp]]; unfold RTSelecter.select in *.
  - rewrite Hr. reflexivity.
  - simpl. change (F32 (S754_zero false)) with f0. rewrite (flt_asym _ _ Hp). reflexivity.
Qed.

End Selecter.

(** C7.  Whatever sequence of candidates is pushed into a selector, [select]
    returns the first-pushed candidate among those of maximal [loss_chg]
    when some candidate has a positive [loss_chg], and the zero-initialised
    entry, whose [loss_chg] is [0], when none has; the entry returned is the
    initial one or has a positive [loss_chg], so a candidate whose
    [loss_chg] is not positive is never selected. *)
Theorem select_first_maximal (cs : list RTSelecter.Entry) :
  let r := RTSelecter.select (RTSelecter.push_all cs RTSelecter.init) in
  ((exists c, c ∈ cs /\ flt f0 (RTSelecter.loss_chg c) = true) ->
     exists i, cs !! i = Some r
       /\ maximal_in cs r
       /\ forall j c, (j < i)%nat -> cs !! j = Some c -> ~ maximal_in cs c)
  /\ ((forall c, c ∈ cs -> flt f0 (RTSelecter.loss_chg c) = false) ->
        r = RTSelecter.zero_entry)
  /\ RTSelecter.loss_chg RTSelecter.zero_entry = f0
  /\ (r = RTSelecter.zero_entry \/ flt f0 (RTSelecter.loss_chg r) = true).
Proof.
  intros r. subst r.
  destruct (push_all_init_spec cs) as [[Hr Hall]|(i & Hi & Hp & Hm & Hf)]; simpl in *.
  - repeat split; auto.
    intros (c & Hc & Hpos). rewrite (Hall c Hc) in Hpos. discriminate.
  - split; [|split; [|split]].
    + intros _. exists i. split; [exact Hi|]. split.
      * split; [exact (flt_fle_refl_r _ _ Hp)|exact Hm].
      * intros j c Hj Hjc [Hnum Hmax].
        assert (Hr : RTSelecter.select (RTSelecter.push_all cs RTSelecter.init) ∈ cs)
          by (apply list_elem_of_lookup; eauto).
        specialize (Hmax _ Hr). specialize (Hf j c Hj Hjc).
        rewrite (fle_of_not_flt _ _ Hnum (flt_fle_refl_r _ _ Hp) Hmax) in Hf.
        discriminate.
    + intros Hall.
      assert (Hr : RTSelecter.select (RTSelecter.push_all cs RTSelecter.init) ∈ cs)
        by (apply list_elem_of_lookup; eauto).
      rewrite (Hall _ Hr) in Hp. discriminate.
    + reflexivity.
    + right. exact Hp.
Qed.

(** Four candidates with the losses 1, 3, 3, 2: the second is selected. *)
Example select_ties :
  let c (lc k : Z) := RTSelecter.mkEntry (float_of_Z lc) 0 0 k f0 in
  RTSelecter.select (RTSelecter.push_all [c 1 1; c 3 2; c 3 3; c 2 4] RTSelecter.init)
  = c 3 2.
Proof. reflexivity. Qed.

Lemma select_first_maximal_witness :
  let c (lc k : Z) := RTSelecter.mkEntry (float_of_Z lc) 0 0 k f0 in
  let cs := [c 1 1; c 3 2; c 3 3; c 2 4] in
  let r := RTSelecter.select (RTSelecter.push_all cs RTSelecter.init) in
  (exists i, cs !! i = Some r
     /\ maximal_in cs r
     /\ forall j c', (j < i)%nat -> cs !! j = Some c' -> ~ maximal_in cs c')
  /\ RTSelecter.select (RTSelecter.push_all [c (-1) 1; c 0 2] RTSelecter.init)
     = RTSelecter.zero_entry.
Proof.
  intros c cs r. split.
  - apply (proj1 (select_first_maximal cs)).
    exists (c 1 1). split; [apply list_elem_of_here|reflexivity].
  - apply (proj1 (proj2 (select_first_maximal [c (-1) 1; c 0 2]))).
    intros c' Hc.
    apply elem_of_cons in Hc as [->|Hc]; [reflexivity|].
    apply elem_of_cons in Hc as [->|Hc]; [reflexivity|].
    inversion Hc.
Defined.

(** ** The two sweeps of enumerate_split *)

Section Sweeps.

Variable param : TreeParamTrain.
Variables grad hess : list float.
Variables rsum_grad rsum_hess root_cost : double.
Variable entry : list SCEntry.
Variables start end_ : nat.
Variable findex : Z.
Variable parent_base_weight : float.

Lemma forward_sweep_trace n j csum_grad csum_hess slocal :
  forward_sweep param grad hess rsum_grad rsum_hess root_cost entry start end_
    findex parent_base_weight n j csum_grad csum_hess slocal
  = RTSelecter.push_all
      (map snd (forward_trace param grad hess rsum_grad rsum_hess root_cost entry
                  start end_ findex parent_base_weight n j csum_grad csum_hess))
      slocal.
Proof.
  revert j csum_grad csum_hess slocal.
  induction n as [|n IH]; intros j cg ch slocal; simpl; [reflexivity|].
  unfold forward_split_point.
  repeat match goal with |- context [if ?b then _ else _] => destruct b end;
    simpl; rewrite ?IH; reflexivity.
Qed.

Lemma backward_sweep_trace n csum_grad csum_hess slocal :
  backward_sweep param grad hess rsum_grad rsum_hess root_cost entry start end_
    findex parent_base_weight n csum_grad csum_hess slocal
  = RTSelecter.push_all
      (map snd (backward_trace param grad hess rsum_grad rsum_hess root_cost entry
                  start end_ findex parent_base_weight n csum_grad csum_hess))
      slocal.
Proof.
  revert csum_grad csum_hess slocal.
  induction n as [|n IH]; intros cg ch slocal; [reflexivity|].
  cbn [backward_sweep backward_trace]. unfold backward_split_point.
  repeat match goal with |- context [if ?b then _ else _] => destruct b end;
    simpl; rewrite ?IH; reflexivity.
Qed.

(** The local selector of enumerate_split holds what pushing its
    candidates into a fresh selector leaves. *)
Lemma enumerate_local_candidates :
  enumerate_local param grad hess rsum_grad rsum_hess root_cost entry start end_
    findex parent_base_weight
  = RTSelecter.push_all
      (enumerate_candidates param grad hess rsum_grad rsum_hess root_cost entry
         start end_ findex parent_base_weight)
      RTSelecter.init.
Proof.
  unfold enumerate_local, enumerate_candidates.
  rewrite push_all_app.
  destruct (negb (default_direction param =? 1)),
           (negb (default_direction param =? 2));
    rewrite ?forward_sweep_trace, ?backward_sweep_trace; reflexivity.
Qed.

(** Every forward candidate is built by [forward_candidate]. *)
Lemma forward_trace_shape n j csum_grad csum_hess p :
  p ∈ forward_trace param grad hess rsum_grad rsum_hess root_cost entry start end_
        findex parent_base_weight n j csum_grad csum_hess ->
  exists cg ch,
    snd p = forward_candidate param rsum_grad rsum_hess root_cost entry start end_
              findex parent_base_weight (fst p) cg ch.
Proof.
  revert j csum_grad csum_hess.
  induction n as [|n IH]; intros j cg ch; simpl; [intros H; inversion H|].
  repeat match goal with |- context [if ?b then _ else _] => destruct b end;
    try (intros H; inversion H; fail); try apply IH.
  intros H. apply elem_of_cons in H as [->|H]; [eauto|eapply IH; eauto].
Qed.

Lemma backward_trace_shape n csum_grad csum_hess p :
  p ∈ backward_trace param grad hess rsum_grad rsum_hess root_cost entry start end_
        findex parent_base_weight n csum_grad csum_hess ->
  exists cg ch,
    snd p = backward_candidate param rsum_grad rsum_hess root_cost entry start end_
              findex parent_base_weight (fst p) cg ch.
Proof.
  revert csum_grad csum_hess.
  induction n as [|n IH]; intros cg ch; [intros H; inversion H|].
  cbn [backward_trace].
  repeat match goal with |- context [if ?b then _ else _] => destruct b end;
    try (intros H; inversion H; fail); try apply IH.
  intros H. apply elem_of_cons in H as [->|H]; [eauto|eapply IH; eauto].
Qed.

End Sweeps.

(** ** Tree storage *)

Section TreeFacts.

Implicit Types (t : RTree) (n : Node) (nid : Z).

Lemma node_set_node_eq t nid n :
  (Z.to_nat nid < length (nodes t))%nat ->
  RTree.node (RTree.set_node nid n t) nid = n.
Proof. intros H. unfold RTree.node. simpl. apply list_lookup_total_insert_eq, H. Qed.

Lemma nodes_set_node_ne t nid n i :
  i <> Z.to_nat nid -> nodes (RTree.set_node nid n t) !!! i = nodes t !!! i.
Proof. intros H. simpl. apply list_lookup_total_insert_ne. congruence. Qed.

Lemma stat_set_stat_eq t nid s :
  (Z.to_nat nid < length (stats t))%nat ->
  RTree.stat (RTree.set_stat nid s t) nid = s.
Proof. intros H. unfold RTree.stat. simpl. apply list_lookup_total_insert_eq, H. Qed.

Lemma node_AddChilds_eq t nid :
  (Z.to_nat nid < length (nodes t))%nat ->
  RTree.node (RTree.AddChilds nid t) nid
  = Node.set_children (Z.of_nat (length (nodes t))) (Z.of_nat (length (nodes t)) + 1)
      (RTree.node t nid).
Proof.
  intros H. unfold RTree.node, RTree.AddChilds. simpl.
  rewrite lookup_total_app_l by (rewrite length_insert; exact H).
  apply list_lookup_total_insert_eq, H.
Qed.

Lemma stat_AddChilds t nid i :
  (i < length (stats t))%nat ->
  stats (RTree.AddChilds nid t) !!! i = stats t !!! i.
Proof. intros H. simpl. apply lookup_total_app_l, H. Qed.

(** The ancestors of a node depend on the parent fields only. *)
Lemma ancestor_ext t t' k i :
  (forall j, node_parent (nodes t' !!! j) = node_parent (nodes t !!! j)) ->
  ancestor t' k i = ancestor t k i.
Proof.
  intros H. revert i. induction k as [|k IH]; intros i; simpl; [reflexivity|].
  unfold parent_index. rewrite H. apply IH.
Qed.

Lemma ancestor_add t k m i :
  ancestor t (k + m) i = ancestor t m (ancestor t k i).
Proof. revert i. induction k as [|k IH]; intros i; simpl; [reflexivity|apply IH]. Qed.

(** [GetDepth] answers the depth of a node that has one. *)
Lemma GetDepth_depth_is t nid d fuel :
  depth_is t (Z.to_nat nid) d -> (d < fuel)%nat ->
  RTree.GetDepth fuel t nid = Ok (Z.of_nat d).
Proof.
  revert nid fuel. induction d as [|d IH]; intros nid fuel [Hroot Hlt] Hfuel;
    destruct fuel as [|fuel]; try lia; simpl.
  - unfold RTree.node. simpl in Hroot. rewrite Hroot. reflexivity.
  - unfold RTree.node. pose proof (Hlt 0%nat ltac:(lia)) as H0. simpl in H0.
    rewrite H0.
    rewrite (IH (Node.parent (nodes t !!! Z.to_nat nid)) fuel).
    + simpl. f_equal. lia.
    + split; [exact Hroot|]. intros k Hk. apply (Hlt (S k)). lia.
    + lia.
Qed.

Lemma GetDepth_Ok t nid fuel z :
  RTree.GetDepth fuel t nid = Ok z ->
  exists d, z = Z.of_nat d /\ (d < fuel)%nat /\ depth_is t (Z.to_nat nid) d.
Proof.
  revert nid z. induction fuel as [|fuel IH]; intros nid z; simpl; [discriminate|].
  unfold RTree.node. destruct (Node.is_root (nodes t !!! Z.to_nat nid)) eqn:Hr.
  - intros [= <-]. exists 0%nat. repeat split; [lia|exact Hr|]. intros k Hk. lia.
  - destruct (RTree.GetDepth fuel t (Node.parent (nodes t !!! Z.to_nat nid))) as [z'| |]
      eqn:Hd; simpl; try discriminate.
    intros [= <-]. destruct (IH _ _ Hd) as (d & -> & Hlt & Hroot & Hnot).
    exists (S d). repeat split; [lia|lia|exact Hroot|].
    intros [|k] Hk; [exact Hr|]. apply (Hnot k). lia.
Qed.

(** A node is not among its own proper ancestors up to its root. *)
Lemma ancestor_acyclic t i d k :
  depth_is t i d -> (1 <= k <= d)%nat -> ancestor t k i <> i.
Proof.
  intros [Hroot Hnot] Hk Heq.
  assert (H : ancestor t d i = ancestor t (d - k) i).
  { replace d with (k + (d - k))%nat at 1 by lia.
    rewrite ancestor_add, Heq. reflexivity. }
  rewrite H in Hroot. rewrite (Hnot (d - k)%nat) in Hroot by lia. discriminate.
Qed.

Lemma depth_is_parent t i d :
  depth_is t i (S d) -> depth_is t (parent_index t i) d.
Proof.
  intros [Hroot Hnot]. split; [exact Hroot|].
  intros k Hk. apply (Hnot (S k)). lia.
Qed.

End TreeFacts.

(** ** The pruner *)

Section Pruner.

Context {Rng : Type}.
Variable param : TreeParamTrain.
Implicit Types (st : Updater Rng) (t : RTree).

Lemma insert_total_same {A} `{Inhabited A} (l : list A) (i j : nat) (f : A -> A)
    (P : A -> A -> Prop) :
  (forall x, P (f x) x) -> (forall x, P x x) ->
  P (<[i := f (l !!! i)]> l !!! j) (l !!! j).
Proof.
  intros Hf Hrefl. destruct (decide (i = j)) as [->|Hne].
  - destruct (decide (j < length l)%nat).
    + rewrite list_lookup_total_insert_eq by assumption. apply Hf.
    + rewrite list_insert_ge by lia. apply Hrefl.
  - rewrite list_lookup_total_insert_ne by assumption. apply Hrefl.
Qed.

Lemma ChangeToLeaf_parent t pid v j :
  node_parent (nodes (RTree.ChangeToLeaf pid v t) !!! j) = node_parent (nodes t !!! j).
Proof.
  unfold RTree.ChangeToLeaf, RTree.node. simpl.
  apply (insert_total_same (nodes t) (Z.to_nat pid) j (Node.set_leaf v)
           (fun a b => node_parent a = node_parent b)); reflexivity.
Qed.

Lemma depth_is_ext t t' i d :
  (forall j, node_parent (nodes t' !!! j) = node_parent (nodes t !!! j)) ->
  depth_is t i d -> depth_is t' i d.
Proof.
  intros H [Hroot Hnot]. unfold depth_is, Node.is_root in *.
  split; [|intros k Hk]; rewrite (ancestor_ext t t' _ _ H), H; auto.
Qed.

(** The pruner returns on every node that has a depth; it leaves the
    parent fields, the lengths of the arrays, the task stack and the idset
    as they are, and writes no node but proper ancestors of [nid]. *)
Lemma try_prune_leaf_total d :
  forall fuel nid depth st,
    depth_is (tree st) (Z.to_nat nid) d -> (d < fuel)%nat ->
    exists st',
      try_prune_leaf param fuel nid depth st = Ok st'
      /\ (forall j, node_parent (nodes (tree st') !!! j)
                    = node_parent (nodes (tree st) !!! j))
      /\ (forall i, (forall k, (1 <= k <= d)%nat ->
                       ancestor (tree st) k (Z.to_nat nid) <> i) ->
                    nodes (tree st') !!! i = nodes (tree st) !!! i)
      /\ length (nodes (tree st')) = length (nodes (tree st))
      /\ length (stats (tree st')) = length (stats (tree st))
      /\ task_stack st' = task_stack st
      /\ idset st' = idset st
      /\ rng st' = rng st
      /\ max_depth st' = max_depth st
      /\ num_pruned st <= num_pruned st'.
Proof.
  induction d as [|d IH]; intros fuel nid depth st Hd Hfuel;
    destruct fuel as [|fuel]; try lia; simpl.
  - destruct Hd as [Hroot _]. simpl in Hroot. unfold RTree.node. rewrite Hroot.
    exists st. repeat split; auto; lia.
  - pose proof (proj2 Hd 0%nat ltac:(lia)) as H0. simpl in H0.
    unfold RTree.node at 1. rewrite H0.
    set (pid := Node.parent (RTree.node (tree st) nid)).
    set (s := mkStat _ _ _).
    match goal with |- context [if ?c then _ else _] => destruct c end.
    + set (st1 := with_num_pruned _ _).
      assert (Hpar : forall j, node_parent (nodes (tree st1) !!! j)
                               = node_parent (nodes (tree st) !!! j)).
      { intros j. subst st1. unfold with_num_pruned, with_tree. cbn [tree].
        rewrite ChangeToLeaf_parent. reflexivity. }
      assert (Hd1 : depth_is (tree st1) (Z.to_nat pid) d).
      { apply (depth_is_ext (tree st)); [exact Hpar|].
        apply depth_is_parent in Hd. exact Hd. }
      destruct (IH fuel pid (depth - 1) st1 Hd1 ltac:(lia))
        as (st' & Hrun & Hp & Hframe & Hln & Hls & Hts & Hid & Hrng & Hmd & Hnp).
      exists st'. split; [exact Hrun|].
      split; [intros j; rewrite Hp; apply Hpar|].
      split.
      { intros i Hi. rewrite Hframe.
        - subst st1. simpl. apply list_lookup_total_insert_ne.
          specialize (Hi 1%nat ltac:(lia)). exact Hi.
        - intros k Hk. rewrite (ancestor_ext (tree st)) by exact Hpar.
          specialize (Hi (S k) ltac:(lia)). exact Hi. }
      subst st1. simpl in *. rewrite length_insert in Hln.
      repeat split; try assumption; try lia.
      rewrite Hls. apply length_insert.
    + eexists. split; [reflexivity|]. simpl.
      repeat split; auto; try lia. apply length_insert.
Qed.

End Pruner.

(** C5.  [try_prune_leaf( nid, depth )] changes nothing when [nid] is a
    root.  Otherwise it increments [leaf_child_cnt] of the parent; when the
    count is then at least 2 and [need_prune( loss_chg, depth - 1 )] holds,
    the parent becomes a leaf of value [learning_rate * base_weight], the
    counter of pruned nodes grows by exactly 2 and pruning continues at the
    parent with [depth - 1]; otherwise the recursion stops there.  On a node
    that has a depth the recursion returns, with any fuel above the depth. *)
Theorem try_prune_leaf_spec {Rng : Type} (param : TreeParamTrain) (fuel : nat)
    (nid depth : Z) (st : Updater Rng) :
  let t := tree st in
  let pid := Node.parent (RTree.node t nid) in
  let s := RTree.stat t pid in
  let s' := mkStat (stat_loss_chg s) (stat_base_weight s) (stat_leaf_child_cnt s + 1) in
  let value := fmul (learning_rate param) (stat_base_weight s) in
  let counted := with_tree (RTree.set_stat pid s' t) st in
  let collapsed :=
    with_num_pruned (num_pruned st + 2)
      (with_tree (RTree.ChangeToLeaf pid value (RTree.set_stat pid s' t)) st) in
  (Node.is_root (RTree.node t nid) = true ->
     try_prune_leaf param (S fuel) nid depth st = Ok st)
  /\ (Node.is_root (RTree.node t nid) = false ->
      2 <= stat_leaf_child_cnt s + 1 ->
      need_prune param (stat_loss_chg s) (depth - 1) = true ->
        try_prune_leaf param (S fuel) nid depth st
        = try_prune_leaf param fuel pid (depth - 1) collapsed
        /\ num_pruned collapsed = num_pruned st + 2
        /\ ((Z.to_nat pid < length (stats t))%nat ->
              stat_leaf_child_cnt (RTree.stat (tree collapsed) pid)
              = stat_leaf_child_cnt s + 1)
        /\ ((Z.to_nat pid < length (nodes t))%nat ->
              Node.is_leaf (RTree.node (tree collapsed) pid) = true
              /\ Node.leaf_value (RTree.node (tree collapsed) pid) = value))
  /\ (Node.is_root (RTree.node t nid) = false ->
      stat_leaf_child_cnt s + 1 < 2
      \/ need_prune param (stat_loss_chg s) (depth - 1) = false ->
        try_prune_leaf param (S fuel) nid depth st = Ok counted
        /\ num_pruned counted = num_pruned st
        /\ nodes (tree counted) = nodes t
        /\ ((Z.to_nat pid < length (stats t))%nat ->
              stat_leaf_child_cnt (RTree.stat (tree counted) pid)
              = stat_leaf_child_cnt s + 1))
  /\ (forall d fuel', depth_is t (Z.to_nat nid) d -> (d < fuel')%nat ->
        exists st', try_prune_leaf param fuel' nid depth st = Ok st').
Proof.
  cbv zeta. split; [|split; [|split]].
  - intros Hroot. simpl. rewrite Hroot. reflexivity.
  - intros Hroot Hcnt Hprune. split; [|split; [reflexivity|split]].
    + simpl. rewrite Hroot. simpl. rewrite Hprune.
      rewrite (proj2 (Z.leb_le _ _) Hcnt). reflexivity.
    + intros Hr. unfold with_num_pruned, with_tree. cbn [tree].
      unfold RTree.ChangeToLeaf, RTree.set_node, RTree.stat. cbn [stats RTree.set_stat].
      rewrite list_lookup_total_insert_eq by exact Hr. reflexivity.
    + intros Hr. unfold with_num_pruned, with_tree. cbn [tree].
      unfold RTree.ChangeToLeaf. rewrite node_set_node_eq by exact Hr.
      split; reflexivity.
  - intros Hroot Hstop. split; [|split; [reflexivity|split; [reflexivity|]]].
    + simpl. rewrite Hroot. simpl.
      destruct Hstop as [Hcnt|Hprune].
      * rewrite (proj2 (Z.leb_gt _ _) Hcnt). reflexivity.
      * rewrite Hprune, andb_false_r. reflexivity.
    + intros Hr. unfold with_tree. cbn [tree].
      rewrite stat_set_stat_eq by exact Hr. reflexivity.
  - intros d fuel' Hd Hfuel.
    destruct (try_prune_leaf_total param d fuel' nid depth st Hd Hfuel) as (st' & H & _).
    exists st'. exact H.
Qed.

(** The second leaf of [example_tree] reports to the root, whose gain 4 is
    below the threshold 5: the root collapses to a leaf of value 5 and two
    nodes are counted as pruned. *)
Example try_prune_leaf_collapse :
  try_prune_leaf (example_param 5 1 0 (float_of_Z 1)) 2 2 1 (example_state [] [])
  = Ok (mkUpdater
          (mkTree
             [mkNode (-1) (-1) (-1) 0 false (float_of_Z 5);
              mkNode 0 (-1) (-1) 0 false (float_of_Z 1);
              mkNode 0 (-1) (-1) 0 false (float_of_Z 2)]
             [mkStat (float_of_Z 4) (float_of_Z 5) 2; mkStat f0 f0 0; mkStat f0 f0 0]
             1 1)
          0 2 [] [] tt).
Proof. reflexivity. Qed.

Lemma try_prune_leaf_spec_witness :
  let param := example_param 5 1 0 (float_of_Z 1) in
  let st := example_state [] [] in
  try_prune_leaf param 1 0 0 st = Ok st
  /\ try_prune_leaf param 2 2 1 st
     = try_prune_leaf param 1 0 0
         (with_num_pruned 2
            (with_tree
               (RTree.ChangeToLeaf 0 (float_of_Z 5)
                  (RTree.set_stat 0 (mkStat (float_of_Z 4) (float_of_Z 5) 2)
                     example_tree))
               st))
  /\ try_prune_leaf (example_param 3 1 0 (float_of_Z 1)) 2 2 1 st
     = Ok (with_tree
             (RTree.set_stat 0 (mkStat (float_of_Z 4) (float_of_Z 5) 2) example_tree) st)
  /\ exists st', try_prune_leaf param 2 2 1 st = Ok st'.
Proof.
  intros param st. split; [|split; [|split]].
  - apply (proj1 (try_prune_leaf_spec param 0 0 0 st)). reflexivity.
  - apply (proj1 (proj2 (try_prune_leaf_spec param 1 2 1 st)));
      [reflexivity|vm_compute; discriminate|reflexivity].
  - apply (proj1 (proj2 (proj2
             (try_prune_leaf_spec (example_param 3 1 0 (float_of_Z 1)) 1 2 1 st))));
      [reflexivity|right; reflexivity].
  - apply (proj2 (proj2 (proj2 (try_prune_leaf_spec param 0 2 1 st))) 1%nat 2%nat);
      [|lia].
    split; [reflexivity|]. intros [|k] Hk; [reflexivity|lia].
Defined.

(** ** Prediction *)

Section Prediction.

Implicit Types (t : RTree) (tr : RTreeTrainer) (feat : list float)
               (funknown : list bool) (line : Line).

Lemma finished_traverse h t feat funknown pid :
  finished h t pid = true ->
  exists leaf,
    RTreeTrainer.traverse h t feat funknown pid = Ok leaf
    /\ first_leaf t feat funknown pid leaf
    /\ Node.is_leaf (RTree.node t leaf) = true.
Proof.
  revert pid. induction h as [|h IH]; intros pid; simpl; [discriminate|].
  intros H. apply andb_true_iff in H as [_ H].
  destruct (Node.is_leaf (RTree.node t pid)) eqn:Hleaf.
  - exists pid. repeat split; [constructor|]; exact Hleaf.
  - simpl in H. apply andb_true_iff in H as [H Hr].
    apply andb_true_iff in H as [_ Hl].
    set (next := RTreeTrainer.get_next t pid _ _).
    assert (Hnext : finished h t next = true).
    { subst next. unfold RTreeTrainer.get_next.
      repeat match goal with |- context [if ?b then _ else _] => destruct b end;
        assumption. }
    destruct (IH next Hnext) as (leaf & Hrun & Hpath & Hl').
    exists leaf. repeat split; [exact Hrun| |exact Hl'].
    apply first_leaf_next; assumption.
Qed.

(** The first leaf of a path is unique. *)
Lemma first_leaf_unique t feat funknown pid l1 l2 :
  first_leaf t feat funknown pid l1 -> first_leaf t feat funknown pid l2 -> l1 = l2.
Proof.
  intros H1. revert l2. induction H1 as [pid Hl|pid leaf Hl _ IH]; intros l2 H2.
  - inversion H2; subst; [reflexivity|congruence].
  - inversion H2; subst; [congruence|]. apply IH. assumption.
Qed.

(** Whatever the fuel, an answer of the traversal is the first leaf. *)
Lemma traverse_first_leaf fuel t feat funknown pid leaf :
  RTreeTrainer.traverse fuel t feat funknown pid = Ok leaf ->
  first_leaf t feat funknown pid leaf.
Proof.
  revert pid. induction fuel as [|fuel IH]; intros pid; simpl; [discriminate|].
  destruct (Node.is_leaf (RTree.node t pid)) eqn:Hleaf.
  - intros [= <-]. constructor. exact Hleaf.
  - intros H. apply first_leaf_next; [exact Hleaf|]. apply IH, H.
Qed.

End Prediction.

(** C8.  [get_next] follows the default direction of the node when the split
    feature is unknown and otherwise goes left exactly when
    [fvalue < split_cond], so that equality goes right.  On a finished tree
    and a feature vector and mask of at least [num_feature] entries,
    [GetLeafIndex] walks from the root [gid] by [get_next] and returns the
    first leaf it reaches, and [Predict] returns the value of that leaf. *)
Theorem predict_first_leaf (h : nat) (tr : RTreeTrainer) (feat : list float)
    (funknown : list bool) (gid : Z) :
  let t := trainer_tree tr in
  finished h t (to_int gid) = true ->
  0 <= num_feature t <= Z.of_nat (length feat) ->
  num_feature t <= Z.of_nat (length funknown) ->
  (forall pid fvalue,
      RTreeTrainer.get_next t pid fvalue true
      = (if Node.default_left (RTree.node t pid) then Node.cleft (RTree.node t pid)
         else Node.cright (RTree.node t pid))
      /\ (flt fvalue (Node.split_cond (RTree.node t pid)) = true ->
          RTreeTrainer.get_next t pid fvalue false = Node.cleft (RTree.node t pid))
      /\ (flt fvalue (Node.split_cond (RTree.node t pid)) = false ->
          RTreeTrainer.get_next t pid fvalue false = Node.cright (RTree.node t pid))
      /\ RTreeTrainer.get_next t pid (Node.split_cond (RTree.node t pid)) false
         = Node.cright (RTree.node t pid))
  /\ exists leaf,
       RTreeTrainer.GetLeafIndex h t feat funknown gid = Ok leaf
       /\ first_leaf t feat funknown (to_int gid) leaf
       /\ Node.is_leaf (RTree.node t leaf) = true
       /\ RTreeTrainer.Predict h feat funknown gid tr
          = Ok (Node.leaf_value (RTree.node t leaf)).
Proof.
  intros t Hfin Hlen _. split.
  - intros pid fvalue. unfold RTreeTrainer.get_next.
    split; [reflexivity|]. split; [intros ->; reflexivity|].
    split; [intros ->; reflexivity|]. rewrite flt_irrefl. reflexivity.
  - destruct (finished_traverse h t feat funknown (to_int gid) Hfin)
      as (leaf & Hrun & Hpath & Hleaf).
    exists leaf. repeat split; try assumption.
    unfold RTreeTrainer.Predict, RTreeTrainer.GetLeafIndex. fold t.
    replace ((0 <=? num_feature t) && (num_feature t <=? Z.of_nat (length feat)))
      with true by (symmetry; apply andb_true_iff; split; lia).
    simpl. rewrite Hrun. reflexivity.
Qed.

(** On [example_tree] the value 1 goes left, the threshold itself goes right
    and a missing value follows the default direction, to the right. *)
Example predict_example :
  let tr := mkTrainer example_tree [] [] in
  RTreeTrainer.Predict 2 [float_of_Z 1] [false] 0 tr = Ok (float_of_Z 1)
  /\ RTreeTrainer.Predict 2 [fdiv (float_of_Z 3) (float_of_Z 2)] [false] 0 tr
     = Ok (float_of_Z 2)
  /\ RTreeTrainer.Predict 2 [float_of_Z 1] [true] 0 tr = Ok (float_of_Z 2)
  /\ RTreeTrainer.GetLeafIndex 2 example_tree [float_of_Z 1] [false] 0 = Ok 1.
Proof. repeat split. Qed.

Lemma predict_first_leaf_witness :
  let tr := mkTrainer example_tree [] [] in
  exists leaf,
    RTreeTrainer.GetLeafIndex 2 example_tree [float_of_Z 1] [false] 0 = Ok leaf
    /\ first_leaf example_tree [float_of_Z 1] [false] 0 leaf
    /\ Node.is_leaf (RTree.node example_tree leaf) = true
    /\ RTreeTrainer.Predict 2 [float_of_Z 1] [false] 0 tr
       = Ok (Node.leaf_value (RTree.node example_tree leaf)).
Proof.
  intros tr.
  apply (proj2 (predict_first_leaf 2 tr [float_of_Z 1] [false] 0 eq_refl
                  ltac:(simpl; lia) ltac:(simpl; lia))).
Defined.

Section SparsePredict.

Implicit Types (tr : RTreeTrainer) (line : Line).

Lemma load_line_frame line : forall tr tr1,
  RTreeTrainer.load_line line tr = Ok tr1 ->
  trainer_tree tr1 = trainer_tree tr
  /\ length (tmp_funknown tr1) = length (tmp_funknown tr)
  /\ length (tmp_feat tr1) = length (tmp_feat tr)
  /\ (forall j, j ∉ (fst <$> line) ->
        tmp_funknown tr1 !! j = tmp_funknown tr !! j
        /\ tmp_feat tr1 !! j = tmp_feat tr !! j)
  /\ Forall (fun f => (f < length (tmp_funknown tr))%nat) (fst <$> line).
Proof.
  induction line as [|[f v] line IH]; intros tr tr1; simpl.
  - intros [= <-]. repeat split; auto.
  - unfold Assert. destruct (f <? length (tmp_funknown tr))%nat eqn:Hf; simpl;
      [|discriminate].
    apply Nat.ltb_lt in Hf. intros H.
    destruct (IH _ _ H) as (Ht & Hlu & Hlf & Hfr & Hb).
    cbn [tmp_funknown tmp_feat trainer_tree] in *.
    rewrite length_insert in Hlu. rewrite length_insert in Hlf.
    repeat split; try assumption.
    + apply not_elem_of_cons in H0 as [Hne Hnot].
      rewrite (proj1 (Hfr j Hnot)). apply list_lookup_insert_ne. congruence.
    + apply not_elem_of_cons in H0 as [Hne Hnot].
      rewrite (proj2 (Hfr j Hnot)). apply list_lookup_insert_ne. congruence.
    + constructor; [exact Hf|].
      eapply Forall_impl; [exact Hb|]. intros x Hx. cbn beta in Hx.
      rewrite length_insert in Hx. exact Hx.
Qed.

Lemma unload_line_frame line : forall tr,
  trainer_tree (RTreeTrainer.unload_line line tr) = trainer_tree tr
  /\ tmp_feat (RTreeTrainer.unload_line line tr) = tmp_feat tr
  /\ length (tmp_funknown (RTreeTrainer.unload_line line tr))
     = length (tmp_funknown tr)
  /\ forall j b, tmp_funknown (RTreeTrainer.unload_line line tr) !! j = Some b ->
       b = true \/ ((j ∉ fst <$> line) /\ tmp_funknown tr !! j = Some b).
Proof.
  induction line as [|[f v] line IH]; intros tr; simpl.
  - repeat split. intros j b H. right. split; [apply not_elem_of_nil|exact H].
  - destruct (IH (mkTrainer (trainer_tree tr) (tmp_feat tr)
                    (<[f:=true]> (tmp_funknown tr)))) as (Ht & Hf & Hl & Hm).
    cbn [tmp_funknown tmp_feat trainer_tree] in *.
    rewrite length_insert in Hl. repeat split; try assumption.
    intros j b Hj. destruct (Hm j b Hj) as [->|[Hnot Hjb]]; [left; reflexivity|].
    destruct (decide (f = j)) as [->|Hne].
    + left. apply list_lookup_insert_Some in Hjb as [(_ & <- & _)|[? _]]; congruence.
    + right. rewrite list_lookup_insert_ne in Hjb by exact Hne.
      split; [|exact Hjb]. apply not_elem_of_cons. split; [congruence|exact Hnot].
Qed.

Lemma init_tmpfeat_frame tr tr0 :
  RTreeTrainer.init_tmpfeat tr = Ok tr0 ->
  Forall (fun b => b = true) (tmp_funknown tr) ->
  trainer_tree tr0 = trainer_tree tr
  /\ Forall (fun b => b = true) (tmp_funknown tr0)
  /\ Z.of_nat (length (tmp_feat tr0)) = num_feature (trainer_tree tr)
  /\ (forall j x, tmp_feat tr !! j = Some x -> (j < length (tmp_feat tr0))%nat ->
        tmp_feat tr0 !! j = Some x).
Proof.
  unfold RTreeTrainer.init_tmpfeat, Assert.
  destruct (Z.of_nat (length (tmp_feat tr)) =? num_feature (trainer_tree tr)) eqn:E;
    simpl.
  - intros [= <-] Hall. apply Z.eqb_eq in E. auto.
  - destruct (0 <=? num_feature (trainer_tree tr)) eqn:E0; simpl; [|discriminate].
    apply Z.leb_le in E0. intros [= <-] _.
    cbn [trainer_tree tmp_funknown tmp_feat].
    rewrite length_resize. split; [reflexivity|]. split; [|split].
    + apply Forall_replicate. reflexivity.
    + lia.
    + intros j x Hj Hlt. rewrite ?length_resize in Hlt.
      rewrite lookup_resize;
        first [exact Hj | exact Hlt | eapply lookup_lt_Some; exact Hj].
Qed.

End SparsePredict.

(** C9.  When every entry of the unknown mask is [true] on entry and the
    sparse [Predict] returns, every entry of the mask is [true] again, the
    tree is the one of the entry state, and the entries of the dense scratch
    outside the feature indices of the row hold what they held; the feature
    indices of the row were within the bounds of the mask. *)
Theorem predict_line_restores_mask (fuel : nat) (line : Line) (gid : Z)
    (tr tr' : RTreeTrainer) (v : float) :
  Forall (fun b => b = true) (tmp_funknown tr) ->
  RTreeTrainer.Predict_line fuel line gid tr = Ok (v, tr') ->
  Forall (fun b => b = true) (tmp_funknown tr')
  /\ trainer_tree tr' = trainer_tree tr
  /\ (forall j x, j ∉ (fst <$> line) -> tmp_feat tr !! j = Some x ->
        (j < length (tmp_feat tr'))%nat -> tmp_feat tr' !! j = Some x)
  /\ Z.of_nat (length (tmp_feat tr')) = num_feature (trainer_tree tr)
  /\ Forall (fun f => (f < length (tmp_funknown tr'))%nat) (fst <$> line).
Proof.
  intros Hall. unfold RTreeTrainer.Predict_line.
  destruct (RTreeTrainer.init_tmpfeat tr) as [tr0| |] eqn:Hinit; simpl; try discriminate.
  destruct (RTreeTrainer.load_line line tr0) as [tr1| |] eqn:Hload; simpl;
    try discriminate.
  destruct (RTreeTrainer.GetLeafIndex fuel (trainer_tree tr1) (tmp_feat tr1)
              (tmp_funknown tr1) gid) as [pid| |]; simpl; try discriminate.
  intros [= <- <-].
  destruct (init_tmpfeat_frame _ _ Hinit Hall) as (Ht0 & Hall0 & Hlen0 & Hfeat0).
  destruct (load_line_frame _ _ _ Hload) as (Ht1 & Hlu1 & Hlf1 & Hfr1 & Hb1).
  destruct (unload_line_frame line tr1) as (Ht2 & Hf2 & Hl2 & Hm2).
  split; [|split; [|split; [|split]]].
  - apply Forall_lookup. intros j b Hj.
    destruct (Hm2 j b Hj) as [->|[Hnot Hjb]]; [reflexivity|].
    rewrite (proj1 (Hfr1 j Hnot)) in Hjb.
    exact (proj1 (Forall_lookup _ _) Hall0 j b Hjb).
  - congruence.
  - intros j x Hnot Hj Hlt. rewrite Hf2 in *. rewrite (proj2 (Hfr1 j Hnot)).
    apply Hfeat0; [exact Hj|]. rewrite <- Hlf1. exact Hlt.
  - rewrite Hf2, Hlf1. exact Hlen0.
  - rewrite Hl2, Hlu1. exact Hb1.
Qed.

(** A first sparse prediction on [example_tree]: the scratch is allocated,
    the row [x0 = 1] reaches the left leaf, and the mask is all [true]
    afterwards. *)
Example predict_line_example :
  RTreeTrainer.Predict_line 2 [(0%nat, float_of_Z 1)] 0 (mkTrainer example_tree [] [])
  = Ok (float_of_Z 1, mkTrainer example_tree [float_of_Z 1] [true]).
Proof. reflexivity. Qed.

Lemma predict_line_restores_mask_witness :
  let tr := mkTrainer example_tree [float_of_Z 7] [true] in
  let tr' := mkTrainer example_tree [float_of_Z 1] [true] in
  Forall (fun b => b = true) (tmp_funknown tr')
  /\ trainer_tree tr' = trainer_tree tr
  /\ (forall j x, j ∉ fst <$> [(0%nat, float_of_Z 1)] -> tmp_feat tr !! j = Some x ->
        (j < length (tmp_feat tr'))%nat -> tmp_feat tr' !! j = Some x)
  /\ Z.of_nat (length (tmp_feat tr')) = num_feature (trainer_tree tr)
  /\ Forall (fun f => (f < length (tmp_funknown tr'))%nat)
            (fst <$> [(0%nat, float_of_Z 1)]).
Proof.
  intros tr tr'.
  apply (predict_line_restores_mask 2 [(0%nat, float_of_Z 1)] 0 tr tr' (float_of_Z 1)).
  - repeat constructor.
  - reflexivity.
Defined.

Section SparsePredictReturns.

Implicit Types (tr : RTreeTrainer) (line : Line).

Lemma load_line_ok line : forall tr,
  Forall (fun f => (f < length (tmp_funknown tr))%nat) (fst <$> line) ->
  exists tr1, RTreeTrainer.load_line line tr = Ok tr1.
Proof.
  induction line as [|[f v] line IH]; intros tr Hb; simpl.
  - eauto.
  - inversion Hb as [|? ? Hf Hrest]; subst. simpl in Hf.
    rewrite (proj2 (Nat.ltb_lt _ _) Hf). simpl. apply IH.
    cbn [tmp_funknown]. eapply Forall_impl; [exact Hrest|].
    intros x Hx. cbn beta. rewrite length_insert. exact Hx.
Qed.

(** The sparse [Predict] returns on a finished tree when the feature
    indices of the row are below [num_feature]. *)
Lemma Predict_line_returns h line gid tr :
  finished h (trainer_tree tr) (to_int gid) = true ->
  0 <= num_feature (trainer_tree tr) ->
  length (tmp_funknown tr) = length (tmp_feat tr) ->
  Forall (fun f => Z.of_nat f < num_feature (trainer_tree tr)) (fst <$> line) ->
  exists v tr', RTreeTrainer.Predict_line h line gid tr = Ok (v, tr').
Proof.
  intros Hfin Hnf Hlen Hb. unfold RTreeTrainer.Predict_line.
  assert (Hinit : exists tr0,
             RTreeTrainer.init_tmpfeat tr = Ok tr0
             /\ trainer_tree tr0 = trainer_tree tr
             /\ Z.of_nat (length (tmp_funknown tr0)) = num_feature (trainer_tree tr)).
  { unfold RTreeTrainer.init_tmpfeat, Assert.
    destruct (Z.of_nat (length (tmp_feat tr)) =? num_feature (trainer_tree tr)) eqn:E;
      simpl.
    - apply Z.eqb_eq in E. exists tr. repeat split. rewrite Hlen. exact E.
    - rewrite (proj2 (Z.leb_le _ _) Hnf). simpl. eexists. repeat split.
      cbn [tmp_funknown]. rewrite length_replicate. lia. }
  destruct Hinit as (tr0 & -> & Ht0 & Hl0). simpl.
  destruct (load_line_ok line tr0) as [tr1 Hload].
  { eapply Forall_impl; [exact Hb|]. intros f Hf. cbn beta in *. lia. }
  rewrite Hload. simpl.
  destruct (load_line_frame _ _ _ Hload) as (Ht1 & _).
  unfold RTreeTrainer.GetLeafIndex.
  destruct (finished_traverse h (trainer_tree tr1) (tmp_feat tr1) (tmp_funknown tr1)
              (to_int gid)) as (leaf & -> & _).
  { rewrite Ht1, Ht0. exact Hfin. }
  simpl. eauto.
Qed.

End SparsePredictReturns.

(** ** The forward sweep *)

Section ForwardSweep.

Variable param : TreeParamTrain.
Variables grad hess : list float.
Variables rsum_grad rsum_hess root_cost : double.
Variable entry : list SCEntry.
Variables start end_ : nat.
Variable findex : Z.
Variable parent_base_weight : float.

Let mcw : double := to_double (min_child_weight param).



End ForwardSweep.

(** ** The encoding of the default direction *)

Lemma entry_decode (f : Z) (dl : bool) (lc : float) (st : nat) (ln : Z) (sv : float) :
  0 <= f < 2 ^ 31 ->
  RTSelecter.split_index (RTSelecter.new lc st ln f sv dl) = f
  /\ RTSelecter.default_left (RTSelecter.new lc st ln f sv dl) = dl.
Proof.
  intros Hf. unfold RTSelecter.split_index, RTSelecter.default_left, RTSelecter.new.
  cbn [RTSelecter.sindex].
  change (to_unsigned (Z.shiftl 1 31 - 1)) with (Z.ones 31).
  change (Z.shiftl 1 31) with (2 ^ 31).
  assert (Hsr : Z.shiftr f 31 = 0)
    by (rewrite Z.shiftr_div_pow2 by lia; apply Z.div_small; lia).
  assert (Hland : Z.land f (Z.ones 31) = f)
    by (rewrite Z.land_ones by lia; apply Z.mod_small; lia).
  destruct dl.
  - rewrite Z.land_lor_distr_l, Hland, Z.shiftr_lor, Hsr.
    change (Z.land (2 ^ 31) (Z.ones 31)) with 0.
    change (Z.shiftr (2 ^ 31) 31) with 1.
    rewrite Z.lor_0_r. split; reflexivity.
  - rewrite Hland, Hsr. split; reflexivity.
Qed.

Lemma to_unsigned_small z : 0 <= z < 2 ^ 32 -> to_unsigned z = z.
Proof. intros H. unfold to_unsigned. apply Z.mod_small. exact H. Qed.

Lemma to_int_small z : - 2 ^ 31 <= z < 2 ^ 31 -> to_int z = z.
Proof. intros H. unfold to_int. rewrite Z.mod_small; lia. Qed.


(** Scenario S2: the forward sweep over the column 1, 1, 2, 2 pushes one
    candidate, at position 1, with the gain 8/3, the slice [(0, 2)] and the
    threshold 3/2, and leaves the loop at the last index. *)
Example forward_trace_example :
  forward_trace (example_param 0 1 0 (float_of_Z 1)) example_grad example_hess
    d0 (double_of_Z 4) d0 example_column 0 4 0 f0 4 0 d0 d0
  = [(1%nat,
      RTSelecter.mkEntry (to_float (ddiv (double_of_Z 8) (double_of_Z 3))) 0 2 0
        (fdiv (float_of_Z 3) (float_of_Z 2)))].
Proof. reflexivity. Qed.

Example rt_eps_bits : rt_eps = F32 (S754_finite false 10995116 (-40)).
Proof. reflexivity. Qed.



(** C10.  enumerate_split pushes the result of its local selector into the
    global selector unconditionally.  When the sweeps found no candidate for
    the feature, the entry pushed is the zero-initialised one, with
    [loss_chg = 0], and pushing it leaves the global selector as it was,
    whatever has been pushed into the global selector before. *)
Theorem enumerate_split_no_candidate (param : TreeParamTrain) (grad hess : list float)
    (cs : list RTSelecter.Entry) (tlen : nat) (rsum_grad rsum_hess root_cost : double)
    (entry : list SCEntry) (start end_ : nat) (findex : Z) (parent_base_weight : float) :
  let sglobal := RTSelecter.push_all cs RTSelecter.init in
  let pushed :=
    RTSelecter.select
      (enumerate_local param grad hess rsum_grad rsum_hess root_cost entry start end_
         findex parent_base_weight) in
  enumerate_split param grad hess sglobal tlen rsum_grad rsum_hess root_cost entry
    start end_ findex parent_base_weight
  = RTSelecter.push_back pushed sglobal
  /\ (enumerate_candidates param grad hess rsum_grad rsum_hess root_cost entry start
        end_ findex parent_base_weight = [] ->
      pushed = RTSelecter.zero_entry
      /\ RTSelecter.loss_chg pushed = f0
      /\ RTSelecter.push_back pushed sglobal = sglobal
      /\ enumerate_split param grad hess sglobal tlen rsum_grad rsum_hess root_cost
           entry start end_ findex parent_base_weight = sglobal).
Proof.
  cbv zeta. split; [reflexivity|]. intros Hnone.
  unfold enumerate_split. rewrite enumerate_local_candidates, Hnone. simpl.
  repeat split; apply push_back_zero_entry.
Qed.

(** With [min_child_weight = 5] no position of the column of scenario S2 has
    enough hessian on its left: the feature contributes the initial entry,
    and a global selector that holds a candidate keeps it. *)
Lemma enumerate_split_no_candidate_witness :
  let param := example_param 0 5 0 (float_of_Z 1) in
  let c := RTSelecter.mkEntry (float_of_Z 3) 0 2 7 f0 in
  let sglobal := RTSelecter.push_all [c] RTSelecter.init in
  enumerate_split param example_grad example_hess sglobal 4 d0 (double_of_Z 4) d0
    example_column 0 4 0 f0
  = sglobal.
Proof.
  intros param c sglobal.
  apply (proj2 (enumerate_split_no_candidate param example_grad example_hess [c] 4 d0
                  (double_of_Z 4) d0 example_column 0 4 0 f0)).
  reflexivity.
Defined.

(** ** The column-major reprojection *)

Section Columns.

Variable smat : Image.

Lemma AddBudget_elem aclist f g :
  g ∈ AddBudget aclist f <-> g ∈ aclist \/ g = f.
Proof.
  unfold AddBudget. destruct (decide (f ∈ aclist)) as [Hin|Hnot].
  - split; [auto|]. intros [H| ->]; assumption.
  - rewrite elem_of_app, list_elem_of_singleton. reflexivity.
Qed.

Lemma active_row_elem (row : Line) : forall aclist g,
  g ∈ fold_left (fun aclist fv => AddBudget aclist (fst fv)) row aclist
  <-> g ∈ aclist \/ g ∈ fst <$> row.
Proof.
  induction row as [|[f v] row IH]; intros aclist g; simpl.
  - split; [auto|]. intros [H|H]; [exact H|inversion H].
  - rewrite IH, AddBudget_elem, elem_of_cons. simpl. tauto.
Qed.

(** A feature is active exactly when a row of the task mentions it. *)
Lemma active_list_elem (rows : list nat) g :
  g ∈ active_list smat rows
  <-> exists ridx, ridx ∈ rows /\ g ∈ fst <$> (smat !!! ridx).
Proof.
  unfold active_list.
  assert (H : forall aclist,
             g ∈ fold_left
                   (fun aclist ridx =>
                      fold_left (fun aclist fv => AddBudget aclist (fst fv))
                                (smat !!! ridx) aclist) rows aclist
             <-> g ∈ aclist \/ exists ridx, ridx ∈ rows /\ g ∈ fst <$> (smat !!! ridx)).
  { induction rows as [|r rows IH]; intros aclist; simpl.
    - split; [auto|]. intros [H|(ridx & H & _)]; [exact H|inversion H].
    - rewrite IH, active_row_elem. split.
      + intros [[H|H]|(ridx & H1 & H2)]; [auto| |].
        * right. exists r. split; [apply list_elem_of_here|exact H].
        * right. exists ridx. split; [apply list_elem_of_further, H1|exact H2].
      + intros [H|(ridx & H1 & H2)]; [auto|].
        apply elem_of_cons in H1 as [->|H1]; [auto|].
        right. exists ridx. auto. }
  rewrite H. split; [|auto]. intros [Hnil|Hex]; [inversion Hnil|exact Hex].
Qed.

Lemma column_row_nonempty (row : Line) (ridx f : nat) :
  f ∈ fst <$> row ->
  flat_map (fun fv => if decide (fst fv = f) then [mkSCEntry (snd fv) ridx] else [])
           row <> [].
Proof.
  induction row as [|[g v] row IH]; intros H; [inversion H|].
  rewrite fmap_cons in H. apply elem_of_cons in H. simpl in *.
  destruct (decide (g = f)) as [->|Hne]; simpl; [discriminate|].
  destruct H as [H|H]; [congruence|]. apply IH, H.
Qed.

(** The column of an active feature is not empty. *)
Lemma column_active_nonempty (rows : list nat) f :
  f ∈ active_list smat rows -> (0 < length (column smat rows f))%nat.
Proof.
  intros H. apply active_list_elem in H as (ridx & Hr & Hf).
  unfold column. induction rows as [|r rows IH]; [inversion Hr|].
  simpl. rewrite length_app.
  apply elem_of_cons in Hr as [<-|Hr].
  - pose proof (column_row_nonempty (smat !!! ridx) ridx f Hf) as Hne.
    assert (length (flat_map
              (fun fv => if decide (fst fv = f) then [mkSCEntry (snd fv) ridx] else [])
              (smat !!! ridx)) <> 0%nat) by (intros E; apply Hne, nil_length_inv, E).
    lia.
  - specialize (IH Hr). lia.
Qed.

Lemma row_pointers_range (rows : list nat) : forall aclist start f s e,
  (forall g, g ∈ aclist -> (0 < length (column smat rows g))%nat) ->
  (f, (s, e)) ∈ row_pointers smat rows aclist start ->
  f ∈ aclist /\ (s < e)%nat.
Proof.
  induction aclist as [|g aclist IH]; intros start f s e Hne; simpl;
    [intros H; inversion H|].
  intros H. apply elem_of_cons in H as [[= -> -> ->]|H].
  - split; [apply list_elem_of_here|].
    specialize (Hne g ltac:(apply list_elem_of_here)). lia.
  - apply IH in H as [H1 H2].
    + split; [apply list_elem_of_further, H1|exact H2].
    + intros g' Hg'. apply Hne. apply list_elem_of_further, Hg'.
Qed.

End Columns.

(** ** Node expansion *)

Section Expand.

Context {Rng : Type}.
Variable std_sort : list SCEntry -> list SCEntry.
Variable param : TreeParamTrain.
Variables grad hess : list float.
Variable smat : Image.
Implicit Types (st : Updater Rng) (tsk : Task) (t : RTree).

(** Every candidate of enumerate_split is built by the constructor of
    [Entry] from the feature index of the call. *)
Lemma enumerate_candidates_shape rsum_grad rsum_hess root_cost entry start end_
    findex parent_base_weight c :
  c ∈ enumerate_candidates param grad hess rsum_grad rsum_hess root_cost entry
        start end_ findex parent_base_weight ->
  exists lc s ln sv dl, c = RTSelecter.new lc s ln (to_unsigned findex) sv dl.
Proof.
  unfold enumerate_candidates. intros H.
  apply elem_of_app in H as [H|H].
  - destruct (negb (default_direction param =? 1)); [|inversion H].
    apply list_elem_of_fmap in H as (p & -> & Hp).
    apply forward_trace_shape in Hp as (cg & ch & ->).
    unfold forward_candidate. eauto 10.
  - destruct (negb (default_direction param =? 2)); [|inversion H].
    apply list_elem_of_fmap in H as (p & -> & Hp).
    apply backward_trace_shape in Hp as (cg & ch & ->).
    unfold backward_candidate. eauto 10.
Qed.

(** The loop over the active features returns, and its global selector
    holds what pushing one local result for each feature leaves. *)
Lemma enumerate_features_spec tlen rsum_grad rsum_hess root_cost base_weight :
  forall cols sglobal entry,
    (forall f s e, (f, (s, e)) ∈ cols -> (s < e)%nat) ->
    exists sglobal' entry' locals,
      enumerate_features std_sort param grad hess tlen rsum_grad rsum_hess
        root_cost base_weight cols sglobal entry = Ok (sglobal', entry')
      /\ sglobal' = RTSelecter.push_all locals sglobal
      /\ Forall
           (fun l =>
              l = RTSelecter.zero_entry
              \/ exists f s e ent,
                   (f, (s, e)) ∈ cols
                   /\ l ∈ enumerate_candidates param grad hess rsum_grad rsum_hess
                            root_cost ent s e (to_int (Z.of_nat f))
                            (to_float base_weight))
           locals.
Proof.
  induction cols as [|[f [s e]] cols IH]; intros sglobal entry Hrange; simpl.
  - exists sglobal, entry, []. repeat split. constructor.
  - rewrite (proj2 (Nat.ltb_lt s e)) by (apply (Hrange f); apply list_elem_of_here).
    simpl.
    edestruct IH as (sg' & entry' & locals & Hrun & Hsg & Hall).
    { intros f' s' e' H. apply (Hrange f'). apply list_elem_of_further, H. }
    rewrite Hrun. eexists sg', entry', (_ :: locals).
    split; [reflexivity|]. split; [exact Hsg|].
    constructor.
    + rewrite enumerate_local_candidates.
      destruct (push_all_init_cases
                  (enumerate_candidates param grad hess rsum_grad rsum_hess root_cost
                     (sort_range std_sort s e entry) s e (to_int (Z.of_nat f))
                     (to_float base_weight))) as [Hz|[Hin _]].
      * left. exact Hz.
      * right. exists f, s, e, (sort_range std_sort s e entry).
        split; [apply list_elem_of_here|exact Hin].
    + eapply Forall_impl; [exact Hall|]. intros l [Hz|(f' & s' & e' & ent & Hc & Hin)].
      * left. exact Hz.
      * right. exists f', s', e', ent. split; [apply list_elem_of_further, Hc|exact Hin].
Qed.

(** Enumerating a task returns; the entry selected is the initial one or a
    candidate with a positive gain that the enumerator built for an active
    feature of the task. *)
Lemma enumerate_task_spec tsk st :
  exists r,
    enumerate_task std_sort param grad hess smat tsk st = Ok r
    /\ (RTSelecter.select (fst r) = RTSelecter.zero_entry
        \/ (flt f0 (RTSelecter.loss_chg (RTSelecter.select (fst r))) = true
            /\ exists f lc s ln sv dl,
                 f ∈ active_list smat (task_rows (idset st) tsk)
                 /\ RTSelecter.select (fst r)
                    = RTSelecter.new lc s ln (to_unsigned (to_int (Z.of_nat f))) sv dl)).
Proof.
  unfold enumerate_task.
  set (rows := task_rows (idset st) tsk).
  assert (Hrange : forall f s e,
             (f, (s, e)) ∈ row_pointers smat rows (active_list smat rows) 0 ->
             f ∈ active_list smat rows /\ (s < e)%nat).
  { intros f s e. apply row_pointers_range. apply column_active_nonempty. }
  edestruct (enumerate_features_spec (task_len tsk)) as (sg' & entry' & locals & Hrun & Hsg & Hall).
  { intros f s e H. apply (Hrange f s e H). }
  rewrite Hrun. eexists. split; [reflexivity|]. simpl. subst sg'.
  destruct (push_all_init_cases locals) as [Hz|[Hin Hpos]]; [left; exact Hz|].
  right. split; [exact Hpos|].
  rewrite Forall_forall in Hall. specialize (Hall _ Hin).
  destruct Hall as [Hz|(f & s & e & ent & Hc & Hcand)].
  - rewrite Hz in Hpos. discriminate.
  - apply enumerate_candidates_shape in Hcand as (lc & s' & ln & sv & dl & Heq).
    exists f, lc, s', ln, sv, dl. split; [apply (Hrange f s e Hc)|exact Heq].
Qed.

End Expand.

(** ** The gain invariant *)

Section GainInvariant.

Implicit Types (t : RTree) (n : Node) (s : RTreeNodeStat).

Lemma gain_invariant_set_node t nid n :
  Node.is_leaf n = true \/ Node.is_leaf n = Node.is_leaf (RTree.node t nid) ->
  gain_invariant t -> gain_invariant (RTree.set_node nid n t).
Proof.
  intros Hn [Hlen Hinv]. split; cbn [RTree.set_node nodes stats].
  - rewrite length_insert. exact Hlen.
  - intros i Hi. rewrite length_insert in Hi.
    destruct (decide (i = Z.to_nat nid)) as [->|Hne].
    + rewrite list_lookup_total_insert_eq by exact Hi.
      destruct Hn as [Hn|Hn]; rewrite Hn; [discriminate|]. apply Hinv, Hi.
    + rewrite list_lookup_total_insert_ne by congruence. apply Hinv, Hi.
Qed.

Lemma gain_invariant_set_stat t nid s :
  flt rt_eps (stat_loss_chg s) = true
  \/ stat_loss_chg s = stat_loss_chg (RTree.stat t nid) ->
  gain_invariant t -> gain_invariant (RTree.set_stat nid s t).
Proof.
  intros Hs [Hlen Hinv]. split; cbn [RTree.set_stat nodes stats].
  - rewrite length_insert. exact Hlen.
  - intros i Hi Hleaf.
    destruct (decide (i = Z.to_nat nid)) as [->|Hne].
    + rewrite list_lookup_total_insert_eq by lia.
      destruct Hs as [Hs|Hs]; [exact Hs|]. rewrite Hs. apply Hinv; assumption.
    + rewrite list_lookup_total_insert_ne by congruence. apply Hinv; assumption.
Qed.

Lemma gain_invariant_AddChilds t nid :
  ((Z.to_nat nid < length (nodes t))%nat ->
     flt rt_eps (stat_loss_chg (RTree.stat t nid)) = true) ->
  gain_invariant t -> gain_invariant (RTree.AddChilds nid t).
Proof.
  intros Hgain [Hlen Hinv]. split; cbn [RTree.AddChilds nodes stats].
  - rewrite !length_app, length_insert, Hlen. reflexivity.
  - intros i Hi. rewrite length_app, length_insert in Hi. cbn [length] in Hi.
    destruct (decide (i < length (nodes t))%nat) as [Hlt|Hge].
    + rewrite !lookup_total_app_l by (rewrite ?length_insert; lia).
      destruct (decide (i = Z.to_nat nid)) as [->|Hne].
      * intros _. apply Hgain, Hlt.
      * rewrite list_lookup_total_insert_ne by congruence. apply Hinv, Hlt.
    + rewrite lookup_total_app_r by (rewrite length_insert; lia).
      rewrite length_insert.
      destruct (i - length (nodes t))%nat as [|[|k]]; cbn; discriminate.
Qed.

Lemma gain_invariant_InitModel num_roots num_feature :
  gain_invariant (RTree.InitModel num_roots num_feature).
Proof.
  split; cbn [RTree.InitModel nodes stats].
  - rewrite !length_replicate. reflexivity.
  - intros i Hi. rewrite length_replicate in Hi.
    rewrite lookup_total_replicate_2 by exact Hi. discriminate.
Qed.

End GainInvariant.

Section ExpandDecision.

Context {Rng : Type}.
Variable std_sort : list SCEntry -> list SCEntry.
Variable param : TreeParamTrain.
Variables grad hess : list float.
Variable smat : Image.
Implicit Types (st : Updater Rng) (tsk : Task) (t : RTree).

Lemma GetDepth_ext fuel t t' nid :
  (forall j, node_parent (nodes t' !!! j) = node_parent (nodes t !!! j)) ->
  RTree.GetDepth fuel t' nid = RTree.GetDepth fuel t nid.
Proof.
  intros H. revert nid. induction fuel as [|fuel IH]; intros nid; simpl;
    [reflexivity|].
  unfold RTree.node, Node.is_root, Node.parent. rewrite !H, IH. reflexivity.
Qed.

Lemma try_prune_leaf_gain fuel : forall nid depth st st',
  try_prune_leaf param fuel nid depth st = Ok st' ->
  gain_invariant (tree st) -> gain_invariant (tree st').
Proof.
  induction fuel as [|fuel IH]; intros nid depth st st'; simpl; [discriminate|].
  destruct (Node.is_root (RTree.node (tree st) nid)); [intros [= <-]; auto|].
  set (pid := Node.parent (RTree.node (tree st) nid)).
  match goal with |- context [if ?c then _ else _] => destruct c end.
  - intros Hrun Hinv. apply (IH _ _ _ _ Hrun). cbn [tree with_num_pruned with_tree].
    apply gain_invariant_set_node; [left; reflexivity|].
    apply gain_invariant_set_stat; [right; reflexivity|exact Hinv].
  - intros [= <-] Hinv. cbn [tree with_tree].
    apply gain_invariant_set_stat; [right; reflexivity|exact Hinv].
Qed.

Lemma fold_left_const {A B} (l : list B) (a : A) :
  fold_left (fun acc _ => acc) l a = a.
Proof. induction l as [|x l IH]; simpl; auto. Qed.

(** make_leaf returns on a node that has a depth; the node is then a leaf
    whose value is the learning rate times the weight of the sums. *)
Lemma make_leaf_spec fuel tsk sum_grad sum_hess st depth :
  RTree.GetDepth fuel (tree st) (task_nid tsk) = Ok depth ->
  (Z.to_nat (task_nid tsk) < length (nodes (tree st)))%nat ->
  exists st',
    make_leaf param grad hess fuel tsk sum_grad sum_hess false st = Ok st'
    /\ Node.is_leaf (RTree.node (tree st') (task_nid tsk)) = true
    /\ Node.leaf_value (RTree.node (tree st') (task_nid tsk))
       = fmul (learning_rate param)
              (CalcWeight param sum_grad sum_hess (task_parent_base_weight tsk))
    /\ task_stack st' = task_stack st
    /\ idset st' = idset st.
Proof.
  intros Hdepth Hrange. unfold make_leaf. rewrite fold_left_const.
  cbn [fst snd].
  set (value := fmul _ _).
  set (t := RTree.set_node _ _ _).
  assert (Hpar : forall j, node_parent (nodes t !!! j)
                           = node_parent (nodes (tree st) !!! j)).
  { intros j. subst t. apply ChangeToLeaf_parent. }
  rewrite (GetDepth_ext fuel (tree st) t _ Hpar), Hdepth.
  change (Ok depth ≫= ?k) with (k depth). cbv beta.
  apply GetDepth_Ok in Hdepth as (d & -> & Hfuel & Hd).
  apply (depth_is_ext (tree st) t) in Hd; [|exact Hpar].
  destruct (try_prune_leaf_total param d fuel (task_nid tsk) (Z.of_nat d)
              (with_tree t st) Hd Hfuel)
    as (st' & Hrun & _ & Hframe & _ & _ & Hts & Hid & _).
  exists st'. split; [exact Hrun|].
  assert (Hnode : RTree.node (tree st') (task_nid tsk)
                  = Node.set_leaf value (RTree.node (tree st) (task_nid tsk))).
  { unfold RTree.node at 1. rewrite Hframe.
    - cbn [tree with_tree]. subst t. apply node_set_node_eq, Hrange.
    - intros k Hk. cbn [tree with_tree]. apply (ancestor_acyclic t _ d); assumption. }
  rewrite Hnode. repeat split; assumption.
Qed.

Lemma make_leaf_gain fuel tsk sum_grad sum_hess compute st st' :
  make_leaf param grad hess fuel tsk sum_grad sum_hess compute st = Ok st' ->
  gain_invariant (tree st) -> gain_invariant (tree st').
Proof.
  unfold make_leaf. intros Hrun Hinv.
  destruct (RTree.GetDepth fuel _ _) as [depth| |]; try discriminate.
  apply (try_prune_leaf_gain _ _ _ _ _ Hrun). cbn [tree with_tree].
  apply gain_invariant_set_node; [left; reflexivity|exact Hinv].
Qed.

(** The tree that make_split leaves. *)
Lemma make_split_tree tsk entry num loss_chg base_weight st :
  tree (make_split tsk entry num loss_chg base_weight st)
  = RTree.AddChilds (task_nid tsk)
      (RTree.set_stat (task_nid tsk) (mkStat loss_chg (to_float base_weight) 0)
         (tree st)).
Proof. reflexivity. Qed.

Lemma make_split_gain tsk entry num loss_chg base_weight st :
  flt rt_eps loss_chg = true ->
  gain_invariant (tree st) ->
  gain_invariant (tree (make_split tsk entry num loss_chg base_weight st)).
Proof.
  intros Hgain Hinv. rewrite make_split_tree.
  apply gain_invariant_AddChilds.
  - cbn [RTree.set_stat nodes]. intros Hr. rewrite stat_set_stat_eq; [exact Hgain|].
    rewrite (proj1 Hinv). exact Hr.
  - apply gain_invariant_set_stat; [left; exact Hgain|exact Hinv].
Qed.

Lemma expand_gain fuel tsk st st' :
  expand std_sort param grad hess smat fuel tsk st = Ok st' ->
  gain_invariant (tree st) -> gain_invariant (tree st').
Proof.
  unfold expand.
  destruct (RTree.GetDepth fuel (tree st) (task_nid tsk)) as [depth| |];
    try discriminate.
  change (Ok depth ≫= ?k) with (k depth). cbv beta.
  set (st0 := if max_depth st <? depth then with_max_depth depth st else st).
  assert (Ht0 : tree st0 = tree st) by (subst st0; destruct (_ <? _); reflexivity).
  rewrite <- Ht0.
  destruct (param_max_depth param <=? depth); [apply make_leaf_gain|].
  destruct (cannot_split param _ depth); [apply make_leaf_gain|].
  destruct (enumerate_task std_sort param grad hess smat tsk st0) as [r| |];
    try discriminate.
  change (Ok r ≫= ?k) with (k r). cbv beta.
  destruct (flt rt_eps (RTSelecter.loss_chg (RTSelecter.select (fst r)))) eqn:Hgain;
    [|apply make_leaf_gain].
  intros [= <-] Hinv. apply make_split_gain; [exact Hgain|].
  cbn [tree with_tree]. apply gain_invariant_set_node; [right; reflexivity|exact Hinv].
Qed.

Lemma run_tasks_gain fuel : forall st st',
  run_tasks std_sort param grad hess smat fuel st = Ok st' ->
  gain_invariant (tree st) -> gain_invariant (tree st').
Proof.
  induction fuel as [|fuel IH]; intros st st'; [discriminate|].
  cbn [run_tasks]. unfold next_task.
  destruct (task_stack st) as [|tsk rest]; [intros [= <-]; auto|].
  destruct (expand std_sort param grad hess smat (S fuel) tsk _) as [st1| |] eqn:Hexp;
    try discriminate.
  change (Ok st1 ≫= ?k) with (k st1). cbv beta.
  intros Hrun Hinv. apply (IH _ _ Hrun). apply (expand_gain _ _ _ _ Hexp). exact Hinv.
Qed.

End ExpandDecision.

(** What expand does with a task that is not terminated early. *)
Lemma expand_decision {Rng : Type} (std_sort : list SCEntry -> list SCEntry)
    (param : TreeParamTrain) (grad hess : list float) (smat : Image)
    (fuel : nat) (tsk : Task) (st : Updater Rng) :
  let nid := task_nid tsk in
  let rsum_grad := fst (task_sums grad hess tsk st) in
  let rsum_hess := snd (task_sums grad hess tsk st) in
  let base_weight :=
    CalcWeight param rsum_grad rsum_hess (task_parent_base_weight tsk) in
  forall depth,
        RTree.GetDepth fuel (tree st) nid = Ok depth ->
        (Z.to_nat nid < length (nodes (tree st)))%nat ->
        length (stats (tree st)) = length (nodes (tree st)) ->
        depth < param_max_depth param ->
        cannot_split param rsum_hess depth = false ->
        exists r st',
          enumerate_task std_sort param grad hess smat tsk st = Ok r
          /\ expand std_sort param grad hess smat fuel tsk st = Ok st'
          /\ (flt rt_eps (RTSelecter.loss_chg (RTSelecter.select (fst r))) = true ->
                Node.is_leaf (RTree.node (tree st') nid) = false
                /\ Node.split_index (RTree.node (tree st') nid)
                   = RTSelecter.split_index (RTSelecter.select (fst r))
                /\ Node.split_cond (RTree.node (tree st') nid)
                   = RTSelecter.split_value (RTSelecter.select (fst r))
                /\ Node.default_left (RTree.node (tree st') nid)
                   = RTSelecter.default_left (RTSelecter.select (fst r))
                /\ stat_loss_chg (RTree.stat (tree st') nid)
                   = RTSelecter.loss_chg (RTSelecter.select (fst r))
                /\ flt rt_eps (stat_loss_chg (RTree.stat (tree st') nid)) = true
                /\ length (task_stack st') = S (S (length (task_stack st))))
          /\ (flt rt_eps (RTSelecter.loss_chg (RTSelecter.select (fst r))) = false ->
                Node.is_leaf (RTree.node (tree st') nid) = true
                /\ Node.leaf_value (RTree.node (tree st') nid)
                   = fmul (learning_rate param) base_weight
                /\ task_stack st' = task_stack st).
Proof.
  cbv zeta. intros depth Hdepth Hrange Hlen Hmax Hgate.
    destruct (enumerate_task_spec std_sort param grad hess smat tsk st) as (r & Hr & _).
    exists r. unfold expand. rewrite Hdepth.
    change (Ok depth ≫= ?k) with (k depth). cbv beta.
    set (st0 := if max_depth st <? depth then with_max_depth depth st else st).
    assert (Ht0 : tree st0 = tree st) by (subst st0; destruct (_ <? _); reflexivity).
    assert (Hi0 : idset st0 = idset st) by (subst st0; destruct (_ <? _); reflexivity).
    assert (Hs0 : task_stack st0 = task_stack st)
      by (subst st0; destruct (_ <? _); reflexivity).
    assert (Hsum : task_sums grad hess tsk st0 = task_sums grad hess tsk st)
      by (unfold task_sums; rewrite Hi0; reflexivity).
    assert (Hen : enumerate_task std_sort param grad hess smat tsk st0 = Ok r)
      by (unfold enumerate_task, task_sums in *; rewrite Hi0; exact Hr).
    rewrite (proj2 (Z.leb_gt _ _) Hmax), Hsum, Hgate, Hen.
    change (Ok r ≫= ?k) with (k r). cbv beta.
    destruct (flt rt_eps (RTSelecter.loss_chg (RTSelecter.select (fst r)))) eqn:Hgain.
    + eexists. split; [exact Hr|]. split; [reflexivity|].
      split; [intros _|discriminate].
      rewrite make_split_tree. cbn [tree with_tree]. rewrite Ht0.
      set (e := RTSelecter.select (fst r)) in *.
      set (n := Node.set_split _ _ _ _).
      set (s := mkStat _ _ _).
      assert (Hnode : RTree.node
                        (RTree.AddChilds (task_nid tsk)
                           (RTree.set_stat (task_nid tsk) s
                              (RTree.set_node (task_nid tsk) n (tree st))))
                        (task_nid tsk)
                      = Node.set_children (Z.of_nat (length (nodes (tree st))))
                          (Z.of_nat (length (nodes (tree st))) + 1) n).
      { rewrite node_AddChilds_eq
          by (cbn [RTree.set_stat RTree.set_node nodes]; rewrite length_insert;
              exact Hrange).
        cbn [RTree.set_stat RTree.set_node nodes]. rewrite length_insert. f_equal.
        apply (node_set_node_eq (tree st)), Hrange. }
      assert (Hstat : RTree.stat
                        (RTree.AddChilds (task_nid tsk)
                           (RTree.set_stat (task_nid tsk) s
                              (RTree.set_node (task_nid tsk) n (tree st))))
                        (task_nid tsk) = s).
      { unfold RTree.stat. rewrite stat_AddChilds
          by (cbn [RTree.set_stat RTree.set_node stats]; rewrite length_insert; lia).
        apply (stat_set_stat_eq (RTree.set_node (task_nid tsk) n (tree st))).
        cbn [RTree.set_node stats]. lia. }
      rewrite Hnode, Hstat.
      split; [apply Z.eqb_neq; cbn [Node.set_children node_cleft]; lia|].
      repeat split; try exact Hgain.
      cbn [make_split add_task task_stack with_idset with_tree length].
      rewrite Hs0. reflexivity.
    + rewrite <- Ht0 in Hdepth, Hrange.
      destruct (make_leaf_spec param grad hess fuel tsk
                  (fst (task_sums grad hess tsk st)) (snd (task_sums grad hess tsk st))
                  st0 depth Hdepth Hrange) as (st' & Hrun & Hleaf & Hval & Hts & _).
      exists st'. split; [exact Hr|]. split; [exact Hrun|].
      split; [discriminate|intros _].
      repeat split; [exact Hleaf|exact Hval|congruence].
Qed.

(** C2.  For a task that neither the depth check nor the [cannot_split] gate
    terminates, expand installs a split at the node of the task exactly when
    the best [loss_chg] of the global selector is strictly greater than
    [rt_eps]: the node then has children, carries the split of the selected
    entry, and its statistics record that [loss_chg]; two tasks are pushed.
    Otherwise the node becomes a leaf of value [learning_rate * base_weight]
    with [base_weight = CalcWeight( rsum_grad, rsum_hess, parent_base_weight )].
    Consequently every split node carries a [loss_chg] above [rt_eps]:
    expand, and the loop of do_boost, preserve [gain_invariant]. *)
Theorem expand_split_iff_gain {Rng : Type} (std_sort : list SCEntry -> list SCEntry)
    (param : TreeParamTrain) (grad hess : list float) (smat : Image)
    (fuel : nat) (tsk : Task) (st : Updater Rng) :
  let nid := task_nid tsk in
  let rsum_grad := fst (task_sums grad hess tsk st) in
  let rsum_hess := snd (task_sums grad hess tsk st) in
  let base_weight :=
    CalcWeight param rsum_grad rsum_hess (task_parent_base_weight tsk) in
  (forall st',
     expand std_sort param grad hess smat fuel tsk st = Ok st' ->
     gain_invariant (tree st) -> gain_invariant (tree st'))
  /\ (forall st',
        run_tasks std_sort param grad hess smat fuel st = Ok st' ->
        gain_invariant (tree st) -> gain_invariant (tree st'))
  /\ (forall depth,
        RTree.GetDepth fuel (tree st) nid = Ok depth ->
        (Z.to_nat nid < length (nodes (tree st)))%nat ->
        length (stats (tree st)) = length (nodes (tree st)) ->
        depth < param_max_depth param ->
        cannot_split param rsum_hess depth = false ->
        exists r st',
          enumerate_task std_sort param grad hess smat tsk st = Ok r
          /\ expand std_sort param grad hess smat fuel tsk st = Ok st'
          /\ (flt rt_eps (RTSelecter.loss_chg (RTSelecter.select (fst r))) = true ->
                Node.is_leaf (RTree.node (tree st') nid) = false
                /\ Node.split_index (RTree.node (tree st') nid)
                   = RTSelecter.split_index (RTSelecter.select (fst r))
                /\ Node.split_cond (RTree.node (tree st') nid)
                   = RTSelecter.split_value (RTSelecter.select (fst r))
                /\ Node.default_left (RTree.node (tree st') nid)
                   = RTSelecter.default_left (RTSelecter.select (fst r))
                /\ stat_loss_chg (RTree.stat (tree st') nid)
                   = RTSelecter.loss_chg (RTSelecter.select (fst r))
                /\ flt rt_eps (stat_loss_chg (RTree.stat (tree st') nid)) = true
                /\ length (task_stack st') = S (S (length (task_stack st))))
          /\ (flt rt_eps (RTSelecter.loss_chg (RTSelecter.select (fst r))) = false ->
                Node.is_leaf (RTree.node (tree st') nid) = true
                /\ Node.leaf_value (RTree.node (tree st') nid)
                   = fmul (learning_rate param) base_weight
                /\ task_stack st' = task_stack st)).
Proof.
  cbv zeta. split; [|split].
  - intros st'. apply expand_gain.
  - intros st'. apply run_tasks_gain.
  - apply expand_decision.
Qed.

(** Scenario S2: the root is split at [x0 < 3/2] with default right, the
    idset is rearranged to the default part 2, 3 followed by the split part
    0, 1, and the tasks of the two children are pushed, the split part on
    top. *)
Example expand_example :
  expand example_sort (example_param 0 1 0 (float_of_Z 1)) example_grad example_hess
    example_smat 5 example_root_task example_root_state
  = Ok (mkUpdater
          (mkTree
             [mkNode (-1) 1 2 0 false (fdiv (float_of_Z 3) (float_of_Z 2));
              Node.fresh 0; Node.fresh 0]
             [mkStat (to_float (ddiv (double_of_Z 8) (double_of_Z 3))) f0 0;
              mkStat f0 f0 0; mkStat f0 f0 0]
             1 1)
          0 0 [mkTask 1 2 2 f0; mkTask 2 0 2 f0] [2; 3; 0; 1]%nat tt).
Proof. vm_compute. reflexivity. Qed.

Lemma expand_split_iff_gain_witness :
  exists st',
    expand example_sort (example_param 0 1 0 (float_of_Z 1)) example_grad example_hess
      example_smat 5 example_root_task example_root_state = Ok st'
    /\ Node.is_leaf (RTree.node (tree st') 0) = false
    /\ flt rt_eps (stat_loss_chg (RTree.stat (tree st') 0)) = true
    /\ gain_invariant (tree st').
Proof.
  pose proof (expand_split_iff_gain example_sort (example_param 0 1 0 (float_of_Z 1))
                example_grad example_hess example_smat 5 example_root_task
                example_root_state) as (Hinv & _ & Hdec).
  destruct (Hdec 0 eq_refl ltac:(simpl; lia) eq_refl eq_refl eq_refl)
    as (r & st' & Hr & Hexp & Hsplit & _).
  exists st'. split; [exact Hexp|].
  assert (Hgain : flt rt_eps (RTSelecter.loss_chg (RTSelecter.select (fst r))) = true).
  { vm_compute in Hr. injection Hr as <-. reflexivity. }
  destruct (Hsplit Hgain) as (Hleaf & _ & _ & _ & _ & Hstat & _).
  repeat split; [exact Hleaf|exact Hstat| |].
  - apply (proj1 (Hinv st' Hexp (gain_invariant_InitModel 1 1))).
  - apply (proj2 (Hinv st' Hexp (gain_invariant_InitModel 1 1))).
Defined.

(** C6.  A selector entry built from a feature index below [2^31] and a
    default direction decodes to that pair: [split_index] masks with
    [(1 << 31) - 1] and [default_left] reads bit 31.  Every split that expand
    installs carries the pair [(findex, default_left)] from which the
    enumerator built the selected candidate. *)
Theorem split_index_roundtrip :
  (forall (f : Z) (dl : bool) lc st ln sv,
      0 <= f < 2 ^ 31 ->
      RTSelecter.split_index (RTSelecter.new lc st ln f sv dl) = f
      /\ RTSelecter.split_index (RTSelecter.new lc st ln f sv dl)
         = Z.land (RTSelecter.sindex (RTSelecter.new lc st ln f sv dl)) (2 ^ 31 - 1)
      /\ RTSelecter.default_left (RTSelecter.new lc st ln f sv dl) = dl
      /\ Z.testbit (RTSelecter.sindex (RTSelecter.new lc st ln f sv dl)) 31 = dl)
  /\ (forall (Rng : Type) (std_sort : list SCEntry -> list SCEntry)
        (param : TreeParamTrain) (grad hess : list float) (smat : Image)
        (fuel : nat) (tsk : Task) (st st' : Updater Rng) depth r,
        (forall ridx fv, fv ∈ smat !!! ridx -> Z.of_nat (fst fv) < 2 ^ 31) ->
        RTree.GetDepth fuel (tree st) (task_nid tsk) = Ok depth ->
        (Z.to_nat (task_nid tsk) < length (nodes (tree st)))%nat ->
        length (stats (tree st)) = length (nodes (tree st)) ->
        depth < param_max_depth param ->
        cannot_split param (snd (task_sums grad hess tsk st)) depth = false ->
        enumerate_task std_sort param grad hess smat tsk st = Ok r ->
        flt rt_eps (RTSelecter.loss_chg (RTSelecter.select (fst r))) = true ->
        expand std_sort param grad hess smat fuel tsk st = Ok st' ->
        exists f dl lc s ln sv,
          f ∈ active_list smat (task_rows (idset st) tsk)
          /\ RTSelecter.select (fst r) = RTSelecter.new lc s ln (Z.of_nat f) sv dl
          /\ Node.split_index (RTree.node (tree st') (task_nid tsk)) = Z.of_nat f
          /\ Node.default_left (RTree.node (tree st') (task_nid tsk)) = dl).
Proof.
  split.
  - intros f dl lc st ln sv Hf.
    destruct (entry_decode f dl lc st ln sv Hf) as [Hsi Hdl].
    repeat split; [exact Hsi|exact Hdl|].
    unfold RTSelecter.new. cbn [RTSelecter.sindex].
    change (Z.shiftl 1 31) with (2 ^ 31).
    destruct dl.
    + rewrite Z.lor_spec, Z.pow2_bits_true by lia. apply orb_true_r.
    + rewrite Z.testbit_false by lia. rewrite Z.div_small by lia. reflexivity.
  - intros Rng std_sort param grad hess smat fuel tsk st st' depth r
      Hfeat Hdepth Hrange Hlen Hmax Hgate Hr Hgain Hexp.
    destruct (expand_decision std_sort param grad hess smat fuel tsk st depth
                Hdepth Hrange Hlen Hmax Hgate) as (r' & st'' & Hr' & Hexp' & Hsplit & _).
    rewrite Hr in Hr'. injection Hr' as <-.
    rewrite Hexp in Hexp'. injection Hexp' as <-.
    destruct (Hsplit Hgain) as (_ & Hsi & _ & Hdl & _).
    destruct (enumerate_task_spec std_sort param grad hess smat tsk st)
      as (r2 & Hr2 & Hcase).
    rewrite Hr in Hr2. injection Hr2 as <-.
    destruct Hcase as [Hz|(_ & f & lc & s & ln & sv & dl & Hact & Heq)].
    + rewrite Hz in Hgain. discriminate.
    + assert (Hf : 0 <= Z.of_nat f < 2 ^ 31).
      { split; [lia|]. apply active_list_elem in Hact as (ridx & _ & Hin).
        apply list_elem_of_fmap in Hin as (fv & -> & Hfv). exact (Hfeat ridx fv Hfv). }
      rewrite to_int_small, to_unsigned_small in Heq by lia.
      exists f, dl, lc, s, ln, sv.
      destruct (entry_decode (Z.of_nat f) dl lc s ln sv Hf) as [Hsi' Hdl'].
      rewrite Heq in Hsi, Hdl. rewrite Hsi' in Hsi. rewrite Hdl' in Hdl.
      repeat split; assumption.
Qed.

Lemma split_index_roundtrip_witness :
  (RTSelecter.split_index (RTSelecter.new f0 0 0 5 f0 true) = 5
   /\ RTSelecter.split_index (RTSelecter.new f0 0 0 5 f0 true)
      = Z.land (RTSelecter.sindex (RTSelecter.new f0 0 0 5 f0 true)) (2 ^ 31 - 1)
   /\ RTSelecter.default_left (RTSelecter.new f0 0 0 5 f0 true) = true
   /\ Z.testbit (RTSelecter.sindex (RTSelecter.new f0 0 0 5 f0 true)) 31 = true)
  /\ exists f dl lc s ln sv,
       f ∈ active_list example_smat (task_rows (idset example_root_state) example_root_task)
       /\ RTSelecter.new (to_float (ddiv (double_of_Z 8) (double_of_Z 3))) 0 2 0
            (fdiv (float_of_Z 3) (float_of_Z 2)) false
          = RTSelecter.new lc s ln (Z.of_nat f) sv dl
       /\ Node.split_index
            (RTree.node
               (mkTree
                  [mkNode (-1) 1 2 0 false (fdiv (float_of_Z 3) (float_of_Z 2));
                   Node.fresh 0; Node.fresh 0]
                  [mkStat (to_float (ddiv (double_of_Z 8) (double_of_Z 3))) f0 0;
                   mkStat f0 f0 0; mkStat f0 f0 0]
                  1 1) 0)
          = Z.of_nat f
       /\ Node.default_left
            (RTree.node
               (mkTree
                  [mkNode (-1) 1 2 0 false (fdiv (float_of_Z 3) (float_of_Z 2));
                   Node.fresh 0; Node.fresh 0]
                  [mkStat (to_float (ddiv (double_of_Z 8) (double_of_Z 3))) f0 0;
                   mkStat f0 f0 0; mkStat f0 f0 0]
                  1 1) 0)
          = dl.
Proof.
  split.
  - apply (proj1 split_index_roundtrip). lia.
  - apply (proj2 split_index_roundtrip unit example_sort
             (example_param 0 1 0 (float_of_Z 1)) example_grad example_hess
             example_smat 5%nat example_root_task example_root_state
             (mkUpdater
                (mkTree
                   [mkNode (-1) 1 2 0 false (fdiv (float_of_Z 3) (float_of_Z 2));
                    Node.fresh 0; Node.fresh 0]
                   [mkStat (to_float (ddiv (double_of_Z 8) (double_of_Z 3))) f0 0;
                    mkStat f0 f0 0; mkStat f0 f0 0]
                   1 1)
                0 0 [mkTask 1 2%nat 2%nat f0; mkTask 2 0%nat 2%nat f0]
                [2; 3; 0; 1]%nat tt)
             0
             (RTSelecter.mk
                (RTSelecter.new (to_float (ddiv (double_of_Z 8) (double_of_Z 3))) 0 2 0
                   (fdiv (float_of_Z 3) (float_of_Z 2)) false),
              example_column)).
    + intros ridx fv Hfv.
      do 4 (destruct ridx as [|ridx];
            [apply list_elem_of_singleton in Hfv; subst fv; reflexivity|]).
      inversion Hfv.
    + reflexivity.
    + simpl. lia.
    + reflexivity.
    + reflexivity.
    + reflexivity.
    + vm_compute. reflexivity.
    + reflexivity.
    + vm_compute. reflexivity.
Defined.

(** ** The partition of the idset *)

Section Partition.

Implicit Types (l q buf qset : list nat).

Lemma take_S_drop {A} `{Inhabited A} (l : list A) (n m : nat) :
  (m < length l)%nat ->
  take (S n) (drop m l) = l !!! m :: take n (drop (S m) l).
Proof.
  intros Hm. rewrite (drop_S l (l !!! m) m); [reflexivity|].
  apply list_lookup_lookup_total_lt, Hm.
Qed.

(** The removal loop of make_split, from iteration [i] on: the buffer
    keeps its length, the part below the write position and the part
    behind the slice are not touched, and the rows kept are written from
    the write position on. *)
Lemma remove_qset_spec n : forall i top off qset buf,
  (top <= i)%nat -> (top <= length qset)%nat -> (off + i + n <= length buf)%nat ->
  length (remove_qset n i top off qset buf) = length buf
  /\ (forall k, (k < off + i - top)%nat ->
        remove_qset n i top off qset buf !!! k = buf !!! k)
  /\ (forall k,
        (k < length (keep_rest (take n (drop (off + i) buf)) (drop top qset)))%nat ->
        remove_qset n i top off qset buf !!! (off + i - top + k)%nat
        = keep_rest (take n (drop (off + i) buf)) (drop top qset) !!! k)
  /\ (forall k, (off + i + n <= k)%nat ->
        remove_qset n i top off qset buf !!! k = buf !!! k).
Proof.
  induction n as [|n IH]; intros i top off qset buf Hti Htq Hlen.
  - simpl. repeat split; auto. intros k Hk. lia.
  - cbn [remove_qset]. rewrite take_S_drop by lia.
    set (x := buf !!! (off + i)%nat).
    assert (Hkeep : forall buf1 top1,
               buf1 = <[(off + (i - top))%nat := x]> buf -> top1 = top ->
               keep_rest (x :: take n (drop (S (off + i)) buf)) (drop top qset)
               = x :: keep_rest (take n (drop (off + S i) buf1)) (drop top1 qset) ->
               length (remove_qset n (S i) top1 off qset buf1) = length buf
               /\ (forall k, (k < off + i - top)%nat ->
                     remove_qset n (S i) top1 off qset buf1 !!! k = buf !!! k)
               /\ (forall k,
                     (k < length (keep_rest (x :: take n (drop (S (off + i)) buf))
                                    (drop top qset)))%nat ->
                     remove_qset n (S i) top1 off qset buf1 !!! (off + i - top + k)%nat
                     = keep_rest (x :: take n (drop (S (off + i)) buf))
                         (drop top qset) !!! k)
               /\ (forall k, (off + i + S n <= k)%nat ->
                     remove_qset n (S i) top1 off qset buf1 !!! k = buf !!! k)).
    { intros buf1 top1 -> -> Hk.
      destruct (IH (S i) top off qset (<[(off + (i - top))%nat := x]> buf))
        as (H1 & H2 & H3 & H4); [lia|lia|rewrite length_insert; lia|].
      rewrite length_insert in H1. rewrite Hk.
      split; [exact H1|]. split; [|split].
      - intros k Hlt. rewrite H2 by lia.
        apply list_lookup_total_insert_ne. lia.
      - intros [|k] Hlt.
        + rewrite Nat.add_0_r, H2 by lia.
          replace (off + (i - top))%nat with (off + i - top)%nat by lia.
          apply list_lookup_total_insert_eq. lia.
        + cbn [length] in Hlt.
          replace (off + i - top + S k)%nat with (off + S i - top + k)%nat by lia.
          rewrite H3 by lia. reflexivity.
      - intros k Hge. rewrite H4 by lia.
        apply list_lookup_total_insert_ne. lia. }
    assert (Hdrop : drop (off + S i) (<[(off + (i - top))%nat := x]> buf)
                    = drop (S (off + i)) buf).
    { rewrite drop_insert_lt by lia. f_equal. lia. }
    destruct (top <? length qset)%nat eqn:Htop.
    + apply Nat.ltb_lt in Htop.
      assert (Hq : drop top qset = qset !!! top :: drop (S top) qset)
        by (apply drop_S, list_lookup_lookup_total_lt, Htop).
      destruct (x =? qset !!! top)%nat eqn:Heq; cbn [negb].
      * (* the row is in qset: the pointer advances *)
        destruct (IH (S i) (S top) off qset buf) as (H1 & H2 & H3 & H4);
          [lia|lia|lia|].
        rewrite Hq. cbn [keep_rest]. rewrite Heq.
        replace (off + S i - S top)%nat with (off + i - top)%nat in * by lia.
        replace (off + S i)%nat with (S (off + i)) in * by lia.
        repeat split; try assumption. intros k Hk. apply H4. lia.
      * apply Hkeep; [reflexivity|reflexivity|].
        rewrite Hdrop, Hq. cbn [keep_rest]. rewrite Heq. reflexivity.
    + apply Nat.ltb_ge in Htop.
      assert (length qset = top) by lia. subst top.
      apply Hkeep; [reflexivity|reflexivity|].
      rewrite drop_all. cbn [keep_rest]. rewrite Hdrop. reflexivity.
Qed.

End Partition.

Section PartitionFacts.

Implicit Types (l q buf qset : list nat).

Lemma keep_rest_Forall (P : nat -> Prop) l : forall q,
  Forall P l -> Forall P (keep_rest l q).
Proof.
  induction l as [|x l IH]; intros q H; [constructor|].
  inversion H as [|? ? Hx Hl]; subst. cbn [keep_rest].
  destruct q as [|y q]; [constructor; auto|].
  destruct (x =? y)%nat; [auto|constructor; auto].
Qed.

Lemma keep_rest_sorted l : forall q,
  StronglySorted le l -> StronglySorted le (keep_rest l q).
Proof.
  induction l as [|x l IH]; intros q H; [constructor|].
  apply StronglySorted_inv in H as [Hl Hx]. cbn [keep_rest].
  destruct q as [|y q].
  - constructor; [apply IH, Hl|apply keep_rest_Forall, Hx].
  - destruct (x =? y)%nat; [apply IH, Hl|].
    constructor; [apply IH, Hl|apply keep_rest_Forall, Hx].
Qed.

(** On a sorted slice the pass removes exactly the rows of a strictly
    sorted [q] whose rows all occur in the slice. *)
Lemma keep_rest_perm l : forall q,
  StronglySorted le l -> StronglySorted lt q -> (forall y, y ∈ q -> y ∈ l) ->
  keep_rest l q ++ q ≡ₚ l.
Proof.
  induction l as [|x l IH]; intros q Hl Hq Hsub.
  - destruct q as [|y q]; [reflexivity|].
    specialize (Hsub y ltac:(apply list_elem_of_here)). inversion Hsub.
  - apply StronglySorted_inv in Hl as [Hl Hx]. cbn [keep_rest].
    destruct q as [|y q].
    + rewrite app_nil_r. f_equiv. rewrite <- (IH [] Hl) at 2.
      * rewrite app_nil_r. reflexivity.
      * constructor.
      * intros y Hy. inversion Hy.
    + apply StronglySorted_inv in Hq as [Hq Hy].
      rewrite Forall_forall in Hx, Hy.
      destruct (x =? y)%nat eqn:Heq.
      * apply Nat.eqb_eq in Heq. subst y.
        rewrite <- Permutation_middle. f_equiv. apply (IH q Hl Hq).
        intros z Hz. specialize (Hsub z ltac:(apply list_elem_of_further, Hz)).
        apply elem_of_cons in Hsub as [Hzx|Hsub]; [|exact Hsub].
        specialize (Hy z Hz). lia.
      * apply Nat.eqb_neq in Heq. cbn [app]. f_equiv.
        apply (IH (y :: q) Hl); [constructor; [exact Hq|apply Forall_forall, Hy]|].
        intros z Hz. pose proof (Hsub z Hz) as Hzl.
        apply elem_of_cons in Hzl as [Hzx|Hzl]; [|exact Hzl].
        exfalso. subst z.
        pose proof (Hsub y ltac:(apply list_elem_of_here)) as Hyl.
        apply elem_of_cons in Hyl as [Hyl|Hyl]; [congruence|].
        specialize (Hx y Hyl).
        apply elem_of_cons in Hz as [Hz|Hz]; [congruence|].
        specialize (Hy x Hz). lia.
Qed.

Lemma StronglySorted_le_lt l :
  StronglySorted le l -> NoDup l -> StronglySorted lt l.
Proof.
  induction 1 as [|x l Hl IH Hx]; intros Hnd; [constructor|].
  apply NoDup_cons in Hnd as [Hnot Hnd].
  constructor; [apply IH, Hnd|].
  rewrite Forall_forall in *. intros y Hy. specialize (Hx y Hy).
  assert (x <> y) by (intros ->; contradiction). lia.
Qed.

(** The loop that copies [qset] behind the default part. *)
Lemma fill_back_spec n : forall i off qset buf,
  (off + i + n <= length buf)%nat ->
  length (fill_back n i off qset buf) = length buf
  /\ (forall k, (k < off + i \/ off + i + n <= k)%nat ->
        fill_back n i off qset buf !!! k = buf !!! k)
  /\ (forall k, (k < n)%nat ->
        fill_back n i off qset buf !!! (off + i + k)%nat = qset !!! (i + k)%nat).
Proof.
  induction n as [|n IH]; intros i off qset buf Hlen; cbn [fill_back].
  - repeat split; auto. intros k Hk. lia.
  - destruct (IH (S i) off qset (<[(off + i)%nat := qset !!! i]> buf))
      as (H1 & H2 & H3); [rewrite length_insert; lia|].
    rewrite length_insert in H1. split; [exact H1|]. split.
    + intros k Hk. rewrite H2 by lia. apply list_lookup_total_insert_ne. lia.
    + intros [|k] Hk.
      * rewrite !Nat.add_0_r, H2 by lia. apply list_lookup_total_insert_eq. lia.
      * replace (off + i + S k)%nat with (off + S i + k)%nat by lia.
        rewrite H3 by lia. f_equal. lia.
Qed.

Lemma map_seq_lookup (f : nat -> nat) l :
  (forall k, (k < length l)%nat -> f k = l !!! k) ->
  map f (seq 0 (length l)) = l.
Proof.
  intros H. apply list_eq. intros k.
  change (map f (seq 0 (length l))) with (f <$> seq 0 (length l)).
  rewrite list_lookup_fmap.
  destruct (decide (k < length l)%nat) as [Hk|Hk].
  - rewrite lookup_seq_lt by exact Hk. simpl. rewrite H by exact Hk.
    symmetry. apply list_lookup_lookup_total_lt, Hk.
  - rewrite lookup_seq_ge by lia. symmetry. apply lookup_ge_None. lia.
Qed.

Lemma task_rows_take_drop buf tsk :
  (task_idset tsk + task_len tsk <= length buf)%nat ->
  task_rows buf tsk = take (task_len tsk) (drop (task_idset tsk) buf).
Proof.
  intros Hlen. unfold task_rows.
  set (l := take (task_len tsk) (drop (task_idset tsk) buf)).
  assert (Hl : length l = task_len tsk)
    by (subst l; rewrite length_take, length_drop; lia).
  rewrite <- Hl. apply map_seq_lookup. intros k Hk. subst l.
  rewrite lookup_total_take_lt by lia. rewrite lookup_total_drop. reflexivity.
Qed.

End PartitionFacts.

Section MakeSplit.

Context {Rng : Type}.
Implicit Types (st : Updater Rng) (tsk : Task).

(** The idset buffer after the removal loop and the fill-back loop: the
    rows kept come first, in their order, and the sorted [qset] follows;
    nothing outside the slice is written. *)
Lemma partition_buffer (off len : nat) (qset buf : list nat) :
  (off + len <= length buf)%nat ->
  StronglySorted le (take len (drop off buf)) ->
  StronglySorted lt qset ->
  (forall y, y ∈ qset -> y ∈ take len (drop off buf)) ->
  let kept := keep_rest (take len (drop off buf)) qset in
  let buf' :=
    fill_back (length qset) 0 (off + (len - length qset)) qset
      (remove_qset len 0 0 off qset buf) in
  (length kept + length qset = len)%nat
  /\ kept ++ qset ≡ₚ take len (drop off buf)
  /\ length buf' = length buf
  /\ map (fun i => buf' !!! (off + i)%nat) (seq 0 (len - length qset)) = kept
  /\ map (fun i => buf' !!! (off + (len - length qset) + i)%nat)
         (seq 0 (length qset)) = qset
  /\ (forall k, (k < off \/ off + len <= k)%nat -> buf' !!! k = buf !!! k).
Proof.
  intros Hlen Hsorted Hq Hsub kept buf'.
  pose proof (keep_rest_perm _ _ Hsorted Hq Hsub) as Hperm. fold kept in Hperm.
  assert (Hlk : (length kept + length qset = len)%nat).
  { apply Permutation_length in Hperm. rewrite length_app in Hperm.
    rewrite length_take, length_drop in Hperm. lia. }
  destruct (remove_qset_spec len 0 0 off qset buf) as (H1 & H2 & H3 & H4);
    [lia|lia|lia|].
  rewrite Nat.add_0_r, Nat.sub_0_r in *. rewrite drop_0 in H3. fold kept in H3.
  destruct (fill_back_spec (length qset) 0 (off + (len - length qset)) qset
              (remove_qset len 0 0 off qset buf)) as (G1 & G2 & G3); [lia|].
  fold buf' in G1, G2, G3. rewrite Nat.add_0_r in *.
  split; [exact Hlk|]. split; [exact Hperm|]. split; [lia|].
  assert (Hdef : (len - length qset = length kept)%nat) by lia.
  split; [|split].
  - rewrite Hdef. apply map_seq_lookup. intros k Hk.
    rewrite G2 by lia. apply H3, Hk.
  - apply map_seq_lookup. intros k Hk. rewrite G3 by exact Hk. reflexivity.
  - intros k Hk. rewrite G2 by lia. destruct Hk as [Hk|Hk]; [apply H2|apply H4]; lia.
Qed.

End MakeSplit.

(** C3, for distinct entry rows.  When the idset slice of the task is sorted
    ascending and the row indices of the entry slice are pairwise distinct
    and all occur in the idset slice, make_split emits two tasks on contiguous,
    disjoint subslices that cover the slice of the parent: the default part
    (the left child iff [default_left]) owns the first [len - |qset|]
    positions and the split part owns the rest, which holds exactly the rows
    of [qset]; both parts are sorted ascending and together they are a
    permutation of the rows of the parent.  Nothing outside the slice of the
    parent is written. *)
Theorem make_split_partition {Rng : Type} (tsk : Task) (entry : list SCEntry)
    (num : Z) (loss_chg : float) (base_weight : double) (st : Updater Rng) :
  let off := task_idset tsk in
  let len := task_len tsk in
  let slice := task_rows (idset st) tsk in
  let qrows := map rindex (take (Z.to_nat num) entry) in
  let st' := make_split tsk entry num loss_chg base_weight st in
  let n := RTree.node (tree st') (task_nid tsk) in
  (off + len <= length (idset st))%nat ->
  Z.of_nat len < 2 ^ 32 ->
  Sorted le slice ->
  NoDup qrows ->
  (forall x, x ∈ qrows -> x ∈ slice) ->
  exists def_part spl_part,
    task_stack st' = spl_part :: def_part :: task_stack st
    /\ task_nid def_part = (if Node.default_left n then Node.cleft n else Node.cright n)
    /\ task_nid spl_part = (if Node.default_left n then Node.cright n else Node.cleft n)
    /\ task_idset def_part = off
    /\ task_len def_part = (len - length qrows)%nat
    /\ task_idset spl_part = (off + task_len def_part)%nat
    /\ task_len spl_part = length qrows
    /\ (task_len def_part + task_len spl_part = len)%nat
    /\ task_rows (idset st') spl_part = merge_sort le qrows
    /\ (forall x, x ∈ task_rows (idset st') spl_part <-> x ∈ qrows)
    /\ Sorted le (task_rows (idset st') def_part)
    /\ Sorted lt (task_rows (idset st') spl_part)
    /\ task_rows (idset st') def_part ++ task_rows (idset st') spl_part ≡ₚ slice
    /\ (forall x, x ∈ slice
                  <-> x ∈ task_rows (idset st') def_part
                      \/ x ∈ task_rows (idset st') spl_part)
    /\ length (idset st') = length (idset st)
    /\ (forall k, (k < off \/ off + len <= k)%nat -> idset st' !!! k = idset st !!! k).
Proof.
  cbv zeta. intros Hlen Hu32 Hsorted Hnd Hsub.
  set (qrows := map rindex (take (Z.to_nat num) entry)) in *.
  set (qset := merge_sort le qrows).
  assert (Hqp : qset ≡ₚ qrows) by apply merge_sort_Permutation.
  assert (Hql : length qset = length qrows) by (apply Permutation_length, Hqp).
  assert (Hqs : StronglySorted lt qset).
  { apply StronglySorted_le_lt; [apply StronglySorted_merge_sort; apply _|].
    rewrite Hqp. exact Hnd. }
  rewrite task_rows_take_drop in Hsorted, Hsub by exact Hlen.
  rewrite (task_rows_take_drop (idset st)) by exact Hlen.
  apply (Sorted_StronglySorted le) in Hsorted.
  assert (Hsub' : forall y, y ∈ qset ->
             y ∈ take (task_len tsk) (drop (task_idset tsk) (idset st))).
  { intros y Hy. apply Hsub. rewrite <- Hqp. exact Hy. }
  destruct (partition_buffer (task_idset tsk) (task_len tsk) qset (idset st)
              Hlen Hsorted Hqs Hsub') as (Hlk & Hperm & Hbl & Hdef & Hspl & Hframe).
  assert (Hdl : Z.to_nat (to_unsigned (Z.of_nat (task_len tsk) - Z.of_nat (length qset)))
                = (task_len tsk - length qset)%nat).
  { rewrite to_unsigned_small by lia. lia. }
  assert (Hsl : Z.to_nat (to_unsigned (Z.of_nat (length qset))) = length qset).
  { rewrite to_unsigned_small by lia. lia. }
  eexists _, _. split; [reflexivity|].
  cbn [make_split add_task with_idset with_tree task_stack idset tree
       task_nid task_idset task_len].
  unfold task_rows. cbn [task_idset task_len].
  change (make_qset entry num) with qset.
  rewrite Hdl, Hsl, Hdef, Hspl, <- Hql.
  split; [reflexivity|]. split; [reflexivity|]. split; [reflexivity|].
  split; [reflexivity|]. split; [reflexivity|]. split; [reflexivity|].
  split; [lia|]. split; [reflexivity|].
  split; [intros x; rewrite Hqp; reflexivity|].
  split; [apply StronglySorted_Sorted, keep_rest_sorted, Hsorted|].
  split; [apply StronglySorted_Sorted, Hqs|].
  split; [exact Hperm|].
  split.
  { intros x. rewrite <- elem_of_app.
    apply (elem_of_Permutation_proper x). symmetry. exact Hperm. }
  split; [exact Hbl|exact Hframe].
Qed.

(** Scenario S2: the split part is the rows 0, 1 of the first two column
    entries and the default part is the rows 2, 3. *)
Lemma make_split_partition_witness :
  exists def_part spl_part,
    task_stack (make_split example_root_task example_column 2 f0 d0 example_root_state)
    = [spl_part; def_part]
    /\ task_rows
         (idset (make_split example_root_task example_column 2 f0 d0 example_root_state))
         spl_part = merge_sort le [0; 1]%nat
    /\ task_rows
         (idset (make_split example_root_task example_column 2 f0 d0 example_root_state))
         def_part
       ++ task_rows
            (idset (make_split example_root_task example_column 2 f0 d0
                      example_root_state))
            spl_part
       ≡ₚ [0; 1; 2; 3]%nat.
Proof.
  destruct (make_split_partition example_root_task example_column 2 f0 d0
              example_root_state)
    as (def_part & spl_part & Hstack & _ & _ & _ & _ & _ & _ & _ & Hspl & _ & _ & _
        & Hperm & _).
  - simpl. lia.
  - simpl. lia.
  - repeat constructor.
  - apply NoDup_cons. split; [|apply NoDup_singleton].
    intros H. apply list_elem_of_singleton in H. discriminate.
  - intros x Hx. simpl in Hx.
    apply elem_of_cons in Hx as [->|Hx]; [apply list_elem_of_here|].
    apply list_elem_of_singleton in Hx as ->.
    apply list_elem_of_further, list_elem_of_here.
  - exists def_part, spl_part. split; [exact Hstack|]. split; [exact Hspl|exact Hperm].
Defined.

(** C3, as stated, fails when the entry slice names a row twice: on the
    sorted slice 1, 2, 3 and the entry rows 2, 2, which all occur in the
    slice, the children receive the rows 1 and 2, 2, and row 3 is in neither
    of them. *)
Lemma make_split_duplicate_rows :
  Sorted lt (task_rows (idset duplicate_state) duplicate_task)
  /\ (forall x, x ∈ map rindex (take (Z.to_nat 2) duplicate_entries) ->
        x ∈ task_rows (idset duplicate_state) duplicate_task)
  /\ task_stack (make_split duplicate_task duplicate_entries 2 f0 d0 duplicate_state)
     = [mkTask 1 1 2 f0; mkTask 2 0 1 f0]
  /\ task_rows (idset (make_split duplicate_task duplicate_entries 2 f0 d0
                         duplicate_state)) (mkTask 2 0 1 f0) = [1%nat]
  /\ task_rows (idset (make_split duplicate_task duplicate_entries 2 f0 d0
                         duplicate_state)) (mkTask 1 1 2 f0) = [2; 2]%nat
  /\ ~ (forall x,
          x ∈ task_rows (idset duplicate_state) duplicate_task
          <-> x ∈ task_rows (idset (make_split duplicate_task duplicate_entries 2 f0 d0
                                      duplicate_state)) (mkTask 2 0 1 f0)
              \/ x ∈ task_rows (idset (make_split duplicate_task duplicate_entries 2 f0
                                         d0 duplicate_state)) (mkTask 1 1 2 f0)).
Proof.
  split; [repeat constructor|].
  split.
  { intros x Hx. simpl in Hx.
    assert (x = 2%nat) as ->.
    { apply elem_of_cons in Hx as [->|Hx]; [reflexivity|].
      apply list_elem_of_singleton in Hx. exact Hx. }
    apply list_elem_of_further, list_elem_of_here. }
  split; [reflexivity|]. split; [reflexivity|]. split; [reflexivity|].
  intros H. destruct (proj1 (H 3%nat)) as [Hin|Hin].
  - do 2 apply list_elem_of_further. apply list_elem_of_here.
  - change (3%nat ∈ [1%nat]) in Hin. apply list_elem_of_singleton in Hin. discriminate.
  - change (3%nat ∈ [2; 2]%nat) in Hin.
    apply elem_of_cons in Hin as [Hin|Hin]; [discriminate|].
    apply list_elem_of_singleton in Hin. discriminate.
Qed.

(** ** Root initialisation *)

Section InitTasks.

Variable hess : list float.

(** The branch without subsampling never takes a row with a negative
    hessian. *)
Lemma all_rows_not_ignored n : forall i ids x,
  x ∈ all_rows hess n i ids -> x ∈ ids \/ flt (hess !!! x) f0 = false.
Proof.
  induction n as [|n IH]; intros i ids x; simpl; [auto|].
  destruct (flt (hess !!! i) f0) eqn:Hi.
  - apply IH.
  - intros H. apply IH in H as [H|H]; [|auto].
    apply elem_of_app in H as [H|H]; [auto|].
    apply list_elem_of_singleton in H. subst x. auto.
Qed.

(** The branch with subsampling takes every row whose draw succeeds,
    whatever its hessian. *)
Lemma sampled_rows_takes_drawn {Rng : Type} (SampleBinary : float -> Rng -> Z * Rng)
    (param : TreeParamTrain) n : forall i ids r,
  (forall p r', fst (SampleBinary p r') <> 0) ->
  fst (sampled_rows SampleBinary param n i ids r) = ids ++ seq i n.
Proof.
  induction n as [|n IH]; intros i ids r Hdraw; simpl.
  - rewrite app_nil_r. reflexivity.
  - destruct (fst (SampleBinary (subsample param) r) =? 0) eqn:E.
    + apply Z.eqb_eq in E. exfalso. exact (Hdraw _ _ E).
    + simpl. rewrite IH by exact Hdraw. rewrite <- app_assoc. reflexivity.
Qed.

End InitTasks.

(** C1.  In single-root mode with [subsample = 1/2] and one row of hessian
    [-1] whose draw succeeds, init_tasks puts row 0 into the idset of the
    root task: the subsampling branch does not skip rows with
    [hess[i] < 0].  With [subsample = 1] the same row is skipped. *)
Theorem init_tasks_subsample_keeps_ignored_row :
  flt (subsample (example_param 0 1 0 half)) subsample_all = true
  /\ flt (ignored_hess !!! 0%nat) f0 = true
  /\ init_tasks always_sampled (example_param 0 1 0 half) ignored_hess [] 1 fresh_state
     = Ok (mkUpdater (RTree.InitModel 1 1) 0 0 [mkTask 0 0 1 f0] [0%nat] tt)
  /\ init_tasks always_sampled (example_param 0 1 0 (float_of_Z 1)) ignored_hess [] 1
       fresh_state
     = Ok (mkUpdater (RTree.InitModel 1 1) 0 0 [mkTask 0 0 0 f0] [] tt).
Proof. repeat split. Qed.

(** ** Trees grown from root leaves *)

Section WellRooted.

Implicit Types (t : RTree).

(** In a well-rooted tree every node has a depth, at most its position. *)
Lemma well_rooted_depth t :
  well_rooted t ->
  forall i, (i < length (nodes t))%nat -> exists d, (d <= i)%nat /\ depth_is t i d.
Proof.
  intros Hwr i. induction i as [i IH] using lt_wf_ind. intros Hi.
  destruct (Hwr i Hi) as [Hroot|Hpar].
  - exists 0%nat. split; [lia|]. split.
    + simpl. unfold Node.is_root. rewrite Hroot. reflexivity.
    + intros k Hk. lia.
  - destruct (IH (parent_index t i)) as (d & Hd & Hroot & Hnot);
      [unfold parent_index; lia|unfold parent_index; lia|].
    exists (S d). split; [unfold parent_index in Hd; lia|]. split; [exact Hroot|].
    intros [|k] Hk.
    + simpl. unfold Node.is_root. apply Z.eqb_neq. lia.
    + apply (Hnot k). lia.
Qed.

Lemma well_rooted_InitModel num_roots num_feature :
  well_rooted (RTree.InitModel num_roots num_feature).
Proof.
  intros i Hi. cbn [RTree.InitModel nodes] in *. rewrite length_replicate in Hi.
  rewrite lookup_total_replicate_2 by exact Hi. left. reflexivity.
Qed.

Lemma well_rooted_set_node t nid n :
  node_parent n = node_parent (RTree.node t nid) ->
  well_rooted t -> well_rooted (RTree.set_node nid n t).
Proof.
  intros Hn Hwr i Hi. cbn [RTree.set_node nodes] in *. rewrite length_insert in Hi.
  destruct (decide (i = Z.to_nat nid)) as [->|Hne].
  - rewrite list_lookup_total_insert_eq by exact Hi. rewrite Hn. apply Hwr, Hi.
  - rewrite list_lookup_total_insert_ne by congruence. apply Hwr, Hi.
Qed.

Lemma well_rooted_AddChilds t nid :
  0 <= nid < Z.of_nat (length (nodes t)) ->
  well_rooted t -> well_rooted (RTree.AddChilds nid t).
Proof.
  intros Hnid Hwr i Hi. cbn [RTree.AddChilds nodes] in *.
  rewrite length_app, length_insert in Hi. cbn [length] in Hi.
  destruct (decide (i < length (nodes t))%nat) as [Hlt|Hge].
  - rewrite lookup_total_app_l by (rewrite length_insert; lia).
    destruct (decide (i = Z.to_nat nid)) as [->|Hne].
    + rewrite list_lookup_total_insert_eq by exact Hlt. apply (Hwr _ Hlt).
    + rewrite list_lookup_total_insert_ne by congruence. apply Hwr, Hlt.
  - rewrite lookup_total_app_r by (rewrite length_insert; lia).
    rewrite length_insert. right.
    destruct (i - length (nodes t))%nat as [|[|k]] eqn:E; cbn; lia.
Qed.

(** On a well-rooted tree the pruner returns from every node of the tree,
    with fuel above the position of the node. *)
Lemma try_prune_leaf_returns {Rng : Type} (param : TreeParamTrain) (nid depth : Z)
    (st : Updater Rng) :
  well_rooted (tree st) ->
  (Z.to_nat nid < length (nodes (tree st)))%nat ->
  exists st', try_prune_leaf param (S (Z.to_nat nid)) nid depth st = Ok st'.
Proof.
  intros Hwr Hnid.
  destruct (well_rooted_depth _ Hwr _ Hnid) as (d & Hd & Hdepth).
  destruct (try_prune_leaf_total param d (S (Z.to_nat nid)) nid depth st Hdepth
              ltac:(lia)) as (st' & Hrun & _).
  exists st'. exact Hrun.
Qed.

End WellRooted.

(** ** Scenarios of the spec *)

(** S1: one row, one feature.  The root is a leaf of value
    [learning_rate * CalcWeight( 2, 3, 0 )]. *)
Example scenario_single_row :
  let p := example_param 0 1 0 (float_of_Z 1) in
  do_boost always_sampled example_sort p [float_of_Z 2] [float_of_Z 3]
    [[(0%nat, float_of_Z 1)]] [] 5 fresh_state
  = Ok (mkUpdater
          (mkTree
             [mkNode (-1) (-1) (-1) 0 false
                (fmul (learning_rate p) (CalcWeight p (double_of_Z 2) (double_of_Z 3) f0))]
             [mkStat f0 f0 0] 1 1)
          0 0 [] [0%nat] tt).
Proof. vm_compute. reflexivity. Qed.

(** S2: one split at [x0 < 3/2] and two leaves, the left one for the sums
    [g = 2, h = 2] and the right one for [g = -2, h = 2]. *)
Example scenario_perfect_split :
  let p := example_param 0 1 0 (float_of_Z 1) in
  do_boost always_sampled example_sort p example_grad example_hess example_smat [] 5
    fresh_state
  = Ok (mkUpdater
          (mkTree
             [mkNode (-1) 1 2 0 false (fdiv (float_of_Z 3) (float_of_Z 2));
              mkNode 0 (-1) (-1) 0 false
                (fmul (learning_rate p) (CalcWeight p (double_of_Z 2) (double_of_Z 2) f0));
              mkNode 0 (-1) (-1) 0 false
                (fmul (learning_rate p)
                   (CalcWeight p (double_of_Z (-2)) (double_of_Z 2) f0))]
             [mkStat (to_float (ddiv (double_of_Z 8) (double_of_Z 3))) f0 2;
              mkStat f0 f0 0; mkStat f0 f0 0]
             1 1)
          1 0 [] [2; 3; 0; 1]%nat tt).
Proof. vm_compute. reflexivity. Qed.

(** S4: without subsampling the row 0, whose hessian is negative, is not in
    the idset of any task. *)
Example scenario_ignored_row :
  let p := example_param 0 1 0 (float_of_Z 1) in
  idset <$> (fun r => match r with Ok st => Some st | _ => None end)
              (do_boost always_sampled example_sort p example_grad
                 [float_of_Z (-1); float_of_Z 1; float_of_Z 1; float_of_Z 1]
                 example_smat [] 5 fresh_state)
  = Some [2; 3; 1]%nat.
Proof. vm_compute. reflexivity. Qed.

(** S6: two groups, two roots; each root is expanded on the rows of its
    group. *)
Example scenario_groups :
  let p := example_param 0 1 0 (float_of_Z 1) in
  init_tasks always_sampled p example_hess [0; 0; 1; 1] 4
    (mkUpdater (RTree.InitModel 2 1) 0 0 [] [] tt)
  = Ok (mkUpdater (RTree.InitModel 2 1) 0 0 [mkTask 1 2 2 f0; mkTask 0 0 2 f0]
          [0; 1; 2; 3]%nat tt).
Proof. vm_compute. reflexivity. Qed.

(** * Further properties *)

(** ** Two tiers of selectors *)

Section TwoTiers.

Implicit Types (e c : RTSelecter.Entry) (s : RTSelecter.t)
               (cs : list RTSelecter.Entry).

(** The best entry of a selector fed from its initial state is a number. *)
Lemma push_all_init_number cs :
  fle (RTSelecter.loss_chg (RTSelecter.select (RTSelecter.push_all cs RTSelecter.init)))
      (RTSelecter.loss_chg (RTSelecter.select (RTSelecter.push_all cs RTSelecter.init)))
  = true.
Proof.
  destruct (push_all_init_cases cs) as [Hz|[_ Hpos]].
  - rewrite Hz. reflexivity.
  - exact (flt_fle_refl_r _ _ Hpos).
Qed.

(** Pushes keep the best entry from being negative. *)
Lemma push_all_not_negative cs : forall s,
  flt (RTSelecter.loss_chg (RTSelecter.best_entry s)) f0 = false ->
  flt (RTSelecter.loss_chg (RTSelecter.best_entry (RTSelecter.push_all cs s))) f0 = false.
Proof.
  induction cs as [|c cs IH]; intros s Hs; [exact Hs|].
  cbn [RTSelecter.push_all fold_left]. apply IH. unfold RTSelecter.push_back.
  destruct (flt (RTSelecter.loss_chg (RTSelecter.best_entry s))
                (RTSelecter.loss_chg c)) eqn:Hlt; [|exact Hs].
  cbn [RTSelecter.best_entry].
  destruct (flt (RTSelecter.loss_chg c) f0) eqn:Hneg; [|reflexivity].
  rewrite <- Hs. symmetry. exact (flt_trans _ _ _ Hlt Hneg).
Qed.

(** Pushing the winner of a local selector is the same as pushing all of
    its candidates. *)
Lemma push_local_winner cs s :
  flt (RTSelecter.loss_chg (RTSelecter.best_entry s)) f0 = false ->
  RTSelecter.push_back (RTSelecter.select (RTSelecter.push_all cs RTSelecter.init)) s
  = RTSelecter.push_all cs s.
Proof.
  intros Hs. induction cs as [|e cs IH] using rev_ind.
  - unfold RTSelecter.push_back. cbn. change (F32 (S754_zero false)) with f0.
    rewrite Hs. reflexivity.
  - rewrite !push_all_snoc, <- IH.
    pose proof (push_all_init_number cs) as Hnum.
    unfold RTSelecter.select in *.
    set (w := RTSelecter.best_entry (RTSelecter.push_all cs RTSelecter.init)) in *.
    unfold RTSelecter.push_back at 2.
    fold w.
    destruct (flt (RTSelecter.loss_chg w) (RTSelecter.loss_chg e)) eqn:Hwe;
      cbn [RTSelecter.best_entry].
    + (* the candidate is the new local winner *)
      unfold RTSelecter.push_back.
      destruct (flt (RTSelecter.loss_chg (RTSelecter.best_entry s))
                    (RTSelecter.loss_chg w)) eqn:Hbw; cbn [RTSelecter.best_entry].
      * rewrite Hwe, (flt_trans _ _ _ Hbw Hwe). reflexivity.
      * reflexivity.
    + (* the local winner stays *)
      fold w. unfold RTSelecter.push_back.
      destruct (flt (RTSelecter.loss_chg (RTSelecter.best_entry s))
                    (RTSelecter.loss_chg w)) eqn:Hbw; cbn [RTSelecter.best_entry].
      * rewrite Hwe. reflexivity.
      * destruct (flt (RTSelecter.loss_chg (RTSelecter.best_entry s))
                      (RTSelecter.loss_chg e)) eqn:Hbe; [|reflexivity].
        exfalso.
        pose proof (fle_of_not_flt _ _ Hnum (flt_fle_refl_r _ _ Hbe) Hwe) as Hew.
        rewrite (flt_fle_trans _ _ _ Hbe Hew) in Hbw. discriminate.
Qed.

End TwoTiers.

(** X1.  The two tiers of selectors choose what one selector would: pushing
    the result of the local selector of enumerate_split into a global
    selector whose best [loss_chg] is not negative leaves the global selector
    as pushing every candidate of the feature into it directly would; and
    the global selector of expand, after all active features, holds what a
    single selector holds after all their candidates in order. *)
Theorem two_tier_selection (std_sort : list SCEntry -> list SCEntry)
    (param : TreeParamTrain) (grad hess : list float) (tlen : nat)
    (rsum_grad rsum_hess root_cost base_weight : double) :
  (forall sglobal entry start end_ findex parent_base_weight,
      flt (RTSelecter.loss_chg (RTSelecter.best_entry sglobal)) f0 = false ->
      enumerate_split param grad hess sglobal tlen rsum_grad rsum_hess root_cost
        entry start end_ findex parent_base_weight
      = RTSelecter.push_all
          (enumerate_candidates param grad hess rsum_grad rsum_hess root_cost entry
             start end_ findex parent_base_weight)
          sglobal)
  /\ (forall cols entry r,
        enumerate_features std_sort param grad hess tlen rsum_grad rsum_hess
          root_cost base_weight cols RTSelecter.init entry = Ok r ->
        fst r
        = RTSelecter.push_all
            (all_candidates param grad hess std_sort rsum_grad rsum_hess root_cost
               base_weight cols entry)
            RTSelecter.init).
Proof.
  assert (Hsplit : forall sglobal entry start end_ findex parent_base_weight,
      flt (RTSelecter.loss_chg (RTSelecter.best_entry sglobal)) f0 = false ->
      enumerate_split param grad hess sglobal tlen rsum_grad rsum_hess root_cost
        entry start end_ findex parent_base_weight
      = RTSelecter.push_all
          (enumerate_candidates param grad hess rsum_grad rsum_hess root_cost entry
             start end_ findex parent_base_weight)
          sglobal).
  { intros sglobal entry start end_ findex pbw Hs.
    unfold enumerate_split. rewrite enumerate_local_candidates.
    apply push_local_winner, Hs. }
  split; [exact Hsplit|].
  assert (Hgen : forall cols sglobal entry r,
      flt (RTSelecter.loss_chg (RTSelecter.best_entry sglobal)) f0 = false ->
      enumerate_features std_sort param grad hess tlen rsum_grad rsum_hess
        root_cost base_weight cols sglobal entry = Ok r ->
      fst r
      = RTSelecter.push_all
          (all_candidates param grad hess std_sort rsum_grad rsum_hess root_cost
             base_weight cols entry)
          sglobal).
  { induction cols as [|[f [s e]] cols IH]; intros sglobal entry r Hs.
    - simpl. intros [= <-]. reflexivity.
    - cbn [enumerate_features all_candidates]. unfold Assert.
      destruct (s <? e)%nat; [|discriminate].
      change (Ok tt ≫= ?k) with (k tt). cbv beta.
      intros Hrun. apply IH in Hrun.
      + rewrite Hrun, Hsplit by exact Hs. rewrite push_all_app. reflexivity.
      + rewrite Hsplit by exact Hs. apply push_all_not_negative, Hs. }
  intros cols entry r. apply Hgen. reflexivity.
Qed.

Lemma two_tier_selection_witness :
  let p := example_param 0 1 0 (float_of_Z 1) in
  enumerate_split p example_grad example_hess RTSelecter.init 4 d0 (double_of_Z 4) d0
    example_column 0 4 0 f0
  = RTSelecter.push_all
      (enumerate_candidates p example_grad example_hess d0 (double_of_Z 4) d0
         example_column 0 4 0 f0)
      RTSelecter.init
  /\ RTSelecter.mk
       (RTSelecter.mkEntry (to_float (ddiv (double_of_Z 8) (double_of_Z 3))) 0 2 0
          (fdiv (float_of_Z 3) (float_of_Z 2)))
     = RTSelecter.push_all
         (all_candidates p example_grad example_hess example_sort d0 (double_of_Z 4)
            d0 d0 [(0%nat, (0%nat, 4%nat))] example_column)
         RTSelecter.init.
Proof.
  intros p. split.
  - apply (proj1 (two_tier_selection example_sort p example_grad example_hess 4 d0
                    (double_of_Z 4) d0 d0)).
    reflexivity.
  - apply (proj2 (two_tier_selection example_sort p example_grad example_hess 4 d0
                    (double_of_Z 4) d0 d0)
             [(0%nat, (0%nat, 4%nat))] example_column
             (RTSelecter.mk
                (RTSelecter.mkEntry (to_float (ddiv (double_of_Z 8) (double_of_Z 3)))
                   0 2 0 (fdiv (float_of_Z 3) (float_of_Z 2))),
              example_column)).
    vm_compute. reflexivity.
Defined.

(** ** The backward sweep *)

Section BackwardSweep.

Variable param : TreeParamTrain.
Variables grad hess : list float.
Variables rsum_grad rsum_hess root_cost : double.
Variable entry : list SCEntry.
Variables start end_ : nat.
Variable findex : Z.
Variable parent_base_weight : float.



End BackwardSweep.



(** ** The tasks of the roots *)

Section RootTasks.

Variable hess : list float.

Lemma StronglySorted_sublist {A} (R : A -> A -> Prop) (l1 l2 : list A) :
  sublist l1 l2 -> StronglySorted R l2 -> StronglySorted R l1.
Proof.
  induction 1 as [|x l1 l2 Hsub IH|x l1 l2 Hsub IH]; intros Hs.
  - constructor.
  - apply StronglySorted_cons in Hs as [Hall Hs].
    apply StronglySorted_cons. split; [|auto].
    rewrite Forall_forall in *. intros y Hy. apply Hall.
    exact (sublist_subseteq _ _ Hsub _ Hy).
  - apply StronglySorted_cons in Hs as [_ Hs]. auto.
Qed.

Lemma StronglySorted_seq i n : StronglySorted lt (seq i n).
Proof.
  revert i. induction n as [|n IH]; intros i; simpl; constructor; [apply IH|].
  apply Forall_forall. intros x Hx. apply elem_of_seq in Hx. lia.
Qed.

(** The loop without subsampling keeps, in order, the rows whose hessian is
    not negative. *)
Lemma all_rows_filter n : forall i ids,
  all_rows hess n i ids
  = ids ++ filter (fun k => flt (hess !!! k) f0 = false) (seq i n).
Proof.
  induction n as [|n IH]; intros i ids; simpl.
  - rewrite app_nil_r. reflexivity.
  - destruct (flt (hess !!! i) f0) eqn:Hi; rewrite IH.
    + rewrite filter_cons_False by (rewrite Hi; discriminate). reflexivity.
    + rewrite filter_cons_True by exact Hi. rewrite <- app_assoc. reflexivity.
Qed.

(** The loop with subsampling keeps some of the rows, in order. *)
Lemma sampled_rows_sublist {Rng : Type} (SampleBinary : float -> Rng -> Z * Rng)
    (param : TreeParamTrain) n : forall i ids r,
  exists l,
    fst (sampled_rows SampleBinary param n i ids r) = ids ++ l
    /\ sublist l (seq i n).
Proof.
  induction n as [|n IH]; intros i ids r; simpl.
  - exists []. rewrite app_nil_r. split; [reflexivity|constructor].
  - destruct (negb (fst (SampleBinary (subsample param) r) =? 0)).
    + destruct (IH (S i) (ids ++ [i]) (snd (SampleBinary (subsample param) r)))
        as (l & Hl & Hsub).
      exists (i :: l). rewrite Hl, <- app_assoc. split; [reflexivity|].
      constructor. exact Hsub.
    + destruct (IH (S i) ids (snd (SampleBinary (subsample param) r)))
        as (l & Hl & Hsub).
      exists l. split; [exact Hl|]. constructor. exact Hsub.
Qed.

Lemma task_rows_whole (buf : list nat) :
  task_rows buf (mkTask 0 0 (length buf) f0) = buf.
Proof.
  unfold task_rows. cbn [task_idset task_len]. apply map_seq_lookup.
  intros k Hk. reflexivity.
Qed.

End RootTasks.

(** X3.  Without group ids init_tasks returns and pushes one task: that of
    node 0, with parent weight 0, whose slice is the whole of the new idset.
    The new idset holds row indices below [ngrads] in strictly ascending
    order, as assert_sorted expects of the slice of a task; neither the tree
    nor the counters are touched.  When [subsample > 1.0f - 1e-6f] the idset
    is exactly the rows whose hessian is not negative and no random number
    is drawn. *)
Theorem init_tasks_single_root {Rng : Type} (SampleBinary : float -> Rng -> Z * Rng)
    (param : TreeParamTrain) (hess : list float) (ngrads : nat) (st : Updater Rng) :
  exists st',
    init_tasks SampleBinary param hess [] ngrads st = Ok st'
    /\ tree st' = tree st
    /\ max_depth st' = max_depth st
    /\ num_pruned st' = num_pruned st
    /\ task_stack st' = mkTask 0 0 (length (idset st')) f0 :: task_stack st
    /\ task_rows (idset st') (mkTask 0 0 (length (idset st')) f0) = idset st'
    /\ sublist (idset st') (seq 0 ngrads)
    /\ StronglySorted lt (idset st')
    /\ Forall (fun i => (i < ngrads)%nat) (idset st')
    /\ (flt subsample_all (subsample param) = true ->
        idset st' = filter (fun i => flt (hess !!! i) f0 = false) (seq 0 ngrads)
        /\ rng st' = rng st).
Proof.
  assert (Hgen : forall ids r,
            sublist ids (seq 0 ngrads) ->
            (flt subsample_all (subsample param) = true ->
             ids = filter (fun i => flt (hess !!! i) f0 = false) (seq 0 ngrads)
             /\ r = rng st) ->
            let st' := add_task (mkTask 0 0 (length ids) f0)
                         (with_rng r (with_idset ids st)) in
            tree st' = tree st
            /\ max_depth st' = max_depth st
            /\ num_pruned st' = num_pruned st
            /\ task_stack st' = mkTask 0 0 (length (idset st')) f0 :: task_stack st
            /\ task_rows (idset st') (mkTask 0 0 (length (idset st')) f0) = idset st'
            /\ sublist (idset st') (seq 0 ngrads)
            /\ StronglySorted lt (idset st')
            /\ Forall (fun i => (i < ngrads)%nat) (idset st')
            /\ (flt subsample_all (subsample param) = true ->
                idset st' = filter (fun i => flt (hess !!! i) f0 = false) (seq 0 ngrads)
                /\ rng st' = rng st)).
  { intros ids r Hsub Hall. cbn.
    split; [reflexivity|]. split; [reflexivity|]. split; [reflexivity|].
    split; [reflexivity|]. split; [apply task_rows_whole|].
    split; [exact Hsub|].
    split; [exact (StronglySorted_sublist _ _ _ Hsub (StronglySorted_seq 0 ngrads))|].
    split; [|exact Hall].
    apply Forall_forall. intros x Hx. apply sublist_subseteq in Hsub.
    apply Hsub, elem_of_seq in Hx. lia. }
  unfold init_tasks. cbn [length Nat.eqb].
  destruct (flt subsample_all (subsample param)) eqn:Hsub.
  - eexists. split; [reflexivity|].
    apply (Hgen (all_rows hess ngrads 0 []) (rng st)).
    + rewrite all_rows_filter. cbn [app]. apply sublist_filter.
    + intros _. split; [apply all_rows_filter|reflexivity].
  - eexists. split; [reflexivity|].
    destruct (sampled_rows_sublist SampleBinary param ngrads 0 [] (rng st))
      as (l & Hl & Hsl).
    apply (Hgen (fst (sampled_rows SampleBinary param ngrads 0 [] (rng st)))
                (snd (sampled_rows SampleBinary param ngrads 0 [] (rng st)))).
    + rewrite Hl. exact Hsl.
    + discriminate.
Qed.

(** ** The tasks of the groups *)

Section GroupTasks.

Context {Rng : Type}.
Variable hess : list float.
Variable group_id : list Z.
Implicit Types (st : Updater Rng) (g : nat).

(** The assertion of the budget loop holds for every row that is not
    ignored, or the loop fails. *)
Lemma check_groups_spec (t : RTree) :
  (check_groups hess group_id t = Ok tt
   /\ forall i, (i < length group_id)%nat -> flt (hess !!! i) f0 = false ->
        group_id !!! i < to_unsigned (num_roots t))
  \/ (check_groups hess group_id t = AssertFail
      /\ exists i, (i < length group_id)%nat /\ flt (hess !!! i) f0 = false
                   /\ to_unsigned (num_roots t) <= group_id !!! i).
Proof.
  unfold check_groups.
  set (f := fun (r : res unit) (i : nat) => _).
  assert (Hfail : forall l, fold_left f l AssertFail = AssertFail).
  { induction l as [|i l IH]; simpl; auto. }
  assert (Hgen : forall l,
            (fold_left f l (Ok tt) = Ok tt
             /\ forall i, i ∈ l -> flt (hess !!! i) f0 = false ->
                  group_id !!! i < to_unsigned (num_roots t))
            \/ (fold_left f l (Ok tt) = AssertFail
                /\ exists i, i ∈ l /\ flt (hess !!! i) f0 = false
                             /\ to_unsigned (num_roots t) <= group_id !!! i)).
  { induction l as [|i l IH]; simpl.
    - left. split; [reflexivity|]. intros i Hi. inversion Hi.
    - unfold f at 2. cbn.
      destruct (flt (hess !!! i) f0) eqn:Hi.
      + destruct IH as [[Hok Hall]|[Hno (j & Hj & Hjh & Hjg)]].
        * left. split; [exact Hok|]. intros j Hj Hjh.
          apply elem_of_cons in Hj as [->|Hj]; [congruence|auto].
        * right. split; [exact Hno|]. exists j. split; [apply list_elem_of_further, Hj|auto].
      + unfold Assert. destruct (group_id !!! i <? to_unsigned (num_roots t)) eqn:Hg.
        * destruct IH as [[Hok Hall]|[Hno (j & Hj & Hjh & Hjg)]].
          -- left. split; [exact Hok|]. intros j Hj Hjh.
             apply elem_of_cons in Hj as [->|Hj]; [lia|auto].
          -- right. split; [exact Hno|]. exists j.
             split; [apply list_elem_of_further, Hj|auto].
        * right. split; [apply Hfail|]. exists i.
          split; [apply list_elem_of_here|]. split; [exact Hi|lia]. }
  destruct (Hgen (seq 0 (length group_id))) as [[Hok Hall]|[Hno (j & Hj & Hjh & Hjg)]].
  - left. split; [exact Hok|]. intros i Hi. apply Hall, elem_of_seq. lia.
  - right. split; [exact Hno|]. exists j. apply elem_of_seq in Hj.
    split; [lia|auto].
Qed.

(** The loop over the row pointers pushes one task for every group that has
    rows, over the slice of the group. *)
Lemma group_tasks_spec : forall groups pre post st,
  idset st = pre ++ flat_map (group_rows hess group_id) groups ++ post ->
  let st' := group_tasks hess group_id groups (length pre) st in
  tree st' = tree st /\ idset st' = idset st /\ rng st' = rng st
  /\ max_depth st' = max_depth st /\ num_pruned st' = num_pruned st
  /\ exists new,
       task_stack st' = new ++ task_stack st
       /\ map (fun tsk => (task_nid tsk, task_rows (idset st) tsk)) new
          = rev (filter (fun p => snd p <> [])
                   (map (fun g => (Z.of_nat g, group_rows hess group_id g)) groups))
       /\ Forall (fun tsk => task_parent_base_weight tsk = f0) new.
Proof.
  induction groups as [|g groups IH]; intros pre post st Hid; cbn zeta.
  - cbn. repeat split. exists []. repeat split. constructor.
  - cbn [group_tasks map flat_map]. cbn [flat_map] in Hid.
    remember (group_rows hess group_id g) as rows eqn:Hrows.
    rewrite <- app_assoc in Hid.
    set (st1 := if (_ <? _)%nat then _ else st).
    assert (Hfr : tree st1 = tree st /\ idset st1 = idset st /\ rng st1 = rng st
                  /\ max_depth st1 = max_depth st /\ num_pruned st1 = num_pruned st).
    { subst st1. destruct (_ <? _)%nat; repeat split. }
    destruct Hfr as (Ht1 & Hi1 & Hr1 & Hm1 & Hn1).
    specialize (IH (pre ++ rows) post st1).
    rewrite length_app in IH.
    destruct IH as (Ht & Hi & Hr & Hm & Hn & new & Hnew & Hmap & Hpb).
    { rewrite Hi1, Hid, <- !app_assoc. reflexivity. }
    split; [congruence|]. split; [congruence|]. split; [congruence|].
    split; [congruence|]. split; [congruence|].
    rewrite Hi1 in Hmap.
    destruct (decide (rows = [])) as [He|Hne].
    + (* an empty group *)
      rewrite filter_cons_False by (cbn; tauto).
      exists new. split; [|split; [exact Hmap|exact Hpb]].
      rewrite Hnew. subst st1. rewrite He. cbn [length].
      rewrite (proj2 (Nat.ltb_ge _ _)) by lia. reflexivity.
    + rewrite filter_cons_True by (cbn; exact Hne).
      cbn [rev].
      assert (Hpos : (0 < length rows)%nat)
        by (destruct rows; [congruence|cbn [length]; lia]).
      exists (new ++ [mkTask (Z.of_nat g) (length pre) (length rows) f0]).
      split; [|split].
      * rewrite Hnew. subst st1.
        rewrite (proj2 (Nat.ltb_lt _ _)) by lia.
        cbn [add_task task_stack]. rewrite <- app_assoc.
        replace (length pre + length rows - length pre)%nat with (length rows) by lia.
        reflexivity.
      * rewrite map_app, Hmap. cbn [map task_nid]. do 3 f_equal.
        rewrite task_rows_take_drop
          by (cbn [task_idset task_len]; rewrite Hid, !length_app; lia).
        cbn [task_idset task_len]. rewrite Hid.
        rewrite drop_app_length, take_app_length. reflexivity.
      * apply Forall_app. split; [exact Hpb|]. repeat constructor.
Qed.

Lemma flat_map_ext_elem {A B} (F G : A -> list B) (l : list A) :
  (forall a, a ∈ l -> F a = G a) -> flat_map F l = flat_map G l.
Proof.
  induction l as [|a l IH]; intros H; simpl; [reflexivity|].
  rewrite (H a) by apply list_elem_of_here. f_equal. apply IH.
  intros b Hb. apply H, list_elem_of_further, Hb.
Qed.

(** One more element in one of the pieces is one more element in the
    whole. *)
Lemma flat_map_one_more {B} (F G : nat -> list B) (x : B) (k : nat) (gs : list nat) :
  NoDup gs -> k ∈ gs ->
  G k = x :: F k ->
  (forall g, g ∈ gs -> g <> k -> G g = F g) ->
  flat_map G gs ≡ₚ x :: flat_map F gs.
Proof.
  induction gs as [|g gs IH]; intros Hnd Hk Hat Hoff; [inversion Hk|].
  apply NoDup_cons in Hnd as [Hg Hnd]. cbn [flat_map].
  destruct (decide (g = k)) as [->|Hne].
  - rewrite Hat. rewrite (flat_map_ext_elem G F gs); [reflexivity|].
    intros a Ha. apply Hoff; [apply list_elem_of_further, Ha|].
    intros ->. exact (Hg Ha).
  - rewrite (Hoff g) by (auto using list_elem_of_here).
    rewrite IH; [|exact Hnd| |exact Hat|].
    + symmetry. apply Permutation_middle.
    + apply elem_of_cons in Hk as [Hk|Hk]; [congruence|exact Hk].
    + intros a Ha. apply Hoff, list_elem_of_further, Ha.
Qed.

(** Every row that is not ignored lies in the slice of exactly one group. *)
Lemma group_rows_partition (n : nat) :
  (forall i, (i < length group_id)%nat -> flt (hess !!! i) f0 = false ->
     0 <= group_id !!! i < Z.of_nat n) ->
  flat_map (group_rows hess group_id) (seq 0 n)
  ≡ₚ filter (fun i => flt (hess !!! i) f0 = false) (seq 0 (length group_id)).
Proof.
  intros Hin. unfold group_rows.
  assert (Hgen : forall l,
            (forall i, i ∈ l -> (i < length group_id)%nat) ->
            flat_map
              (fun g => filter
                          (fun i => negb (flt (hess !!! i) f0)
                                    && (group_id !!! i =? Z.of_nat g)) l)
              (seq 0 n)
            ≡ₚ filter (fun i => flt (hess !!! i) f0 = false) l).
  { induction l as [|x l IH]; intros Hl.
    - rewrite filter_nil. clear. induction (seq 0 n); simpl; auto.
    - assert (IH' := IH (fun i Hi => Hl i (list_elem_of_further _ _ _ Hi))).
      destruct (flt (hess !!! x) f0) eqn:Hx.
      + rewrite filter_cons_False by (rewrite Hx; discriminate).
        rewrite <- IH'.
        rewrite (flat_map_ext_elem
                   (fun g => filter
                               (fun i => negb (flt (hess !!! i) f0)
                                         && (group_id !!! i =? Z.of_nat g)) (x :: l))
                   (fun g => filter
                               (fun i => negb (flt (hess !!! i) f0)
                                         && (group_id !!! i =? Z.of_nat g)) l));
          [reflexivity|].
        intros g _. apply filter_cons_False. rewrite Hx. cbn. tauto.
      + rewrite filter_cons_True by exact Hx. rewrite <- IH'.
        destruct (Hin x (Hl x (list_elem_of_here _ _)) Hx) as [Hlo Hhi].
        apply (flat_map_one_more _ _ x (Z.to_nat (group_id !!! x))).
        * apply NoDup_seq.
        * apply elem_of_seq. lia.
        * apply filter_cons_True. rewrite Hx. cbn.
          apply Is_true_true, Z.eqb_eq. lia.
        * intros g _ Hg. apply filter_cons_False. rewrite Hx. cbn.
          intros H. apply Is_true_true, Z.eqb_eq in H. lia. }
  apply Hgen. intros i Hi. apply elem_of_seq in Hi. lia.
Qed.

End GroupTasks.

(** X4.  With group ids, init_tasks fails an assertion exactly when the
    number of group ids differs from [ngrads] or a row whose hessian is not
    negative has a group id that is not below [(unsigned)num_roots].
    Otherwise it returns with the tree untouched and one task pushed for
    every group that has rows with a hessian that is not negative, the task
    of group 0 deepest in the stack: the task of group [g] is on node [g],
    has parent weight 0, and its slice of the idset holds those rows of the
    group in strictly ascending order.  A group without such rows gets no
    task, and the idset holds every row whose hessian is not negative
    once. *)
Theorem init_tasks_groups {Rng : Type} (SampleBinary : float -> Rng -> Z * Rng)
    (param : TreeParamTrain) (hess : list float) (group_id : list Z) (ngrads : nat)
    (st : Updater Rng) :
  let r := init_tasks SampleBinary param hess group_id ngrads st in
  group_id <> [] ->
  0 <= num_roots (tree st) < 2 ^ 31 ->
  Forall (fun g => 0 <= g) group_id ->
  (r = AssertFail
   <-> length group_id <> ngrads
       \/ exists i, (i < length group_id)%nat /\ flt (hess !!! i) f0 = false
                    /\ num_roots (tree st) <= group_id !!! i)
  /\ r <> OutOfFuel
  /\ forall st', r = Ok st' ->
       tree st' = tree st
       /\ rng st' = rng st
       /\ max_depth st' = max_depth st
       /\ num_pruned st' = num_pruned st
       /\ (exists new,
             task_stack st' = new ++ task_stack st
             /\ map (fun tsk => (task_nid tsk, task_rows (idset st') tsk)) new
                = rev (filter (fun p => snd p <> [])
                         (map (fun g => (Z.of_nat g, group_rows hess group_id g))
                            (seq 0 (Z.to_nat (num_roots (tree st))))))
             /\ Forall (fun tsk => task_parent_base_weight tsk = f0
                                   /\ StronglySorted lt (task_rows (idset st') tsk))
                  new)
       /\ idset st' ≡ₚ filter (fun i => flt (hess !!! i) f0 = false) (seq 0 ngrads).
Proof.
  cbv zeta. intros Hne Hroots Hpos. unfold init_tasks.
  assert (Hu : to_unsigned (num_roots (tree st)) = num_roots (tree st))
    by (apply to_unsigned_small; lia).
  destruct group_id as [|g0 gs] eqn:Hg; [congruence|]. rewrite <- Hg in *.
  replace (length group_id =? 0)%nat with false
    by (rewrite Hg; reflexivity).
  destruct (length group_id =? ngrads)%nat eqn:Hlen.
  2:{ apply Nat.eqb_neq in Hlen. cbn.
      split; [split; [auto|reflexivity]|]. split; [discriminate|discriminate]. }
  apply Nat.eqb_eq in Hlen. cbn [Assert].
  change (Ok tt ≫= ?k) with (k tt). cbv beta.
  destruct (check_groups_spec hess group_id (tree st))
    as [[Hok Hall]|[Hno (i & Hi & Hih & Hig)]].
  2:{ rewrite Hno. cbn. rewrite Hu in Hig.
      split; [split; [intros _; right; exists i; auto|reflexivity]|].
      split; discriminate. }
  rewrite Hok. change (Ok tt ≫= ?k) with (k tt). cbv beta.
  split; [|split; [discriminate|]].
  - split; [discriminate|]. intros [H|(i & Hi & Hih & Hig)]; [congruence|].
    specialize (Hall i Hi Hih). lia.
  - intros st' [= <-].
    set (groups := seq 0 (Z.to_nat (num_roots (tree st)))).
    set (st0 := with_idset (flat_map (group_rows hess group_id) groups) st).
    destruct (group_tasks_spec hess group_id groups [] [] st0)
      as (Ht & Hi & Hr & Hm & Hn & new & Hnew & Hmap & Hpb).
    { subst st0. cbn. rewrite app_nil_r. reflexivity. }
    cbn [length] in *.
    split; [exact Ht|]. split; [exact Hr|]. split; [exact Hm|]. split; [exact Hn|].
    rewrite Hi. split.
    + exists new. split; [exact Hnew|]. split; [exact Hmap|].
      apply Forall_forall. intros tsk Htsk.
      split; [rewrite Forall_forall in Hpb; apply Hpb, Htsk|].
      assert (Hin : (task_nid tsk, task_rows (idset st0) tsk)
                    ∈ map (fun tsk => (task_nid tsk, task_rows (idset st0) tsk)) new).
      { apply list_elem_of_fmap. exists tsk. split; [reflexivity|exact Htsk]. }
      rewrite Hmap in Hin. apply list_elem_of_In in Hin. apply in_rev in Hin.
      apply list_elem_of_In, list_elem_of_filter in Hin as [_ Hin].
      apply list_elem_of_fmap in Hin as (g & Heq & _).
      injection Heq as _ Heq. subst st0. cbn [idset with_idset] in Heq |- *.
      rewrite Heq. unfold group_rows.
      eapply StronglySorted_sublist; [apply sublist_filter|apply StronglySorted_seq].
    + subst st0. cbn [idset with_idset]. rewrite <- Hlen.
      apply group_rows_partition. intros i Hi' Hih.
      specialize (Hall i Hi' Hih). rewrite Forall_forall in Hpos.
      assert (0 <= group_id !!! i).
      { apply Hpos. apply list_elem_of_lookup_total_2. exact Hi'. }
      subst groups. lia.
Qed.

Lemma init_tasks_groups_witness :
  exists st',
    init_tasks always_sampled (example_param 0 1 0 (float_of_Z 1)) example_hess
      [0; 0; 1; 1] 4 (mkUpdater (RTree.InitModel 2 1) 0 0 [] [] tt) = Ok st'
    /\ idset st'
       ≡ₚ filter (fun i => flt (example_hess !!! i) f0 = false) (seq 0 4).
Proof.
  pose proof (init_tasks_groups always_sampled (example_param 0 1 0 (float_of_Z 1))
                example_hess [0; 0; 1; 1] 4
                (mkUpdater (RTree.InitModel 2 1) 0 0 [] [] tt)
                ltac:(discriminate) ltac:(cbn; lia)
                ltac:(repeat constructor; lia)) as (_ & _ & Hok).
  eexists. split; [reflexivity|].
  exact (proj2 (proj2 (proj2 (proj2 (proj2 (Hok _ eq_refl)))))).
Defined.

(** ** Early termination of expand *)

Section EarlyLeaf.

Context {Rng : Type}.
Variable std_sort : list SCEntry -> list SCEntry.
Variable param : TreeParamTrain.
Variables grad hess : list float.
Variable smat : Image.
Implicit Types (st : Updater Rng) (tsk : Task).

(** make_leaf returns on a node that has a depth, whether it computes the
    sums or receives them; it writes the node of the task and, through the
    pruner, proper ancestors of it. *)
Lemma make_leaf_total fuel tsk sum_grad sum_hess (compute : bool) st depth :
  RTree.GetDepth fuel (tree st) (task_nid tsk) = Ok depth ->
  (Z.to_nat (task_nid tsk) < length (nodes (tree st)))%nat ->
  let sums : double * double :=
    if compute
    then sum_rows grad hess (task_rows (idset st) tsk) (sum_grad, sum_hess)
    else (sum_grad, sum_hess) in
  exists st',
    make_leaf param grad hess fuel tsk sum_grad sum_hess compute st = Ok st'
    /\ RTree.node (tree st') (task_nid tsk)
       = Node.set_leaf
           (fmul (learning_rate param)
              (CalcWeight param (fst sums) (snd sums) (task_parent_base_weight tsk)))
           (RTree.node (tree st) (task_nid tsk))
    /\ (forall j, node_parent (nodes (tree st') !!! j)
                  = node_parent (nodes (tree st) !!! j))
    /\ length (nodes (tree st')) = length (nodes (tree st))
    /\ length (stats (tree st')) = length (stats (tree st))
    /\ task_stack st' = task_stack st
    /\ idset st' = idset st
    /\ rng st' = rng st
    /\ max_depth st' = max_depth st
    /\ num_pruned st <= num_pruned st'.
Proof.
  intros Hdepth Hrange sums. unfold make_leaf.
  assert (Hs : fold_left (fun acc ridx => if compute then add_row grad hess acc ridx
                                          else acc)
                 (task_rows (idset st) tsk) (sum_grad, sum_hess) = sums).
  { subst sums. destruct compute; [reflexivity|apply fold_left_const]. }
  rewrite Hs.
  set (value := fmul _ _).
  set (t := RTree.set_node _ _ _).
  assert (Hpar : forall j, node_parent (nodes t !!! j)
                           = node_parent (nodes (tree st) !!! j)).
  { intros j. subst t. apply ChangeToLeaf_parent. }
  rewrite (GetDepth_ext fuel (tree st) t _ Hpar), Hdepth.
  change (Ok depth ≫= ?k) with (k depth). cbv beta.
  apply GetDepth_Ok in Hdepth as (d & -> & Hfuel & Hd).
  apply (depth_is_ext (tree st) t) in Hd; [|exact Hpar].
  destruct (try_prune_leaf_total param d fuel (task_nid tsk) (Z.of_nat d)
              (with_tree t st) Hd Hfuel)
    as (st' & Hrun & Hp & Hframe & Hln & Hls & Hts & Hid & Hrng & Hmd & Hnp).
  exists st'. split; [exact Hrun|].
  cbn [tree with_tree task_stack idset rng max_depth num_pruned] in *.
  split.
  { unfold RTree.node at 1. rewrite Hframe.
    - subst t. apply node_set_node_eq, Hrange.
    - intros k Hk. apply (ancestor_acyclic t _ d); assumption. }
  split; [intros j; rewrite Hp; apply Hpar|].
  subst t. cbn [RTree.set_node nodes stats] in Hln, Hls.
  rewrite length_insert in Hln.
  repeat split; assumption.
Qed.

End EarlyLeaf.

(** X5.  When the node of the task lies at depth [param.max_depth] or
    deeper, or [cannot_split( rsum_hess, depth )] holds, expand makes the
    node a leaf and returns without looking at a feature.  In both exits the
    value of the leaf is [learning_rate * CalcWeight( rsum_grad, rsum_hess,
    parent_base_weight )] for the sums of the gradients and hessians of the
    rows of the task, although the first exit lets make_leaf compute the sums
    and the second passes them.  No task is pushed, the idset and the number
    of nodes stay as they are, and the depth tracker becomes the larger of
    its old value and the depth of the node. *)
Theorem expand_early_leaf {Rng : Type} (std_sort : list SCEntry -> list SCEntry)
    (param : TreeParamTrain) (grad hess : list float) (smat : Image)
    (fuel : nat) (tsk : Task) (st : Updater Rng) (depth : Z) :
  let nid := task_nid tsk in
  let rsum_grad := fst (task_sums grad hess tsk st) in
  let rsum_hess := snd (task_sums grad hess tsk st) in
  RTree.GetDepth fuel (tree st) nid = Ok depth ->
  (Z.to_nat nid < length (nodes (tree st)))%nat ->
  param_max_depth param <= depth \/ cannot_split param rsum_hess depth = true ->
  exists st',
    expand std_sort param grad hess smat fuel tsk st = Ok st'
    /\ Node.is_leaf (RTree.node (tree st') nid) = true
    /\ Node.leaf_value (RTree.node (tree st') nid)
       = fmul (learning_rate param)
           (CalcWeight param rsum_grad rsum_hess (task_parent_base_weight tsk))
    /\ task_stack st' = task_stack st
    /\ idset st' = idset st
    /\ length (nodes (tree st')) = length (nodes (tree st))
    /\ max_depth st' = Z.max (max_depth st) depth.
Proof.
  cbv zeta. intros Hdepth Hrange Hearly. unfold expand. rewrite Hdepth.
  change (Ok depth ≫= ?k) with (k depth). cbv beta.
  set (st0 := if max_depth st <? depth then with_max_depth depth st else st).
  assert (H0 : tree st0 = tree st /\ idset st0 = idset st
               /\ task_stack st0 = task_stack st
               /\ max_depth st0 = Z.max (max_depth st) depth).
  { subst st0.
    destruct (max_depth st <? depth) eqn:E;
      [apply Z.ltb_lt in E|apply Z.ltb_ge in E]; cbn; repeat split; lia. }
  destruct H0 as (Ht0 & Hi0 & Hs0 & Hm0).
  assert (Hsum : task_sums grad hess tsk st0 = task_sums grad hess tsk st)
    by (unfold task_sums; rewrite Hi0; reflexivity).
  rewrite <- Ht0 in Hdepth, Hrange.
  assert (Hleaf : forall sg sh (compute : bool),
            (if compute
             then sum_rows grad hess (task_rows (idset st0) tsk) (sg, sh)
             else (sg, sh)) = task_sums grad hess tsk st ->
            exists st',
              make_leaf param grad hess fuel tsk sg sh compute st0 = Ok st'
              /\ Node.is_leaf (RTree.node (tree st') (task_nid tsk)) = true
              /\ Node.leaf_value (RTree.node (tree st') (task_nid tsk))
                 = fmul (learning_rate param)
                     (CalcWeight param (fst (task_sums grad hess tsk st))
                        (snd (task_sums grad hess tsk st))
                        (task_parent_base_weight tsk))
              /\ task_stack st' = task_stack st
              /\ idset st' = idset st
              /\ length (nodes (tree st')) = length (nodes (tree st))
              /\ max_depth st' = Z.max (max_depth st) depth).
  { intros sg sh compute Hsums.
    destruct (make_leaf_total param grad hess fuel tsk sg sh compute st0 depth
                Hdepth Hrange)
      as (st' & Hrun & Hnode & _ & Hln & _ & Hts & Hid & _ & Hmd & _).
    exists st'. split; [exact Hrun|]. rewrite Hnode, Hsums.
    repeat split; congruence. }
  destruct (param_max_depth param <=? depth) eqn:Hmax.
  - apply Hleaf. unfold task_sums. rewrite Hi0. reflexivity.
  - apply Z.leb_gt in Hmax. destruct Hearly as [Hge|Hgate]; [lia|].
    rewrite Hsum, Hgate. apply Hleaf.
    destruct (task_sums grad hess tsk st). reflexivity.
Qed.

Lemma expand_early_leaf_witness :
  exists st',
    expand example_sort (example_param 0 2 0 (float_of_Z 1)) [float_of_Z 2]
      [float_of_Z 3] [[(0%nat, float_of_Z 1)]] 5 (mkTask 0 0 1 f0)
      (mkUpdater (RTree.InitModel 1 1) 0 0 [] [0%nat] tt) = Ok st'
    /\ Node.is_leaf (RTree.node (tree st') 0) = true
    /\ task_stack st' = [].
Proof.
  destruct (expand_early_leaf example_sort (example_param 0 2 0 (float_of_Z 1))
              [float_of_Z 2] [float_of_Z 3] [[(0%nat, float_of_Z 1)]] 5
              (mkTask 0 0 1 f0) (mkUpdater (RTree.InitModel 1 1) 0 0 [] [0%nat] tt) 0
              eq_refl ltac:(vm_compute; lia) ltac:(right; reflexivity))
    as (st' & Hrun & Hleaf & _ & Hts & _).
  exists st'. split; [exact Hrun|]. split; [exact Hleaf|exact Hts].
Defined.

(** ** Sparse and dense prediction *)

Section SparseDense.

Implicit Types (tr : RTreeTrainer) (line : Line) (t : RTree).

(** The traversal reads a feature value only where the mask says that it is
    known. *)
Lemma traverse_ext fuel t feat1 feat2 funknown1 funknown2 : forall pid,
  (forall k, funknown1 !!! k = funknown2 !!! k) ->
  (forall k, funknown1 !!! k = false -> feat1 !!! k = feat2 !!! k) ->
  RTreeTrainer.traverse fuel t feat1 funknown1 pid
  = RTreeTrainer.traverse fuel t feat2 funknown2 pid.
Proof.
  intros pid Hm Hf. revert pid.
  induction fuel as [|fuel IH]; intros pid; simpl; [reflexivity|].
  destruct (Node.is_leaf (RTree.node t pid)); [reflexivity|].
  rewrite <- Hm. unfold RTreeTrainer.get_next.
  destruct (funknown1 !!! Z.to_nat (Node.split_index (RTree.node t pid))) eqn:Hu.
  - apply IH.
  - rewrite (Hf _ Hu). apply IH.
Qed.

Lemma traverse_no_assert fuel t feat funknown : forall pid,
  RTreeTrainer.traverse fuel t feat funknown pid <> AssertFail.
Proof.
  induction fuel as [|fuel IH]; intros pid; simpl; [discriminate|].
  destruct (Node.is_leaf (RTree.node t pid)); [discriminate|apply IH].
Qed.

Lemma all_true_lookup (l : list bool) k :
  Forall (fun b => b = true) l -> l !!! k = true.
Proof.
  intros Hall. rewrite list_lookup_total_alt.
  destruct (l !! k) as [b|] eqn:Hk; [|reflexivity].
  exact (proj1 (Forall_lookup _ _) Hall k b Hk).
Qed.

(** What the first loop of the sparse Predict leaves in the scratch. *)
Lemma load_line_spec line : forall tr tr1,
  length (tmp_funknown tr) = length (tmp_feat tr) ->
  RTreeTrainer.load_line line tr = Ok tr1 ->
  (forall k, k ∈ (fst <$> line) ->
     tmp_funknown tr1 !!! k = false
     /\ exists v, (k, v) ∈ line /\ tmp_feat tr1 !!! k = v)
  /\ (forall k, k ∉ (fst <$> line) ->
        tmp_funknown tr1 !!! k = tmp_funknown tr !!! k
        /\ tmp_feat tr1 !!! k = tmp_feat tr !!! k).
Proof.
  induction line as [|[f v] line IH]; intros tr tr1 Hlen; simpl.
  - intros [= <-]. split; [intros k Hk; inversion Hk|auto].
  - unfold Assert. destruct (f <? length (tmp_funknown tr))%nat eqn:Hf; simpl;
      [|discriminate].
    apply Nat.ltb_lt in Hf. intros Hload.
    assert (Hlen' : length (<[f:=false]> (tmp_funknown tr))
                    = length (<[f:=v]> (tmp_feat tr)))
      by (rewrite !length_insert; exact Hlen).
    destruct (IH (mkTrainer (trainer_tree tr) (<[f:=v]> (tmp_feat tr))
                    (<[f:=false]> (tmp_funknown tr))) tr1 Hlen' Hload)
      as [Hin Hout].
    cbn [tmp_funknown tmp_feat] in Hout.
    assert (Hcase : forall k, k ∈ (fst <$> line)
                     \/ ((k ∉ (fst <$> line)) /\ k = f)
                     \/ ((k ∉ (fst <$> line)) /\ k <> f)).
    { intros k. destruct (decide (k ∈ (fst <$> line))); [auto|].
      destruct (decide (k = f)); auto. }
    split.
    + intros k Hk. destruct (Hcase k) as [Hr|[[Hr ->]|[Hr Hne]]].
      * destruct (Hin k Hr) as (Hm & w & Hw & Hv).
        split; [exact Hm|]. exists w. split; [apply list_elem_of_further, Hw|exact Hv].
      * destruct (Hout f Hr) as [Hm Hv]. rewrite Hm, Hv.
        rewrite !list_lookup_total_insert_eq by lia.
        split; [reflexivity|]. exists v. split; [apply list_elem_of_here|reflexivity].
      * apply elem_of_cons in Hk as [Hk|Hk]; [simpl in Hk; congruence|tauto].
    + intros k Hk. apply not_elem_of_cons in Hk as [Hne Hr]. simpl in Hne.
      destruct (Hout k Hr) as [Hm Hv]. rewrite Hm, Hv.
      rewrite !list_lookup_total_insert_ne by congruence. auto.
Qed.

(** The scratch after init_tmpfeat. *)
Lemma init_tmpfeat_spec tr :
  0 <= num_feature (trainer_tree tr) ->
  length (tmp_funknown tr) = length (tmp_feat tr) ->
  exists tr0,
    RTreeTrainer.init_tmpfeat tr = Ok tr0
    /\ trainer_tree tr0 = trainer_tree tr
    /\ length (tmp_funknown tr0) = length (tmp_feat tr0)
    /\ Z.of_nat (length (tmp_funknown tr0)) = num_feature (trainer_tree tr)
    /\ (Forall (fun b => b = true) (tmp_funknown tr) ->
        Forall (fun b => b = true) (tmp_funknown tr0)).
Proof.
  intros Hnf Hlen. unfold RTreeTrainer.init_tmpfeat, Assert.
  destruct (Z.of_nat (length (tmp_feat tr)) =? num_feature (trainer_tree tr)) eqn:E;
    simpl.
  - apply Z.eqb_eq in E. exists tr. repeat split; auto. rewrite Hlen. exact E.
  - rewrite (proj2 (Z.leb_le _ _) Hnf). simpl. eexists. split; [reflexivity|].
    cbn [tmp_funknown tmp_feat trainer_tree].
    rewrite length_resize, length_replicate.
    repeat split; [lia|]. intros _. apply Forall_replicate. reflexivity.
Qed.

End SparseDense.

(** X6.  On a finished tree the sparse Predict returns what the dense
    Predict returns on any dense row that agrees with the sparse one: the
    feature vector and the mask have at least [num_feature] entries, the
    feature value is the one of the sparse row at every index of the row,
    and the mask is false exactly at these indices.  The values that earlier
    calls left in the scratch buffer, which is never cleaned, do not reach
    the result. *)
Theorem predict_line_agrees_with_dense (fuel : nat) (line : Line) (gid : Z)
    (tr : RTreeTrainer) (feat : list float) (funknown : list bool) :
  finished fuel (trainer_tree tr) (to_int gid) = true ->
  Forall (fun b => b = true) (tmp_funknown tr) ->
  length (tmp_funknown tr) = length (tmp_feat tr) ->
  0 <= num_feature (trainer_tree tr) <= Z.of_nat (length feat) ->
  num_feature (trainer_tree tr) <= Z.of_nat (length funknown) ->
  Forall (fun f => Z.of_nat f < num_feature (trainer_tree tr)) (fst <$> line) ->
  (forall k v, (k, v) ∈ line -> feat !!! k = v /\ funknown !!! k = false) ->
  (forall k, (k < length funknown)%nat -> k ∉ (fst <$> line) ->
     funknown !!! k = true) ->
  (p ← RTreeTrainer.Predict_line fuel line gid tr; Ok (fst p))
  = RTreeTrainer.Predict fuel feat funknown gid tr.
Proof.
  intros _ Hall Hlen Hnf _ Hb Hin Hout'.
  assert (Hout : forall k, k ∉ (fst <$> line) -> funknown !!! k = true).
  { intros k Hk. destruct (decide (k < length funknown)%nat) as [Hlt|Hge];
      [exact (Hout' k Hlt Hk)|].
    rewrite list_lookup_total_alt, lookup_ge_None_2 by lia. reflexivity. }
  unfold RTreeTrainer.Predict_line, RTreeTrainer.Predict, Assert.
  destruct (init_tmpfeat_spec tr (proj1 Hnf) Hlen)
    as (tr0 & -> & Ht0 & Hlen0 & Hn0 & Hall0).
  specialize (Hall0 Hall).
  change (Ok tr0 ≫= ?k) with (k tr0). cbv beta.
  destruct (load_line_ok line tr0) as [tr1 Hload].
  { eapply Forall_impl; [exact Hb|]. intros f Hf. cbn beta in *. lia. }
  rewrite Hload. change (Ok tr1 ≫= ?k) with (k tr1). cbv beta.
  destruct (load_line_frame _ _ _ Hload) as (Ht1 & _).
  destruct (load_line_spec _ _ _ Hlen0 Hload) as [Hl1 Hl2].
  rewrite (proj2 (Z.leb_le _ _) (proj1 Hnf)), (proj2 (Z.leb_le _ _) (proj2 Hnf)).
  cbn [andb]. change (Ok tt ≫= ?k) with (k tt). cbv beta.
  unfold RTreeTrainer.GetLeafIndex.
  rewrite (traverse_ext fuel (trainer_tree tr1) (tmp_feat tr1) feat
             (tmp_funknown tr1) funknown).
  - rewrite Ht1, Ht0.
    destruct (RTreeTrainer.traverse fuel (trainer_tree tr) feat funknown (to_int gid))
      as [pid| |]; try reflexivity.
    cbn. rewrite (proj1 (unload_line_frame line tr1)), Ht1, Ht0. reflexivity.
  - intros k. destruct (decide (k ∈ (fst <$> line))) as [Hk|Hk].
    + destruct (Hl1 k Hk) as (-> & v & Hv & _). symmetry. apply (Hin k v Hv).
    + rewrite (proj1 (Hl2 k Hk)), (Hout k Hk). apply all_true_lookup, Hall0.
  - intros k Hk. destruct (decide (k ∈ (fst <$> line))) as [Hk'|Hk'].
    + destruct (Hl1 k Hk') as (_ & v & Hv & ->). symmetry. apply (Hin k v Hv).
    + rewrite (proj1 (Hl2 k Hk')), (all_true_lookup _ _ Hall0) in Hk. discriminate.
Qed.

Lemma predict_line_agrees_with_dense_witness :
  (p ← RTreeTrainer.Predict_line 2 [(0%nat, float_of_Z 1)] 0
         (mkTrainer example_tree [float_of_Z 7] [true]); Ok (fst p))
  = RTreeTrainer.Predict 2 [float_of_Z 1] [false] 0
      (mkTrainer example_tree [float_of_Z 7] [true]).
Proof.
  apply predict_line_agrees_with_dense.
  - reflexivity.
  - repeat constructor.
  - reflexivity.
  - cbn. lia.
  - cbn. lia.
  - repeat constructor.
  - intros k v Hk. apply list_elem_of_singleton in Hk. injection Hk as -> ->.
    split; reflexivity.
  - intros k Hlt Hk. destruct k as [|k]; [|cbn in Hlt; lia].
    exfalso. apply Hk. apply list_elem_of_here.
Defined.

(** X7.  With a scratch whose two arrays have one length and
    [num_feature >= 0], the sparse Predict fails an assertion exactly when
    the row has a feature index that is not below [num_feature]; the
    traversal itself never fails one. *)
Theorem predict_line_assert_iff (fuel : nat) (line : Line) (gid : Z)
    (tr : RTreeTrainer) :
  0 <= num_feature (trainer_tree tr) ->
  length (tmp_funknown tr) = length (tmp_feat tr) ->
  (RTreeTrainer.Predict_line fuel line gid tr = AssertFail
   <-> exists f, f ∈ (fst <$> line) /\ num_feature (trainer_tree tr) <= Z.of_nat f)
  /\ (forall feat funknown pid,
        RTreeTrainer.GetLeafIndex fuel (trainer_tree tr) feat funknown pid
        <> AssertFail).
Proof.
  intros Hnf Hlen. split; [|intros feat funknown pid; apply traverse_no_assert].
  unfold RTreeTrainer.Predict_line.
  destruct (init_tmpfeat_spec tr Hnf Hlen) as (tr0 & -> & Ht0 & Hlen0 & Hn0 & _).
  change (Ok tr0 ≫= ?k) with (k tr0). cbv beta.
  destruct (RTreeTrainer.load_line line tr0) as [tr1| |] eqn:Hload.
  - change (Ok tr1 ≫= ?k) with (k tr1). cbv beta. split.
    + unfold RTreeTrainer.GetLeafIndex.
      pose proof (traverse_no_assert fuel (trainer_tree tr1) (tmp_feat tr1)
                    (tmp_funknown tr1) (to_int gid)) as Hna.
      destruct (RTreeTrainer.traverse _ _ _ _ _); cbn; congruence.
    + intros (f & Hf & Hge). exfalso.
      destruct (load_line_frame _ _ _ Hload) as (_ & _ & _ & _ & Hb).
      rewrite Forall_forall in Hb. specialize (Hb f Hf). cbn beta in Hb. lia.
  - split; [intros _|reflexivity].
    destruct (decide (Forall (fun f => (f < length (tmp_funknown tr0))%nat)
                        (fst <$> line))) as [Hb|Hb].
    + destruct (load_line_ok line tr0 Hb) as [tr1 H1]. congruence.
    + apply not_Forall_Exists in Hb; [|intros x; apply _].
      apply Exists_exists in Hb as (f & Hf & Hge). exists f. split; [exact Hf|].
      unfold compose in Hge. lia.
  - exfalso. clear -Hload. revert tr0 Hload.
    induction line as [|[f v] line IH]; intros tr0; simpl; [discriminate|].
    unfold Assert. destruct (f <? length (tmp_funknown tr0))%nat; simpl;
      [apply IH|discriminate].
Qed.

Lemma predict_line_assert_iff_witness :
  RTreeTrainer.Predict_line 2 [(1%nat, float_of_Z 1)] 0 (mkTrainer example_tree [] [])
  = AssertFail.
Proof.
  apply (predict_line_assert_iff 2 [(1%nat, float_of_Z 1)] 0
           (mkTrainer example_tree [] []) ltac:(cbn; lia) eq_refl).
  exists 1%nat. split; [apply list_elem_of_here|cbn; lia].
Defined.

(** ** The chain of nodes that the pruner collapses *)

Section PrunerChain.

Context {Rng : Type}.
Variable param : TreeParamTrain.
Implicit Types (st : Updater Rng) (t : RTree).

Lemma depth_is_ancestor t i d j :
  depth_is t i d -> (j <= d)%nat -> depth_is t (ancestor t j i) (d - j).
Proof.
  intros [Hroot Hnot] Hj. split.
  - rewrite <- ancestor_add. replace (j + (d - j))%nat with d by lia. exact Hroot.
  - intros k Hk. rewrite <- ancestor_add. apply Hnot. lia.
Qed.

(** The ancestors of a node up to its root are pairwise different. *)
Lemma ancestor_distinct t i d j j' :
  depth_is t i d -> (j < j' <= d)%nat -> ancestor t j i <> ancestor t j' i.
Proof.
  intros Hd Hj Heq.
  apply (ancestor_acyclic t (ancestor t j i) (d - j) (j' - j)).
  - apply depth_is_ancestor; [exact Hd|lia].
  - lia.
  - rewrite <- ancestor_add. replace (j + (j' - j))%nat with j' by lia.
    symmetry. exact Heq.
Qed.

Lemma try_prune_leaf_chain_gen d : forall fuel nid depth st,
  depth_is (tree st) (Z.to_nat nid) d ->
  (d < fuel)%nat ->
  (forall j, (1 <= j <= d)%nat ->
     (ancestor (tree st) j (Z.to_nat nid) < length (nodes (tree st)))%nat) ->
  length (stats (tree st)) = length (nodes (tree st)) ->
  exists st' k,
    try_prune_leaf param fuel nid depth st = Ok st'
    /\ (k <= d)%nat
    /\ num_pruned st' = num_pruned st + 2 * Z.of_nat k
    /\ (forall j, (1 <= j <= k)%nat ->
          nodes (tree st') !!! ancestor (tree st) j (Z.to_nat nid)
          = Node.set_leaf
              (fmul (learning_rate param)
                 (stat_base_weight
                    (stats (tree st) !!! ancestor (tree st) j (Z.to_nat nid))))
              (nodes (tree st) !!! ancestor (tree st) j (Z.to_nat nid))
          /\ 1 <= stat_leaf_child_cnt
                    (stats (tree st) !!! ancestor (tree st) j (Z.to_nat nid))
          /\ need_prune param
               (stat_loss_chg (stats (tree st) !!! ancestor (tree st) j (Z.to_nat nid)))
               (depth - Z.of_nat j) = true)
    /\ ((k < d)%nat ->
          (2 <=? stat_leaf_child_cnt
                   (stats (tree st) !!! ancestor (tree st) (S k) (Z.to_nat nid)) + 1)
          && need_prune param
               (stat_loss_chg
                  (stats (tree st) !!! ancestor (tree st) (S k) (Z.to_nat nid)))
               (depth - Z.of_nat (S k)) = false)
    /\ (forall i, (forall j, (1 <= j <= k)%nat ->
                     ancestor (tree st) j (Z.to_nat nid) <> i) ->
          nodes (tree st') !!! i = nodes (tree st) !!! i)
    /\ (forall i, stat_loss_chg (stats (tree st') !!! i)
                  = stat_loss_chg (stats (tree st) !!! i)
                  /\ stat_base_weight (stats (tree st') !!! i)
                     = stat_base_weight (stats (tree st) !!! i))
    /\ (forall j, (1 <= j <= Nat.min (S k) d)%nat ->
          stat_leaf_child_cnt (stats (tree st') !!! ancestor (tree st) j (Z.to_nat nid))
          = stat_leaf_child_cnt
              (stats (tree st) !!! ancestor (tree st) j (Z.to_nat nid)) + 1)
    /\ (forall i, (forall j, (1 <= j <= Nat.min (S k) d)%nat ->
                     ancestor (tree st) j (Z.to_nat nid) <> i) ->
          stats (tree st') !!! i = stats (tree st) !!! i).
Proof.
  induction d as [|d IH]; intros fuel nid depth st Hd Hfuel Hrange Hlen;
    destruct fuel as [|fuel]; try lia; cbn [try_prune_leaf].
  - destruct Hd as [Hroot _]. simpl in Hroot. unfold RTree.node. rewrite Hroot.
    exists st, 0%nat. split; [reflexivity|]. split; [lia|]. split; [lia|].
    split; [intros j Hj; lia|]. split; [intros Hk; lia|].
    split; [reflexivity|]. split; [auto|]. split; [intros j Hj; lia|reflexivity].
  - pose proof (proj2 Hd 0%nat ltac:(lia)) as H0. simpl in H0.
    unfold RTree.node at 1. rewrite H0.
    set (n := Z.to_nat nid) in *.
    set (pid := Node.parent (RTree.node (tree st) nid)).
    assert (Hpid : Z.to_nat pid = ancestor (tree st) 1 n) by reflexivity.
    assert (Ha1 : (ancestor (tree st) 1 n < length (nodes (tree st)))%nat)
      by (apply Hrange; lia).
    set (s0 := RTree.stat (tree st) pid).
    assert (Hs0 : s0 = stats (tree st) !!! ancestor (tree st) 1 n) by reflexivity.
    set (s := mkStat (stat_loss_chg s0) (stat_base_weight s0)
                (stat_leaf_child_cnt s0 + 1)).
    set (ta := RTree.set_stat pid s (tree st)).
    assert (Hsa : forall i, stats ta !!! i
                    = if decide (i = ancestor (tree st) 1 n) then s
                      else stats (tree st) !!! i).
    { intros i. subst ta. cbn [RTree.set_stat stats]. rewrite Hpid.
      destruct (decide (i = ancestor (tree st) 1 n)) as [->|Hne].
      - apply list_lookup_total_insert_eq. lia.
      - apply list_lookup_total_insert_ne. congruence. }
    cbn [tree with_tree].
    change (stat_leaf_child_cnt s) with (stat_leaf_child_cnt s0 + 1).
    change (stat_loss_chg s) with (stat_loss_chg s0).
    change (stat_base_weight s) with (stat_base_weight s0).
    fold ta.
    destruct ((2 <=? stat_leaf_child_cnt s0 + 1)
              && need_prune param (stat_loss_chg s0) (depth - 1)) eqn:Hc.
    + (* the parent collapses *)
      set (v := fmul (learning_rate param) (stat_base_weight s0)).
      set (st1 := with_num_pruned _ _).
      assert (Ht1 : tree st1 = RTree.ChangeToLeaf pid v ta) by reflexivity.
      assert (Hpar : forall j, node_parent (nodes (tree st1) !!! j)
                               = node_parent (nodes (tree st) !!! j)).
      { intros j. rewrite Ht1, ChangeToLeaf_parent. reflexivity. }
      assert (Hanc : forall j, ancestor (tree st1) j (Z.to_nat pid)
                               = ancestor (tree st) (S j) n).
      { intros j. rewrite (ancestor_ext (tree st) (tree st1) _ _ Hpar). reflexivity. }
      assert (Hn1 : forall i, nodes (tree st1) !!! i
                      = if decide (i = ancestor (tree st) 1 n)
                        then Node.set_leaf v (nodes (tree st) !!! i)
                        else nodes (tree st) !!! i).
      { intros i. rewrite Ht1. unfold RTree.ChangeToLeaf, RTree.node.
        cbn [RTree.set_node nodes ta RTree.set_stat]. rewrite Hpid.
        destruct (decide (i = ancestor (tree st) 1 n)) as [->|Hne].
        - apply list_lookup_total_insert_eq. lia.
        - apply list_lookup_total_insert_ne. congruence. }
      assert (Hst1 : stats (tree st1) = stats ta) by reflexivity.
      assert (Hd1 : depth_is (tree st1) (Z.to_nat pid) d).
      { apply (depth_is_ext (tree st)); [exact Hpar|].
        apply depth_is_parent in Hd. exact Hd. }
      assert (Hl1 : length (nodes (tree st1)) = length (nodes (tree st))).
      { rewrite Ht1. unfold RTree.ChangeToLeaf. cbn [RTree.set_node nodes].
        rewrite length_insert. reflexivity. }
      assert (Hls1 : length (stats (tree st1)) = length (stats (tree st))).
      { rewrite Hst1. subst ta. cbn [RTree.set_stat stats].
        apply length_insert. }
      destruct (IH fuel pid (depth - 1) st1 Hd1 ltac:(lia))
        as (st' & k & Hrun & Hk & Hnp & Hcol & Hstop & Hnf & Hlb & Hcnt & Hsf).
      { intros j Hj. rewrite Hanc, Hl1. apply Hrange. lia. }
      { congruence. }
      assert (Hdist : forall j, (1 <= j <= d)%nat ->
                ancestor (tree st) (S j) n <> ancestor (tree st) 1 n).
      { intros j Hj Heq. apply (ancestor_distinct (tree st) n (S d) 1 (S j) Hd);
          [lia|]. symmetry. exact Heq. }
      apply andb_true_iff in Hc as [Hc1 Hc2]. apply Z.leb_le in Hc1.
      exists st', (S k). split; [exact Hrun|]. split; [lia|].
      split; [rewrite Hnp; subst st1; cbn [num_pruned with_num_pruned with_tree]; lia|].
      split; [|split; [|split; [|split; [|split]]]].
      * intros [|[|j]] Hj; [lia| |].
        -- rewrite Hnf.
           ++ rewrite Hn1, decide_True by reflexivity. rewrite <- Hs0.
              repeat split; [lia|exact Hc2].
           ++ intros j Hj'. rewrite Hanc. apply Hdist. lia.
        -- destruct (Hcol (S j) ltac:(lia)) as (H1 & H2 & H3).
           rewrite Hanc in H1, H2, H3.
           rewrite Hst1, Hsa, decide_False in H1, H2, H3 by (apply Hdist; lia).
           rewrite Hn1, decide_False in H1 by (apply Hdist; lia).
           split; [exact H1|]. split; [exact H2|].
           rewrite <- H3. f_equal. lia.
      * intros Hlt. specialize (Hstop ltac:(lia)).
        rewrite Hanc, Hst1, Hsa, decide_False in Hstop by (apply Hdist; lia).
        rewrite <- Hstop. do 2 f_equal. lia.
      * intros i Hi. rewrite Hnf.
        -- rewrite Hn1, decide_False; [reflexivity|].
           intros ->. exact (Hi 1%nat ltac:(lia) eq_refl).
        -- intros j Hj. rewrite Hanc. apply Hi. lia.
      * intros i. destruct (Hlb i) as [H1 H2]. rewrite H1, H2, Hst1, Hsa.
        destruct (decide (i = ancestor (tree st) 1 n)) as [->|Hne]; auto.
      * intros [|[|j]] Hj; [lia| |].
        -- rewrite Hsf.
           ++ rewrite Hst1, Hsa, decide_True by reflexivity. rewrite <- Hs0.
              reflexivity.
           ++ intros j Hj'. rewrite Hanc. apply Hdist. lia.
        -- specialize (Hcnt (S j) ltac:(lia)).
           rewrite Hanc, Hst1, Hsa, decide_False in Hcnt by (apply Hdist; lia).
           exact Hcnt.
      * intros i Hi. rewrite Hsf.
        -- rewrite Hst1, Hsa, decide_False; [reflexivity|].
           intros ->. exact (Hi 1%nat ltac:(lia) eq_refl).
        -- intros j Hj. rewrite Hanc. apply Hi. lia.
    + (* the recursion stops at the parent *)
      exists (with_tree ta st), 0%nat. split; [reflexivity|].
      cbn [tree with_tree num_pruned].
      split; [lia|]. split; [lia|]. split; [intros j Hj; lia|].
      split; [intros _; rewrite <- Hs0; exact Hc|].
      split; [reflexivity|]. split; [|split].
      * intros i. rewrite Hsa.
        destruct (decide (i = ancestor (tree st) 1 n)) as [->|Hne]; auto.
      * intros j Hj. assert (j = 1%nat) as -> by lia.
        rewrite Hsa, decide_True by reflexivity. rewrite <- Hs0. reflexivity.
      * intros i Hi. rewrite Hsa, decide_False; [reflexivity|].
        intros ->. exact (Hi 1%nat ltac:(lia) eq_refl).
Qed.

End PrunerChain.

Lemma well_rooted_ancestor t i : forall j,
  well_rooted t -> (i < length (nodes t))%nat ->
  (ancestor t j i <= i)%nat.
Proof.
  intros j Hwr. revert i. induction j as [|j IH]; intros i Hi; simpl; [lia|].
  assert (Hp : (parent_index t i <= i)%nat).
  { unfold parent_index. destruct (Hwr i Hi) as [H|H]; rewrite ?H; lia. }
  specialize (IH (parent_index t i) ltac:(lia)). lia.
Qed.

(** X8.  In a tree whose parents lie before their children, the pruner
    started at [nid] returns after collapsing a chain of [k] ancestors of
    [nid], from its parent upwards: each of them had already one leaf child
    reported and passes [need_prune] at its depth, and becomes a leaf of value
    [learning_rate * base_weight]; the next ancestor, if there is one, fails
    the test and only has its [leaf_child_cnt] incremented.  The counter of
    pruned nodes grows by [2 * k]; no other node is written, no [loss_chg] or
    [base_weight] changes, and no other [leaf_child_cnt] changes. *)
Theorem try_prune_leaf_chain {Rng : Type} (param : TreeParamTrain) (fuel : nat)
    (nid depth : Z) (st : Updater Rng) :
  let t := tree st in
  let anc j := ancestor t j (Z.to_nat nid) in
  well_rooted t ->
  (Z.to_nat nid < length (nodes t))%nat ->
  length (stats t) = length (nodes t) ->
  (Z.to_nat nid < fuel)%nat ->
  exists d st' k,
    depth_is t (Z.to_nat nid) d
    /\ try_prune_leaf param fuel nid depth st = Ok st'
    /\ (k <= d)%nat
    /\ num_pruned st' = num_pruned st + 2 * Z.of_nat k
    /\ (forall j, (1 <= j <= k)%nat ->
          nodes (tree st') !!! anc j
          = Node.set_leaf
              (fmul (learning_rate param) (stat_base_weight (stats t !!! anc j)))
              (nodes t !!! anc j)
          /\ 1 <= stat_leaf_child_cnt (stats t !!! anc j)
          /\ need_prune param (stat_loss_chg (stats t !!! anc j))
               (depth - Z.of_nat j) = true)
    /\ ((k < d)%nat ->
          (2 <=? stat_leaf_child_cnt (stats t !!! anc (S k)) + 1)
          && need_prune param (stat_loss_chg (stats t !!! anc (S k)))
               (depth - Z.of_nat (S k)) = false)
    /\ (forall i, (forall j, (1 <= j <= k)%nat -> anc j <> i) ->
          nodes (tree st') !!! i = nodes t !!! i)
    /\ (forall i, stat_loss_chg (stats (tree st') !!! i) = stat_loss_chg (stats t !!! i)
                  /\ stat_base_weight (stats (tree st') !!! i)
                     = stat_base_weight (stats t !!! i))
    /\ (forall j, (1 <= j <= Nat.min (S k) d)%nat ->
          stat_leaf_child_cnt (stats (tree st') !!! anc j)
          = stat_leaf_child_cnt (stats t !!! anc j) + 1)
    /\ (forall i, (forall j, (1 <= j <= Nat.min (S k) d)%nat -> anc j <> i) ->
          stats (tree st') !!! i = stats t !!! i).
Proof.
  cbv zeta. intros Hwr Hnid Hlen Hfuel.
  destruct (well_rooted_depth _ Hwr _ Hnid) as (d & Hd & Hdepth).
  destruct (try_prune_leaf_chain_gen param d fuel nid depth st Hdepth ltac:(lia))
    as (st' & k & H).
  - intros j Hj. pose proof (well_rooted_ancestor (tree st) _ j Hwr Hnid). lia.
  - exact Hlen.
  - exists d, st', k. split; [exact Hdepth|exact H].
Qed.

Lemma try_prune_leaf_chain_witness :
  exists st',
    try_prune_leaf (example_param 5 1 0 (float_of_Z 1)) 3 2 1 (example_state [] [])
    = Ok st'
    /\ num_pruned st' = 2
    /\ Node.is_leaf (nodes (tree st') !!! 0%nat) = true
    /\ nodes (tree st') !!! 2%nat = nodes example_tree !!! 2%nat.
Proof.
  destruct (try_prune_leaf_chain (example_param 5 1 0 (float_of_Z 1)) 3 2 1
              (example_state [] []))
    as (d & st' & k & Hd & Hrun & Hk & Hnp & Hcol & Hstop & Hnf & _).
  - intros [|[|[|i]]] Hi; cbn in *; lia.
  - cbn. lia.
  - reflexivity.
  - lia.
  - assert (Hd1 : d = 1%nat).
    { destruct Hd as [Hroot Hnot].
      destruct d as [|[|d]]; [discriminate Hroot|reflexivity|].
      specialize (Hnot 1%nat ltac:(lia)). discriminate Hnot. }
    subst d.
    assert (Hk1 : k = 1%nat).
    { destruct k as [|k]; [|lia]. specialize (Hstop ltac:(lia)). discriminate Hstop. }
    subst k.
    exists st'. split; [exact Hrun|]. split; [rewrite Hnp; reflexivity|].
    split.
    + destruct (Hcol 1%nat ltac:(lia)) as (Hnode & _).
      cbn [ancestor] in Hnode.
      change (parent_index (tree (example_state [] [])) (Z.to_nat 2)) with 0%nat
        in Hnode.
      rewrite Hnode. reflexivity.
    + apply Hnf. intros j Hj. assert (j = 1%nat) as -> by lia. discriminate.
Defined.

(** ** What the loop of do_boost maintains *)

Section Leafed.

Implicit Types (t : RTree).

Lemma depth_is_unique t i d d' : depth_is t i d -> depth_is t i d' -> d = d'.
Proof.
  intros [Hr Hn] [Hr' Hn'].
  destruct (Nat.lt_trichotomy d d') as [Hlt|[Heq|Hgt]]; [|exact Heq|].
  - rewrite (Hn' d Hlt) in Hr. discriminate.
  - rewrite (Hn d' Hgt) in Hr'. discriminate.
Qed.

Lemma leafed_refl t : leafed t t.
Proof. repeat split. intros i. left. reflexivity. Qed.

Lemma leafed_trans t1 t2 t3 : leafed t1 t2 -> leafed t2 t3 -> leafed t1 t3.
Proof.
  intros (Hn & Hs & Hr & Hf & H12) (Hn' & Hs' & Hr' & Hf' & H23).
  split; [congruence|]. split; [congruence|]. split; [congruence|].
  split; [congruence|]. intros i.
  destruct (H23 i) as [->|[v ->]]; [apply H12|].
  right. exists v. destruct (H12 i) as [->|[w ->]]; reflexivity.
Qed.

Lemma leafed_parent t t' :
  leafed t t' ->
  forall j, node_parent (nodes t' !!! j) = node_parent (nodes t !!! j).
Proof. intros (_ & _ & _ & _ & H) j. destruct (H j) as [->|[v ->]]; reflexivity. Qed.

Lemma leafed_set_leaf t nid v :
  leafed t (RTree.set_node nid (Node.set_leaf v (RTree.node t nid)) t).
Proof.
  split; [apply length_insert|]. repeat split. intros i.
  unfold RTree.node. cbn [RTree.set_node nodes].
  apply (insert_total_same (nodes t) (Z.to_nat nid) i (Node.set_leaf v)
           (fun a b => a = b \/ exists w, a = Node.set_leaf w b)); eauto.
Qed.

Lemma leafed_set_stat t nid s : leafed t (RTree.set_stat nid s t).
Proof.
  split; [reflexivity|]. split; [apply length_insert|]. repeat split.
  intros i. left. reflexivity.
Qed.

Lemma leafed_well_rooted t t' : leafed t t' -> well_rooted t -> well_rooted t'.
Proof.
  intros Hl Hwr i Hi. rewrite (leafed_parent _ _ Hl).
  apply Hwr. rewrite <- (proj1 Hl). exact Hi.
Qed.

Lemma leafed_depth_bounded bound t t' :
  leafed t t' -> depth_bounded bound t -> depth_bounded bound t'.
Proof.
  intros Hl Hdb i Hi. rewrite (proj1 Hl) in Hi.
  destruct (Hdb i Hi) as (d & Hd & Hle). exists d. split; [|exact Hle].
  apply (depth_is_ext t); [apply leafed_parent, Hl|exact Hd].
Qed.

Lemma leafed_shaped t t' : leafed t t' -> shaped t -> shaped t'.
Proof.
  intros (Hn & _ & _ & Hf & H) Hs i Hi Hleaf. rewrite Hn in *. rewrite Hf.
  destruct (H i) as [E|[v E]]; rewrite E in *; [apply Hs; assumption|].
  discriminate Hleaf.
Qed.

End Leafed.

Section GrowerSteps.

Context {Rng : Type}.
Variable std_sort : list SCEntry -> list SCEntry.
Variable param : TreeParamTrain.
Variables grad hess : list float.
Variable smat : Image.
Implicit Types (st : Updater Rng) (tsk : Task) (t : RTree).

(** The pruner turns nodes into leaves and does nothing else to the
    tree. *)
Lemma try_prune_leaf_leafed fuel : forall nid depth st st',
  try_prune_leaf param fuel nid depth st = Ok st' ->
  leafed (tree st) (tree st')
  /\ task_stack st' = task_stack st
  /\ idset st' = idset st
  /\ max_depth st' = max_depth st
  /\ num_pruned st <= num_pruned st'.
Proof.
  induction fuel as [|fuel IH]; intros nid depth st st'; simpl; [discriminate|].
  destruct (Node.is_root (RTree.node (tree st) nid)).
  { intros [= <-]. split; [apply leafed_refl|]. repeat split. lia. }
  set (pid := Node.parent (RTree.node (tree st) nid)).
  match goal with |- context [if ?c then _ else _] => destruct c end.
  - intros Hrun. apply IH in Hrun as (Hl & Hts & Hid & Hmd & Hnp).
    cbn [tree with_tree with_num_pruned task_stack idset max_depth num_pruned] in *.
    split; [|repeat split; try assumption; lia].
    eapply leafed_trans; [|exact Hl].
    eapply leafed_trans; [apply leafed_set_stat|apply leafed_set_leaf].
  - intros [= <-]. cbn [tree with_tree task_stack idset max_depth num_pruned].
    split; [apply leafed_set_stat|]. repeat split. lia.
Qed.

Lemma make_leaf_leafed fuel tsk sum_grad sum_hess compute st st' :
  make_leaf param grad hess fuel tsk sum_grad sum_hess compute st = Ok st' ->
  leafed (tree st) (tree st')
  /\ task_stack st' = task_stack st
  /\ idset st' = idset st
  /\ max_depth st' = max_depth st
  /\ num_pruned st <= num_pruned st'.
Proof.
  unfold make_leaf. intros Hrun.
  destruct (RTree.GetDepth fuel _ _) as [depth| |]; try discriminate.
  apply try_prune_leaf_leafed in Hrun as (Hl & Hts & Hid & Hmd & Hnp).
  cbn [tree with_tree task_stack idset max_depth num_pruned] in *.
  split; [|repeat split; assumption].
  eapply leafed_trans; [apply leafed_set_leaf|exact Hl].
Qed.

End GrowerSteps.

Section ExpandCases.

Context {Rng : Type}.
Variable std_sort : list SCEntry -> list SCEntry.
Variable param : TreeParamTrain.
Variables grad hess : list float.
Variable smat : Image.
Implicit Types (st : Updater Rng) (tsk : Task) (t : RTree).

(** The two ways in which expand returns: the node of the task has become
    a leaf and some of its ancestors may have been collapsed, or the node has
    been split on a candidate of an active feature and the tasks of its two
    children have been pushed. *)
Lemma expand_cases fuel tsk st st' :
  expand std_sort param grad hess smat fuel tsk st = Ok st' ->
  exists depth,
    RTree.GetDepth fuel (tree st) (task_nid tsk) = Ok depth
    /\ max_depth st' = Z.max (max_depth st) depth
    /\ num_pruned st <= num_pruned st'
    /\ ((leafed (tree st) (tree st')
         /\ task_stack st' = task_stack st
         /\ idset st' = idset st)
        \/ (depth < param_max_depth param
            /\ exists e bw def_part spl_part,
                 tree st'
                 = RTree.AddChilds (task_nid tsk)
                     (RTree.set_stat (task_nid tsk) (mkStat (RTSelecter.loss_chg e) bw 0)
                        (RTree.set_node (task_nid tsk)
                           (Node.set_split (RTSelecter.split_index e)
                              (RTSelecter.split_value e) (RTSelecter.default_left e)
                              (RTree.node (tree st) (task_nid tsk)))
                           (tree st)))
                 /\ task_stack st' = spl_part :: def_part :: task_stack st
                 /\ task_nid def_part
                    = (if Node.default_left (RTree.node (tree st') (task_nid tsk))
                       then Node.cleft (RTree.node (tree st') (task_nid tsk))
                       else Node.cright (RTree.node (tree st') (task_nid tsk)))
                 /\ task_nid spl_part
                    = (if Node.default_left (RTree.node (tree st') (task_nid tsk))
                       then Node.cright (RTree.node (tree st') (task_nid tsk))
                       else Node.cleft (RTree.node (tree st') (task_nid tsk)))
                 /\ flt rt_eps (RTSelecter.loss_chg e) = true
                 /\ exists f lc s ln sv dl,
                      f ∈ active_list smat (task_rows (idset st) tsk)
                      /\ e = RTSelecter.new lc s ln
                               (to_unsigned (to_int (Z.of_nat f))) sv dl)).
Proof.
  unfold expand.
  destruct (RTree.GetDepth fuel (tree st) (task_nid tsk)) as [depth| |];
    try discriminate.
  change (Ok depth ≫= ?k) with (k depth). cbv beta.
  set (st0 := if max_depth st <? depth then with_max_depth depth st else st).
  assert (H0 : tree st0 = tree st /\ idset st0 = idset st
               /\ task_stack st0 = task_stack st
               /\ num_pruned st0 = num_pruned st
               /\ max_depth st0 = Z.max (max_depth st) depth).
  { subst st0.
    destruct (max_depth st <? depth) eqn:E;
      [apply Z.ltb_lt in E|apply Z.ltb_ge in E]; cbn; repeat split; lia. }
  destruct H0 as (Ht0 & Hi0 & Hs0 & Hn0 & Hm0).
  intros Hrun. exists depth. split; [reflexivity|].
  assert (Hleaf : forall sg sh compute,
            make_leaf param grad hess fuel tsk sg sh compute st0 = Ok st' ->
            max_depth st' = Z.max (max_depth st) depth
            /\ num_pruned st <= num_pruned st'
            /\ ((leafed (tree st) (tree st')
                 /\ task_stack st' = task_stack st
                 /\ idset st' = idset st)
                \/ (depth < param_max_depth param
                    /\ exists e bw def_part spl_part,
                         tree st'
                         = RTree.AddChilds (task_nid tsk)
                             (RTree.set_stat (task_nid tsk)
                                (mkStat (RTSelecter.loss_chg e) bw 0)
                                (RTree.set_node (task_nid tsk)
                                   (Node.set_split (RTSelecter.split_index e)
                                      (RTSelecter.split_value e)
                                      (RTSelecter.default_left e)
                                      (RTree.node (tree st) (task_nid tsk)))
                                   (tree st)))
                         /\ task_stack st' = spl_part :: def_part :: task_stack st
                         /\ task_nid def_part
                            = (if Node.default_left
                                    (RTree.node (tree st') (task_nid tsk))
                               then Node.cleft (RTree.node (tree st') (task_nid tsk))
                               else Node.cright (RTree.node (tree st') (task_nid tsk)))
                         /\ task_nid spl_part
                            = (if Node.default_left
                                    (RTree.node (tree st') (task_nid tsk))
                               then Node.cright (RTree.node (tree st') (task_nid tsk))
                               else Node.cleft (RTree.node (tree st') (task_nid tsk)))
                         /\ flt rt_eps (RTSelecter.loss_chg e) = true
                         /\ exists f lc s ln sv dl,
                              f ∈ active_list smat (task_rows (idset st) tsk)
                              /\ e = RTSelecter.new lc s ln
                                       (to_unsigned (to_int (Z.of_nat f))) sv dl))).
  { intros sg sh compute Hml.
    apply make_leaf_leafed in Hml as (Hl & Hts & Hid & Hmd & Hnp).
    rewrite Ht0 in Hl.
    split; [congruence|]. split; [lia|]. left.
    split; [exact Hl|]. split; congruence. }
  destruct (param_max_depth param <=? depth) eqn:Hmax; [exact (Hleaf _ _ _ Hrun)|].
  destruct (cannot_split param _ depth); [exact (Hleaf _ _ _ Hrun)|].
  destruct (enumerate_task_spec std_sort param grad hess smat tsk st0)
    as (r & Hr & Hsel).
  rewrite Hr in Hrun. change (Ok r ≫= ?k) with (k r) in Hrun. cbv beta in Hrun.
  destruct (flt rt_eps (RTSelecter.loss_chg (RTSelecter.select (fst r)))) eqn:Hgain;
    [|exact (Hleaf _ _ _ Hrun)].
  injection Hrun as <-.
  split; [cbn; exact Hm0|]. split; [cbn; lia|]. right.
  split; [apply Z.leb_gt, Hmax|].
  eexists (RTSelecter.select (fst r)), _, _, _.
  split; [rewrite make_split_tree; cbn [tree with_tree]; rewrite Ht0; reflexivity|].
  split; [cbn [make_split add_task task_stack with_idset with_tree];
          rewrite Hs0; reflexivity|].
  split; [reflexivity|]. split; [reflexivity|]. split; [exact Hgain|].
  destruct Hsel as [Hz|(_ & f & lc & s & ln & sv & dl & Hf & He)].
  - rewrite Hz in Hgain. discriminate Hgain.
  - rewrite Hi0 in Hf. eauto 10.
Qed.

End ExpandCases.

Section SplitTree.

Implicit Types (t : RTree) (n : Node).

Lemma split_tree_nodes t nid n s :
  (Z.to_nat nid < length (nodes t))%nat ->
  nodes (RTree.AddChilds nid (RTree.set_stat nid s (RTree.set_node nid n t)))
  = <[Z.to_nat nid := Node.set_children (Z.of_nat (length (nodes t)))
                        (Z.of_nat (length (nodes t)) + 1) n]> (nodes t)
    ++ [Node.fresh nid; Node.fresh nid].
Proof.
  intros Hnid. unfold RTree.AddChilds, RTree.node.
  cbn [RTree.set_stat RTree.set_node nodes].
  rewrite length_insert, list_lookup_total_insert_eq by exact Hnid.
  rewrite list_insert_insert_eq. reflexivity.
Qed.

(** In a tree whose parents lie before their children, the ancestors of a
    node are nodes of the tree, and they stay its ancestors when the tree
    grows behind it. *)
Lemma ancestor_prefix t t' :
  well_rooted t ->
  (forall j, (j < length (nodes t))%nat ->
     node_parent (nodes t' !!! j) = node_parent (nodes t !!! j)) ->
  forall k i, (i < length (nodes t))%nat ->
    ancestor t' k i = ancestor t k i /\ (ancestor t k i < length (nodes t))%nat.
Proof.
  intros Hwr Hpar. induction k as [|k IH]; intros i Hi; simpl; [auto|].
  assert (Hp : (parent_index t i < length (nodes t))%nat).
  { unfold parent_index. destruct (Hwr i Hi) as [H|H]; rewrite ?H; lia. }
  unfold parent_index at 1. rewrite (Hpar i Hi). apply IH, Hp.
Qed.

Lemma depth_is_prefix t t' i d :
  well_rooted t ->
  (forall j, (j < length (nodes t))%nat ->
     node_parent (nodes t' !!! j) = node_parent (nodes t !!! j)) ->
  (i < length (nodes t))%nat ->
  depth_is t i d -> depth_is t' i d.
Proof.
  intros Hwr Hpar Hi [Hroot Hnot]. unfold depth_is, Node.is_root in *.
  split.
  - destruct (ancestor_prefix t t' Hwr Hpar d i Hi) as [-> Hlt].
    rewrite (Hpar _ Hlt). exact Hroot.
  - intros k Hk. destruct (ancestor_prefix t t' Hwr Hpar k i Hi) as [-> Hlt].
    rewrite (Hpar _ Hlt). apply Hnot, Hk.
Qed.

Lemma split_tree_inv t nid si sc dl s :
  let n := Node.set_split si sc dl (RTree.node t nid) in
  let t' := RTree.AddChilds nid (RTree.set_stat nid s (RTree.set_node nid n t)) in
  0 <= nid < Z.of_nat (length (nodes t)) ->
  well_rooted t ->
  length (stats t) = length (nodes t) ->
  well_rooted t'
  /\ length (stats t') = length (nodes t')
  /\ length (nodes t') = S (S (length (nodes t)))
  /\ num_roots t' = num_roots t
  /\ num_feature t' = num_feature t
  /\ RTree.node t' nid
     = Node.set_children (Z.of_nat (length (nodes t)))
         (Z.of_nat (length (nodes t)) + 1) n
  /\ (forall bound d,
        depth_bounded bound t -> depth_is t (Z.to_nat nid) d ->
        Z.of_nat d + 1 <= bound -> depth_bounded bound t')
  /\ (shaped t -> 0 <= si < num_feature t -> shaped t').
Proof.
  intros n t' Hnid Hwr Hlen.
  assert (Hr : (Z.to_nat nid < length (nodes t))%nat) by lia.
  assert (Hnodes : nodes t'
                   = <[Z.to_nat nid := Node.set_children (Z.of_nat (length (nodes t)))
                                         (Z.of_nat (length (nodes t)) + 1) n]> (nodes t)
                     ++ [Node.fresh nid; Node.fresh nid])
    by (apply split_tree_nodes, Hr).
  assert (Hln : length (nodes t') = S (S (length (nodes t)))).
  { rewrite Hnodes, length_app, length_insert. cbn [length]. lia. }
  assert (Hold : forall j, (j < length (nodes t))%nat ->
            nodes t' !!! j
            = if decide (j = Z.to_nat nid)
              then Node.set_children (Z.of_nat (length (nodes t)))
                     (Z.of_nat (length (nodes t)) + 1) n
              else nodes t !!! j).
  { intros j Hj. rewrite Hnodes, lookup_total_app_l by (rewrite length_insert; lia).
    destruct (decide (j = Z.to_nat nid)) as [->|Hne].
    - apply list_lookup_total_insert_eq, Hr.
    - apply list_lookup_total_insert_ne. congruence. }
  assert (Hnew : forall j, (length (nodes t) <= j < S (S (length (nodes t))))%nat ->
            nodes t' !!! j = Node.fresh nid).
  { intros j Hj. rewrite Hnodes, lookup_total_app_r by (rewrite length_insert; lia).
    rewrite length_insert.
    destruct (j - length (nodes t))%nat as [|[|k]] eqn:E; [reflexivity|reflexivity|lia]. }
  assert (Hpar : forall j, (j < length (nodes t))%nat ->
            node_parent (nodes t' !!! j) = node_parent (nodes t !!! j)).
  { intros j Hj. rewrite (Hold j Hj).
    destruct (decide (j = Z.to_nat nid)) as [->|Hne]; reflexivity. }
  assert (Hwr' : well_rooted t').
  { subst t'. apply well_rooted_AddChilds.
    - cbn [RTree.set_stat RTree.set_node nodes]. rewrite length_insert. exact Hnid.
    - apply (well_rooted_set_node t nid n); [reflexivity|exact Hwr]. }
  split; [exact Hwr'|].
  split.
  { rewrite Hln. subst t'. cbn [RTree.AddChilds RTree.set_stat RTree.set_node stats].
    rewrite length_app, length_insert. cbn [length]. lia. }
  split; [exact Hln|]. split; [reflexivity|]. split; [reflexivity|].
  split; [unfold RTree.node; rewrite (Hold _ Hr), decide_True by reflexivity;
          reflexivity|].
  split.
  - intros bound d Hdb Hd Hle i Hi. rewrite Hln in Hi.
    destruct (decide (i < length (nodes t))%nat) as [Hlt|Hge].
    + destruct (Hdb i Hlt) as (di & Hdi & Hbi). exists di. split; [|exact Hbi].
      apply (depth_is_prefix t); assumption.
    + exists (S d). split; [|lia].
      apply (depth_is_prefix t t' _ _ Hwr Hpar Hr) in Hd.
      assert (Hpi : parent_index t' i = Z.to_nat nid).
      { unfold parent_index. rewrite Hnew by lia. reflexivity. }
      destruct Hd as [Hroot Hnot]. split.
      * cbn [ancestor]. rewrite Hpi. exact Hroot.
      * intros [|k] Hk.
        -- cbn [ancestor]. rewrite Hnew by lia. unfold Node.is_root. cbn.
           apply Z.eqb_neq. lia.
        -- cbn [ancestor]. rewrite Hpi. apply Hnot. lia.
  - intros Hs Hsi i Hi Hleaf. rewrite Hln in Hi |- *.
    change (num_feature t') with (num_feature t).
    destruct (decide (i < length (nodes t))%nat) as [Hlt|Hge].
    + rewrite (Hold i Hlt) in Hleaf |- *.
      destruct (decide (i = Z.to_nat nid)) as [->|Hne].
      * cbn. lia.
      * destruct (Hs i Hlt Hleaf) as (H1 & H2 & H3 & H4). lia.
    + rewrite Hnew in Hleaf by lia. discriminate Hleaf.
Qed.

End SplitTree.

Section GrowerInvariant.

Context {Rng : Type}.
Variable SampleBinary : float -> Rng -> Z * Rng.
Variable std_sort : list SCEntry -> list SCEntry.
Variable param : TreeParamTrain.
Variables grad hess : list float.
Variable smat : Image.
Variable group_id : list Z.
Implicit Types (st : Updater Rng) (tsk : Task) (t : RTree).

Let bound : Z := Z.max 0 (param_max_depth param).

(** The feature indices of the rows are below [nf]. *)
Let smat_below (nf : Z) : Prop :=
  Forall (fun line : Line => Forall (fun fv => Z.of_nat (fst fv) < nf) line) smat.

Lemma active_list_below nf rows f :
  smat_below nf -> f ∈ active_list smat rows -> Z.of_nat f < nf.
Proof.
  intros Hb Hf. apply active_list_elem in Hf as (ridx & _ & Hf).
  unfold Image, Line in *. rewrite list_lookup_total_alt in Hf.
  destruct (smat !! ridx) as [line|] eqn:Hl; [|inversion Hf].
  cbn in Hf. apply list_elem_of_fmap in Hf as ([f' v] & -> & Hfv).
  unfold smat_below in Hb. rewrite Forall_forall in Hb.
  specialize (Hb line (list_elem_of_lookup_2 _ _ _ Hl)).
  rewrite Forall_forall in Hb. exact (Hb _ Hfv).
Qed.

Lemma expand_inv fuel tsk st st' :
  grower_inv bound st ->
  0 <= task_nid tsk < Z.of_nat (length (nodes (tree st))) ->
  expand std_sort param grad hess smat fuel tsk st = Ok st' ->
  grower_inv bound st'
  /\ max_depth st <= max_depth st'
  /\ num_pruned st <= num_pruned st'
  /\ (length (nodes (tree st)) <= length (nodes (tree st')))%nat
  /\ num_roots (tree st') = num_roots (tree st)
  /\ num_feature (tree st') = num_feature (tree st)
  /\ (smat_below (num_feature (tree st)) -> num_feature (tree st) <= 2 ^ 31 ->
      shaped (tree st) -> shaped (tree st')).
Proof.
  intros (Hwr & Hlen & Hdb & Htasks & Hmd) Hnid Hrun.
  apply expand_cases in Hrun as (depth & Hdepth & Hmax & Hnp & Hcase).
  apply GetDepth_Ok in Hdepth as (d & -> & _ & Hd).
  assert (Hdle : Z.of_nat d <= bound).
  { destruct (Hdb (Z.to_nat (task_nid tsk)) ltac:(lia)) as (d' & Hd' & Hle).
    rewrite (depth_is_unique _ _ _ _ Hd Hd'). exact Hle. }
  destruct Hcase as [(Hl & Hts & Hid)|(Hlt & e & bw & def_part & spl_part & Ht & Hts
                                       & Hdef & Hspl & Hgain & Hcand)].
  - pose proof Hl as (Hln & Hls & Hnr & Hnf & _).
    split; [|split; [lia|split; [exact Hnp|split; [lia|split; [exact Hnr|
             split; [exact Hnf|]]]]]].
    + split; [exact (leafed_well_rooted _ _ Hl Hwr)|]. split; [congruence|].
      split; [exact (leafed_depth_bounded _ _ _ Hl Hdb)|]. split; [|lia].
      unfold tasks_in_range in *. rewrite Hts, Hln. exact Htasks.
    + intros _ _. apply leafed_shaped, Hl.
  - destruct (split_tree_inv (tree st) (task_nid tsk) (RTSelecter.split_index e)
                (RTSelecter.split_value e) (RTSelecter.default_left e)
                (mkStat (RTSelecter.loss_chg e) bw 0) Hnid Hwr Hlen)
      as (Hwr' & Hlen' & Hln' & Hnr' & Hnf' & Hnode & Hdb' & Hsh').
    rewrite <- Ht in Hwr', Hlen', Hln', Hnr', Hnf', Hnode, Hdb', Hsh'.
    split; [|split; [lia|split; [exact Hnp|split; [lia|split; [exact Hnr'|
             split; [exact Hnf'|]]]]]].
    + split; [exact Hwr'|]. split; [exact Hlen'|].
      split; [apply (Hdb' bound d Hdb Hd); unfold bound in *; lia|].
      split; [|unfold bound in *; lia].
      unfold tasks_in_range in *. rewrite Hts, Hln'.
      rewrite Hnode in Hdef, Hspl. cbn in Hdef, Hspl.
      constructor; [destruct (RTSelecter.default_left e); lia|].
      constructor; [destruct (RTSelecter.default_left e); lia|].
      eapply Forall_impl; [exact Htasks|]. intros x Hx. cbn beta in *. lia.
    + intros Hb Hnf Hs. apply Hsh'; [exact Hs|].
      destruct Hcand as (f & lc & s & ln & sv & dl & Hf & ->).
      pose proof (active_list_below _ _ _ Hb Hf) as Hfb.
      rewrite to_int_small, to_unsigned_small by lia.
      rewrite (proj1 (entry_decode (Z.of_nat f) dl lc s ln sv ltac:(lia))). lia.
Qed.

Lemma run_tasks_inv fuel : forall st st',
  grower_inv bound st ->
  run_tasks std_sort param grad hess smat fuel st = Ok st' ->
  grower_inv bound st'
  /\ task_stack st' = []
  /\ max_depth st <= max_depth st'
  /\ num_pruned st <= num_pruned st'
  /\ (length (nodes (tree st)) <= length (nodes (tree st')))%nat
  /\ num_roots (tree st') = num_roots (tree st)
  /\ num_feature (tree st') = num_feature (tree st)
  /\ (smat_below (num_feature (tree st)) -> num_feature (tree st) <= 2 ^ 31 ->
      shaped (tree st) -> shaped (tree st')).
Proof.
  induction fuel as [|fuel IH]; intros st st' Hinv; [discriminate|].
  cbn [run_tasks]. unfold next_task.
  destruct (task_stack st) as [|tsk rest] eqn:Hstack.
  { intros [= <-]. split; [exact Hinv|]. split; [exact Hstack|].
    split; [lia|]. split; [lia|]. split; [lia|]. split; [reflexivity|].
    split; [reflexivity|]. auto. }
  set (st0 := mkUpdater (tree st) (max_depth st) (num_pruned st) rest (idset st)
                (rng st)).
  destruct (expand std_sort param grad hess smat (S fuel) tsk st0) as [st1| |] eqn:Hexp;
    try discriminate.
  change (Ok st1 ≫= ?k) with (k st1). cbv beta. intros Hrun.
  destruct Hinv as (Hwr & Hlen & Hdb & Htasks & Hmd).
  unfold tasks_in_range in Htasks. rewrite Hstack in Htasks.
  apply Forall_cons in Htasks as [Htsk Hrest].
  assert (Hinv0 : grower_inv bound st0) by (repeat split; assumption).
  destruct (expand_inv _ _ _ _ Hinv0 Htsk Hexp)
    as (Hinv1 & Hm1 & Hp1 & Hl1 & Hr1 & Hf1 & Hs1).
  destruct (IH _ _ Hinv1 Hrun) as (Hinv' & Hts' & Hm' & Hp' & Hl' & Hr' & Hf' & Hs').
  cbn [tree max_depth num_pruned st0] in *.
  split; [exact Hinv'|]. split; [exact Hts'|].
  split; [lia|]. split; [lia|]. split; [lia|]. split; [congruence|].
  split; [congruence|].
  intros Hb Hnf Hs. apply Hs'; rewrite ?Hf1; auto.
Qed.

Lemma init_tasks_inv ngrads st st1 :
  tasks_in_range st ->
  (1 <= length (nodes (tree st)))%nat ->
  num_roots (tree st) <= Z.of_nat (length (nodes (tree st))) ->
  init_tasks SampleBinary param hess group_id ngrads st = Ok st1 ->
  tree st1 = tree st /\ tasks_in_range st1.
Proof.
  intros Htasks Hone Hroots. unfold init_tasks.
  destruct (length group_id =? 0)%nat.
  - destruct (flt subsample_all (subsample param)); intros [= <-];
      (split; [reflexivity|]); unfold tasks_in_range in *;
      cbn [add_task task_stack tree with_idset with_rng];
      (constructor; [cbn; lia|exact Htasks]).
  - destruct (Assert (length group_id =? ngrads)%nat) as [[]| |]; try discriminate.
    change (Ok tt ≫= ?k) with (k tt). cbv beta.
    destruct (check_groups hess group_id (tree st)) as [[]| |]; try discriminate.
    change (Ok tt ≫= ?k) with (k tt). cbv beta. intros [= <-].
    set (groups := seq 0 (Z.to_nat (num_roots (tree st)))).
    set (st0 := with_idset (flat_map (group_rows hess group_id) groups) st).
    destruct (group_tasks_spec hess group_id groups [] [] st0)
      as (Ht & _ & _ & _ & _ & new & Hnew & Hmap & _).
    { subst st0. cbn. rewrite app_nil_r. reflexivity. }
    cbn [length] in *. split; [exact Ht|].
    unfold tasks_in_range in *. rewrite Hnew, Ht. apply Forall_app.
    split; [|exact Htasks].
    apply Forall_forall. intros tsk Htsk.
    assert (Hin : (task_nid tsk, task_rows (idset st0) tsk)
                  ∈ map (fun tsk => (task_nid tsk, task_rows (idset st0) tsk)) new).
    { apply list_elem_of_fmap. exists tsk. split; [reflexivity|exact Htsk]. }
    rewrite Hmap in Hin. apply list_elem_of_In in Hin. apply in_rev in Hin.
    apply list_elem_of_In, list_elem_of_filter in Hin as [_ Hin].
    apply list_elem_of_fmap in Hin as (g & Heq & Hg).
    injection Heq as -> _. subst groups. apply elem_of_seq in Hg.
    cbn [tree with_idset st0]. lia.
Qed.

Lemma do_boost_inv fuel st st' :
  well_rooted (tree st) ->
  length (stats (tree st)) = length (nodes (tree st)) ->
  depth_bounded bound (tree st) ->
  tasks_in_range st ->
  (1 <= length (nodes (tree st)))%nat ->
  num_roots (tree st) <= Z.of_nat (length (nodes (tree st))) ->
  do_boost SampleBinary std_sort param grad hess smat group_id fuel st = Ok st' ->
  grower_inv bound st'
  /\ task_stack st' = []
  /\ 0 <= max_depth st'
  /\ 0 <= num_pruned st'
  /\ (length (nodes (tree st)) <= length (nodes (tree st')))%nat
  /\ num_roots (tree st') = num_roots (tree st)
  /\ num_feature (tree st') = num_feature (tree st)
  /\ (smat_below (num_feature (tree st)) -> num_feature (tree st) <= 2 ^ 31 ->
      shaped (tree st) -> shaped (tree st')).
Proof.
  intros Hwr Hlen Hdb Htasks Hone Hroots. unfold do_boost.
  destruct (init_tasks SampleBinary param hess group_id (length grad) st)
    as [st1| |] eqn:Hinit; try discriminate.
  change (Ok st1 ≫= ?k) with (k st1). cbv beta. intros Hrun.
  destruct (init_tasks_inv _ _ _ Htasks Hone Hroots Hinit) as [Ht1 Htasks1].
  apply run_tasks_inv in Hrun.
  - cbn [tree max_depth num_pruned with_num_pruned with_max_depth] in Hrun.
    rewrite Ht1 in Hrun.
    destruct Hrun as (Hinv & Hts & Hm & Hp & Hl & Hr & Hf & Hs).
    split; [exact Hinv|]. split; [exact Hts|]. split; [exact Hm|].
    split; [exact Hp|]. split; [exact Hl|]. split; [exact Hr|].
    split; [exact Hf|exact Hs].
  - unfold grower_inv. cbn [tree max_depth with_num_pruned with_max_depth].
    rewrite Ht1. split; [exact Hwr|]. split; [exact Hlen|].
    split; [exact Hdb|]. split; [exact Htasks1|]. unfold bound. lia.
Qed.

End GrowerInvariant.

(** In a shaped tree every branch ends in a leaf. *)
Lemma shaped_finished (t : RTree) :
  shaped t ->
  forall h i, (i < length (nodes t))%nat -> (length (nodes t) - i <= h)%nat ->
    finished h t (Z.of_nat i) = true.
Proof.
  intros Hs. induction h as [|h IH]; intros i Hi Hh; [lia|].
  cbn [finished]. unfold RTree.node. rewrite Nat2Z.id.
  rewrite (proj2 (Z.leb_le 0 (Z.of_nat i))) by lia.
  rewrite (proj2 (Z.ltb_lt (Z.of_nat i) _)) by lia. cbn [andb].
  destruct (Node.is_leaf (nodes t !!! i)) eqn:Hleaf; [reflexivity|].
  destruct (Hs i Hi Hleaf) as (H1 & H2 & H3 & H4). cbn [orb].
  unfold Node.split_index, Node.cleft, Node.cright.
  rewrite (proj2 (Z.leb_le 0 _)) by lia.
  rewrite (proj2 (Z.ltb_lt _ _)) by lia. cbn [andb].
  rewrite <- (Z2Nat.id (node_cleft (nodes t !!! i))) by lia.
  rewrite <- (Z2Nat.id (node_cright (nodes t !!! i))) by lia.
  rewrite !IH by lia. reflexivity.
Qed.

Lemma depth_bounded_InitModel (bound nr nf : Z) :
  0 <= bound -> depth_bounded bound (RTree.InitModel nr nf).
Proof.
  intros Hb i Hi. cbn [RTree.InitModel nodes] in *. rewrite length_replicate in Hi.
  exists 0%nat. split; [|lia]. split.
  - cbn [ancestor RTree.InitModel nodes].
    rewrite lookup_total_replicate_2 by exact Hi. reflexivity.
  - intros k Hk. lia.
Qed.

Lemma shaped_InitModel (nr nf : Z) : shaped (RTree.InitModel nr nf).
Proof.
  intros i Hi. cbn [RTree.InitModel nodes] in *. rewrite length_replicate in Hi.
  rewrite lookup_total_replicate_2 by exact Hi. discriminate.
Qed.

(** X9.  Started on a freshly initialised tree with at least one root,
    do_boost, when it returns, has expanded every task, and no node of the
    tree lies deeper than [param.max_depth] (or than 0 when that is
    negative): expand never splits a node at depth [param.max_depth].  The
    depth it returns is between 0 and that bound, the number of pruned nodes
    it reports is not negative, the parent of every node lies before the node
    in the node array, and the arrays of nodes and statistics have one
    length. *)
Theorem do_boost_depth_bound {Rng : Type} (SampleBinary : float -> Rng -> Z * Rng)
    (std_sort : list SCEntry -> list SCEntry) (param : TreeParamTrain)
    (grad hess : list float) (smat : Image) (group_id : list Z) (fuel : nat)
    (nr nf : Z) (st st' : Updater Rng) :
  let bound := Z.max 0 (param_max_depth param) in
  tree st = RTree.InitModel nr nf ->
  1 <= nr ->
  task_stack st = [] ->
  do_boost SampleBinary std_sort param grad hess smat group_id fuel st = Ok st' ->
  task_stack st' = []
  /\ 0 <= max_depth st' <= bound
  /\ depth_bounded bound (tree st')
  /\ well_rooted (tree st')
  /\ length (stats (tree st')) = length (nodes (tree st'))
  /\ (Z.to_nat nr <= length (nodes (tree st')))%nat
  /\ 0 <= num_pruned st'.
Proof.
  intros bound Ht Hnr Hts Hrun.
  pose proof (do_boost_inv SampleBinary std_sort param grad hess smat group_id fuel
                st st') as H.
  cbv zeta in H. rewrite Ht in H.
  destruct H as ((Hwr & Hlen & Hdb & _ & Hmd) & Hts' & Hm & Hp & Hl & _).
  - apply well_rooted_InitModel.
  - cbn. rewrite !length_replicate. reflexivity.
  - apply depth_bounded_InitModel. lia.
  - unfold tasks_in_range. rewrite Hts. constructor.
  - cbn. rewrite length_replicate. lia.
  - cbn. rewrite length_replicate. lia.
  - exact Hrun.
  - cbn [RTree.InitModel nodes] in Hl. rewrite length_replicate in Hl.
    subst bound. repeat split; try assumption; lia.
Qed.

Lemma do_boost_depth_bound_witness :
  exists st',
    do_boost always_sampled example_sort (example_param 0 1 0 (float_of_Z 1))
      example_grad example_hess example_smat [] 5 fresh_state = Ok st'
    /\ 0 <= max_depth st' <= 6
    /\ depth_bounded 6 (tree st').
Proof.
  eexists. split; [vm_compute; reflexivity|].
  pose proof (do_boost_depth_bound always_sampled example_sort
                (example_param 0 1 0 (float_of_Z 1)) example_grad example_hess
                example_smat [] 5 1 1 fresh_state _ eq_refl ltac:(lia) eq_refl
                ltac:(vm_compute; reflexivity)) as (_ & Hm & Hdb & _).
  split; [exact Hm|exact Hdb].
Defined.

(** X10.  Started on a freshly initialised tree, with every feature index
    of the rows below [num_feature], do_boost leaves a tree on which
    prediction returns: the children of every node that is not a leaf are two
    consecutive nodes behind it and its split feature is below
    [num_feature], so that from every root the dense Predict, on a feature
    vector and a mask of at least [num_feature] entries each and with the
    number of nodes as fuel, returns the value of a leaf. *)
Theorem do_boost_tree_predicts {Rng : Type} (SampleBinary : float -> Rng -> Z * Rng)
    (std_sort : list SCEntry -> list SCEntry) (param : TreeParamTrain)
    (grad hess : list float) (smat : Image) (group_id : list Z) (fuel : nat)
    (nr nf : Z) (st st' : Updater Rng) :
  tree st = RTree.InitModel nr nf ->
  1 <= nr < 2 ^ 31 ->
  0 <= nf <= 2 ^ 31 ->
  task_stack st = [] ->
  Forall (fun line : Line => Forall (fun fv => Z.of_nat (fst fv) < nf) line) smat ->
  do_boost SampleBinary std_sort param grad hess smat group_id fuel st = Ok st' ->
  shaped (tree st')
  /\ num_feature (tree st') = nf
  /\ forall gid feat funknown tmp_feat tmp_funknown,
       0 <= gid < nr ->
       nf <= Z.of_nat (length feat) ->
       nf <= Z.of_nat (length funknown) ->
       finished (length (nodes (tree st'))) (tree st') (to_int gid) = true
       /\ exists leaf,
            Node.is_leaf (RTree.node (tree st') leaf) = true
            /\ RTreeTrainer.Predict (length (nodes (tree st'))) feat funknown gid
                 (mkTrainer (tree st') tmp_feat tmp_funknown)
               = Ok (Node.leaf_value (RTree.node (tree st') leaf)).
Proof.
  intros Ht Hnr Hnf Hts Hsmat Hrun.
  pose proof (do_boost_inv SampleBinary std_sort param grad hess smat group_id fuel
                st st') as H.
  cbv zeta in H. rewrite Ht in H.
  destruct H as (_ & _ & _ & _ & Hl & _ & Hf & Hs).
  - apply well_rooted_InitModel.
  - cbn. rewrite !length_replicate. reflexivity.
  - apply depth_bounded_InitModel. lia.
  - unfold tasks_in_range. rewrite Hts. constructor.
  - cbn. rewrite length_replicate. lia.
  - cbn. rewrite length_replicate. lia.
  - exact Hrun.
  - cbn [RTree.InitModel nodes num_feature] in Hl, Hf, Hs.
    rewrite length_replicate in Hl.
    specialize (Hs Hsmat ltac:(lia) (shaped_InitModel nr nf)).
    split; [exact Hs|]. split; [exact Hf|].
    intros gid feat funknown tf tu Hgid Hfeat _.
    assert (Hfin : finished (length (nodes (tree st'))) (tree st') (to_int gid) = true).
    { rewrite to_int_small by lia. rewrite <- (Z2Nat.id gid) by lia.
      apply shaped_finished; [exact Hs|lia|lia]. }
    split; [exact Hfin|].
    destruct (finished_traverse _ _ feat funknown _ Hfin) as (leaf & Hrun' & _ & Hleaf).
    exists leaf. split; [exact Hleaf|].
    unfold RTreeTrainer.Predict, RTreeTrainer.GetLeafIndex, Assert.
    cbn [trainer_tree]. rewrite Hf.
    rewrite (proj2 (Z.leb_le 0 nf)), (proj2 (Z.leb_le nf _)) by lia.
    cbn [andb]. change (Ok tt ≫= ?k) with (k tt). cbv beta.
    rewrite Hrun'. reflexivity.
Qed.

Lemma do_boost_tree_predicts_witness :
  exists st',
    do_boost always_sampled example_sort (example_param 0 1 0 (float_of_Z 1))
      example_grad example_hess example_smat [] 5 fresh_state = Ok st'
    /\ shaped (tree st')
    /\ exists leaf,
         RTreeTrainer.Predict (length (nodes (tree st'))) [float_of_Z 1] [false] 0
           (mkTrainer (tree st') [] [])
         = Ok (Node.leaf_value (RTree.node (tree st') leaf)).
Proof.
  eexists. split; [vm_compute; reflexivity|].
  pose proof (do_boost_tree_predicts always_sampled example_sort
                (example_param 0 1 0 (float_of_Z 1)) example_grad example_hess
                example_smat [] 5 1 1 fresh_state _ eq_refl ltac:(lia) ltac:(lia)
                eq_refl ltac:(repeat constructor)
                ltac:(vm_compute; reflexivity)) as (Hs & _ & Hp).
  split; [exact Hs|].
  destruct (Hp 0 [float_of_Z 1] [false] [] [] ltac:(lia) ltac:(cbn; lia)
              ltac:(cbn; lia))
    as (_ & leaf & _ & Hrun).
  exists leaf. exact Hrun.
Defined.

(** ** The rows of a split *)

Section CandidateSlices.

Variable param : TreeParamTrain.
Variables grad hess : list float.
Variables rsum_grad rsum_hess root_cost : double.
Variable entry : list SCEntry.
Variables start end_ : nat.
Variable findex : Z.
Variable parent_base_weight : float.

Lemma forward_trace_range n : forall j csum_grad csum_hess p,
  p ∈ forward_trace param grad hess rsum_grad rsum_hess root_cost entry start end_
        findex parent_base_weight n j csum_grad csum_hess ->
  (j <= fst p < j + n)%nat.
Proof.
  induction n as [|n IH]; intros j cg ch p; simpl; [intros H; inversion H|].
  repeat match goal with |- context [if ?b then _ else _] => destruct b end;
    try (intros H; inversion H; fail);
    try (intros H; apply IH in H; lia).
  intros H. apply elem_of_cons in H as [->|H]; [simpl; lia|].
  apply IH in H. lia.
Qed.

Lemma backward_trace_range n : forall csum_grad csum_hess p,
  p ∈ backward_trace param grad hess rsum_grad rsum_hess root_cost entry start end_
        findex parent_base_weight n csum_grad csum_hess ->
  (start < fst p <= start + n)%nat.
Proof.
  induction n as [|n IH]; intros cg ch p; [intros H; inversion H|].
  cbn [backward_trace].
  repeat match goal with |- context [if ?b then _ else _] => destruct b end;
    try (intros H; inversion H; fail);
    try (intros H; apply IH in H; lia).
  intros H. apply elem_of_cons in H as [->|H]; [simpl; lia|].
  apply IH in H. lia.
Qed.

(** The slice of a candidate lies within the range of its feature. *)
Lemma enumerate_candidates_slice c :
  Z.of_nat (end_ - start) < 2 ^ 31 ->
  c ∈ enumerate_candidates param grad hess rsum_grad rsum_hess root_cost entry
        start end_ findex parent_base_weight ->
  (start <= RTSelecter.start c)%nat
  /\ 0 <= RTSelecter.len c
  /\ (RTSelecter.start c + Z.to_nat (RTSelecter.len c) <= end_)%nat.
Proof.
  intros Hsz. unfold enumerate_candidates. intros H.
  apply elem_of_app in H as [H|H].
  - destruct (negb (default_direction param =? 1)); [|inversion H].
    apply list_elem_of_fmap in H as (p & -> & Hp).
    pose proof (forward_trace_range _ _ _ _ _ Hp) as Hr.
    apply forward_trace_shape in Hp as (cg & ch & ->).
    unfold forward_candidate. cbn [RTSelecter.new RTSelecter.start RTSelecter.len].
    rewrite to_int_small by lia. lia.
  - destruct (negb (default_direction param =? 2)); [|inversion H].
    apply list_elem_of_fmap in H as (p & -> & Hp).
    pose proof (backward_trace_range _ _ _ _ Hp) as Hr.
    apply backward_trace_shape in Hp as (cg & ch & ->).
    unfold backward_candidate. cbn [RTSelecter.new RTSelecter.start RTSelecter.len].
    rewrite to_int_small by lia. lia.
Qed.

End CandidateSlices.

Section ColumnRows.

Variable smat : Image.
Hypothesis lines_nodup : Forall (fun line : Line => NoDup (fst <$> line)) smat.

Lemma line_nodup ridx : NoDup (fst <$> (smat !!! ridx)).
Proof.
  unfold Image, Line in *. rewrite list_lookup_total_alt.
  destruct (smat !! ridx) as [line|] eqn:Hl; [|constructor].
  rewrite Forall_forall in lines_nodup.
  exact (lines_nodup line (list_elem_of_lookup_2 _ _ _ Hl)).
Qed.

(** A row contributes at most one entry to a column. *)
Lemma column_row_rindex (line : Line) (ridx f : nat) :
  NoDup (fst <$> line) ->
  map rindex
    (flat_map (fun fv => if decide (fst fv = f) then [mkSCEntry (snd fv) ridx] else [])
       line)
  = if decide (f ∈ fst <$> line) then [ridx] else [].
Proof.
  induction line as [|[g v] line IH]; intros Hnd.
  - rewrite decide_False by (intros H; inversion H). reflexivity.
  - rewrite fmap_cons in Hnd. apply NoDup_cons in Hnd as [Hg Hnd].
    cbn [flat_map fst snd]. rewrite map_app, IH by exact Hnd.
    destruct (decide (g = f)) as [->|Hne].
    + rewrite (decide_False (P := f ∈ fst <$> line)) by exact Hg.
      rewrite decide_True by (rewrite fmap_cons; apply list_elem_of_here).
      reflexivity.
    + cbn [map app].
      destruct (decide (f ∈ fst <$> line)) as [Hin|Hnin].
      * rewrite decide_True by (rewrite fmap_cons; apply list_elem_of_further, Hin).
        reflexivity.
      * rewrite decide_False; [reflexivity|].
        rewrite fmap_cons. intros H. apply elem_of_cons in H as [H|H]; simpl in *;
          congruence.
Qed.

(** The rows of a column are rows of the task, in their order. *)
Lemma column_rindex_sublist (rows : list nat) (f : nat) :
  sublist (map rindex (column smat rows f)) rows.
Proof.
  unfold column. induction rows as [|ridx rows IH]; [constructor|].
  cbn [flat_map]. rewrite map_app, column_row_rindex by apply line_nodup.
  destruct (decide (f ∈ fst <$> smat !!! ridx)).
  - cbn [app]. constructor. exact IH.
  - cbn [app]. constructor. exact IH.
Qed.

End ColumnRows.

Section BufferLayout.

Variable std_sort : list SCEntry -> list SCEntry.
Variable param : TreeParamTrain.
Variables grad hess : list float.
Variable smat : Image.
Hypothesis std_sort_perm : forall l, std_sort l ≡ₚ l.

Lemma std_sort_length l : length (std_sort l) = length l.
Proof. apply Permutation_length, std_sort_perm. Qed.

Lemma sort_range_middle (pre col rest : list SCEntry) :
  sort_range std_sort (length pre) (length pre + length col) (pre ++ col ++ rest)
  = pre ++ std_sort col ++ rest.
Proof.
  unfold sort_range.
  rewrite take_app_length, drop_app_length.
  replace (length pre + length col - length pre)%nat with (length col) by lia.
  rewrite take_app_length.
  rewrite (app_assoc pre col rest), drop_app_length'; [reflexivity|].
  rewrite length_app. reflexivity.
Qed.

(** The loop over the active features leaves every column sorted in its
    place. *)
Lemma enumerate_features_layout tlen rsum_grad rsum_hess root_cost base_weight
    (rows : list nat) : forall aclist pre rest sglobal r,
  enumerate_features std_sort param grad hess tlen rsum_grad rsum_hess root_cost
    base_weight (row_pointers smat rows aclist (length pre)) sglobal
    (pre ++ flat_map (column smat rows) aclist ++ rest) = Ok r ->
  snd r = pre ++ flat_map (fun f => std_sort (column smat rows f)) aclist ++ rest.
Proof.
  induction aclist as [|f aclist IH]; intros pre rest sglobal r.
  - cbn. intros [= <-]. reflexivity.
  - cbn [row_pointers enumerate_features flat_map]. unfold Assert.
    destruct (length pre <? length pre + length (column smat rows f))%nat;
      [|discriminate].
    change (Ok tt ≫= ?k) with (k tt). cbv beta.
    rewrite <- !app_assoc, sort_range_middle.
    replace (length pre + length (column smat rows f))%nat
      with (length (pre ++ std_sort (column smat rows f)))
      by (rewrite length_app, std_sort_length; reflexivity).
    rewrite (app_assoc pre). intros Hrun. apply IH in Hrun.
    rewrite Hrun, <- !app_assoc. reflexivity.
Qed.

(** The range of an active feature holds its column, sorted. *)
Lemma row_pointers_segment (rows : list nat) : forall aclist pre rest f s e,
  (f, (s, e)) ∈ row_pointers smat rows aclist (length pre) ->
  e = (s + length (column smat rows f))%nat
  /\ take (e - s)
       (drop s (pre ++ flat_map (fun f => std_sort (column smat rows f)) aclist
                  ++ rest))
     = std_sort (column smat rows f).
Proof.
  induction aclist as [|g aclist IH]; intros pre rest f s e; cbn [row_pointers];
    [intros H; inversion H|].
  intros H. apply elem_of_cons in H as [[= -> -> ->]|H].
  - split; [reflexivity|]. cbn [flat_map].
    rewrite drop_app_length, <- app_assoc.
    replace (length pre + length (column smat rows g) - length pre)%nat
      with (length (std_sort (column smat rows g)))
      by (rewrite std_sort_length; lia).
    apply take_app_length.
  - cbn [flat_map]. rewrite <- app_assoc, (app_assoc pre).
    apply IH. rewrite length_app, std_sort_length. exact H.
Qed.

(** A part of a segment is a part of the buffer. *)
Lemma take_drop_segment {A} (buf : list A) (s e a n : nat) :
  (s <= a)%nat -> (a + n <= e)%nat ->
  take n (drop a buf) = take n (drop (a - s) (take (e - s) (drop s buf))).
Proof.
  intros Hs He.
  replace (e - s)%nat with (a - s + (e - a))%nat by lia.
  rewrite <- take_drop_commute, take_take, drop_drop.
  replace (n `min` (e - a))%nat with n by lia.
  replace (s + (a - s))%nat with a by lia. reflexivity.
Qed.

End BufferLayout.

Section SplitRows.

Context {Rng : Type}.
Variable std_sort : list SCEntry -> list SCEntry.
Variable param : TreeParamTrain.
Variables grad hess : list float.
Variable smat : Image.
Hypothesis std_sort_perm : forall l, std_sort l ≡ₚ l.
Hypothesis lines_nodup : Forall (fun line : Line => NoDup (fst <$> line)) smat.
Implicit Types (st : Updater Rng) (tsk : Task).

(** The rows that the entry selected for a split names are rows of the
    task, each of them once. *)
Lemma enumerate_task_qrows tsk st r :
  let rows := task_rows (idset st) tsk in
  let e := RTSelecter.select (fst r) in
  let qrows :=
    map rindex (take (Z.to_nat (RTSelecter.len e)) (drop (RTSelecter.start e) (snd r))) in
  NoDup rows ->
  Z.of_nat (length rows) < 2 ^ 31 ->
  enumerate_task std_sort param grad hess smat tsk st = Ok r ->
  flt rt_eps (RTSelecter.loss_chg e) = true ->
  NoDup qrows /\ forall x, x ∈ qrows -> x ∈ rows.
Proof.
  intros rows e qrows Hnd Hsz Hrun Hgain. unfold enumerate_task in Hrun.
  fold rows in Hrun.
  set (aclist := active_list smat rows) in *.
  set (cols := row_pointers smat rows aclist 0) in *.
  assert (Hrange : forall f s e',
             (f, (s, e')) ∈ cols -> f ∈ aclist /\ (s < e')%nat).
  { intros f s e'. apply row_pointers_range. apply column_active_nonempty. }
  match type of Hrun with
  | enumerate_features _ _ _ _ ?tl ?rg ?rh ?rc ?bw _ _ _ = _ =>
      destruct (enumerate_features_spec std_sort param grad hess tl rg rh rc bw cols
                  RTSelecter.init (column_buffer smat rows aclist))
        as (sg' & entry' & locals & Hrun' & Hsg & Hall);
        [intros f s e' H; apply (Hrange f s e' H)|];
      pose proof (enumerate_features_layout std_sort param grad hess smat
                    std_sort_perm tl rg rh rc bw rows aclist [] [] RTSelecter.init r)
        as Hlay
  end.
  cbn [length app] in Hlay. rewrite !app_nil_r in Hlay.
  specialize (Hlay Hrun).
  rewrite Hrun' in Hrun. injection Hrun as <-.
  cbn [fst snd] in *. subst sg'.
  destruct (push_all_init_cases locals) as [Hz|[Hin _]].
  { subst e. rewrite Hz in Hgain. discriminate Hgain. }
  fold e in Hin. rewrite Forall_forall in Hall.
  destruct (Hall e Hin) as [Hz|(f & s & e' & ent & Hc & Hcand)].
  { rewrite Hz in Hgain. discriminate Hgain. }
  destruct (row_pointers_segment std_sort smat std_sort_perm rows aclist [] [] f s e'
              Hc) as [He' Hseg].
  cbn [app] in Hseg. rewrite app_nil_r in Hseg. rewrite <- Hlay in Hseg.
  pose proof (column_rindex_sublist smat lines_nodup rows f) as Hsub.
  assert (Hcl : (length (column smat rows f) <= length rows)%nat).
  { apply sublist_length in Hsub. rewrite length_map in Hsub. exact Hsub. }
  apply enumerate_candidates_slice in Hcand as (Hs1 & Hs2 & Hs3); [|lia].
  assert (Hq : sublist qrows (map rindex (std_sort (column smat rows f)))).
  { subst qrows.
    rewrite (take_drop_segment entry' s e' _ _ Hs1 Hs3), Hseg.
    apply (fmap_sublist rindex).
    etransitivity; [apply sublist_take|apply sublist_drop]. }
  assert (Hp : map rindex (std_sort (column smat rows f))
               ≡ₚ map rindex (column smat rows f)).
  { apply (fmap_Permutation rindex), std_sort_perm. }
  split.
  - refine (sublist_NoDup _ _ _ Hq). rewrite Hp.
    exact (sublist_NoDup _ _ Hnd Hsub).
  - intros x Hx. apply (sublist_subseteq _ _ Hsub).
    rewrite <- Hp. exact (sublist_subseteq _ _ Hq x Hx).
Qed.

End SplitRows.

Section Slices.

Context {Rng : Type}.
Implicit Types (st : Updater Rng) (tsk : Task) (buf : list nat).

Lemma StronglySorted_lt_NoDup (l : list nat) : StronglySorted lt l -> NoDup l.
Proof.
  induction 1 as [|x l _ IH Hx]; [constructor|].
  apply NoDup_cons. split; [|exact IH].
  intros Hin. rewrite Forall_forall in Hx. specialize (Hx x Hin). lia.
Qed.

Lemma StronglySorted_lt_le (l : list nat) : StronglySorted lt l -> StronglySorted le l.
Proof.
  induction 1 as [|x l _ IH Hx]; constructor; [exact IH|].
  eapply Forall_impl; [exact Hx|]. intros y Hy. cbn beta in *. lia.
Qed.

(** A buffer rewritten inside one slice, by a permutation of the slice, is
    a permutation of the buffer. *)
Lemma buffer_perm (off len : nat) buf buf' :
  (off + len <= length buf)%nat ->
  length buf' = length buf ->
  (forall k, (k < off \/ off + len <= k)%nat -> buf' !!! k = buf !!! k) ->
  take len (drop off buf') ≡ₚ take len (drop off buf) ->
  buf' ≡ₚ buf.
Proof.
  intros Hlen Hl Hframe Hperm.
  assert (Hk : forall k, (k < off \/ off + len <= k)%nat -> buf' !! k = buf !! k).
  { intros k Hk. destruct (decide (k < length buf)%nat) as [Hlt|Hge].
    - rewrite !list_lookup_lookup_total_lt by lia. f_equal. apply Hframe, Hk.
    - rewrite !(proj2 (lookup_ge_None _ _)) by lia. reflexivity. }
  rewrite <- (take_drop off buf'), <- (take_drop off buf).
  rewrite <- (take_drop len (drop off buf')), <- (take_drop len (drop off buf)).
  rewrite !drop_drop.
  replace (take off buf') with (take off buf).
  2:{ apply list_eq. intros k. destruct (decide (k < off)%nat) as [Hlt|Hge].
      - rewrite !lookup_take_lt by exact Hlt. symmetry. apply Hk. lia.
      - rewrite !lookup_take_ge by lia. reflexivity. }
  replace (drop (off + len) buf') with (drop (off + len) buf).
  2:{ apply list_eq. intros k. rewrite !lookup_drop. symmetry. apply Hk. lia. }
  rewrite Hperm. reflexivity.
Qed.

(** The slice of a task does not change when the buffer is rewritten
    elsewhere. *)
Lemma task_rows_frame (off len : nat) buf buf' tsk :
  (forall k, (k < off \/ off + len <= k)%nat -> buf' !!! k = buf !!! k) ->
  (task_idset tsk + task_len tsk <= off)%nat
  \/ (off + len <= task_idset tsk)%nat ->
  task_rows buf' tsk = task_rows buf tsk.
Proof.
  intros Hframe Hdisj. unfold task_rows. apply map_ext_in.
  intros i Hi. apply in_seq in Hi. apply Hframe. lia.
Qed.

Lemma map_seq_shift {A} (f : nat -> A) (a n : nat) :
  map f (seq a n) = map (fun i => f (a + i)%nat) (seq 0 n).
Proof.
  revert f a. induction n as [|n IH]; intros f a; [reflexivity|].
  cbn [seq map]. rewrite Nat.add_0_r. f_equal.
  rewrite (IH f), (IH (fun i => f (a + i)%nat) 1%nat).
  apply map_ext. intros i. f_equal. lia.
Qed.

(** make_split hands the slice of the task to its two children: the
    slices of the children are strictly ascending, lie side by side within
    the slice of the parent, and hold its rows. *)
Lemma make_split_slices tsk (entry : list SCEntry) (num : Z) (loss_chg : float)
    (base_weight : double) st :
  let off := task_idset tsk in
  let len := task_len tsk in
  let qrows := map rindex (take (Z.to_nat num) entry) in
  let st' := make_split tsk entry num loss_chg base_weight st in
  task_slice_ok (idset st) tsk ->
  Z.of_nat len < 2 ^ 32 ->
  NoDup qrows ->
  (forall x, x ∈ qrows -> x ∈ task_rows (idset st) tsk) ->
  exists def_part spl_part,
    task_stack st' = spl_part :: def_part :: task_stack st
    /\ task_idset def_part = off
    /\ (task_idset def_part + task_len def_part = task_idset spl_part)%nat
    /\ (task_idset spl_part + task_len spl_part = off + len)%nat
    /\ task_slice_ok (idset st') def_part
    /\ task_slice_ok (idset st') spl_part
    /\ length (idset st') = length (idset st)
    /\ (forall k, (k < off \/ off + len <= k)%nat -> idset st' !!! k = idset st !!! k)
    /\ idset st' ≡ₚ idset st
    /\ task_rows (idset st') spl_part ≡ₚ qrows
    /\ task_rows (idset st') def_part ++ task_rows (idset st') spl_part
       ≡ₚ task_rows (idset st) tsk
    /\ task_nid def_part
       = (if Node.default_left (RTree.node (tree st') (task_nid tsk))
          then Node.cleft (RTree.node (tree st') (task_nid tsk))
          else Node.cright (RTree.node (tree st') (task_nid tsk)))
    /\ task_nid spl_part
       = (if Node.default_left (RTree.node (tree st') (task_nid tsk))
          then Node.cright (RTree.node (tree st') (task_nid tsk))
          else Node.cleft (RTree.node (tree st') (task_nid tsk))).
Proof.
  cbv zeta. intros [Hlen Hsorted] Hu32 Hnd Hsub.
  pose proof (task_rows_take_drop (idset st) tsk Hlen) as Hrows.
  set (qrows := map rindex (take (Z.to_nat num) entry)) in *.
  set (qset := merge_sort le qrows).
  assert (Hqp : qset ≡ₚ qrows) by apply merge_sort_Permutation.
  assert (Hql : length qset = length qrows) by (apply Permutation_length, Hqp).
  assert (Hqs : StronglySorted lt qset).
  { apply StronglySorted_le_lt; [apply StronglySorted_merge_sort; apply _|].
    rewrite Hqp. exact Hnd. }
  rewrite task_rows_take_drop in Hsorted, Hsub by exact Hlen.
  assert (Hsub' : forall y, y ∈ qset ->
             y ∈ take (task_len tsk) (drop (task_idset tsk) (idset st))).
  { intros y Hy. apply Hsub. rewrite <- Hqp. exact Hy. }
  destruct (partition_buffer (task_idset tsk) (task_len tsk) qset (idset st)
              Hlen (StronglySorted_lt_le _ Hsorted) Hqs Hsub')
    as (Hlk & Hperm & Hbl & Hdef & Hspl & Hframe).
  assert (Hdl : Z.to_nat (to_unsigned (Z.of_nat (task_len tsk) - Z.of_nat (length qset)))
                = (task_len tsk - length qset)%nat).
  { rewrite to_unsigned_small by lia. lia. }
  assert (Hsl : Z.to_nat (to_unsigned (Z.of_nat (length qset))) = length qset).
  { rewrite to_unsigned_small by lia. lia. }
  set (kept := keep_rest (take (task_len tsk) (drop (task_idset tsk) (idset st))) qset)
    in *.
  assert (Hks : StronglySorted lt kept).
  { apply StronglySorted_le_lt.
    - apply keep_rest_sorted, StronglySorted_lt_le, Hsorted.
    - apply (NoDup_app kept qset). rewrite Hperm.
      apply StronglySorted_lt_NoDup, Hsorted. }
  eexists _, _. split; [reflexivity|].
  cbn [make_split add_task with_idset with_tree task_stack idset tree
       task_nid task_idset task_len].
  change (make_qset entry num) with qset.
  rewrite Hdl, Hsl.
  set (buf' := fill_back (length qset) 0 (task_idset tsk + (task_len tsk - length qset))
                 qset (remove_qset (task_len tsk) 0 0 (task_idset tsk) qset (idset st)))
    in *.
  split; [reflexivity|]. split; [reflexivity|]. split; [lia|].
  split.
  { split; [cbn [task_idset task_len]; lia|].
    unfold task_rows. cbn [task_idset task_len]. rewrite Hdef. exact Hks. }
  split.
  { split; [cbn [task_idset task_len]; lia|].
    unfold task_rows. cbn [task_idset task_len]. rewrite Hspl. exact Hqs. }
  split; [exact Hbl|]. split; [exact Hframe|].
  split; [|split; [unfold task_rows; cbn [task_idset task_len];
                   rewrite Hspl; exact Hqp|
           split; [unfold task_rows at 1 2; cbn [task_idset task_len];
                   rewrite Hdef, Hspl, Hrows; exact Hperm|split; reflexivity]]].
  apply (buffer_perm (task_idset tsk) (task_len tsk)); try assumption.
  rewrite <- Hperm.
  assert (Hwhole : take (task_len tsk) (drop (task_idset tsk) buf') = kept ++ qset).
  { pose proof (task_rows_take_drop buf'
                  (mkTask 0 (task_idset tsk) (task_len tsk) f0)) as E.
    cbn [task_idset task_len] in E. rewrite <- E by lia. clear E.
    unfold task_rows. cbn [task_idset task_len].
    replace (task_len tsk) with ((task_len tsk - length qset) + length qset)%nat
      at 1 by lia.
    rewrite seq_app, map_app. cbn [Nat.add]. f_equal; [exact Hdef|].
    etransitivity; [|exact Hspl]. rewrite map_seq_shift.
    apply map_ext. intros i. f_equal. lia. }
  rewrite Hwhole. reflexivity.
Qed.

End Slices.

Section ExpandSlices.

Context {Rng : Type}.
Variable SampleBinary : float -> Rng -> Z * Rng.
Variable std_sort : list SCEntry -> list SCEntry.
Variable param : TreeParamTrain.
Variables grad hess : list float.
Variable smat : Image.
Variable group_id : list Z.
Hypothesis std_sort_perm : forall l, std_sort l ≡ₚ l.
Hypothesis lines_nodup : Forall (fun line : Line => NoDup (fst <$> line)) smat.
Implicit Types (st : Updater Rng) (tsk : Task).

(** What expand does to the idset and to the task stack. *)
Lemma expand_states fuel tsk st st' :
  expand std_sort param grad hess smat fuel tsk st = Ok st' ->
  (idset st' = idset st /\ task_stack st' = task_stack st)
  \/ exists r bw st1,
       enumerate_task std_sort param grad hess smat tsk st = Ok r
       /\ flt rt_eps (RTSelecter.loss_chg (RTSelecter.select (fst r))) = true
       /\ idset st1 = idset st
       /\ task_stack st1 = task_stack st
       /\ tree st1
          = RTree.set_node (task_nid tsk)
              (Node.set_split (RTSelecter.split_index (RTSelecter.select (fst r)))
                 (RTSelecter.split_value (RTSelecter.select (fst r)))
                 (RTSelecter.default_left (RTSelecter.select (fst r)))
                 (RTree.node (tree st) (task_nid tsk)))
              (tree st)
       /\ st' = make_split tsk (drop (RTSelecter.start (RTSelecter.select (fst r)))
                                  (snd r))
                  (RTSelecter.len (RTSelecter.select (fst r)))
                  (RTSelecter.loss_chg (RTSelecter.select (fst r))) bw st1.
Proof.
  unfold expand.
  destruct (RTree.GetDepth fuel (tree st) (task_nid tsk)) as [depth| |];
    try discriminate.
  change (Ok depth ≫= ?k) with (k depth). cbv beta.
  set (st0 := if max_depth st <? depth then with_max_depth depth st else st).
  assert (H0 : idset st0 = idset st /\ task_stack st0 = task_stack st
               /\ tree st0 = tree st).
  { subst st0. destruct (max_depth st <? depth); repeat split. }
  destruct H0 as (Hi0 & Hs0 & Ht0).
  assert (Hleaf : forall sg sh compute,
            make_leaf param grad hess fuel tsk sg sh compute st0 = Ok st' ->
            idset st' = idset st /\ task_stack st' = task_stack st).
  { intros sg sh compute Hml.
    apply make_leaf_leafed in Hml as (_ & Hts & Hid & _). split; congruence. }
  destruct (param_max_depth param <=? depth); [intros H; left; eapply Hleaf, H|].
  destruct (cannot_split param _ depth); [intros H; left; eapply Hleaf, H|].
  assert (Hen : enumerate_task std_sort param grad hess smat tsk st0
                = enumerate_task std_sort param grad hess smat tsk st)
    by (unfold enumerate_task, task_sums; rewrite Hi0; reflexivity).
  rewrite Hen.
  destruct (enumerate_task std_sort param grad hess smat tsk st) as [r| |];
    try discriminate.
  change (Ok r ≫= ?k) with (k r). cbv beta.
  destruct (flt rt_eps (RTSelecter.loss_chg (RTSelecter.select (fst r)))) eqn:Hgain;
    [|intros H; left; eapply Hleaf, H].
  intros [= <-]. right. eexists r, _, _.
  split; [reflexivity|]. split; [exact Hgain|].
  refine (conj _ (conj _ (conj _ eq_refl))).
  - cbn [idset with_tree]. exact Hi0.
  - cbn [task_stack with_tree]. exact Hs0.
  - cbn [tree with_tree]. rewrite Ht0. reflexivity.
Qed.

(** expand keeps the slices of the tasks strictly ascending and apart, and
    permutes the idset. *)
Lemma expand_slices fuel tsk st st' :
  task_slice_ok (idset st) tsk ->
  Forall (tasks_disjoint tsk) (task_stack st) ->
  slices_ok st ->
  Z.of_nat (length (idset st)) < 2 ^ 31 ->
  expand std_sort param grad hess smat fuel tsk st = Ok st' ->
  slices_ok st'
  /\ idset st' ≡ₚ idset st
  /\ length (idset st') = length (idset st).
Proof.
  intros Hok Hdisj [Hall Hss] Hsz Hrun.
  apply expand_states in Hrun
    as [[Hi Hts]|(r & bw & st1 & Hr & Hgain & Hi1 & Hts1 & _ & ->)].
  { unfold slices_ok. rewrite Hi, Hts. auto. }
  pose proof Hok as [Hlen Hsorted].
  assert (Hrl : length (task_rows (idset st) tsk) = task_len tsk).
  { unfold task_rows. rewrite length_map, length_seq. reflexivity. }
  destruct (enumerate_task_qrows std_sort param grad hess smat std_sort_perm
              lines_nodup tsk st r (StronglySorted_lt_NoDup _ Hsorted)
              ltac:(lia) Hr Hgain) as [Hnd Hsub].
  rewrite take_drop_commute in Hnd, Hsub.
  destruct (make_split_slices tsk
              (drop (RTSelecter.start (RTSelecter.select (fst r))) (snd r))
              (RTSelecter.len (RTSelecter.select (fst r)))
              (RTSelecter.loss_chg (RTSelecter.select (fst r))) bw st1)
    as (def_part & spl_part & Hstack & Hdo & Hds & Hse & Hdok & Hsok & Hl & Hframe
        & Hperm & _).
  - rewrite Hi1. exact Hok.
  - lia.
  - rewrite take_drop_commute. exact Hnd.
  - rewrite Hi1, take_drop_commute. exact Hsub.
  - rewrite Hi1 in Hl, Hframe, Hperm. rewrite Hts1 in Hstack.
    split; [|split; [exact Hperm|exact Hl]].
    unfold slices_ok. rewrite Hstack. split.
    + constructor; [exact Hsok|]. constructor; [exact Hdok|].
      rewrite Forall_forall in Hall, Hdisj |- *. intros u Hu.
      destruct (Hall u Hu) as [Hul Hus]. split; [lia|].
      rewrite (task_rows_frame (task_idset tsk) (task_len tsk) (idset st));
        [exact Hus|exact Hframe|].
      destruct (Hdisj u Hu) as [H|H]; [right|left]; lia.
    + constructor; [constructor; [exact Hss|]|].
      * rewrite Forall_forall in Hdisj |- *. intros u Hu.
        destruct (Hdisj u Hu) as [H|H]; [left|right]; lia.
      * constructor; [right; lia|].
        rewrite Forall_forall in Hdisj |- *. intros u Hu.
        destruct (Hdisj u Hu) as [H|H]; [left|right]; lia.
Qed.

Lemma run_tasks_slices fuel : forall st st',
  slices_ok st ->
  Z.of_nat (length (idset st)) < 2 ^ 31 ->
  run_tasks std_sort param grad hess smat fuel st = Ok st' ->
  idset st' ≡ₚ idset st.
Proof.
  induction fuel as [|fuel IH]; intros st st' Hok Hsz; [discriminate|].
  cbn [run_tasks]. unfold next_task.
  destruct (task_stack st) as [|tsk rest] eqn:Hstack; [intros [= <-]; reflexivity|].
  set (st0 := mkUpdater (tree st) (max_depth st) (num_pruned st) rest (idset st)
                (rng st)).
  destruct (expand std_sort param grad hess smat (S fuel) tsk st0) as [st1| |] eqn:Hexp;
    try discriminate.
  change (Ok st1 ≫= ?k) with (k st1). cbv beta. intros Hrun.
  destruct Hok as [Hall Hss]. rewrite Hstack in Hall, Hss.
  apply Forall_cons in Hall as [Htsk Hrest].
  apply StronglySorted_inv in Hss as [Hss Hdisj].
  destruct (expand_slices _ _ st0 _ Htsk Hdisj ltac:(split; assumption) Hsz Hexp)
    as (Hok1 & Hp1 & Hl1).
  cbn [idset st0] in Hp1, Hl1.
  rewrite (IH _ _ Hok1 ltac:(lia) Hrun). exact Hp1.
Qed.

End ExpandSlices.

Section InitSlices.

Context {Rng : Type}.
Variable SampleBinary : float -> Rng -> Z * Rng.
Variable param : TreeParamTrain.
Variable hess : list float.
Variable group_id : list Z.
Implicit Types (st : Updater Rng) (tsk : Task).

Lemma group_tasks_slices : forall groups pre post st,
  idset st = pre ++ flat_map (group_rows hess group_id) groups ++ post ->
  slices_ok st ->
  Forall (fun t => (task_idset t + task_len t <= length pre)%nat) (task_stack st) ->
  slices_ok (group_tasks hess group_id groups (length pre) st).
Proof.
  induction groups as [|g groups IH]; intros pre post st Hid Hok Hends;
    [exact Hok|].
  cbn [group_tasks flat_map] in *.
  remember (group_rows hess group_id g) as rows eqn:Hrows.
  rewrite <- app_assoc in Hid.
  set (st1 := if (_ <? _)%nat then _ else st).
  assert (Hi1 : idset st1 = idset st) by (subst st1; destruct (_ <? _)%nat; reflexivity).
  assert (H1 : slices_ok st1
               /\ Forall (fun t => (task_idset t + task_len t
                                    <= length (pre ++ rows))%nat) (task_stack st1)).
  { assert (Hold : Forall (fun t => (task_idset t + task_len t
                                     <= length (pre ++ rows))%nat) (task_stack st)).
    { eapply Forall_impl; [exact Hends|]. intros t Ht. cbn beta in *.
      rewrite length_app. lia. }
    subst st1. destruct (_ <? _)%nat; [|split; assumption].
    destruct Hok as [Hall Hss]. unfold slices_ok.
    cbn [add_task task_stack idset].
    replace (length pre + length rows - length pre)%nat with (length rows) by lia.
    split; [split|].
    - constructor; [|exact Hall]. split.
      + cbn [task_idset task_len]. rewrite Hid, !length_app. lia.
      + rewrite task_rows_take_drop
          by (cbn [task_idset task_len]; rewrite Hid, !length_app; lia).
        cbn [task_idset task_len]. rewrite Hid, drop_app_length, take_app_length.
        subst rows. unfold group_rows.
        eapply StronglySorted_sublist; [apply sublist_filter|apply StronglySorted_seq].
    - constructor; [exact Hss|].
      eapply Forall_impl; [exact Hends|]. intros t Ht. right. exact Ht.
    - constructor; [|exact Hold]. cbn [task_idset task_len]. rewrite length_app. lia. }
  destruct H1 as [Hok1 Hends1].
  specialize (IH (pre ++ rows) post st1). rewrite length_app in IH.
  apply IH; [|exact Hok1|rewrite <- length_app; exact Hends1].
  rewrite Hi1, Hid, <- !app_assoc. reflexivity.
Qed.

Lemma init_tasks_slices ngrads st st1 :
  task_stack st = [] ->
  0 <= num_roots (tree st) < 2 ^ 31 ->
  Forall (fun g => 0 <= g) group_id ->
  init_tasks SampleBinary param hess group_id ngrads st = Ok st1 ->
  slices_ok st1 /\ exists l, idset st1 ≡ₚ l /\ sublist l (seq 0 ngrads).
Proof.
  intros Hts Hroots Hpos. unfold init_tasks.
  assert (Hone : forall ids r,
            sublist ids (seq 0 ngrads) ->
            let st' := add_task (mkTask 0 0 (length ids) f0)
                         (with_rng r (with_idset ids st)) in
            slices_ok st' /\ exists l, idset st' ≡ₚ l /\ sublist l (seq 0 ngrads)).
  { intros ids r Hsub. cbn. split; [|exists ids; split; [reflexivity|exact Hsub]].
    unfold slices_ok.
    cbn [add_task with_rng with_idset task_stack idset]. rewrite Hts. split.
    - constructor; [|constructor]. split; [cbn; lia|].
      rewrite task_rows_whole.
      exact (StronglySorted_sublist _ _ _ Hsub (StronglySorted_seq 0 ngrads)).
    - repeat constructor. }
  destruct (length group_id =? 0)%nat.
  - destruct (flt subsample_all (subsample param)); intros [= <-].
    + apply (Hone (all_rows hess ngrads 0 []) (rng st)).
      rewrite all_rows_filter. cbn [app]. apply sublist_filter.
    + destruct (sampled_rows_sublist SampleBinary param ngrads 0 [] (rng st))
        as (l & Hl & Hsl).
      apply (Hone (fst (sampled_rows SampleBinary param ngrads 0 [] (rng st)))
                  (snd (sampled_rows SampleBinary param ngrads 0 [] (rng st)))).
      rewrite Hl. exact Hsl.
  - unfold Assert. destruct (length group_id =? ngrads)%nat eqn:Hlen; [|discriminate].
    apply Nat.eqb_eq in Hlen.
    change (Ok tt ≫= ?k) with (k tt). cbv beta.
    destruct (check_groups_spec hess group_id (tree st)) as [[Hok Hall]|[Hno _]];
      [|rewrite Hno; discriminate].
    rewrite Hok. change (Ok tt ≫= ?k) with (k tt). cbv beta. intros [= <-].
    set (groups := seq 0 (Z.to_nat (num_roots (tree st)))).
    set (st0 := with_idset (flat_map (group_rows hess group_id) groups) st).
    pose proof (group_tasks_spec hess group_id groups [] [] st0) as Hspec.
    pose proof (group_tasks_slices groups [] [] st0) as Hsl.
    cbn [length] in Hspec, Hsl.
    destruct Hspec as (_ & Hi & _).
    { subst st0. cbn. rewrite app_nil_r. reflexivity. }
    split.
    + apply Hsl.
      * subst st0. cbn. rewrite app_nil_r. reflexivity.
      * unfold slices_ok. subst st0. cbn [task_stack idset with_idset].
        rewrite Hts. split; constructor.
      * subst st0. cbn [task_stack with_idset]. rewrite Hts. constructor.
    + rewrite Hi. subst st0. cbn [idset with_idset].
      exists (filter (fun i => flt (hess !!! i) f0 = false) (seq 0 ngrads)).
      split; [|apply sublist_filter]. rewrite <- Hlen.
      apply group_rows_partition. intros i Hi' Hih.
      specialize (Hall i Hi' Hih). rewrite to_unsigned_small in Hall by lia.
      rewrite Forall_forall in Hpos.
      assert (0 <= group_id !!! i).
      { apply Hpos. apply list_elem_of_lookup_total_2. exact Hi'. }
      subst groups. lia.
Qed.

End InitSlices.

Lemma StronglySorted_lookup_lt (l : list nat) : forall i j x y,
  StronglySorted lt l -> (i < j)%nat -> l !! i = Some x -> l !! j = Some y ->
  (x < y)%nat.
Proof.
  induction l as [|a l IH]; intros i j x y Hs Hij Hi Hj; [discriminate|].
  apply StronglySorted_inv in Hs as [Hs Ha].
  destruct j as [|j]; [lia|]. cbn in Hj.
  destruct i as [|i].
  - injection Hi as <-. rewrite Forall_forall in Ha.
    apply Ha. eapply list_elem_of_lookup_2, Hj.
  - cbn in Hi. apply (IH i j); [exact Hs|lia|exact Hi|exact Hj].
Qed.

(** assert_sorted returns on a slice that is strictly ascending, also
    when the two debugging constants are set. *)
Lemma assert_sorted_ok (rt_debug check_bug : bool) (buf : list nat) (tsk : Task) :
  task_slice_ok buf tsk ->
  assert_sorted rt_debug check_bug buf (task_idset tsk) (task_len tsk) = Ok tt.
Proof.
  intros [Hlen Hs]. unfold assert_sorted.
  destruct (negb rt_debug || negb check_bug); [reflexivity|].
  rewrite task_rows_take_drop in Hs by exact Hlen.
  set (slice := take (task_len tsk) (drop (task_idset tsk) buf)) in *.
  assert (Hsl : length slice = task_len tsk)
    by (subst slice; rewrite length_take, length_drop; lia).
  assert (Hlk : forall k, (k < task_len tsk)%nat ->
            buf !!! (task_idset tsk + k)%nat = slice !!! k).
  { intros k Hk. subst slice. rewrite lookup_total_take_lt by lia.
    rewrite lookup_total_drop. reflexivity. }
  assert (Hadj : forall i, (1 <= i < task_len tsk)%nat ->
            (slice !!! (i - 1)%nat < slice !!! i)%nat).
  { intros i Hi.
    apply (StronglySorted_lookup_lt slice (i - 1) i); [exact Hs|lia| |];
      apply list_lookup_lookup_total_lt; lia. }
  assert (Hgen : forall n i, (1 <= i)%nat -> (i + n = Nat.max 1 (task_len tsk))%nat ->
            assert_sorted_loop buf (task_idset tsk) n i = Ok tt).
  { induction n as [|n IH]; intros i Hi Hn; [reflexivity|].
    cbn [assert_sorted_loop]. unfold Assert.
    rewrite !Hlk by lia.
    rewrite (proj2 (Nat.ltb_lt _ _)) by (apply Hadj; lia).
    change (Ok tt ≫= ?k) with (k tt). cbv beta. apply IH; lia. }
  apply Hgen; lia.
Qed.

(** X11.  When the slices of the task and of the tasks on the stack are
    strictly ascending and pairwise apart, the sort permutes its input and
    no row names a feature twice, expand leaves the slices of the tasks on
    the stack, those of the two children included, strictly ascending and
    pairwise apart: the assertion assert_sorted of make_split holds for every
    task that is expanded.  The idset after expand is a permutation of the
    idset before. *)
Theorem expand_keeps_slices {Rng : Type} (std_sort : list SCEntry -> list SCEntry)
    (param : TreeParamTrain) (grad hess : list float) (smat : Image) (fuel : nat)
    (tsk : Task) (st st' : Updater Rng) :
  (forall l, std_sort l ≡ₚ l) ->
  Forall (fun line : Line => NoDup (fst <$> line)) smat ->
  slices_ok (add_task tsk st) ->
  Z.of_nat (length (idset st)) < 2 ^ 31 ->
  expand std_sort param grad hess smat fuel tsk st = Ok st' ->
  slices_ok st'
  /\ (forall rt_debug check_bug,
        assert_sorted rt_debug check_bug (idset st) (task_idset tsk) (task_len tsk)
        = Ok tt
        /\ Forall (fun t => assert_sorted rt_debug check_bug (idset st')
                              (task_idset t) (task_len t) = Ok tt)
             (task_stack st'))
  /\ idset st' ≡ₚ idset st
  /\ length (idset st') = length (idset st).
Proof.
  intros Hperm Hnd [Hall Hss] Hsz Hrun.
  cbn [add_task task_stack idset] in Hall, Hss.
  apply Forall_cons in Hall as [Htsk Hrest].
  apply StronglySorted_inv in Hss as [Hss Hdisj].
  destruct (expand_slices std_sort param grad hess smat Hperm Hnd fuel tsk st st')
    as (Hok & Hp & Hl); try assumption; [split; assumption|].
  split; [exact Hok|]. split; [|split; [exact Hp|exact Hl]].
  intros rt_debug check_bug. split; [apply assert_sorted_ok, Htsk|].
  eapply Forall_impl; [exact (proj1 Hok)|].
  intros t Ht. apply assert_sorted_ok, Ht.
Qed.

Lemma expand_keeps_slices_witness :
  exists st',
    expand example_sort (example_param 0 1 0 (float_of_Z 1)) example_grad example_hess
      example_smat 5 example_root_task example_root_state = Ok st'
    /\ slices_ok st'
    /\ idset st' ≡ₚ [0; 1; 2; 3]%nat.
Proof.
  eexists. split; [vm_compute; reflexivity|].
  match goal with
  | |- slices_ok ?s /\ _ =>
      destruct (expand_keeps_slices example_sort (example_param 0 1 0 (float_of_Z 1))
                  example_grad example_hess example_smat 5 example_root_task
                  example_root_state s
                  (fun l => merge_sort_Permutation entry_le l))
        as (Hok & _ & Hp & _)
  end.
  - repeat constructor; intros H; inversion H.
  - split.
    + constructor; [|constructor]. split; [cbn; lia|].
      repeat constructor.
    + repeat constructor.
  - cbn. lia.
  - vm_compute. reflexivity.
  - split; [exact Hok|exact Hp].
Defined.

(** X12.  do_boost only rearranges the rows that init_tasks has put into
    the idset: when the sort permutes its input, no row names a feature
    twice and there are fewer than [2^31] rows, the idset at the return of
    do_boost is a permutation of the idset that init_tasks built; no row is
    lost or taken twice, and every row index is below the number of rows. *)
Theorem do_boost_rows_conserved {Rng : Type} (SampleBinary : float -> Rng -> Z * Rng)
    (std_sort : list SCEntry -> list SCEntry) (param : TreeParamTrain)
    (grad hess : list float) (smat : Image) (group_id : list Z) (fuel : nat)
    (st st' : Updater Rng) :
  (forall l, std_sort l ≡ₚ l) ->
  Forall (fun line : Line => NoDup (fst <$> line)) smat ->
  Z.of_nat (length grad) < 2 ^ 31 ->
  task_stack st = [] ->
  0 <= num_roots (tree st) < 2 ^ 31 ->
  Forall (fun g => 0 <= g) group_id ->
  do_boost SampleBinary std_sort param grad hess smat group_id fuel st = Ok st' ->
  exists st1,
    init_tasks SampleBinary param hess group_id (length grad) st = Ok st1
    /\ idset st' ≡ₚ idset st1
    /\ NoDup (idset st')
    /\ Forall (fun i => (i < length grad)%nat) (idset st').
Proof.
  intros Hperm Hnd Hsz Hts Hroots Hpos. unfold do_boost.
  destruct (init_tasks SampleBinary param hess group_id (length grad) st)
    as [st1| |] eqn:Hinit; try discriminate.
  change (Ok st1 ≫= ?k) with (k st1). cbv beta. intros Hrun.
  destruct (init_tasks_slices SampleBinary param hess group_id _ _ _ Hts Hroots Hpos
              Hinit) as (Hok & l & Hl & Hsub).
  assert (Hlen : (length (idset st1) <= length grad)%nat).
  { rewrite (Permutation_length Hl). apply sublist_length in Hsub.
    rewrite length_seq in Hsub. exact Hsub. }
  apply (run_tasks_slices std_sort param grad hess smat Hperm Hnd) in Hrun;
    [|exact Hok|cbn [idset with_num_pruned with_max_depth]; lia].
  cbn [idset with_num_pruned with_max_depth] in Hrun.
  exists st1. split; [reflexivity|]. split; [exact Hrun|].
  split.
  - rewrite Hrun, Hl. exact (sublist_NoDup _ _ (NoDup_seq 0 _) Hsub).
  - rewrite Hrun, Hl. apply Forall_forall. intros x Hx.
    apply (sublist_subseteq _ _ Hsub), elem_of_seq in Hx. lia.
Qed.

Lemma do_boost_rows_conserved_witness :
  exists st',
    do_boost always_sampled example_sort (example_param 0 1 0 (float_of_Z 1))
      example_grad example_hess example_smat [] 5 fresh_state = Ok st'
    /\ idset st' ≡ₚ [0; 1; 2; 3]%nat
    /\ NoDup (idset st').
Proof.
  eexists. split; [vm_compute; reflexivity|].
  match goal with
  | |- idset ?s ≡ₚ _ /\ _ =>
      destruct (do_boost_rows_conserved always_sampled example_sort
                  (example_param 0 1 0 (float_of_Z 1)) example_grad example_hess
                  example_smat [] 5 fresh_state s
                  (fun l => merge_sort_Permutation entry_le l))
        as (st1 & Hinit & Hp & Hnd & _)
  end.
  - repeat constructor; intros H; inversion H.
  - cbn. lia.
  - reflexivity.
  - cbn. lia.
  - constructor.
  - vm_compute. reflexivity.
  - injection Hinit as <-. split; [exact Hp|exact Hnd].
Defined.

(** ** do_boost returns *)

Section Termination.

Context {Rng : Type}.
Variable SampleBinary : float -> Rng -> Z * Rng.
Variable std_sort : list SCEntry -> list SCEntry.
Variable param : TreeParamTrain.
Variables grad hess : list float.
Variable smat : Image.
Variable group_id : list Z.
Implicit Types (st : Updater Rng) (tsk : Task) (t : RTree).

Let bound : nat := Z.to_nat (param_max_depth param).

Lemma subtree_size_pos d : (d <= bound)%nat -> (1 <= subtree_size bound d)%nat.
Proof.
  intros Hd. unfold subtree_size.
  replace (S bound - d)%nat with (S (bound - d)) by lia.
  rewrite Nat.pow_succ_r'.
  pose proof (Nat.pow_nonzero 2 (bound - d) ltac:(lia)). lia.
Qed.

Lemma subtree_size_split d :
  (d < bound)%nat ->
  (2 * subtree_size bound (S d) + 1 = subtree_size bound d)%nat.
Proof.
  intros Hd. unfold subtree_size.
  replace (S bound - d)%nat with (S (S bound - S d)) by lia.
  rewrite Nat.pow_succ_r'.
  pose proof (Nat.pow_nonzero 2 (S bound - S d) ltac:(lia)). lia.
Qed.

Lemma task_depths_leafed t t' tasks ds :
  leafed t t' -> task_depths bound t tasks ds -> task_depths bound t' tasks ds.
Proof.
  intros Hl Hds. unfold task_depths in *. eapply Forall2_impl; [exact Hds|].
  intros tsk d (Hr & Hd & Hb). rewrite (proj1 Hl).
  split; [exact Hr|]. split; [|exact Hb].
  apply (depth_is_ext t); [apply leafed_parent, Hl|exact Hd].
Qed.

(** The depths in the tree that a split leaves. *)
Lemma split_tree_depths t nid si sc dl s d :
  let n := Node.set_split si sc dl (RTree.node t nid) in
  let t' := RTree.AddChilds nid (RTree.set_stat nid s (RTree.set_node nid n t)) in
  0 <= nid < Z.of_nat (length (nodes t)) ->
  well_rooted t ->
  depth_is t (Z.to_nat nid) d ->
  (forall i di, (i < length (nodes t))%nat -> depth_is t i di -> depth_is t' i di)
  /\ depth_is t' (length (nodes t)) (S d)
  /\ depth_is t' (S (length (nodes t))) (S d).
Proof.
  intros n t' Hnid Hwr Hd.
  assert (Hr : (Z.to_nat nid < length (nodes t))%nat) by lia.
  assert (Hnodes : nodes t'
                   = <[Z.to_nat nid := Node.set_children (Z.of_nat (length (nodes t)))
                                         (Z.of_nat (length (nodes t)) + 1) n]> (nodes t)
                     ++ [Node.fresh nid; Node.fresh nid])
    by (apply split_tree_nodes, Hr).
  assert (Hpar : forall j, (j < length (nodes t))%nat ->
            node_parent (nodes t' !!! j) = node_parent (nodes t !!! j)).
  { intros j Hj. rewrite Hnodes, lookup_total_app_l by (rewrite length_insert; lia).
    destruct (decide (j = Z.to_nat nid)) as [->|Hne].
    - rewrite list_lookup_total_insert_eq by exact Hr. reflexivity.
    - rewrite list_lookup_total_insert_ne by congruence. reflexivity. }
  assert (Hnew : forall j, (length (nodes t) <= j < S (S (length (nodes t))))%nat ->
            nodes t' !!! j = Node.fresh nid).
  { intros j Hj. rewrite Hnodes, lookup_total_app_r by (rewrite length_insert; lia).
    rewrite length_insert.
    destruct (j - length (nodes t))%nat as [|[|k]] eqn:E; [reflexivity|reflexivity|lia]. }
  assert (Hold : forall i di, (i < length (nodes t))%nat ->
            depth_is t i di -> depth_is t' i di).
  { intros i di Hi. apply depth_is_prefix; assumption. }
  split; [exact Hold|].
  assert (Hchild : forall j, (length (nodes t) <= j < S (S (length (nodes t))))%nat ->
            depth_is t' j (S d)).
  { intros j Hj. destruct (Hold _ _ Hr Hd) as [Hroot Hnot].
    assert (Hpi : parent_index t' j = Z.to_nat nid).
    { unfold parent_index. rewrite Hnew by lia. reflexivity. }
    split.
    - cbn [ancestor]. rewrite Hpi. exact Hroot.
    - intros [|k] Hk.
      + cbn [ancestor]. rewrite Hnew by lia. unfold Node.is_root. cbn.
        apply Z.eqb_neq. lia.
      + cbn [ancestor]. rewrite Hpi. apply Hnot. lia. }
  split; apply Hchild; lia.
Qed.

(** expand returns on a task of the tree when the fuel exceeds the depth
    bound, and the work that is left has become less. *)
Lemma expand_returns fuel tsk st d ds :
  well_rooted (tree st) ->
  length (stats (tree st)) = length (nodes (tree st)) ->
  task_depths bound (tree st) (tsk :: task_stack st) (d :: ds) ->
  (bound < fuel)%nat ->
  exists st1 ds1,
    expand std_sort param grad hess smat fuel tsk st = Ok st1
    /\ well_rooted (tree st1)
    /\ length (stats (tree st1)) = length (nodes (tree st1))
    /\ task_depths bound (tree st1) (task_stack st1) ds1
    /\ (pending_work bound ds1 < pending_work bound (d :: ds))%nat.
Proof.
  intros Hwr Hlen Hdepths Hfuel.
  apply Forall2_cons in Hdepths as [(Hnid & Hd & Hb) Hrest].
  fold (task_depths bound (tree st) (task_stack st) ds) in Hrest.
  pose proof (GetDepth_depth_is (tree st) (task_nid tsk) d fuel Hd ltac:(lia)) as Hget.
  assert (Hr : (Z.to_nat (task_nid tsk) < length (nodes (tree st)))%nat) by lia.
  assert (Hex : exists st1, expand std_sort param grad hess smat fuel tsk st = Ok st1).
  { destruct (Z_lt_le_dec (Z.of_nat d) (param_max_depth param)) as [Hlt|Hge].
    - destruct (cannot_split param (snd (task_sums grad hess tsk st)) (Z.of_nat d))
        eqn:Hgate.
      + unfold expand. rewrite Hget.
        change (Ok (Z.of_nat d) ≫= ?k) with (k (Z.of_nat d)). cbv beta.
        set (st0 := if max_depth st <? Z.of_nat d then _ else st).
        assert (H0 : tree st0 = tree st /\ idset st0 = idset st)
          by (subst st0; destruct (_ <? _); split; reflexivity).
        destruct H0 as [Ht0 Hi0].
        rewrite (proj2 (Z.leb_gt _ _) Hlt).
        replace (task_sums grad hess tsk st0) with (task_sums grad hess tsk st)
          by (unfold task_sums; rewrite Hi0; reflexivity).
        rewrite Hgate. rewrite <- Ht0 in Hget, Hr.
        destruct (make_leaf_total param grad hess fuel tsk
                    (fst (task_sums grad hess tsk st))
                    (snd (task_sums grad hess tsk st)) false st0 _ Hget Hr)
          as (st1 & Hrun & _). eauto.
      + destruct (expand_decision std_sort param grad hess smat fuel tsk st
                    (Z.of_nat d) Hget Hr Hlen Hlt Hgate) as (r & st1 & _ & Hrun & _).
        eauto.
    - unfold expand. rewrite Hget.
      change (Ok (Z.of_nat d) ≫= ?k) with (k (Z.of_nat d)). cbv beta.
      set (st0 := if max_depth st <? Z.of_nat d then _ else st).
      assert (Ht0 : tree st0 = tree st)
        by (subst st0; destruct (_ <? _); reflexivity).
      rewrite (proj2 (Z.leb_le _ _) Hge). rewrite <- Ht0 in Hget, Hr.
      destruct (make_leaf_total param grad hess fuel tsk d0 d0 true st0 _ Hget Hr)
        as (st1 & Hrun & _). eauto. }
  destruct Hex as [st1 Hrun]. exists st1.
  pose proof (expand_cases std_sort param grad hess smat fuel tsk st st1 Hrun)
    as (depth & Hdepth & _ & _ & Hcase).
  rewrite Hget in Hdepth. injection Hdepth as <-.
  destruct Hcase as [(Hl & Hts & _)|(Hlt & e & bw & def_part & spl_part & Ht & Hts
                                     & Hdef & Hspl & _)].
  - exists ds. split; [exact Hrun|].
    split; [exact (leafed_well_rooted _ _ Hl Hwr)|].
    split; [destruct Hl as (Hn & Hs & _); congruence|].
    split; [rewrite Hts; exact (task_depths_leafed _ _ _ _ Hl Hrest)|].
    unfold pending_work. cbn [sum_list_with].
    pose proof (subtree_size_pos d Hb). lia.
  - destruct (split_tree_inv (tree st) (task_nid tsk) (RTSelecter.split_index e)
                (RTSelecter.split_value e) (RTSelecter.default_left e)
                (mkStat (RTSelecter.loss_chg e) bw 0) Hnid Hwr Hlen)
      as (Hwr' & Hlen' & Hln' & _ & _ & Hnode & _).
    destruct (split_tree_depths (tree st) (task_nid tsk) (RTSelecter.split_index e)
                (RTSelecter.split_value e) (RTSelecter.default_left e)
                (mkStat (RTSelecter.loss_chg e) bw 0) d Hnid Hwr Hd)
      as (Hold & Hc1 & Hc2).
    rewrite <- Ht in Hwr', Hlen', Hln', Hnode, Hold, Hc1, Hc2.
    assert (Hdb : (d < bound)%nat) by (unfold bound; lia).
    exists (S d :: S d :: ds). split; [exact Hrun|].
    split; [exact Hwr'|]. split; [exact Hlen'|].
    split.
    + rewrite Hts. rewrite Hnode in Hdef, Hspl. cbn in Hdef, Hspl.
      assert (Hchild : forall c,
                c = Z.of_nat (length (nodes (tree st)))
                \/ c = Z.of_nat (length (nodes (tree st))) + 1 ->
                0 <= c < Z.of_nat (length (nodes (tree st1)))
                /\ depth_is (tree st1) (Z.to_nat c) (S d) /\ (S d <= bound)%nat).
      { intros c [->| ->]; (split; [lia|]); (split; [|lia]).
        - rewrite Nat2Z.id. exact Hc1.
        - replace (Z.to_nat (Z.of_nat (length (nodes (tree st))) + 1))
            with (S (length (nodes (tree st)))) by lia.
          exact Hc2. }
      constructor; [apply Hchild; destruct (RTSelecter.default_left e); auto|].
      constructor; [apply Hchild; destruct (RTSelecter.default_left e); auto|].
      eapply Forall2_impl; [exact Hrest|].
      intros u du (Hur & Hud & Hub). split; [lia|]. split; [|exact Hub].
      apply Hold; [lia|exact Hud].
    + unfold pending_work. cbn [sum_list_with].
      pose proof (subtree_size_split d Hdb). lia.
Qed.

Lemma run_tasks_returns : forall fuel st ds,
  well_rooted (tree st) ->
  length (stats (tree st)) = length (nodes (tree st)) ->
  task_depths bound (tree st) (task_stack st) ds ->
  (pending_work bound ds + bound < fuel)%nat ->
  exists st', run_tasks std_sort param grad hess smat fuel st = Ok st'.
Proof.
  induction fuel as [|fuel IH]; intros st ds Hwr Hlen Hdepths Hfuel; [lia|].
  cbn [run_tasks]. unfold next_task.
  destruct (task_stack st) as [|tsk rest] eqn:Hstack; [eauto|].
  destruct ds as [|d ds]; [inversion Hdepths|].
  set (st0 := mkUpdater (tree st) (max_depth st) (num_pruned st) rest (idset st)
                (rng st)).
  destruct (expand_returns (S fuel) tsk st0 d ds Hwr Hlen Hdepths ltac:(lia))
    as (st1 & ds1 & Hrun & Hwr1 & Hlen1 & Hd1 & Hless).
  rewrite Hrun. change (Ok st1 ≫= ?k) with (k st1). cbv beta.
  apply (IH st1 ds1); try assumption. lia.
Qed.

(** init_tasks pushes at most one task for each root. *)
Lemma init_tasks_count ngrads st st1 :
  task_stack st = [] ->
  1 <= num_roots (tree st) ->
  init_tasks SampleBinary param hess group_id ngrads st = Ok st1 ->
  (length (task_stack st1) <= Z.to_nat (num_roots (tree st)))%nat.
Proof.
  intros Hts Hnr. unfold init_tasks.
  destruct (length group_id =? 0)%nat.
  - destruct (flt subsample_all (subsample param)); intros [= <-];
      cbn [add_task task_stack with_idset with_rng length]; rewrite Hts;
      cbn [length]; lia.
  - destruct (Assert (length group_id =? ngrads)%nat) as [[]| |]; try discriminate.
    change (Ok tt ≫= ?k) with (k tt). cbv beta.
    destruct (check_groups hess group_id (tree st)) as [[]| |]; try discriminate.
    change (Ok tt ≫= ?k) with (k tt). cbv beta. intros [= <-].
    set (groups := seq 0 (Z.to_nat (num_roots (tree st)))).
    set (st0 := with_idset (flat_map (group_rows hess group_id) groups) st).
    destruct (group_tasks_spec hess group_id groups [] [] st0)
      as (_ & _ & _ & _ & _ & new & Hnew & Hmap & _).
    { subst st0. cbn. rewrite app_nil_r. reflexivity. }
    cbn [length] in Hnew. rewrite Hnew. subst st0. cbn [task_stack with_idset].
    rewrite Hts, app_nil_r.
    apply (f_equal length) in Hmap. rewrite length_map, length_rev in Hmap.
    rewrite Hmap.
    etransitivity; [apply length_filter|].
    rewrite length_map. subst groups. rewrite length_seq. reflexivity.
Qed.

Lemma init_tasks_no_fuel ngrads st :
  init_tasks SampleBinary param hess group_id ngrads st <> OutOfFuel.
Proof.
  unfold init_tasks. destruct (length group_id =? 0)%nat.
  - destruct (flt subsample_all (subsample param)); discriminate.
  - destruct (Assert (length group_id =? ngrads)%nat) as [[]| |] eqn:E;
      try discriminate.
    + change (Ok tt ≫= ?k) with (k tt). cbv beta.
      destruct (check_groups_spec hess group_id (tree st)) as [[-> _]|[-> _]];
        discriminate.
    + unfold Assert in E. destruct (_ =? _)%nat; discriminate.
Qed.

End Termination.

(** X13.  do_boost returns whenever init_tasks does.  The tree is freshly
    initialised with [nr >= 1] roots; the rows name no feature twice and
    only features below [num_feature]; there is one hessian and one row of
    the matrix for each gradient, fewer than [2^31] of them; the sort
    permutes its input; the group ids are not negative, and a tree of
    [nr] roots of depth [max_depth] has fewer than [2^31] nodes.  Then the
    loop over the tasks fails no assertion, in particular not the assertion
    [start < end] of expand; it expands at most
    [nr * (2^(max_depth + 1) - 1)] tasks, so that this number plus
    [max_depth + 1] is fuel enough; and the idset it leaves is a permutation
    of the one that init_tasks built, every split having rearranged only the
    slice of its task.  The only failure of do_boost is then a failed
    assertion of init_tasks. *)
Theorem do_boost_returns {Rng : Type} (SampleBinary : float -> Rng -> Z * Rng)
    (std_sort : list SCEntry -> list SCEntry) (param : TreeParamTrain)
    (grad hess : list float) (smat : Image) (group_id : list Z) (fuel : nat)
    (nr nf : Z) (st : Updater Rng) :
  let bound := Z.to_nat (param_max_depth param) in
  tree st = RTree.InitModel nr nf ->
  1 <= nr ->
  0 <= nf < 2 ^ 31 ->
  task_stack st = [] ->
  (forall l, std_sort l ≡ₚ l) ->
  Forall (fun line : Line => NoDup (fst <$> line)) smat ->
  Forall (fun line : Line => Forall (fun fv => Z.of_nat (fst fv) < nf) line) smat ->
  length hess = length grad ->
  length smat = length grad ->
  Z.of_nat (length grad) < 2 ^ 31 ->
  Forall (fun g => 0 <= g) group_id ->
  Z.of_nat (Z.to_nat nr * (2 ^ S bound - 1)) < 2 ^ 31 ->
  (Z.to_nat nr * (2 ^ S bound - 1) + bound < fuel)%nat ->
  (exists st1 st',
     init_tasks SampleBinary param hess group_id (length grad) st = Ok st1
     /\ do_boost SampleBinary std_sort param grad hess smat group_id fuel st = Ok st'
     /\ idset st' ≡ₚ idset st1)
  \/ (init_tasks SampleBinary param hess group_id (length grad) st = AssertFail
      /\ do_boost SampleBinary std_sort param grad hess smat group_id fuel st
         = AssertFail).
Proof.
  intros bound Ht Hnr Hnf Hts Hperm Hnd _ _ _ Hsz Hpos Hnodes Hfuel. unfold do_boost.
  destruct (init_tasks SampleBinary param hess group_id (length grad) st)
    as [st1| |] eqn:Hinit.
  - left. change (Ok st1 ≫= ?k) with (k st1). cbv beta.
    destruct (init_tasks_inv SampleBinary param hess group_id (length grad) st st1)
      as [Ht1 Hr1]; try exact Hinit.
    { unfold tasks_in_range. rewrite Hts. constructor. }
    { rewrite Ht. cbn. rewrite length_replicate. lia. }
    { rewrite Ht. cbn. rewrite length_replicate. lia. }
    pose proof (init_tasks_count SampleBinary param hess group_id _ st st1 Hts
                  ltac:(rewrite Ht; exact Hnr) Hinit) as Hcount.
    rewrite Ht in Hcount. cbn [RTree.InitModel num_roots] in Hcount.
    destruct (run_tasks_returns std_sort param grad hess smat fuel
                (with_num_pruned 0 (with_max_depth 0 st1))
                (map (fun _ => 0%nat) (task_stack st1))) as [st' Hrun].
    + cbn [tree with_num_pruned with_max_depth]. rewrite Ht1, Ht.
      apply well_rooted_InitModel.
    + cbn [tree with_num_pruned with_max_depth]. rewrite Ht1, Ht. cbn.
      rewrite !length_replicate. reflexivity.
    + cbn [tree task_stack with_num_pruned with_max_depth].
      unfold task_depths. apply Forall2_fmap_r, Forall_Forall2_diag.
      unfold tasks_in_range in Hr1.
      eapply Forall_impl; [exact Hr1|]. intros tsk Hr. cbn beta in *.
      split; [exact Hr|]. split; [|lia].
      rewrite Ht1, Ht in *. cbn [RTree.InitModel nodes] in *.
      rewrite length_replicate in Hr. split.
      * cbn [ancestor RTree.InitModel nodes].
        rewrite lookup_total_replicate_2 by lia. reflexivity.
      * intros k Hk. lia.
    + assert (Hw : forall l : list Task,
                pending_work (Z.to_nat (param_max_depth param))
                  (map (fun _ => 0%nat) l)
                = (length l * (2 ^ S bound - 1))%nat).
      { unfold pending_work, subtree_size.
        induction l as [|x l IH]; [reflexivity|].
        cbn [map sum_list_with length]. rewrite IH. fold bound.
        rewrite Nat.sub_0_r. lia. }
      rewrite Hw. fold bound. nia.
    + exists st1, st'. split; [reflexivity|]. split; [exact Hrun|].
      assert (Hroots : 0 <= num_roots (tree st) < 2 ^ 31).
      { rewrite Ht. cbn [RTree.InitModel num_roots].
        assert (1 <= 2 ^ S bound - 1)%nat
          by (pose proof (Nat.pow_le_mono_r 2 1 (S bound)); cbn in *; lia).
        nia. }
      destruct (init_tasks_slices SampleBinary param hess group_id _ _ _ Hts Hroots
                  Hpos Hinit) as (Hok & l & Hl & Hsub).
      assert (Hlen : (length (idset st1) <= length grad)%nat).
      { rewrite (Permutation_length Hl). apply sublist_length in Hsub.
        rewrite length_seq in Hsub. exact Hsub. }
      apply (run_tasks_slices std_sort param grad hess smat Hperm Hnd) in Hrun;
        [|exact Hok|cbn [idset with_num_pruned with_max_depth]; lia].
      exact Hrun.
  - right. split; reflexivity.
  - exfalso. exact (init_tasks_no_fuel SampleBinary param hess group_id _ _ Hinit).
Qed.

Lemma do_boost_returns_witness :
  exists st',
    do_boost always_sampled example_sort (example_param 0 1 0 (float_of_Z 1))
      example_grad example_hess example_smat [] 134 fresh_state = Ok st'
    /\ idset st' ≡ₚ [0; 1; 2; 3]%nat.
Proof.
  destruct (do_boost_returns always_sampled example_sort
              (example_param 0 1 0 (float_of_Z 1)) example_grad example_hess
              example_smat [] 134 1 1 fresh_state eq_refl ltac:(lia) ltac:(lia)
              eq_refl (fun l => merge_sort_Permutation entry_le l))
    as [(st1 & st' & Hinit & Hrun & Hp)|[H _]].
  - repeat constructor; intros H; inversion H.
  - repeat constructor; cbn; lia.
  - reflexivity.
  - reflexivity.
  - cbn. lia.
  - constructor.
  - vm_compute. reflexivity.
  - apply Nat.ltb_lt. vm_compute. reflexivity.
  - exists st'. split; [exact Hrun|]. injection Hinit as <-. exact Hp.
  - discriminate H.
Defined.

(** ** The rows of the two children *)

Section SplitSides.

Context {Rng : Type}.
Variable std_sort : list SCEntry -> list SCEntry.
Variable param : TreeParamTrain.
Variables grad hess : list float.
Variable smat : Image.
Hypothesis std_sort_perm : forall l, std_sort l ≡ₚ l.
Hypothesis lines_nodup : Forall (fun line : Line => NoDup (fst <$> line)) smat.
Hypothesis lines_below :
  Forall (fun line : Line => Forall (fun fv => Z.of_nat (fst fv) < 2 ^ 31) line) smat.
Implicit Types (st : Updater Rng) (tsk : Task).

(** The entries of a column are the values that the rows of the task have
    for the feature. *)
Lemma column_elem (rows : list nat) (f : nat) (x : SCEntry) :
  x ∈ column smat rows f
  <-> rindex x ∈ rows /\ (f, fvalue x) ∈ smat !!! rindex x.
Proof.
  unfold column. rewrite list_elem_of_In, in_flat_map. split.
  - intros (ridx & Hr & Hx). apply in_flat_map in Hx as ([g v] & Hfv & Hx).
    cbn [fst snd] in Hx. destruct (decide (g = f)) as [->|Hne]; [|inversion Hx].
    destruct Hx as [<-|[]]. cbn [rindex fvalue].
    split; apply list_elem_of_In; assumption.
  - intros [Hr Hfv]. exists (rindex x). split; [apply list_elem_of_In, Hr|].
    apply in_flat_map. exists (f, fvalue x). split; [apply list_elem_of_In, Hfv|].
    cbn [fst snd]. rewrite decide_True by reflexivity. left. destruct x; reflexivity.
Qed.

(** A forward candidate owns the first entries of the range of its
    feature and sends missing values right; a backward candidate owns the
    last entries and sends missing values left. *)
Lemma enumerate_candidates_side rsum_grad rsum_hess root_cost entry start end_
    findex parent_base_weight c :
  Z.of_nat (end_ - start) < 2 ^ 31 ->
  0 <= findex < 2 ^ 31 ->
  c ∈ enumerate_candidates param grad hess rsum_grad rsum_hess root_cost entry
        start end_ findex parent_base_weight ->
  RTSelecter.split_index c = findex
  /\ ((RTSelecter.default_left c = false /\ RTSelecter.start c = start)
      \/ (RTSelecter.default_left c = true
          /\ (RTSelecter.start c + Z.to_nat (RTSelecter.len c))%nat = end_)).
Proof.
  intros Hsz Hf. unfold enumerate_candidates. intros H.
  apply elem_of_app in H as [H|H].
  - destruct (negb (default_direction param =? 1)); [|inversion H].
    apply list_elem_of_fmap in H as (p & -> & Hp).
    apply forward_trace_shape in Hp as (cg & ch & ->).
    unfold forward_candidate. rewrite to_unsigned_small by lia.
    match goal with
    | |- context [RTSelecter.new ?lc ?st ?ln findex ?sv false] =>
        destruct (entry_decode findex false lc st ln sv Hf) as [-> ->]
    end.
    split; [reflexivity|]. left. split; reflexivity.
  - destruct (negb (default_direction param =? 2)); [|inversion H].
    apply list_elem_of_fmap in H as (p & -> & Hp).
    pose proof (backward_trace_range _ _ _ _ _ _ _ _ _ _ _ _ _ _ _ Hp) as Hr.
    apply backward_trace_shape in Hp as (cg & ch & ->).
    unfold backward_candidate. rewrite to_unsigned_small by lia.
    match goal with
    | |- context [RTSelecter.new ?lc ?st ?ln findex ?sv true] =>
        destruct (entry_decode findex true lc st ln sv Hf) as [-> ->]
    end.
    split; [reflexivity|]. right. split; [reflexivity|].
    cbn [RTSelecter.new RTSelecter.start RTSelecter.len].
    rewrite to_int_small by lia. lia.
Qed.

(** The threshold of a candidate, from the values at the boundary of its
    slice within the range of the feature. *)
Lemma enumerate_candidates_threshold rsum_grad rsum_hess root_cost entry start end_
    findex parent_base_weight (col : list SCEntry) c :
  take (end_ - start) (drop start entry) = col ->
  length col = (end_ - start)%nat ->
  Z.of_nat (end_ - start) < 2 ^ 31 ->
  0 <= findex < 2 ^ 31 ->
  c ∈ enumerate_candidates param grad hess rsum_grad rsum_hess root_cost entry
        start end_ findex parent_base_weight ->
  0 < RTSelecter.len c
  /\ RTSelecter.split_value c
     = slice_threshold col (RTSelecter.default_left c)
         (split_boundary col (RTSelecter.default_left c)
            (Z.to_nat (RTSelecter.len c))).
Proof.
  intros Hcol Hlen Hsz Hf. unfold enumerate_candidates. intros H.
  assert (Hlk : forall i, (i < end_ - start)%nat -> col !!! i = entry !!! (start + i)%nat).
  { intros i Hi. rewrite <- Hcol, lookup_total_take_lt by exact Hi.
    apply lookup_total_drop. }
  apply elem_of_app in H as [H|H].
  - destruct (negb (default_direction param =? 1)); [|inversion H].
    apply list_elem_of_fmap in H as (p & -> & Hp).
    pose proof (forward_trace_range _ _ _ _ _ _ _ _ _ _ _ _ _ _ _ _ Hp) as Hr.
    apply forward_trace_shape in Hp as (cg & ch & ->).
    destruct p as [j c]. cbn [fst snd] in *.
    unfold forward_candidate. rewrite to_unsigned_small by lia.
    match goal with
    | |- context [RTSelecter.new ?lc ?st ?ln findex ?sv false] =>
        destruct (entry_decode findex false lc st ln sv Hf) as [_ ->]
    end.
    cbn [RTSelecter.new RTSelecter.len RTSelecter.split_value].
    rewrite to_int_small by lia. split; [lia|].
    unfold split_boundary, slice_threshold. rewrite Nat2Z.id, Hlen.
    replace (j + 1 - start - 1)%nat with (j - start)%nat by lia.
    rewrite (Hlk (j - start)%nat) by lia.
    replace (start + (j - start))%nat with j by lia.
    destruct (Nat.eqb_spec j (end_ - 1)) as [Hj|Hj].
    + rewrite (proj2 (Nat.eqb_eq (j + 1 - start) (end_ - start))) by lia.
      reflexivity.
    + rewrite (proj2 (Nat.eqb_neq (j + 1 - start) (end_ - start))) by lia.
      rewrite (Hlk (j + 1 - start)%nat) by lia.
      replace (start + (j + 1 - start))%nat with (S j) by lia. reflexivity.
  - destruct (negb (default_direction param =? 2)); [|inversion H].
    apply list_elem_of_fmap in H as (p & -> & Hp).
    pose proof (backward_trace_range _ _ _ _ _ _ _ _ _ _ _ _ _ _ _ Hp) as Hr.
    apply backward_trace_shape in Hp as (cg & ch & ->).
    destruct p as [j c]. cbn [fst snd] in *.
    unfold backward_candidate. rewrite to_unsigned_small by lia.
    match goal with
    | |- context [RTSelecter.new ?lc ?st ?ln findex ?sv true] =>
        destruct (entry_decode findex true lc st ln sv Hf) as [_ ->]
    end.
    cbn [RTSelecter.new RTSelecter.len RTSelecter.split_value].
    rewrite to_int_small by lia. split; [lia|].
    unfold split_boundary, slice_threshold. rewrite Nat2Z.id, Hlen.
    replace (end_ - start - (end_ - j + 1))%nat with (j - 1 - start)%nat by lia.
    rewrite (Hlk (j - 1 - start)%nat) by lia.
    replace (start + (j - 1 - start))%nat with (j - 1)%nat by lia.
    destruct (Nat.eqb_spec j (start + 1)) as [Hj|Hj].
    + rewrite (proj2 (Nat.eqb_eq (j - 1 - start) 0)) by lia. reflexivity.
    + rewrite (proj2 (Nat.eqb_neq (j - 1 - start) 0)) by lia.
      rewrite (Hlk (j - 1 - start - 1)%nat) by lia.
      replace (start + (j - 1 - start - 1))%nat with (j - 2)%nat by lia. reflexivity.
Qed.

(** The loop over the active features of a task: every local result is the
    initial entry or a candidate that was enumerated over the sorted column
    of its feature. *)
Lemma enumerate_features_columns tlen rsum_grad rsum_hess root_cost base_weight
    (rows : list nat) : forall aclist pre rest sglobal,
  (forall f, f ∈ aclist -> (0 < length (column smat rows f))%nat) ->
  exists sglobal' entry' locals,
    enumerate_features std_sort param grad hess tlen rsum_grad rsum_hess root_cost
      base_weight (row_pointers smat rows aclist (length pre)) sglobal
      (pre ++ flat_map (column smat rows) aclist ++ rest) = Ok (sglobal', entry')
    /\ sglobal' = RTSelecter.push_all locals sglobal
    /\ Forall
         (fun l =>
            l = RTSelecter.zero_entry
            \/ exists f s e ent,
                 (f, (s, e)) ∈ row_pointers smat rows aclist (length pre)
                 /\ take (e - s) (drop s ent) = std_sort (column smat rows f)
                 /\ l ∈ enumerate_candidates param grad hess rsum_grad rsum_hess
                          root_cost ent s e (to_int (Z.of_nat f))
                          (to_float base_weight))
         locals.
Proof.
  induction aclist as [|f aclist IH]; intros pre rest sglobal Hne.
  - cbn. exists sglobal, (pre ++ rest), []. repeat split. constructor.
  - cbn [row_pointers enumerate_features flat_map].
    pose proof (Hne f ltac:(apply list_elem_of_here)) as Hf.
    rewrite (proj2 (Nat.ltb_lt (length pre) (length pre + length (column smat rows f))))
      by lia.
    unfold Assert. change (Ok tt ≫= ?k) with (k tt). cbv beta.
    rewrite <- !app_assoc, (sort_range_middle std_sort).
    set (ent := pre ++ std_sort (column smat rows f)
                  ++ flat_map (column smat rows) aclist ++ rest).
    assert (Hseg : take (length pre + length (column smat rows f) - length pre)
                     (drop (length pre) ent) = std_sort (column smat rows f)).
    { subst ent. rewrite drop_app_length.
      replace (length pre + length (column smat rows f) - length pre)%nat
        with (length (std_sort (column smat rows f)))
        by (rewrite (std_sort_length std_sort std_sort_perm); lia).
      apply take_app_length. }
    assert (Hpre : (length pre + length (column smat rows f))%nat
                   = length (pre ++ std_sort (column smat rows f)))
      by (rewrite length_app, (std_sort_length std_sort std_sort_perm); reflexivity).
    subst ent. rewrite (app_assoc pre) in *. rewrite Hpre in *.
    edestruct (IH (pre ++ std_sort (column smat rows f)) rest)
      as (sg' & entry' & locals & Hrun & Hsg & Hall).
    { intros g Hg. apply Hne. apply list_elem_of_further, Hg. }
    rewrite Hrun. eexists sg', entry', (_ :: locals).
    split; [reflexivity|]. split; [exact Hsg|].
    constructor.
    + rewrite enumerate_local_candidates.
      match goal with
      | |- context [RTSelecter.push_all ?cs RTSelecter.init] =>
          destruct (push_all_init_cases cs) as [Hz|[Hin _]]
      end.
      * left. exact Hz.
      * right. eexists f, _, _, _.
        split; [apply list_elem_of_here|]. split; [exact Hseg|exact Hin].
    + eapply Forall_impl; [exact Hall|].
      intros l [Hz|(f' & s' & e' & ent & Hc & Hs & Hin)].
      * left. exact Hz.
      * right. exists f', s', e', ent.
        split; [apply list_elem_of_further, Hc|]. split; [exact Hs|exact Hin].
Qed.

(** The slice of the entry selected for a split, within the sorted column
    of its feature. *)
Lemma enumerate_task_side tsk st r :
  let rows := task_rows (idset st) tsk in
  let e := RTSelecter.select (fst r) in
  NoDup rows ->
  Z.of_nat (length rows) < 2 ^ 31 ->
  enumerate_task std_sort param grad hess smat tsk st = Ok r ->
  flt rt_eps (RTSelecter.loss_chg e) = true ->
  exists (f a : nat),
    f ∈ active_list smat rows
    /\ RTSelecter.split_index e = Z.of_nat f
    /\ take (Z.to_nat (RTSelecter.len e)) (drop (RTSelecter.start e) (snd r))
       = take (Z.to_nat (RTSelecter.len e)) (drop a (std_sort (column smat rows f)))
    /\ ((RTSelecter.default_left e = false /\ a = 0%nat)
        \/ (RTSelecter.default_left e = true
            /\ (a + Z.to_nat (RTSelecter.len e))%nat
               = length (std_sort (column smat rows f))))
    /\ (0 < Z.to_nat (RTSelecter.len e))%nat
    /\ (a + Z.to_nat (RTSelecter.len e) <= length (std_sort (column smat rows f)))%nat
    /\ RTSelecter.split_value e
       = slice_threshold (std_sort (column smat rows f)) (RTSelecter.default_left e)
           (split_boundary (std_sort (column smat rows f)) (RTSelecter.default_left e)
              (Z.to_nat (RTSelecter.len e))).
Proof.
  intros rows e Hnd Hsz Hrun Hgain. unfold enumerate_task in Hrun.
  fold rows in Hrun.
  set (aclist := active_list smat rows) in *.
  set (cols := row_pointers smat rows aclist 0) in *.
  assert (Hrange : forall f s e',
             (f, (s, e')) ∈ cols -> f ∈ aclist /\ (s < e')%nat).
  { intros f s e'. apply row_pointers_range. apply column_active_nonempty. }
  match type of Hrun with
  | enumerate_features _ _ _ _ ?tl ?rg ?rh ?rc ?bw _ _ _ = _ =>
      destruct (enumerate_features_columns tl rg rh rc bw rows aclist [] []
                  RTSelecter.init (column_active_nonempty smat rows))
        as (sg' & entry' & locals & Hrun' & Hsg & Hall);
      pose proof (enumerate_features_layout std_sort param grad hess smat
                    std_sort_perm tl rg rh rc bw rows aclist [] [] RTSelecter.init r)
        as Hlay
  end.
  cbn [length app] in Hlay, Hrun', Hall. rewrite !app_nil_r in Hlay, Hrun'.
  fold cols in Hrun', Hall.
  specialize (Hlay Hrun).
  unfold column_buffer in Hrun. rewrite Hrun' in Hrun. injection Hrun as <-.
  cbn [fst snd] in *. subst sg'.
  destruct (push_all_init_cases locals) as [Hz|[Hin _]].
  { subst e. rewrite Hz in Hgain. discriminate Hgain. }
  fold e in Hin. rewrite Forall_forall in Hall.
  destruct (Hall e Hin) as [Hz|(f & s & e' & ent & Hc & Hent & Hcand)].
  { rewrite Hz in Hgain. discriminate Hgain. }
  destruct (row_pointers_segment std_sort smat std_sort_perm rows aclist [] [] f s e'
              Hc) as [He' Hseg].
  cbn [app] in Hseg. rewrite ?app_nil_r in Hseg, Hlay. rewrite <- Hlay in Hseg.
  pose proof (column_rindex_sublist smat lines_nodup rows f) as Hsub.
  assert (Hcl : (length (column smat rows f) <= length rows)%nat).
  { apply sublist_length in Hsub. rewrite length_map in Hsub. exact Hsub. }
  pose proof (proj1 (Hrange f s e' Hc)) as Hact.
  pose proof (active_list_below smat (2 ^ 31) rows f lines_below Hact) as Hfb.
  assert (Hszc : Z.of_nat (e' - s) < 2 ^ 31) by lia.
  assert (Hfr : 0 <= to_int (Z.of_nat f) < 2 ^ 31)
    by (rewrite to_int_small by lia; lia).
  assert (Hsl : length (std_sort (column smat rows f)) = (e' - s)%nat)
    by (rewrite (std_sort_length std_sort std_sort_perm); lia).
  pose proof (enumerate_candidates_slice _ _ _ _ _ _ _ _ _ _ _ _ Hszc Hcand)
    as (Hs1 & Hs2 & Hs3).
  pose proof (enumerate_candidates_threshold _ _ _ _ _ _ _ _ _ _ Hent Hsl Hszc Hfr Hcand)
    as [Hpos Hthr].
  apply enumerate_candidates_side in Hcand as [Hsi Hside]; [|lia|exact Hfr].
  rewrite to_int_small in Hsi by lia.
  exists f, (RTSelecter.start e - s)%nat.
  split; [exact Hact|]. split; [exact Hsi|].
  split; [rewrite (take_drop_segment entry' s e' _ _ Hs1 Hs3), Hseg; reflexivity|].
  split.
  { destruct Hside as [[Hdl Hst]|[Hdl Hend]]; [left|right]; (split; [exact Hdl|lia]). }
  split; [lia|]. split; [lia|exact Hthr].
Qed.

End SplitSides.

Lemma line_value_unique (line : Line) (f : nat) (v w : float) :
  NoDup (fst <$> line) -> (f, v) ∈ line -> (f, w) ∈ line -> v = w.
Proof.
  induction line as [|[g u] line IH]; intros Hnd Hv Hw; [inversion Hv|].
  rewrite fmap_cons in Hnd. apply NoDup_cons in Hnd as [Hg Hnd]. cbn [fst] in Hg.
  assert (Hnot : forall z, (g, z) ∉ line).
  { intros z Hz. apply Hg. apply list_elem_of_fmap. exists (g, z). auto. }
  apply elem_of_cons in Hv as [Hv|Hv]; apply elem_of_cons in Hw as [Hw|Hw].
  - congruence.
  - injection Hv as -> ->. destruct (Hnot _ Hw).
  - injection Hw as -> ->. destruct (Hnot _ Hv).
  - apply IH; assumption.
Qed.

(** What a split leaves behind: the two tasks, the node, and the place of
    the split part within the sorted column of the split feature. *)
Lemma expand_split_layout {Rng : Type} (std_sort : list SCEntry -> list SCEntry)
    (param : TreeParamTrain) (grad hess : list float) (smat : Image) (fuel : nat)
    (tsk : Task) (st st' : Updater Rng) :
  let rows := task_rows (idset st) tsk in
  let n := RTree.node (tree st') (task_nid tsk) in
  (forall l, std_sort l ≡ₚ l) ->
  Forall (fun line : Line => NoDup (fst <$> line)) smat ->
  Forall (fun line : Line => Forall (fun fv => Z.of_nat (fst fv) < 2 ^ 31) line) smat ->
  task_slice_ok (idset st) tsk ->
  Z.of_nat (length (idset st)) < 2 ^ 31 ->
  (Z.to_nat (task_nid tsk) < length (nodes (tree st)))%nat ->
  expand std_sort param grad hess smat fuel tsk st = Ok st' ->
  task_stack st' <> task_stack st ->
  exists spl_part def_part (f k : nat),
    let col := std_sort (column smat rows f) in
    let m := split_boundary col (Node.default_left n) k in
    task_stack st' = spl_part :: def_part :: task_stack st
    /\ Node.is_leaf n = false
    /\ Node.split_index n = Z.of_nat f
    /\ Node.cleft n <> Node.cright n
    /\ task_nid def_part = (if Node.default_left n then Node.cleft n else Node.cright n)
    /\ task_nid spl_part = (if Node.default_left n then Node.cright n else Node.cleft n)
    /\ f ∈ active_list smat rows
    /\ (0 < k <= length col)%nat
    /\ task_rows (idset st') spl_part
       ≡ₚ map rindex (if Node.default_left n then drop m col else take m col)
    /\ task_rows (idset st') def_part ++ task_rows (idset st') spl_part ≡ₚ rows
    /\ NoDup rows
    /\ Node.split_cond n = slice_threshold col (Node.default_left n) m.
Proof.
  intros rows n Hperm Hnd Hbelow Hok Hsz Hnid Hrun Hpush.
  apply (expand_states (Rng := Rng) std_sort param grad hess smat) in Hrun
    as [[_ Hts]|(res & bw & st1 & Hr & Hgain & Hi1 & Hts1 & Ht1 & Hst')];
    [contradiction|].
  pose proof Hok as [Hlen Hss].
  assert (Hrl : length rows = task_len tsk).
  { subst rows. unfold task_rows. rewrite length_map, length_seq. reflexivity. }
  assert (Hrnd : NoDup rows) by apply StronglySorted_lt_NoDup, Hss.
  assert (Hrsz : Z.of_nat (length (task_rows (idset st) tsk)) < 2 ^ 31)
    by (fold rows; lia).
  set (e := RTSelecter.select (fst res)) in *.
  destruct (enumerate_task_qrows std_sort param grad hess smat Hperm Hnd tsk st res
              Hrnd Hrsz Hr Hgain) as [Hqnd Hqsub].
  destruct (enumerate_task_side std_sort param grad hess smat Hperm Hnd Hbelow tsk st
              res Hrnd Hrsz Hr Hgain)
    as (f & a & Hact & Hsi & Hslice & Hside & Hpos & Hle & Hthr).
  fold rows e in Hqnd, Hqsub, Hslice, Hside, Hsi, Hact, Hpos, Hle, Hthr.
  set (col := std_sort (column smat rows f)) in *.
  set (len := Z.to_nat (RTSelecter.len e)) in *.
  rewrite take_drop_commute in Hqnd, Hqsub.
  destruct (make_split_slices tsk (drop (RTSelecter.start e) (snd res))
              (RTSelecter.len e) (RTSelecter.loss_chg e) bw st1)
    as (def_part & spl_part & Hstack & _ & _ & _ & _ & _ & _ & _ & _ & Hspl & Hparts
        & Hdefnid & Hsplnid).
  { rewrite Hi1. exact Hok. }
  { lia. }
  { fold len. rewrite take_drop_commute. exact Hqnd. }
  { rewrite Hi1. fold len. rewrite take_drop_commute. exact Hqsub. }
  rewrite <- Hst' in Hstack, Hspl, Hparts, Hdefnid, Hsplnid.
  rewrite Hts1 in Hstack. rewrite Hi1 in Hparts. fold rows len in Hparts, Hspl.
  rewrite Hslice in Hspl.
  assert (Hnode : n = Node.set_children (Z.of_nat (length (nodes (tree st))))
                        (Z.of_nat (length (nodes (tree st))) + 1)
                        (Node.set_split (RTSelecter.split_index e)
                           (RTSelecter.split_value e) (RTSelecter.default_left e)
                           (RTree.node (tree st) (task_nid tsk)))).
  { subst n. rewrite Hst', make_split_tree, Ht1. unfold RTree.node at 1.
    rewrite split_tree_nodes by exact Hnid.
    rewrite lookup_total_app_l by (rewrite length_insert; exact Hnid).
    apply list_lookup_total_insert_eq, Hnid. }
  assert (Hdl : Node.default_left n = RTSelecter.default_left e)
    by (rewrite Hnode; reflexivity).
  assert (Hcond : Node.split_cond n = RTSelecter.split_value e)
    by (rewrite Hnode; reflexivity).
  exists spl_part, def_part, f, len. cbv zeta. fold rows n col.
  split; [exact Hstack|].
  split; [rewrite Hnode; apply Z.eqb_neq; cbn; lia|].
  split; [rewrite Hnode; exact Hsi|].
  split; [rewrite Hnode; cbn; lia|].
  split; [exact Hdefnid|]. split; [exact Hsplnid|]. split; [exact Hact|].
  split; [lia|].
  split.
  { rewrite Hspl, Hdl. unfold split_boundary.
    destruct Hside as [[-> ->]|[-> Hend]].
    - rewrite drop_0. reflexivity.
    - replace (length col - len)%nat with a by lia.
      rewrite take_ge by (rewrite length_drop; lia). reflexivity. }
  split; [exact Hparts|]. split; [exact Hrnd|].
  rewrite Hcond, Hdl. exact Hthr.
Qed.

(** The rows of the split part are those of the entries of its slice. *)
Lemma slice_rows_elem (smat : Image) (rows spl : list nat) (f : nat)
    (col slice : list SCEntry) :
  col ≡ₚ column smat rows f ->
  Forall (fun line : Line => NoDup (fst <$> line)) smat ->
  NoDup rows ->
  slice ⊆ col ->
  spl ≡ₚ map rindex slice ->
  forall x, x ∈ col -> (rindex x ∈ spl <-> x ∈ slice).
Proof.
  intros Hcol Hnd Hrnd Hsub Hspl x Hx. rewrite Hspl. split.
  - intros Hin. apply list_elem_of_fmap in Hin as (y & Hxy & Hy).
    assert (Hy' : y ∈ col) by (apply Hsub, Hy).
    rewrite Hcol in Hx, Hy'.
    apply column_elem in Hx as [_ Hxv]. apply column_elem in Hy' as [_ Hyv].
    rewrite <- Hxy in Hyv.
    assert (Hv : fvalue x = fvalue y)
      by (exact (line_value_unique _ f _ _ (line_nodup smat Hnd (rindex x)) Hxv Hyv)).
    destruct x as [vx rx], y as [vy ry]. cbn [rindex fvalue] in *. subst. exact Hy.
  - intros Hin. apply list_elem_of_fmap. eauto.
Qed.

(** X14.  When expand splits the node of a task whose slice is strictly
    ascending, on columns that the sort leaves ordered by feature value,
    make_split pushes the task [def_part] and then the task [spl_part],
    which is on top of the stack, and the two divide the rows of the task by
    the value of the split feature: every row of [spl_part] has the feature,
    every row that lacks it is in [def_part], whose node is the one that
    [get_next] chooses for an unknown value, and between a row of [spl_part]
    and a row of [def_part] that has the feature the values are ordered,
    [spl_part] holding the smaller values when the default direction of the
    node is right and the larger values when it is left. *)
Theorem expand_split_by_value {Rng : Type} (std_sort : list SCEntry -> list SCEntry)
    (param : TreeParamTrain) (grad hess : list float) (smat : Image) (fuel : nat)
    (tsk : Task) (st st' : Updater Rng) :
  let rows := task_rows (idset st) tsk in
  let n := RTree.node (tree st') (task_nid tsk) in
  (forall l, std_sort l ≡ₚ l) ->
  (forall f, f ∈ active_list smat rows ->
     StronglySorted (fun a b => fle (fvalue a) (fvalue b) = true)
       (std_sort (column smat rows f))) ->
  Forall (fun line : Line => NoDup (fst <$> line)) smat ->
  Forall (fun line : Line => Forall (fun fv => Z.of_nat (fst fv) < 2 ^ 31) line) smat ->
  task_slice_ok (idset st) tsk ->
  Z.of_nat (length (idset st)) < 2 ^ 31 ->
  (Z.to_nat (task_nid tsk) < length (nodes (tree st)))%nat ->
  expand std_sort param grad hess smat fuel tsk st = Ok st' ->
  task_stack st' <> task_stack st ->
  exists spl_part def_part f,
    task_stack st' = spl_part :: def_part :: task_stack st
    /\ Node.is_leaf n = false
    /\ Node.split_index n = Z.of_nat f
    /\ (forall v,
          RTreeTrainer.get_next (tree st') (task_nid tsk) v true = task_nid def_part)
    /\ (forall r, r ∈ rows
                  <-> r ∈ task_rows (idset st') def_part
                      \/ r ∈ task_rows (idset st') spl_part)
    /\ (forall r, r ∈ task_rows (idset st') def_part ->
                  r ∉ task_rows (idset st') spl_part)
    /\ (forall r, r ∈ task_rows (idset st') spl_part -> exists v, (f, v) ∈ smat !!! r)
    /\ (forall r r' v v',
          r ∈ task_rows (idset st') spl_part ->
          r' ∈ task_rows (idset st') def_part ->
          (f, v) ∈ smat !!! r -> (f, v') ∈ smat !!! r' ->
          if Node.default_left n then fle v' v = true else fle v v' = true).
Proof.
  intros rows n Hperm Hsorted Hnd Hbelow Hok Hsz Hnid Hrun Hpush.
  destruct (expand_split_layout std_sort param grad hess smat fuel tsk st st'
              Hperm Hnd Hbelow Hok Hsz Hnid Hrun Hpush)
    as (spl_part & def_part & f & k & Hstack & Hleaf & Hsi & _ & Hdefnid & _ & Hact
        & Hk & Hspl & Hparts & Hrnd & _).
  fold rows n in Hstack, Hleaf, Hsi, Hdefnid, Hact, Hk, Hspl, Hparts, Hrnd.
  set (col := std_sort (column smat rows f)) in *.
  set (m := split_boundary col (Node.default_left n) k) in *.
  set (slice := if Node.default_left n then drop m col else take m col) in *.
  assert (Hdisj : forall r, r ∈ task_rows (idset st') def_part ->
                    r ∉ task_rows (idset st') spl_part).
  { intros r Hd Hs. rewrite <- Hparts in Hrnd.
    apply NoDup_app in Hrnd as (_ & Hno & _). exact (Hno r Hd Hs). }
  assert (Hsl : forall r, r ∈ task_rows (idset st') spl_part ->
                  exists x, x ∈ slice /\ rindex x = r).
  { intros r Hs. rewrite Hspl in Hs.
    apply list_elem_of_fmap in Hs as (x & -> & Hx). eauto. }
  assert (HinS : forall x, x ∈ slice -> x ∈ column smat rows f).
  { intros x Hx. rewrite <- (Hperm (column smat rows f)). fold col.
    subst slice. destruct (Node.default_left n).
    - exact (sublist_subseteq _ _ (sublist_drop col m) _ Hx).
    - exact (sublist_subseteq _ _ (sublist_take col m) _ Hx). }
  exists spl_part, def_part, f.
  split; [exact Hstack|]. split; [exact Hleaf|]. split; [exact Hsi|].
  split; [intros v; unfold RTreeTrainer.get_next; fold n; rewrite Hdefnid;
          reflexivity|].
  split; [intros r; rewrite <- Hparts, elem_of_app; reflexivity|].
  split; [exact Hdisj|].
  split.
  { intros r Hs. destruct (Hsl r Hs) as (x & Hx & <-).
    exists (fvalue x). apply (column_elem smat rows f x), HinS, Hx. }
  intros r r' v v' Hs Hd Hv Hv'.
  destruct (Hsl r Hs) as (x & Hx & <-).
  assert (Hvx : v = fvalue x).
  { apply (line_value_unique (smat !!! rindex x) f);
      [apply line_nodup, Hnd|exact Hv|].
    apply (column_elem smat rows f x), HinS, Hx. }
  subst v.
  set (x' := mkSCEntry v' r').
  assert (Hx'S : x' ∈ col).
  { subst col. rewrite (Hperm (column smat rows f)). apply column_elem.
    cbn [rindex fvalue x']. split; [|exact Hv'].
    rewrite <- Hparts. apply elem_of_app. left. exact Hd. }
  assert (Hx'n : x' ∉ slice).
  { intros Hin. apply (Hdisj r' Hd). rewrite Hspl.
    apply list_elem_of_fmap. exists x'. split; [reflexivity|exact Hin]. }
  specialize (Hsorted f Hact). fold col in Hsorted.
  rewrite <- (take_drop m col) in Hsorted, Hx'S.
  subst slice. destruct (Node.default_left n).
  - (* a backward candidate: the slice is the tail of the column *)
    apply elem_of_app in Hx'S as [Hx'S|Hx'S]; [|contradiction].
    exact (StronglySorted_app_1_elem_of _ _ _ _ _ Hsorted Hx'S Hx).
  - (* a forward candidate: the slice is the head of the column *)
    apply elem_of_app in Hx'S as [Hx'S|Hx'S]; [contradiction|].
    exact (StronglySorted_app_1_elem_of _ _ _ _ _ Hsorted Hx Hx'S).
Qed.

Lemma expand_split_by_value_witness :
  exists st' spl_part def_part,
    expand example_sort (example_param 0 1 0 (float_of_Z 1)) example_grad example_hess
      example_smat 5 example_root_task example_root_state = Ok st'
    /\ task_stack st' = [spl_part; def_part]
    /\ (forall r r' v v',
          r ∈ task_rows (idset st') spl_part ->
          r' ∈ task_rows (idset st') def_part ->
          (0%nat, v) ∈ example_smat !!! r -> (0%nat, v') ∈ example_smat !!! r' ->
          fle v v' = true).
Proof.
  eexists.
  match goal with
  | |- exists spl_part def_part, expand ?so ?p ?g ?h ?sm ?fu ?tsk ?st = Ok ?s /\ _ =>
      destruct (expand_split_by_value so p g h sm fu tsk st s)
        as (spl_part & def_part & f & Hstack & _ & Hf & _ & _ & _ & _ & Hord)
  end.
  - intros l. apply merge_sort_Permutation.
  - intros f Hf. vm_compute in Hf. apply list_elem_of_singleton in Hf. subst f.
    vm_compute. repeat constructor.
  - repeat constructor; intros H; inversion H.
  - repeat constructor; cbn; lia.
  - split; [cbn; lia|]. repeat constructor.
  - vm_compute. reflexivity.
  - vm_compute. lia.
  - vm_compute. reflexivity.
  - vm_compute. discriminate.
  - exists spl_part, def_part. split; [vm_compute; reflexivity|].
    split; [exact Hstack|].
    apply (f_equal Z.to_nat) in Hf. rewrite Nat2Z.id in Hf. subst f.
    exact Hord.
Defined.

(** ** The threshold and the two children *)

Lemma SFleb_ltb_trans a b c :
  SFleb a b = true -> SFltb b c = true -> SFltb a c = true.
Proof.
  unfold SFltb, SFleb, SFcompare.
  destruct a as [[]|[]| |[] ma ea], b as [[]|[]| |[] mb eb],
           c as [[]|[]| |[] mc ec];
    try (intros; congruence);
    repeat match goal with
      | |- context [Z.compare ?a ?b] => destruct (Z.compare_spec a b)
      | |- context [Pos.compare_cont Eq ?a ?b] =>
          change (Pos.compare_cont Eq a b) with (Pos.compare a b);
          destruct (Pos.compare_spec a b)
      end; simpl; intros; try congruence; lia.
Qed.

Lemma fle_flt_trans a b c : fle a b = true -> flt b c = true -> flt a c = true.
Proof. apply SFleb_ltb_trans. Qed.

Lemma StronglySorted_lookup_rel {A} (R : A -> A -> Prop) (l : list A) :
  forall i j x y,
    StronglySorted R l -> (i < j)%nat -> l !! i = Some x -> l !! j = Some y -> R x y.
Proof.
  induction l as [|a l IH]; intros i j x y Hs Hij Hi Hj; [discriminate|].
  apply StronglySorted_inv in Hs as [Hs Ha].
  destruct j as [|j]; [lia|]. cbn in Hj.
  destruct i as [|i].
  - injection Hi as <-. rewrite Forall_forall in Ha.
    apply Ha. eapply list_elem_of_lookup_2, Hj.
  - cbn in Hi. apply (IH i j); [exact Hs|lia|exact Hi|exact Hj].
Qed.

Section Boundary.

Variable col : list SCEntry.
Variable thr : float.
Hypothesis col_sorted :
  StronglySorted (fun a b => fle (fvalue a) (fvalue b) = true) col.

(** Below the boundary every value passes the comparison that its last
    value passes. *)
Lemma sorted_below_threshold (m : nat) (x : SCEntry) :
  (0 < m <= length col)%nat -> x ∈ take m col ->
  flt (fvalue (col !!! (m - 1)%nat)) thr = true -> flt (fvalue x) thr = true.
Proof.
  intros Hm Hx Hlast. apply list_elem_of_lookup in Hx as [i Hi].
  apply lookup_take_Some in Hi as [Hi Him].
  destruct (lookup_lt_is_Some_2 col (m - 1)%nat ltac:(lia)) as [y Hy].
  rewrite (list_lookup_total_correct _ _ _ Hy) in Hlast.
  destruct (decide (i = (m - 1)%nat)) as [->|Hne].
  - rewrite Hi in Hy. injection Hy as ->. exact Hlast.
  - apply (fle_flt_trans _ (fvalue y)); [|exact Hlast].
    exact (StronglySorted_lookup_rel _ col i (m - 1)%nat x y col_sorted
             ltac:(lia) Hi Hy).
Qed.

(** Above the boundary every value fails the comparison that its first
    value fails. *)
Lemma sorted_above_threshold (m : nat) (x : SCEntry) :
  x ∈ drop m col ->
  flt (fvalue (col !!! m)) thr = false -> flt (fvalue x) thr = false.
Proof.
  intros Hx Hfirst. apply list_elem_of_lookup in Hx as [i Hi].
  rewrite lookup_drop in Hi.
  assert (Hlt : (m + i < length col)%nat) by (eapply lookup_lt_Some, Hi).
  destruct (lookup_lt_is_Some_2 col m ltac:(lia)) as [y Hy].
  rewrite (list_lookup_total_correct _ _ _ Hy) in Hfirst.
  destruct (decide (i = 0%nat)) as [->|Hne].
  - rewrite Nat.add_0_r, Hy in Hi. injection Hi as ->. exact Hfirst.
  - destruct (flt (fvalue x) thr) eqn:E; [|reflexivity].
    rewrite <- Hfirst. symmetry.
    apply (fle_flt_trans _ (fvalue x)); [|exact E].
    exact (StronglySorted_lookup_rel _ col m (m + i)%nat y x col_sorted
             ltac:(lia) Hy Hi).
Qed.

End Boundary.

(** The sorted column of a feature names no row twice. *)
Lemma sorted_column_nodup (std_sort : list SCEntry -> list SCEntry) (smat : Image)
    (rows : list nat) (f : nat) :
  (forall l, std_sort l ≡ₚ l) ->
  Forall (fun line : Line => NoDup (fst <$> line)) smat ->
  NoDup rows ->
  NoDup (std_sort (column smat rows f)).
Proof.
  intros Hperm Hnd Hrnd. rewrite (Hperm (column smat rows f)).
  apply (NoDup_fmap_1 rindex).
  eapply sublist_NoDup; [exact Hrnd|exact (column_rindex_sublist smat Hnd rows f)].
Qed.

(** After a split, the entries of the sorted column below the boundary
    belong to rows of the task on the left child and the entries above it
    to rows of the task on the right child. *)
Lemma expand_split_owner {Rng : Type} (std_sort : list SCEntry -> list SCEntry)
    (param : TreeParamTrain) (grad hess : list float) (smat : Image) (fuel : nat)
    (tsk : Task) (st st' : Updater Rng) :
  let rows := task_rows (idset st) tsk in
  let n := RTree.node (tree st') (task_nid tsk) in
  (forall l, std_sort l ≡ₚ l) ->
  Forall (fun line : Line => NoDup (fst <$> line)) smat ->
  Forall (fun line : Line => Forall (fun fv => Z.of_nat (fst fv) < 2 ^ 31) line) smat ->
  task_slice_ok (idset st) tsk ->
  Z.of_nat (length (idset st)) < 2 ^ 31 ->
  (Z.to_nat (task_nid tsk) < length (nodes (tree st)))%nat ->
  expand std_sort param grad hess smat fuel tsk st = Ok st' ->
  task_stack st' <> task_stack st ->
  exists spl_part def_part (f : nat),
    let col := std_sort (column smat rows f) in
    let k := length (task_rows (idset st') spl_part) in
    let m := split_boundary col (Node.default_left n) k in
    let holder r :=
      task_nid (if decide (r ∈ task_rows (idset st') spl_part)
                then spl_part else def_part) in
    task_stack st' = spl_part :: def_part :: task_stack st
    /\ Node.split_index n = Z.of_nat f
    /\ f ∈ active_list smat rows
    /\ Node.cleft n <> Node.cright n
    /\ (0 < k <= length col)%nat
    /\ (forall x, x ∈ col <-> rindex x ∈ rows /\ (f, fvalue x) ∈ smat !!! rindex x)
    /\ (forall x, x ∈ take m col -> holder (rindex x) = Node.cleft n)
    /\ (forall x, x ∈ drop m col -> holder (rindex x) = Node.cright n)
    /\ task_rows (idset st') spl_part
       ≡ₚ map rindex (if Node.default_left n then drop m col else take m col)
    /\ Node.split_cond n = slice_threshold col (Node.default_left n) m
    /\ task_nid def_part = (if Node.default_left n then Node.cleft n else Node.cright n)
    /\ task_nid spl_part = (if Node.default_left n then Node.cright n else Node.cleft n).
Proof.
  intros rows n Hperm Hnd Hbelow Hok Hsz Hnid Hrun Hpush.
  destruct (expand_split_layout std_sort param grad hess smat fuel tsk st st'
              Hperm Hnd Hbelow Hok Hsz Hnid Hrun Hpush)
    as (spl_part & def_part & f & k & Hstack & _ & Hsi & Hlr & Hdefnid & Hsplnid
        & Hact & Hk & Hspl & Hparts & Hrnd & Hthr).
  fold rows n in Hstack, Hsi, Hlr, Hdefnid, Hsplnid, Hact, Hk, Hspl, Hparts, Hrnd, Hthr.
  set (col := std_sort (column smat rows f)) in *.
  assert (Hklen : length (task_rows (idset st') spl_part) = k).
  { rewrite Hspl, length_map. unfold split_boundary.
    destruct (Node.default_left n); [rewrite length_drop|rewrite length_take]; lia. }
  exists spl_part, def_part, f. cbv zeta. fold rows n col. rewrite Hklen.
  set (m := split_boundary col (Node.default_left n) k) in *.
  pose proof (sorted_column_nodup std_sort smat rows f Hperm Hnd Hrnd) as Hcnd.
  fold col in Hcnd.
  assert (Hexcl : forall x, x ∈ take m col -> x ∈ drop m col -> False).
  { rewrite <- (take_drop m col) in Hcnd.
    apply NoDup_app in Hcnd as (_ & Hno & _). exact Hno. }
  assert (Hsub : (if Node.default_left n then drop m col else take m col) ⊆ col).
  { destruct (Node.default_left n).
    - apply sublist_subseteq, sublist_drop.
    - apply sublist_subseteq, sublist_take. }
  pose proof (slice_rows_elem smat rows (task_rows (idset st') spl_part) f col _
                (Hperm _) Hnd Hrnd Hsub Hspl) as Hin.
  split; [exact Hstack|]. split; [exact Hsi|]. split; [exact Hact|].
  split; [exact Hlr|]. split; [exact Hk|].
  split.
  { intros x. subst col. rewrite (Hperm (column smat rows f)). apply column_elem. }
  split.
  { intros x Hx.
    assert (Hxc : x ∈ col)
      by (exact (sublist_subseteq _ _ (sublist_take col m) _ Hx)).
    specialize (Hin x Hxc). destruct (Node.default_left n).
    - rewrite decide_False; [exact Hdefnid|].
      intros Hr. apply (Hexcl x Hx). apply Hin, Hr.
    - rewrite decide_True; [exact Hsplnid|]. apply Hin, Hx. }
  split.
  { intros x Hx.
    assert (Hxc : x ∈ col)
      by (exact (sublist_subseteq _ _ (sublist_drop col m) _ Hx)).
    specialize (Hin x Hxc). destruct (Node.default_left n).
    - rewrite decide_True; [exact Hsplnid|]. apply Hin, Hx.
    - rewrite decide_False; [exact Hdefnid|].
      intros Hr. apply (Hexcl x); [apply Hin, Hr|exact Hx]. }
  split; [exact Hspl|]. split; [exact Hthr|]. split; [exact Hdefnid|exact Hsplnid].
Qed.

(** X15.  When expand splits the node of a task, [get_next] at that node
    sends every row of the task that has the split feature to the child
    whose task holds the row exactly when the threshold separates the two
    values at the boundary of the sorted column: the comparison
    [fvalue < split_cond] holds for the last value on the low side and fails
    for the first value on the high side.  The columns are assumed to be
    left in ascending order of the values by the sort. *)
Theorem expand_routing_agrees {Rng : Type} (std_sort : list SCEntry -> list SCEntry)
    (param : TreeParamTrain) (grad hess : list float) (smat : Image) (fuel : nat)
    (tsk : Task) (st st' : Updater Rng) :
  let rows := task_rows (idset st) tsk in
  let n := RTree.node (tree st') (task_nid tsk) in
  (forall l, std_sort l ≡ₚ l) ->
  (forall f, f ∈ active_list smat rows ->
     StronglySorted (fun a b => fle (fvalue a) (fvalue b) = true)
       (std_sort (column smat rows f))) ->
  Forall (fun line : Line => NoDup (fst <$> line)) smat ->
  Forall (fun line : Line => Forall (fun fv => Z.of_nat (fst fv) < 2 ^ 31) line) smat ->
  task_slice_ok (idset st) tsk ->
  Z.of_nat (length (idset st)) < 2 ^ 31 ->
  (Z.to_nat (task_nid tsk) < length (nodes (tree st)))%nat ->
  expand std_sort param grad hess smat fuel tsk st = Ok st' ->
  task_stack st' <> task_stack st ->
  exists spl_part def_part f,
    task_stack st' = spl_part :: def_part :: task_stack st
    /\ Node.split_index n = Z.of_nat f
    /\ ((forall r v,
           r ∈ rows -> (f, v) ∈ smat !!! r ->
           RTreeTrainer.get_next (tree st') (task_nid tsk) v false
           = task_nid (if decide (r ∈ task_rows (idset st') spl_part)
                       then spl_part else def_part))
        <-> threshold_separates (std_sort (column smat rows f))
              (split_boundary (std_sort (column smat rows f)) (Node.default_left n)
                 (length (task_rows (idset st') spl_part)))
              (Node.split_cond n)).
Proof.
  intros rows n Hperm Hsorted Hnd Hbelow Hok Hsz Hnid Hrun Hpush.
  destruct (expand_split_owner std_sort param grad hess smat fuel tsk st st'
              Hperm Hnd Hbelow Hok Hsz Hnid Hrun Hpush)
    as (spl_part & def_part & f & Hstack & Hsi & Hact & Hlr & Hk & Hcol & Hlow
        & Hhigh & _).
  fold rows n in Hstack, Hsi, Hact, Hlr, Hk, Hcol, Hlow, Hhigh.
  exists spl_part, def_part, f.
  split; [exact Hstack|]. split; [exact Hsi|].
  specialize (Hsorted f Hact).
  set (col := std_sort (column smat rows f)) in *.
  set (m := split_boundary col (Node.default_left n)
              (length (task_rows (idset st') spl_part))) in *.
  assert (Hm : (m <= length col)%nat).
  { subst m. unfold split_boundary. destruct (Node.default_left n); lia. }
  assert (Hnext : forall v,
             RTreeTrainer.get_next (tree st') (task_nid tsk) v false
             = if flt v (Node.split_cond n) then Node.cleft n else Node.cright n)
    by reflexivity.
  split.
  - intros Hagree. split.
    + intros Hpos.
      destruct (lookup_lt_is_Some_2 col (m - 1)%nat ltac:(lia)) as [x Hx].
      rewrite (list_lookup_total_correct _ _ _ Hx).
      assert (Hxt : x ∈ take m col).
      { apply list_elem_of_lookup. exists (m - 1)%nat.
        apply lookup_take_Some. split; [exact Hx|lia]. }
      destruct (proj1 (Hcol x) (list_elem_of_lookup_2 _ _ _ Hx)) as [Hr Hv].
      specialize (Hagree _ _ Hr Hv). rewrite Hnext, (Hlow x Hxt) in Hagree.
      destruct (flt (fvalue x) (Node.split_cond n)); [reflexivity|].
      destruct Hlr. symmetry. exact Hagree.
    + intros Hlt.
      destruct (lookup_lt_is_Some_2 col m Hlt) as [x Hx].
      rewrite (list_lookup_total_correct _ _ _ Hx).
      assert (Hxd : x ∈ drop m col).
      { apply list_elem_of_lookup. exists 0%nat.
        rewrite lookup_drop, Nat.add_0_r. exact Hx. }
      destruct (proj1 (Hcol x) (list_elem_of_lookup_2 _ _ _ Hx)) as [Hr Hv].
      specialize (Hagree _ _ Hr Hv). rewrite Hnext, (Hhigh x Hxd) in Hagree.
      destruct (flt (fvalue x) (Node.split_cond n)); [|reflexivity].
      destruct Hlr. exact Hagree.
  - intros [Hs1 Hs2] r v Hr Hv.
    set (x := mkSCEntry v r).
    assert (Hx : x ∈ col) by (apply Hcol; split; assumption).
    rewrite <- (take_drop m col) in Hx. rewrite Hnext.
    apply elem_of_app in Hx as [Hx|Hx].
    + assert (Hpos : (0 < m)%nat).
      { destruct m; [rewrite take_0 in Hx; inversion Hx|lia]. }
      rewrite (sorted_below_threshold col _ Hsorted m x (conj Hpos Hm) Hx (Hs1 Hpos)
               : flt v _ = true).
      symmetry. exact (Hlow x Hx).
    + assert (Hlt : (m < length col)%nat).
      { destruct (decide (m < length col)%nat) as [H|H]; [exact H|].
        rewrite drop_ge in Hx by lia. inversion Hx. }
      rewrite (sorted_above_threshold col _ Hsorted m x Hx (Hs2 Hlt)
               : flt v _ = false).
      symmetry. exact (Hhigh x Hx).
Qed.

Lemma expand_routing_agrees_witness :
  exists st' spl_part def_part,
    expand example_sort (example_param 0 1 0 (float_of_Z 1)) example_grad example_hess
      example_smat 5 example_root_task example_root_state = Ok st'
    /\ task_stack st' = [spl_part; def_part]
    /\ (forall r v,
          r ∈ task_rows (idset example_root_state) example_root_task ->
          (0%nat, v) ∈ example_smat !!! r ->
          RTreeTrainer.get_next (tree st') 0 v false
          = task_nid (if decide (r ∈ task_rows (idset st') spl_part)
                      then spl_part else def_part)).
Proof.
  eexists.
  match goal with
  | |- exists spl_part def_part, expand ?so ?p ?g ?h ?sm ?fu ?tsk ?st = Ok ?s /\ _ =>
      destruct (expand_routing_agrees so p g h sm fu tsk st s)
        as (spl_part & def_part & f & Hstack & Hf & Hiff)
  end.
  - intros l. apply merge_sort_Permutation.
  - intros f Hf. vm_compute in Hf. apply list_elem_of_singleton in Hf. subst f.
    vm_compute. repeat constructor.
  - repeat constructor; intros H; inversion H.
  - repeat constructor; cbn; lia.
  - split; [cbn; lia|]. repeat constructor.
  - vm_compute. reflexivity.
  - vm_compute. lia.
  - vm_compute. reflexivity.
  - vm_compute. discriminate.
  - exists spl_part, def_part. split; [vm_compute; reflexivity|].
    split; [exact Hstack|].
    apply (f_equal Z.to_nat) in Hf. rewrite Nat2Z.id in Hf. subst f.
    apply Hiff. vm_compute in Hstack. injection Hstack as <- <-.
    split; intros _; vm_compute; reflexivity.
Defined.

(** X16.  When expand splits the node of a task, make_split pushes the task
    [def_part] and then the task [spl_part], which is on top of the stack.
    The rows of [spl_part] are those of the first [k] entries of the sorted
    column of the split feature when the default direction is right, and of
    its last [k] entries when it is left, with [1 <= k]; the threshold
    stored in the node is computed from the two values at that boundary:
    half their sum, or the last value plus [rt_eps] when the default is
    right and [spl_part] holds the whole column, or the first value minus
    [rt_eps] when the default is left and [spl_part] holds the whole
    column. *)
Theorem expand_split_threshold {Rng : Type} (std_sort : list SCEntry -> list SCEntry)
    (param : TreeParamTrain) (grad hess : list float) (smat : Image) (fuel : nat)
    (tsk : Task) (st st' : Updater Rng) :
  let rows := task_rows (idset st) tsk in
  let n := RTree.node (tree st') (task_nid tsk) in
  (forall l, std_sort l ≡ₚ l) ->
  Forall (fun line : Line => NoDup (fst <$> line)) smat ->
  Forall (fun line : Line => Forall (fun fv => Z.of_nat (fst fv) < 2 ^ 31) line) smat ->
  task_slice_ok (idset st) tsk ->
  Z.of_nat (length (idset st)) < 2 ^ 31 ->
  (Z.to_nat (task_nid tsk) < length (nodes (tree st)))%nat ->
  expand std_sort param grad hess smat fuel tsk st = Ok st' ->
  task_stack st' <> task_stack st ->
  exists spl_part def_part (f : nat),
    let col := std_sort (column smat rows f) in
    let k := length (task_rows (idset st') spl_part) in
    let m := split_boundary col (Node.default_left n) k in
    task_stack st' = spl_part :: def_part :: task_stack st
    /\ Node.split_index n = Z.of_nat f
    /\ (0 < k <= length col)%nat
    /\ task_rows (idset st') spl_part
       ≡ₚ map rindex (if Node.default_left n then drop m col else take m col)
    /\ Node.split_cond n = slice_threshold col (Node.default_left n) m.
Proof.
  intros rows n Hperm Hnd Hbelow Hok Hsz Hnid Hrun Hpush.
  destruct (expand_split_owner std_sort param grad hess smat fuel tsk st st'
              Hperm Hnd Hbelow Hok Hsz Hnid Hrun Hpush)
    as (spl_part & def_part & f & Hstack & Hsi & _ & _ & Hk & _ & _ & _ & Hspl
        & Hthr & _).
  exists spl_part, def_part, f. cbv zeta.
  split; [exact Hstack|]. split; [exact Hsi|]. split; [exact Hk|].
  split; [exact Hspl|exact Hthr].
Qed.

Lemma expand_split_threshold_witness :
  exists st' spl_part def_part,
    expand example_sort (example_param 0 1 0 (float_of_Z 1)) example_grad example_hess
      example_smat 5 example_root_task example_root_state = Ok st'
    /\ task_stack st' = [spl_part; def_part]
    /\ task_rows (idset st') spl_part ≡ₚ [0; 1]%nat
    /\ Node.split_cond (RTree.node (tree st') 0) = fdiv (float_of_Z 3) (float_of_Z 2).
Proof.
  eexists.
  match goal with
  | |- exists spl_part def_part, expand ?so ?p ?g ?h ?sm ?fu ?tsk ?st = Ok ?s /\ _ =>
      destruct (expand_split_threshold so p g h sm fu tsk st s)
        as (spl_part & def_part & f & Hstack & Hf & _ & Hspl & Hthr)
  end.
  - intros l. apply merge_sort_Permutation.
  - repeat constructor; intros H; inversion H.
  - repeat constructor; cbn; lia.
  - split; [cbn; lia|]. repeat constructor.
  - vm_compute. reflexivity.
  - vm_compute. lia.
  - vm_compute. reflexivity.
  - vm_compute. discriminate.
  - exists spl_part, def_part. split; [vm_compute; reflexivity|].
    split; [exact Hstack|].
    apply (f_equal Z.to_nat) in Hf. rewrite Nat2Z.id in Hf. subst f.
    split.
    + rewrite Hspl. vm_compute in Hstack. injection Hstack as <- <-.
      vm_compute. reflexivity.
    + etransitivity; [exact Hthr|]. vm_compute in Hstack. injection Hstack as <- <-.
      vm_compute. reflexivity.
Defined.

(** X17.  A threshold that [rt_eps] does not move.  make_split pushes the
    task [def_part] and then the task [spl_part], which is on top of the
    stack.  When expand splits with default direction right and [spl_part],
    the task of the left child, holds the whole column of the split feature,
    the threshold is the last value [v] of the sorted column plus [rt_eps];
    if that sum rounds back to [v], as it does for 256, the node stores [v]
    itself, and [get_next] sends the value [v] to the right child, the node
    of [def_part], although the row that has this value is held by
    [spl_part], on the left child. *)
Theorem expand_absorbed_threshold {Rng : Type}
    (std_sort : list SCEntry -> list SCEntry)
    (param : TreeParamTrain) (grad hess : list float) (smat : Image) (fuel : nat)
    (tsk : Task) (st st' : Updater Rng) :
  let rows := task_rows (idset st) tsk in
  let n := RTree.node (tree st') (task_nid tsk) in
  (forall l, std_sort l ≡ₚ l) ->
  Forall (fun line : Line => NoDup (fst <$> line)) smat ->
  Forall (fun line : Line => Forall (fun fv => Z.of_nat (fst fv) < 2 ^ 31) line) smat ->
  task_slice_ok (idset st) tsk ->
  Z.of_nat (length (idset st)) < 2 ^ 31 ->
  (Z.to_nat (task_nid tsk) < length (nodes (tree st)))%nat ->
  expand std_sort param grad hess smat fuel tsk st = Ok st' ->
  task_stack st' <> task_stack st ->
  exists spl_part def_part (f : nat),
    let col := std_sort (column smat rows f) in
    task_stack st' = spl_part :: def_part :: task_stack st
    /\ Node.split_index n = Z.of_nat f
    /\ (forall x,
          Node.default_left n = false ->
          length (task_rows (idset st') spl_part) = length col ->
          col !! (length col - 1)%nat = Some x ->
          to_float (to_double (fadd (fvalue x) rt_eps)) = fvalue x ->
          Node.split_cond n = fvalue x
          /\ rindex x ∈ task_rows (idset st') spl_part
          /\ (f, fvalue x) ∈ smat !!! rindex x
          /\ RTreeTrainer.get_next (tree st') (task_nid tsk) (fvalue x) false
             = task_nid def_part
          /\ task_nid def_part <> task_nid spl_part).
Proof.
  intros rows n Hperm Hnd Hbelow Hok Hsz Hnid Hrun Hpush.
  destruct (expand_split_owner std_sort param grad hess smat fuel tsk st st'
              Hperm Hnd Hbelow Hok Hsz Hnid Hrun Hpush)
    as (spl_part & def_part & f & Hstack & Hsi & _ & Hlr & Hk & Hcol & _ & _ & Hspl
        & Hthr & Hdefnid & Hsplnid).
  fold rows n in Hstack, Hsi, Hlr, Hk, Hcol, Hspl, Hthr, Hdefnid, Hsplnid.
  exists spl_part, def_part, f. cbv zeta.
  split; [exact Hstack|]. split; [exact Hsi|].
  set (col := std_sort (column smat rows f)) in *.
  intros x Hdl Hwhole Hx Habs.
  rewrite Hdl in Hthr, Hspl, Hdefnid, Hsplnid. rewrite Hwhole in Hthr, Hspl, Hk.
  unfold split_boundary in Hthr, Hspl.
  unfold slice_threshold in Hthr. rewrite Nat.eqb_refl in Hthr.
  rewrite (list_lookup_total_correct _ _ _ Hx), Habs in Hthr.
  rewrite firstn_all in Hspl.
  split; [exact Hthr|].
  split.
  { rewrite Hspl. apply list_elem_of_fmap. exists x.
    split; [reflexivity|exact (list_elem_of_lookup_2 _ _ _ Hx)]. }
  split; [apply Hcol, (list_elem_of_lookup_2 _ _ _ Hx)|].
  split.
  { unfold RTreeTrainer.get_next. fold n. rewrite Hthr, flt_irrefl, Hdefnid.
    reflexivity. }
  rewrite Hdefnid, Hsplnid. intros E. apply Hlr. symmetry. exact E.
Qed.

Lemma expand_absorbed_threshold_witness :
  exists st' spl_part def_part,
    expand example_sort (example_param 0 1 0 (float_of_Z 1)) example_grad example_hess
      wide_smat 5 example_root_task example_root_state = Ok st'
    /\ task_stack st' = [spl_part; def_part]
    /\ Node.split_cond (RTree.node (tree st') 0) = float_of_Z 256
    /\ 1%nat ∈ task_rows (idset st') spl_part
    /\ (0%nat, float_of_Z 256) ∈ wide_smat !!! 1%nat
    /\ RTreeTrainer.get_next (tree st') 0 (float_of_Z 256) false = task_nid def_part
    /\ task_nid def_part <> task_nid spl_part.
Proof.
  eexists.
  match goal with
  | |- exists spl_part def_part, expand ?so ?p ?g ?h ?sm ?fu ?tsk ?st = Ok ?s /\ _ =>
      destruct (expand_absorbed_threshold so p g h sm fu tsk st s)
        as (spl_part & def_part & f & Hstack & Hf & Habs)
  end.
  - intros l. apply merge_sort_Permutation.
  - repeat constructor; intros H; inversion H.
  - repeat constructor; cbn; lia.
  - split; [cbn; lia|]. repeat constructor.
  - vm_compute. reflexivity.
  - vm_compute. lia.
  - vm_compute. reflexivity.
  - vm_compute. discriminate.
  - exists spl_part, def_part. split; [vm_compute; reflexivity|].
    split; [exact Hstack|].
    apply (f_equal Z.to_nat) in Hf. rewrite Nat2Z.id in Hf. subst f.
    vm_compute in Hstack. injection Hstack as <- <-.
    apply (Habs (mkSCEntry (float_of_Z 256) 1)); vm_compute; reflexivity.
Defined.

(** ** The depth that DoBoost stores *)

Section RecordedDepth.

Context {Rng : Type}.
Variable SampleBinary : float -> Rng -> Z * Rng.
Variable std_sort : list SCEntry -> list SCEntry.
Variable param : TreeParamTrain.
Variables grad hess : list float.
Variable smat : Image.
Variable group_id : list Z.
Implicit Types (st : Updater Rng) (tsk : Task) (t : RTree).

(** expand records the depth of the node of its task, and the nodes it adds
    are nodes of the tasks it stacks. *)
Lemma expand_depths_recorded fuel tsk st st' :
  well_rooted (tree st) ->
  length (stats (tree st)) = length (nodes (tree st)) ->
  0 <= task_nid tsk < Z.of_nat (length (nodes (tree st))) ->
  (forall i, (i < length (nodes (tree st)))%nat ->
     Z.of_nat i ∈ (task_nid <$> tsk :: task_stack st)
     \/ exists d, depth_is (tree st) i d /\ Z.of_nat d <= max_depth st) ->
  (exists i d,
     (i < length (nodes (tree st)))%nat
     /\ depth_is (tree st) i d /\ Z.of_nat d = max_depth st) ->
  expand std_sort param grad hess smat fuel tsk st = Ok st' ->
  depths_recorded st'.
Proof.
  intros Hwr Hlen Hnid Hall (i0 & d0 & Hi0 & Hd0 & Hm0) Hrun.
  apply expand_cases in Hrun as (depth & Hdepth & Hmax & _ & Hcase).
  apply GetDepth_Ok in Hdepth as (d & -> & _ & Hd).
  assert (Hrec : forall (keep : forall i di, (i < length (nodes (tree st)))%nat ->
                          depth_is (tree st) i di -> depth_is (tree st') i di),
             (length (nodes (tree st)) <= length (nodes (tree st')))%nat ->
             (forall i, (i < length (nodes (tree st')))%nat ->
                (i < length (nodes (tree st)))%nat
                \/ Z.of_nat i ∈ (task_nid <$> task_stack st')) ->
             (forall tk, tk ∈ task_stack st -> tk ∈ task_stack st') ->
             depths_recorded st').
  { intros Hkeep Hgrow Hnew Hstack. split.
    - intros i Hi. destruct (Hnew i Hi) as [Hold|Hin]; [|left; exact Hin].
      destruct (Hall i Hold) as [Hin|(di & Hdi & Hle)].
      + rewrite fmap_cons in Hin. apply elem_of_cons in Hin as [Heq|Hin].
        * right. exists d. split; [|lia]. apply Hkeep; [exact Hold|].
          replace i with (Z.to_nat (task_nid tsk)) by lia. exact Hd.
        * left. apply list_elem_of_fmap in Hin as (tk & -> & Htk).
          apply list_elem_of_fmap. exists tk. split; [reflexivity|apply Hstack, Htk].
      + right. exists di. split; [apply Hkeep; assumption|lia].
    - destruct (Z.max_spec (max_depth st) (Z.of_nat d)) as [[Hlt Hm]|[Hge Hm]].
      + exists (Z.to_nat (task_nid tsk)), d.
        split; [lia|]. split; [apply Hkeep; [lia|exact Hd]|lia].
      + exists i0, d0. split; [lia|]. split; [apply Hkeep; assumption|lia]. }
  destruct Hcase as [(Hl & Hts & _)|(_ & e & bw & def_part & spl_part & Ht' & Hts
                                     & Hdn & Hsn & _)].
  - apply Hrec.
    + intros i di _ Hdi. apply (depth_is_ext (tree st)); [|exact Hdi].
      apply leafed_parent, Hl.
    + rewrite (proj1 Hl). lia.
    + intros i Hi. left. rewrite <- (proj1 Hl). exact Hi.
    + intros tk Htk. rewrite Hts. exact Htk.
  - destruct (split_tree_depths param (tree st) (task_nid tsk) (RTSelecter.split_index e)
                (RTSelecter.split_value e) (RTSelecter.default_left e)
                (mkStat (RTSelecter.loss_chg e) bw 0) d Hnid Hwr Hd)
      as (Hkeep & _ & _).
    destruct (split_tree_inv (tree st) (task_nid tsk) (RTSelecter.split_index e)
                (RTSelecter.split_value e) (RTSelecter.default_left e)
                (mkStat (RTSelecter.loss_chg e) bw 0) Hnid Hwr Hlen)
      as (_ & _ & Hln & _ & _ & Hnode & _).
    rewrite <- Ht' in Hkeep, Hln, Hnode.
    rewrite Hnode in Hdn, Hsn.
    cbn [Node.default_left Node.cleft Node.cright Node.set_children Node.set_split
         node_cleft node_cright] in Hdn, Hsn.
    apply Hrec.
    + exact Hkeep.
    + lia.
    + intros i Hi. rewrite Hln in Hi.
      destruct (decide (i < length (nodes (tree st)))%nat) as [Hold|Hnew];
        [left; exact Hold|right].
      rewrite Hts, !fmap_cons.
      match type of Hdn with
      | context [if ?b then _ else _] => destruct b
      end; rewrite Hdn, Hsn;
        (destruct (decide (i = length (nodes (tree st)))) as [->|Hne];
         [|replace (Z.of_nat i) with (Z.of_nat (length (nodes (tree st))) + 1) by lia]);
        repeat first [apply list_elem_of_here|apply list_elem_of_further].
    + intros tk Htk. rewrite Hts. do 2 apply list_elem_of_further. exact Htk.
Qed.

Lemma run_tasks_depths_recorded fuel : forall st st',
  grower_inv (Z.max 0 (param_max_depth param)) st ->
  depths_recorded st ->
  run_tasks std_sort param grad hess smat fuel st = Ok st' ->
  depths_recorded st' /\ task_stack st' = [].
Proof.
  induction fuel as [|fuel IH]; intros st st' Hinv Hrec; [discriminate|].
  cbn [run_tasks]. unfold next_task.
  destruct (task_stack st) as [|tsk rest] eqn:Hstack.
  { intros [= <-]. split; [exact Hrec|exact Hstack]. }
  set (st0 := mkUpdater (tree st) (max_depth st) (num_pruned st) rest (idset st)
                (rng st)).
  destruct (expand std_sort param grad hess smat (S fuel) tsk st0) as [st1| |] eqn:Hexp;
    try discriminate.
  change (Ok st1 ≫= ?k) with (k st1). cbv beta. intros Hrun.
  destruct Hinv as (Hwr & Hlen & Hdb & Htasks & Hmd).
  unfold tasks_in_range in Htasks. rewrite Hstack in Htasks.
  apply Forall_cons in Htasks as [Htsk Hrest].
  assert (Hinv0 : grower_inv (Z.max 0 (param_max_depth param)) st0)
    by (repeat split; assumption).
  pose proof (expand_inv std_sort param grad hess smat (S fuel) tsk st0 st1) as Hx.
  cbv zeta in Hx. destruct (Hx Hinv0 Htsk Hexp) as (Hinv1 & _).
  destruct Hrec as [Hall Hmax]. rewrite Hstack in Hall.
  apply (IH st1 st' Hinv1); [|exact Hrun].
  exact (expand_depths_recorded (S fuel) tsk st0 st1 Hwr Hlen Htsk Hall Hmax Hexp).
Qed.

Lemma do_boost_depths_recorded fuel (nr nf : Z) st st' :
  tree st = RTree.InitModel nr nf ->
  1 <= nr ->
  task_stack st = [] ->
  do_boost SampleBinary std_sort param grad hess smat group_id fuel st = Ok st' ->
  depths_recorded st' /\ task_stack st' = [].
Proof.
  intros Ht Hnr Hts. unfold do_boost.
  destruct (init_tasks SampleBinary param hess group_id (length grad) st)
    as [st1| |] eqn:Hinit; try discriminate.
  change (Ok st1 ≫= ?k) with (k st1). cbv beta. intros Hrun.
  assert (Hlen : length (nodes (tree st)) = Z.to_nat nr)
    by (rewrite Ht; cbn; apply length_replicate).
  destruct (init_tasks_inv SampleBinary param hess group_id (length grad) st st1)
    as [Ht1 Htasks1]; [unfold tasks_in_range; rewrite Hts; constructor|lia| |exact Hinit|].
  { rewrite Ht at 1. cbn [RTree.InitModel num_roots]. lia. }
  assert (Hroot : forall i, (i < Z.to_nat nr)%nat -> depth_is (tree st1) i 0).
  { intros i Hi. rewrite Ht1, Ht. split; [|intros k Hk; lia].
    cbn [ancestor RTree.InitModel nodes].
    rewrite lookup_total_replicate_2 by exact Hi. reflexivity. }
  apply run_tasks_depths_recorded in Hrun; [exact Hrun| |].
  - unfold grower_inv, tasks_in_range in *.
    cbn [tree max_depth task_stack with_num_pruned with_max_depth].
    rewrite Ht1, Ht in Htasks1. rewrite Ht1, Ht.
    split; [apply well_rooted_InitModel|].
    split; [cbn; rewrite !length_replicate; reflexivity|].
    split; [apply depth_bounded_InitModel; lia|].
    split; [exact Htasks1|lia].
  - split; cbn [tree max_depth task_stack with_num_pruned with_max_depth].
    + intros i Hi. right. exists 0%nat. rewrite Ht1, Hlen in Hi.
      split; [apply Hroot, Hi|lia].
    + exists 0%nat, 0%nat.
      split; [rewrite Ht1, Hlen; lia|]. split; [apply Hroot; lia|lia].
Qed.

End RecordedDepth.

(** X18.  DoBoost fails its assertion unless there are fewer than UINT_MAX
    gradients.  On a freshly initialised tree with at least one root, the
    value that it stores in [tree.param.max_depth] is exactly the largest
    depth of a node of the node array, the nodes below a collapsed split
    included: every node has a depth that is at most that value, some node
    lies at that depth, and the value is between 0 and [param.max_depth]
    (or 0 when that is negative).  The buffers of prediction are left as
    they were. *)
Theorem DoBoost_stores_depth {Rng : Type} (SampleBinary : float -> Rng -> Z * Rng)
    (std_sort : list SCEntry -> list SCEntry) (param : TreeParamTrain)
    (grad hess : list float) (smat : Image) (group_id : list Z) (fuel : nat)
    (nr nf : Z) (r r' : Rng) (feat : list float) (unk : list bool)
    (tr' : RTreeTrainer) (md : Z) :
  1 <= nr ->
  DoBoost SampleBinary std_sort param grad hess smat group_id fuel r
    (mkTrainer (RTree.InitModel nr nf) feat unk) = Ok (tr', md, r') ->
  Z.of_nat (length grad) < UINT_MAX
  /\ 0 <= md <= Z.max 0 (param_max_depth param)
  /\ (forall i, (i < length (nodes (trainer_tree tr')))%nat ->
        exists d, depth_is (trainer_tree tr') i d /\ Z.of_nat d <= md)
  /\ (exists i, (i < length (nodes (trainer_tree tr')))%nat
                /\ depth_is (trainer_tree tr') i (Z.to_nat md))
  /\ tmp_feat tr' = feat
  /\ tmp_funknown tr' = unk.
Proof.
  intros Hnr. unfold DoBoost, Assert.
  destruct (Z.of_nat (length grad) <? UINT_MAX) eqn:Hsize; [|discriminate].
  apply Z.ltb_lt in Hsize.
  change (Ok tt ≫= ?k) with (k tt). cbv beta.
  cbn [trainer_tree tmp_feat tmp_funknown].
  set (st := mkUpdater (RTree.InitModel nr nf) 0 0 [] [] r).
  destruct (do_boost SampleBinary std_sort param grad hess smat group_id fuel st)
    as [st'| |] eqn:Hrun; try discriminate.
  change (Ok st' ≫= ?k) with (k st'). cbv beta. intros [= <- <- <-].
  cbn [trainer_tree tmp_feat tmp_funknown].
  destruct (do_boost_depths_recorded SampleBinary std_sort param grad hess smat
              group_id fuel nr nf st st' eq_refl Hnr eq_refl Hrun)
    as [[Hall (i0 & d0 & Hi0 & Hd0 & Hm0)] Hts].
  pose proof (do_boost_inv SampleBinary std_sort param grad hess smat group_id fuel
                st st') as Hinv.
  cbv zeta in Hinv.
  destruct Hinv as ((_ & _ & _ & _ & Hmd) & _).
  { apply well_rooted_InitModel. }
  { cbn. rewrite !length_replicate. reflexivity. }
  { apply depth_bounded_InitModel. lia. }
  { constructor. }
  { cbn. rewrite length_replicate. lia. }
  { cbn. rewrite length_replicate. lia. }
  { exact Hrun. }
  split; [exact Hsize|]. split; [lia|].
  split.
  { intros i Hi. destruct (Hall i Hi) as [Hin|Hd]; [|exact Hd].
    rewrite Hts in Hin. inversion Hin. }
  split; [|split; reflexivity].
  exists i0. split; [exact Hi0|]. rewrite <- Hm0, Nat2Z.id. exact Hd0.
Qed.

Lemma DoBoost_stores_depth_witness :
  exists tr',
    DoBoost always_sampled example_sort (example_param 0 1 0 (float_of_Z 1))
      example_grad example_hess example_smat [] 5 tt
      (mkTrainer (RTree.InitModel 1 1) [] []) = Ok (tr', 1, tt)
    /\ length (nodes (trainer_tree tr')) = 3%nat
    /\ (forall i, (i < length (nodes (trainer_tree tr')))%nat ->
          exists d, depth_is (trainer_tree tr') i d /\ Z.of_nat d <= 1)
    /\ exists i, (i < length (nodes (trainer_tree tr')))%nat
                 /\ depth_is (trainer_tree tr') i 1.
Proof.
  eexists. split; [vm_compute; reflexivity|].
  split; [reflexivity|].
  match goal with
  | |- (forall i, (i < length (nodes (trainer_tree ?t)))%nat -> _) /\ _ =>
      pose proof (DoBoost_stores_depth always_sampled example_sort
                    (example_param 0 1 0 (float_of_Z 1)) example_grad example_hess
                    example_smat [] 5 1 1 tt tt [] [] t 1 ltac:(lia)
                    ltac:(vm_compute; reflexivity)) as (_ & _ & Hall & Hsome & _)
  end.
  split; [exact Hall|exact Hsome].
Defined.
